(** * RoadSim Traffic Builder: road grid, path cache, path search and
      car-following rule, embedded from [src/main.ts].

    Conventions of the embedding.
    - Grid coordinates, counters and identifiers are JavaScript numbers that
      only ever hold integers; they are [Z].
    - World coordinates, speeds and timers are JavaScript numbers holding
      fractions; they are exact rationals [Q] (no rounding, no NaN).
    - A JavaScript [Map] iterates in insertion order, so it is an association
      list; [Map.set] on a present key keeps the entry where it is.
    - Objects of the rendering collaborator (Phaser) are opaque handles. *)

From Stdlib Require Import ZArith List String Ascii Lia Bool QArith Qround Qminmax Qabs.
From Stdlib Require Import Sorted.
From Stdlib Require DecimalString DecimalZ.
Import ListNotations.

Local Open Scope Z_scope.

(* ================================================================= *)
(** ** Numbers printed inside template strings *)

(** [`${n}`] for an integer [n]: decimal digits with a leading minus sign. *)
Definition numberToString (n : Z) : string :=
  DecimalString.NilEmpty.string_of_int (Z.to_int n).

(** Characters that a printed integer can contain. *)
Definition numeric_char (c : ascii) : bool :=
  match DecimalString.NilEmpty.uint_of_string (String c EmptyString) with
  | Some _ => true
  | None => Ascii.eqb c "-"%char
  end.

Fixpoint string_forall (f : ascii -> bool) (s : string) : bool :=
  match s with
  | EmptyString => true
  | String c r => f c && string_forall f r
  end.

(* ================================================================= *)
(** ** JavaScript [Map] with string keys *)

Module JsMap.
Section WithValue.
Context {V : Type}.

Definition t := list (string * V).

Definition empty : t := [].

Fixpoint get (k : string) (m : t) : option V :=
match m with
| [] => None
| (k', v) :: r => if String.eqb k k' then Some v else get k r
end.

Definition has (k : string) (m : t) : bool :=
match get k m with Some _ => true | None => false end.

(** [Map.prototype.set]: overwrite in place, or append a new entry. *)
Fixpoint set (k : string) (v : V) (m : t) : t :=
match m with
| [] => [(k, v)]
| (k', v') :: r =>
    if String.eqb k k' then (k', v) :: r else (k', v') :: set k v r
end.

(** [Map.prototype.delete], without its boolean result (that is [has]). *)
Definition delete (k : string) (m : t) : t :=
filter (fun e => negb (String.eqb k (fst e))) m.

Definition size (m : t) : Z := Z.of_nat (List.length m).
Definition keys (m : t) : list string := map fst m.
Definition values (m : t) : list V := map snd m.
End WithValue.
Arguments t : clear implicits.
End JsMap.

(* ================================================================= *)
(** ** Grid points and path cache *)

Module GridPoint.
Record t : Type := mk { x : Z; y : Z }.

Definition eqb (a b : t) : bool := (x a =? x b) && (y a =? y b).

(** The object spread [{ ...cell }]. *)
Definition copy (c : t) : t := {| x := x c; y := y c |}.
End GridPoint.
Abbreviation GridPoint := GridPoint.t.

Module PathCache.
Record t : Type := mk {
  store : JsMap.t (list GridPoint);
  limit : Z
}.

(** [new PathCache(limit)] *)
Definition new (lim : Z) : t := {| store := JsMap.empty; limit := lim |}.

Definition get (key : string) (c : t) : option (list GridPoint) :=
  match JsMap.get key (store c) with
  | Some cached => Some (map GridPoint.copy cached)
  | None => None
  end.

Definition set (key : string) (path : list GridPoint) (c : t) : t :=
  let snapshot := map GridPoint.copy path in
  let s1 := if JsMap.has key (store c) then JsMap.delete key (store c)
            else store c in
  let s2 := JsMap.set key snapshot s1 in
  let s3 :=
    if JsMap.size s2 >? limit c then
      match JsMap.keys s2 with
      | oldest :: _ => JsMap.delete oldest s2
      | [] => s2
      end
    else s2 in
  {| store := s3; limit := limit c |}.

Definition clear (c : t) : t := {| store := JsMap.empty; limit := limit c |}.

(** The public operations as commands, with what each returns. *)
Inductive Op : Type :=
| OpGet (key : string)
| OpSet (key : string) (path : list GridPoint)
| OpClear.

Definition exec (o : Op) (c : t) : t * option (list GridPoint) :=
  match o with
  | OpGet key => (c, get key c)
  | OpSet key path => (set key path c, None)
  | OpClear => (clear c, None)
  end.

Definition run (ops : list Op) (c : t) : t :=
  fold_left (fun c o => fst (exec o c)) ops c.

Definition setAll (kps : list (string * list GridPoint)) (c : t) : t :=
  fold_left (fun c kp => set (fst kp) (snd kp) c) kps c.

Definition keys (c : t) : list string := JsMap.keys (store c).
Definition size (c : t) : Z := JsMap.size (store c).
End PathCache.

(* ================================================================= *)
(** ** The path cache over a heap of objects

    Arrays and cells are objects with an identity.  This second embedding of
    [PathCache] keeps references, so that sharing between the caller's
    array, the stored snapshot and the array handed out by [get] can be
    stated. *)

Module Heap.
Definition loc := nat.

Inductive obj : Type :=
| Cell (x y : Z)
| Arr (elems : list loc).

Definition t := list obj.

Definition read (l : loc) (h : t) : option obj := nth_error h l.

Definition alloc (o : obj) (h : t) : loc * t := (List.length h, h ++ [o]).

(** Assignment to a field or element of the object at [l]: the object is
    replaced as a whole. *)
Fixpoint write (l : loc) (o : obj) (h : t) : t :=
  match h, l with
  | [], _ => []
  | _ :: r, O => o :: r
  | o' :: r, S l' => o' :: write l' o r
  end.

(** [elems.map((cell) => ({ ...cell }))]; [None] when an element is not a
    cell object, which the type [GridPoint[]] rules out. *)
Fixpoint copyCells (elems : list loc) (h : t) : option (list loc * t) :=
  match elems with
  | [] => Some ([], h)
  | l :: r =>
      match read l h with
      | Some (Cell cx cy) =>
          let '(l', h1) := alloc (Cell cx cy) h in
          match copyCells r h1 with
          | Some (r', h2) => Some (l' :: r', h2)
          | None => None
          end
      | _ => None
      end
  end.

(** [path.map((cell) => ({ ...cell }))] for the array at [p]. *)
Definition copyPath (p : loc) (h : t) : option (loc * t) :=
  match read p h with
  | Some (Arr elems) =>
      match copyCells elems h with
      | Some (ls, h1) => Some (alloc (Arr ls) h1)
      | None => None
      end
  | _ => None
  end.

Fixpoint cellsContent (elems : list loc) (h : t) : option (list GridPoint) :=
  match elems with
  | [] => Some []
  | l :: r =>
      match read l h, cellsContent r h with
      | Some (Cell cx cy), Some cs => Some (GridPoint.mk cx cy :: cs)
      | _, _ => None
      end
  end.

(** The cells of the array at [p], in order. *)
Definition content (p : loc) (h : t) : option (list GridPoint) :=
  match read p h with
  | Some (Arr elems) => cellsContent elems h
  | _ => None
  end.

(** [h'] holds the same objects as [h] at every location from [lo] up to
    [hi] (excluded). *)
Definition agree_on (lo hi : nat) (h h' : t) : Prop :=
  forall l, (lo <= l < hi)%nat -> read l h' = read l h.
End Heap.

Module RefCache.
Record t : Type := mk {
  store : JsMap.t Heap.loc;
  limit : Z
}.

Definition new (lim : Z) : t := {| store := JsMap.empty; limit := lim |}.

Definition get (key : string) (c : t) (h : Heap.t)
  : option (option Heap.loc * Heap.t) :=
  match JsMap.get key (store c) with
  | Some cached =>
      match Heap.copyPath cached h with
      | Some (r, h1) => Some (Some r, h1)
      | None => None
      end
  | None => Some (None, h)
  end.

Definition set (key : string) (path : Heap.loc) (c : t) (h : Heap.t)
  : option (t * Heap.t) :=
  match Heap.copyPath path h with
  | Some (snapshot, h1) =>
      let s1 := if JsMap.has key (store c) then JsMap.delete key (store c)
                else store c in
      let s2 := JsMap.set key snapshot s1 in
      let s3 :=
        if JsMap.size s2 >? limit c then
          match JsMap.keys s2 with
          | oldest :: _ => JsMap.delete oldest s2
          | [] => s2
          end
        else s2 in
      Some ({| store := s3; limit := limit c |}, h1)
  | None => None
  end.

(** The value-level cache that a reference-level cache denotes. *)
Fixpoint absStore (s : JsMap.t Heap.loc) (h : Heap.t)
  : option (JsMap.t (list GridPoint)) :=
  match s with
  | [] => Some []
  | (k, l) :: r =>
      match Heap.content l h, absStore r h with
      | Some cs, Some r' => Some ((k, cs) :: r')
      | _, _ => None
      end
  end.

Definition abs (c : t) (h : Heap.t) : option PathCache.t :=
  match absStore (store c) h with
  | Some s => Some {| PathCache.store := s; PathCache.limit := limit c |}
  | None => None
  end.
End RefCache.

(* ================================================================= *)
(** ** Vectors, cars and the scene *)

Module Vector2.
Record t : Type := mk { x : Q; y : Q }.

Definition lengthSq (v : t) : Q := (x v * x v + y v * y v)%Q.
End Vector2.
Abbreviation Vector2 := Vector2.t.

Module Car.
Record t : Type := mk {
  id : Z;
  sprite : nat;
  path : list Vector2;
  gridPath : list GridPoint;
  destination : GridPoint;
  targetIndex : Z;
  position : Vector2;
  heading : Vector2;
  currentSpeed : Q;
  targetSpeed : Q;
  maxSpeed : Q;
  width : Q;
  length : Q;
  color : Z
}.

(** Identity of car objects ([other === car]).  A car object is only made
    by [createCar], together with a container of its own, so two
    references denote one car exactly when the containers are the same. *)
Definition same (a b : t) : bool := Nat.eqb (sprite a) (sprite b).
End Car.
Abbreviation Car := Car.t.

Definition Matrix := list (list Z).

Definition tileSize : Z := 32.
Definition gridWidth : Z := 48.
Definition gridHeight : Z := 32.

(** The fields of [GameScene] that the road, path and vehicle layers read or
    write.  [sprites] are the live containers made through [this.add] and
    [nextSprite] the next handle; camera, input keys, HUD text and the
    per-tick spatial hash are left to the collaborators. *)
Record GameScene : Type := mkGameScene {
  grid : Matrix;
  walkMatrix : Matrix;
  roadCount : Z;
  flashMessage : string;
  flashTimer : Q;
  statusTimer : Q;
  cars : list Car;
  carId : Z;
  carPathsDirty : bool;
  carPathRefreshDelay : Q;
  pathCache : PathCache.t;
  spawnPoints : JsMap.t GridPoint;
  destinationPoints : JsMap.t GridPoint;
  spawnOrder : list GridPoint;
  spawnCursor : Z;
  needsRedraw : bool;
  sprites : list nat;
  nextSprite : nat
}.

Definition with_grid (v : Matrix) (st : GameScene) : GameScene :=
  {| grid := v;
     walkMatrix := walkMatrix st;
     roadCount := roadCount st;
     flashMessage := flashMessage st;
     flashTimer := flashTimer st;
     statusTimer := statusTimer st;
     cars := cars st;
     carId := carId st;
     carPathsDirty := carPathsDirty st;
     carPathRefreshDelay := carPathRefreshDelay st;
     pathCache := pathCache st;
     spawnPoints := spawnPoints st;
     destinationPoints := destinationPoints st;
     spawnOrder := spawnOrder st;
     spawnCursor := spawnCursor st;
     needsRedraw := needsRedraw st;
     sprites := sprites st;
     nextSprite := nextSprite st |}.

Definition with_walkMatrix (v : Matrix) (st : GameScene) : GameScene :=
  {| grid := grid st;
     walkMatrix := v;
     roadCount := roadCount st;
     flashMessage := flashMessage st;
     flashTimer := flashTimer st;
     statusTimer := statusTimer st;
     cars := cars st;
     carId := carId st;
     carPathsDirty := carPathsDirty st;
     carPathRefreshDelay := carPathRefreshDelay st;
     pathCache := pathCache st;
     spawnPoints := spawnPoints st;
     destinationPoints := destinationPoints st;
     spawnOrder := spawnOrder st;
     spawnCursor := spawnCursor st;
     needsRedraw := needsRedraw st;
     sprites := sprites st;
     nextSprite := nextSprite st |}.

Definition with_roadCount (v : Z) (st : GameScene) : GameScene :=
  {| grid := grid st;
     walkMatrix := walkMatrix st;
     roadCount := v;
     flashMessage := flashMessage st;
     flashTimer := flashTimer st;
     statusTimer := statusTimer st;
     cars := cars st;
     carId := carId st;
     carPathsDirty := carPathsDirty st;
     carPathRefreshDelay := carPathRefreshDelay st;
     pathCache := pathCache st;
     spawnPoints := spawnPoints st;
     destinationPoints := destinationPoints st;
     spawnOrder := spawnOrder st;
     spawnCursor := spawnCursor st;
     needsRedraw := needsRedraw st;
     sprites := sprites st;
     nextSprite := nextSprite st |}.

Definition with_flashMessage (v : string) (st : GameScene) : GameScene :=
  {| grid := grid st;
     walkMatrix := walkMatrix st;
     roadCount := roadCount st;
     flashMessage := v;
     flashTimer := flashTimer st;
     statusTimer := statusTimer st;
     cars := cars st;
     carId := carId st;
     carPathsDirty := carPathsDirty st;
     carPathRefreshDelay := carPathRefreshDelay st;
     pathCache := pathCache st;
     spawnPoints := spawnPoints st;
     destinationPoints := destinationPoints st;
     spawnOrder := spawnOrder st;
     spawnCursor := spawnCursor st;
     needsRedraw := needsRedraw st;
     sprites := sprites st;
     nextSprite := nextSprite st |}.

Definition with_flashTimer (v : Q) (st : GameScene) : GameScene :=
  {| grid := grid st;
     walkMatrix := walkMatrix st;
     roadCount := roadCount st;
     flashMessage := flashMessage st;
     flashTimer := v;
     statusTimer := statusTimer st;
     cars := cars st;
     carId := carId st;
     carPathsDirty := carPathsDirty st;
     carPathRefreshDelay := carPathRefreshDelay st;
     pathCache := pathCache st;
     spawnPoints := spawnPoints st;
     destinationPoints := destinationPoints st;
     spawnOrder := spawnOrder st;
     spawnCursor := spawnCursor st;
     needsRedraw := needsRedraw st;
     sprites := sprites st;
     nextSprite := nextSprite st |}.

Definition with_statusTimer (v : Q) (st : GameScene) : GameScene :=
  {| grid := grid st;
     walkMatrix := walkMatrix st;
     roadCount := roadCount st;
     flashMessage := flashMessage st;
     flashTimer := flashTimer st;
     statusTimer := v;
     cars := cars st;
     carId := carId st;
     carPathsDirty := carPathsDirty st;
     carPathRefreshDelay := carPathRefreshDelay st;
     pathCache := pathCache st;
     spawnPoints := spawnPoints st;
     destinationPoints := destinationPoints st;
     spawnOrder := spawnOrder st;
     spawnCursor := spawnCursor st;
     needsRedraw := needsRedraw st;
     sprites := sprites st;
     nextSprite := nextSprite st |}.

Definition with_cars (v : list Car) (st : GameScene) : GameScene :=
  {| grid := grid st;
     walkMatrix := walkMatrix st;
     roadCount := roadCount st;
     flashMessage := flashMessage st;
     flashTimer := flashTimer st;
     statusTimer := statusTimer st;
     cars := v;
     carId := carId st;
     carPathsDirty := carPathsDirty st;
     carPathRefreshDelay := carPathRefreshDelay st;
     pathCache := pathCache st;
     spawnPoints := spawnPoints st;
     destinationPoints := destinationPoints st;
     spawnOrder := spawnOrder st;
     spawnCursor := spawnCursor st;
     needsRedraw := needsRedraw st;
     sprites := sprites st;
     nextSprite := nextSprite st |}.

Definition with_carId (v : Z) (st : GameScene) : GameScene :=
  {| grid := grid st;
     walkMatrix := walkMatrix st;
     roadCount := roadCount st;
     flashMessage := flashMessage st;
     flashTimer := flashTimer st;
     statusTimer := statusTimer st;
     cars := cars st;
     carId := v;
     carPathsDirty := carPathsDirty st;
     carPathRefreshDelay := carPathRefreshDelay st;
     pathCache := pathCache st;
     spawnPoints := spawnPoints st;
     destinationPoints := destinationPoints st;
     spawnOrder := spawnOrder st;
     spawnCursor := spawnCursor st;
     needsRedraw := needsRedraw st;
     sprites := sprites st;
     nextSprite := nextSprite st |}.

Definition with_carPathsDirty (v : bool) (st : GameScene) : GameScene :=
  {| grid := grid st;
     walkMatrix := walkMatrix st;
     roadCount := roadCount st;
     flashMessage := flashMessage st;
     flashTimer := flashTimer st;
     statusTimer := statusTimer st;
     cars := cars st;
     carId := carId st;
     carPathsDirty := v;
     carPathRefreshDelay := carPathRefreshDelay st;
     pathCache := pathCache st;
     spawnPoints := spawnPoints st;
     destinationPoints := destinationPoints st;
     spawnOrder := spawnOrder st;
     spawnCursor := spawnCursor st;
     needsRedraw := needsRedraw st;
     sprites := sprites st;
     nextSprite := nextSprite st |}.

Definition with_carPathRefreshDelay (v : Q) (st : GameScene) : GameScene :=
  {| grid := grid st;
     walkMatrix := walkMatrix st;
     roadCount := roadCount st;
     flashMessage := flashMessage st;
     flashTimer := flashTimer st;
     statusTimer := statusTimer st;
     cars := cars st;
     carId := carId st;
     carPathsDirty := carPathsDirty st;
     carPathRefreshDelay := v;
     pathCache := pathCache st;
     spawnPoints := spawnPoints st;
     destinationPoints := destinationPoints st;
     spawnOrder := spawnOrder st;
     spawnCursor := spawnCursor st;
     needsRedraw := needsRedraw st;
     sprites := sprites st;
     nextSprite := nextSprite st |}.

Definition with_pathCache (v : PathCache.t) (st : GameScene) : GameScene :=
  {| grid := grid st;
     walkMatrix := walkMatrix st;
     roadCount := roadCount st;
     flashMessage := flashMessage st;
     flashTimer := flashTimer st;
     statusTimer := statusTimer st;
     cars := cars st;
     carId := carId st;
     carPathsDirty := carPathsDirty st;
     carPathRefreshDelay := carPathRefreshDelay st;
     pathCache := v;
     spawnPoints := spawnPoints st;
     destinationPoints := destinationPoints st;
     spawnOrder := spawnOrder st;
     spawnCursor := spawnCursor st;
     needsRedraw := needsRedraw st;
     sprites := sprites st;
     nextSprite := nextSprite st |}.

Definition with_spawnPoints (v : JsMap.t GridPoint) (st : GameScene) : GameScene :=
  {| grid := grid st;
     walkMatrix := walkMatrix st;
     roadCount := roadCount st;
     flashMessage := flashMessage st;
     flashTimer := flashTimer st;
     statusTimer := statusTimer st;
     cars := cars st;
     carId := carId st;
     carPathsDirty := carPathsDirty st;
     carPathRefreshDelay := carPathRefreshDelay st;
     pathCache := pathCache st;
     spawnPoints := v;
     destinationPoints := destinationPoints st;
     spawnOrder := spawnOrder st;
     spawnCursor := spawnCursor st;
     needsRedraw := needsRedraw st;
     sprites := sprites st;
     nextSprite := nextSprite st |}.

Definition with_destinationPoints (v : JsMap.t GridPoint) (st : GameScene) : GameScene :=
  {| grid := grid st;
     walkMatrix := walkMatrix st;
     roadCount := roadCount st;
     flashMessage := flashMessage st;
     flashTimer := flashTimer st;
     statusTimer := statusTimer st;
     cars := cars st;
     carId := carId st;
     carPathsDirty := carPathsDirty st;
     carPathRefreshDelay := carPathRefreshDelay st;
     pathCache := pathCache st;
     spawnPoints := spawnPoints st;
     destinationPoints := v;
     spawnOrder := spawnOrder st;
     spawnCursor := spawnCursor st;
     needsRedraw := needsRedraw st;
     sprites := sprites st;
     nextSprite := nextSprite st |}.

Definition with_spawnOrder (v : list GridPoint) (st : GameScene) : GameScene :=
  {| grid := grid st;
     walkMatrix := walkMatrix st;
     roadCount := roadCount st;
     flashMessage := flashMessage st;
     flashTimer := flashTimer st;
     statusTimer := statusTimer st;
     cars := cars st;
     carId := carId st;
     carPathsDirty := carPathsDirty st;
     carPathRefreshDelay := carPathRefreshDelay st;
     pathCache := pathCache st;
     spawnPoints := spawnPoints st;
     destinationPoints := destinationPoints st;
     spawnOrder := v;
     spawnCursor := spawnCursor st;
     needsRedraw := needsRedraw st;
     sprites := sprites st;
     nextSprite := nextSprite st |}.

Definition with_spawnCursor (v : Z) (st : GameScene) : GameScene :=
  {| grid := grid st;
     walkMatrix := walkMatrix st;
     roadCount := roadCount st;
     flashMessage := flashMessage st;
     flashTimer := flashTimer st;
     statusTimer := statusTimer st;
     cars := cars st;
     carId := carId st;
     carPathsDirty := carPathsDirty st;
     carPathRefreshDelay := carPathRefreshDelay st;
     pathCache := pathCache st;
     spawnPoints := spawnPoints st;
     destinationPoints := destinationPoints st;
     spawnOrder := spawnOrder st;
     spawnCursor := v;
     needsRedraw := needsRedraw st;
     sprites := sprites st;
     nextSprite := nextSprite st |}.

Definition with_needsRedraw (v : bool) (st : GameScene) : GameScene :=
  {| grid := grid st;
     walkMatrix := walkMatrix st;
     roadCount := roadCount st;
     flashMessage := flashMessage st;
     flashTimer := flashTimer st;
     statusTimer := statusTimer st;
     cars := cars st;
     carId := carId st;
     carPathsDirty := carPathsDirty st;
     carPathRefreshDelay := carPathRefreshDelay st;
     pathCache := pathCache st;
     spawnPoints := spawnPoints st;
     destinationPoints := destinationPoints st;
     spawnOrder := spawnOrder st;
     spawnCursor := spawnCursor st;
     needsRedraw := v;
     sprites := sprites st;
     nextSprite := nextSprite st |}.

Definition with_sprites (v : list nat) (st : GameScene) : GameScene :=
  {| grid := grid st;
     walkMatrix := walkMatrix st;
     roadCount := roadCount st;
     flashMessage := flashMessage st;
     flashTimer := flashTimer st;
     statusTimer := statusTimer st;
     cars := cars st;
     carId := carId st;
     carPathsDirty := carPathsDirty st;
     carPathRefreshDelay := carPathRefreshDelay st;
     pathCache := pathCache st;
     spawnPoints := spawnPoints st;
     destinationPoints := destinationPoints st;
     spawnOrder := spawnOrder st;
     spawnCursor := spawnCursor st;
     needsRedraw := needsRedraw st;
     sprites := v;
     nextSprite := nextSprite st |}.

Definition with_nextSprite (v : nat) (st : GameScene) : GameScene :=
  {| grid := grid st;
     walkMatrix := walkMatrix st;
     roadCount := roadCount st;
     flashMessage := flashMessage st;
     flashTimer := flashTimer st;
     statusTimer := statusTimer st;
     cars := cars st;
     carId := carId st;
     carPathsDirty := carPathsDirty st;
     carPathRefreshDelay := carPathRefreshDelay st;
     pathCache := pathCache st;
     spawnPoints := spawnPoints st;
     destinationPoints := destinationPoints st;
     spawnOrder := spawnOrder st;
     spawnCursor := spawnCursor st;
     needsRedraw := needsRedraw st;
     sprites := sprites st;
     nextSprite := v |}.

(* ================================================================= *)
(** ** Arrays, loops and keys *)

(** The integers [lo], [lo + 1], ..., [hi - 1]: the values a counting [for]
    loop gives its variable. *)
Definition range (lo hi : Z) : list Z :=
  map (fun i => lo + Z.of_nat i) (seq 0 (Z.to_nat (hi - lo))).

Fixpoint listSet {A : Type} (n : nat) (v : A) (l : list A) : list A :=
  match l, n with
  | [], _ => []
  | _ :: r, O => v :: r
  | a :: r, S n' => a :: listSet n' v r
  end.

(** [m[y][x]]; [None] stands for [undefined]. *)
Definition matrixGet (m : Matrix) (x y : Z) : option Z :=
  if (x <? 0) || (y <? 0) then None
  else match nth_error m (Z.to_nat y) with
       | Some row => nth_error row (Z.to_nat x)
       | None => None
       end.

(** [m[y][x] = v].  Every assignment in the source is to a cell inside the
    matrix; outside of it the model leaves the matrix alone. *)
Definition matrixSet (m : Matrix) (x y v : Z) : Matrix :=
  if (x <? 0) || (y <? 0) then m
  else match nth_error m (Z.to_nat y) with
       | Some row => listSet (Z.to_nat y) (listSet (Z.to_nat x) v row) m
       | None => m
       end.

Definition cellKey (x y : Z) : string :=
  (numberToString x ++ "," ++ numberToString y)%string.

Definition pathKey (start finish : GridPoint) : string :=
  (numberToString (GridPoint.x start) ++ "," ++
   numberToString (GridPoint.y start) ++ ":" ++
   numberToString (GridPoint.x finish) ++ "," ++
   numberToString (GridPoint.y finish))%string.

(** [Phaser.Math.Clamp(value, min, max)] *)
Definition Clamp (value lo hi : Z) : Z := Z.max lo (Z.min hi value).

Definition Qltb (a b : Q) : bool := negb (Qle_bool b a).

(* ================================================================= *)
(** ** The search library *)

Module PF.
Definition cell : Type := Z * Z.

(** Modelled from the spec: the class [Grid] of the [pathfinding] package,
    of which the sources hold only the type declaration.  Built from the
    stored matrix, in which 1 is blocked and 0 is free. *)
Definition Grid := Matrix.

(** Modelled from the spec: [Grid.isWalkableAt], true on the cells inside
    the matrix that hold 0. *)
Definition isWalkableAt (g : Grid) (x y : Z) : bool :=
  match matrixGet g x y with
  | Some v => v =? 0
  | None => false
  end.

Definition cellEqb (a b : cell) : bool :=
  (fst a =? fst b) && (snd a =? snd b).

Definition memCell (c : cell) (l : list cell) : bool :=
  existsb (cellEqb c) l.

(** Modelled from the spec: the moves of the search, 4-directional with no
    diagonal movement. *)
Definition neighbours4 (c : cell) : list cell :=
  let '(cx, cy) := c in
  [(cx, cy - 1); (cx + 1, cy); (cx, cy + 1); (cx - 1, cy)].

Definition candidates (frontier : list (list cell))
  : list (cell * list cell) :=
  flat_map (fun p => match p with
                     | [] => []
                     | c :: _ => map (fun n => (n, p)) (neighbours4 c)
                     end) frontier.

(** Modelled from the spec: one more unit step from every path of the
    frontier onto free cells not seen before.  Paths are kept reversed. *)
Fixpoint expand (g : Grid) (visited : list cell)
  (cands : list (cell * list cell)) : list cell * list (list cell) :=
  match cands with
  | [] => (visited, [])
  | (n, p) :: rest =>
      if isWalkableAt g (fst n) (snd n) && negb (memCell n visited)
      then let '(v, f) := expand g (n :: visited) rest in
           (v, (n :: p) :: f)
      else expand g visited rest
  end.

Definition reaches (target : cell) (p : list cell) : bool :=
  match p with
  | c :: _ => cellEqb c target
  | [] => false
  end.

(** Modelled from the spec: the grid search with unit step cost, level by
    level; it stops at the first level that reaches [target]. *)
Fixpoint levels (fuel : nat) (g : Grid) (target : cell)
  (visited : list cell) (frontier : list (list cell)) : list cell :=
  match find (reaches target) frontier with
  | Some p => rev p
  | None =>
      match fuel with
      | O => []
      | S fuel' =>
          match frontier with
          | [] => []
          | _ :: _ =>
              let '(v, f) := expand g visited (candidates frontier) in
              levels fuel' g target v f
          end
      end
  end.

Definition cellCount (g : Grid) : nat :=
  fold_right (fun row n => (List.length row + n)%nat) 0%nat g.

Module AStarFinder.
(** Modelled from the spec: [AStarFinder.findPath] with
    [allowDiagonal: false], "producing the shortest cell sequence from
    start to end inclusive, or an empty result if unreachable".  A route
    runs along free cells only, its first cell included. *)
Definition findPath (startX startY endX endY : Z) (g : Grid)
  : list cell :=
  if isWalkableAt g startX startY
  then levels (cellCount g) g (endX, endY)
              [(startX, startY)] [[(startX, startY)]]
  else [].
End AStarFinder.
End PF.

(* ================================================================= *)
(** ** Road grid *)

Definition isInside (x y : Z) : bool :=
  (x >=? 0) && (y >=? 0) && (x <? gridWidth) && (y <? gridHeight).

Definition isRoad (st : GameScene) (x y : Z) : bool :=
  isInside x y &&
  match matrixGet (grid st) x y with
  | Some v => v =? 1
  | None => false
  end.

Definition initializeGrid (st : GameScene) : GameScene :=
  with_roadCount 0
    (with_walkMatrix
       (repeat (repeat 1 (Z.to_nat gridWidth)) (Z.to_nat gridHeight))
       (with_grid
          (repeat (repeat 0 (Z.to_nat gridWidth)) (Z.to_nat gridHeight))
          st)).

(** [refreshHud]: of the HUD only the throttle timer is kept. *)
Definition refreshHud (force : bool) (st : GameScene) : GameScene :=
  if force then with_statusTimer 0%Q st else st.

Definition showFlash (message : string) (duration : Q) (st : GameScene)
  : GameScene :=
  refreshHud true (with_flashTimer duration (with_flashMessage message st)).

Definition scheduleCarPathRefresh (delay : Q) (st : GameScene) : GameScene :=
  with_carPathRefreshDelay delay (with_carPathsDirty true st).

Definition invalidatePaths (delay : Q) (st : GameScene) : GameScene :=
  with_needsRedraw true
    (scheduleCarPathRefresh delay
       (with_pathCache (PathCache.clear (pathCache st)) st)).

Definition rebuildSpawnOrder (st : GameScene) : GameScene :=
  let order := map GridPoint.copy (JsMap.values (spawnPoints st)) in
  with_spawnCursor
    (match order with
     | [] => 0
     | _ :: _ => Z.rem (spawnCursor st) (Z.of_nat (List.length order))
     end)
    (with_spawnOrder order st).

Definition setRoadValue (x y value : Z) (st : GameScene)
  : GameScene * bool :=
  if negb (isInside x y) then (st, false)
  else
    let prev := matrixGet (grid st) x y in
    if match prev with Some p => p =? value | None => false end
    then (st, false)
    else
      let st1 := with_grid (matrixSet (grid st) x y value) st in
      let st2 := with_walkMatrix
                   (matrixSet (walkMatrix st1) x y
                              (if value =? 1 then 0 else 1)) st1 in
      let st3 := invalidatePaths (1 # 4) st2 in
      if value =? 1 then (with_roadCount (roadCount st3 + 1) st3, true)
      else
        let st4 := with_roadCount (Z.max 0 (roadCount st3 - 1)) st3 in
        let key := cellKey x y in
        let removedSpawn := JsMap.has key (spawnPoints st4) in
        let st5 := with_spawnPoints
                     (JsMap.delete key (spawnPoints st4)) st4 in
        let st6 := with_destinationPoints
                     (JsMap.delete key (destinationPoints st5)) st5 in
        (if removedSpawn then rebuildSpawnOrder st6 else st6, true).

Definition toggleSpawn (cell : GridPoint) (st : GameScene) : GameScene :=
  if negb (isRoad st (GridPoint.x cell) (GridPoint.y cell))
  then showFlash "Place a spawn on a road tile" (12 # 10) st
  else
    let key := cellKey (GridPoint.x cell) (GridPoint.y cell) in
    let st1 :=
      if JsMap.has key (spawnPoints st)
      then showFlash "Spawn removed" (12 # 10)
             (with_spawnPoints (JsMap.delete key (spawnPoints st)) st)
      else showFlash "Spawn added" (12 # 10)
             (with_spawnPoints
                (JsMap.set key (GridPoint.copy cell) (spawnPoints st)) st) in
    invalidatePaths (1 # 10) (rebuildSpawnOrder st1).

Definition removeSpawn (cell : GridPoint) (st : GameScene) : GameScene :=
  let key := cellKey (GridPoint.x cell) (GridPoint.y cell) in
  if JsMap.has key (spawnPoints st)
  then showFlash "Spawn removed" 1
         (invalidatePaths (1 # 10)
            (rebuildSpawnOrder
               (with_spawnPoints (JsMap.delete key (spawnPoints st)) st)))
  else st.

Definition toggleDestination (cell : GridPoint) (st : GameScene)
  : GameScene :=
  if negb (isRoad st (GridPoint.x cell) (GridPoint.y cell))
  then showFlash "Place a destination on a road tile" (12 # 10) st
  else
    let key := cellKey (GridPoint.x cell) (GridPoint.y cell) in
    let st1 :=
      if JsMap.has key (destinationPoints st)
      then showFlash "Destination removed" (12 # 10)
             (with_destinationPoints
                (JsMap.delete key (destinationPoints st)) st)
      else showFlash "Destination added" (12 # 10)
             (with_destinationPoints
                (JsMap.set key (GridPoint.copy cell) (destinationPoints st))
                st) in
    invalidatePaths (1 # 10) st1.

Definition removeDestination (cell : GridPoint) (st : GameScene)
  : GameScene :=
  let key := cellKey (GridPoint.x cell) (GridPoint.y cell) in
  if JsMap.has key (destinationPoints st)
  then showFlash "Destination removed" 1
         (invalidatePaths (1 # 10)
            (with_destinationPoints
               (JsMap.delete key (destinationPoints st)) st))
  else st.

(* ================================================================= *)
(** ** Path search through the cache *)

Definition findPath (start finish : GridPoint) (st : GameScene)
  : list GridPoint * GameScene :=
  let key := pathKey start finish in
  match PathCache.get key (pathCache st) with
  | Some cached => (cached, st)
  | None =>
      let g : PF.Grid := walkMatrix st in
      let rawPath :=
        PF.AStarFinder.findPath (GridPoint.x start) (GridPoint.y start)
          (GridPoint.x finish) (GridPoint.y finish) g in
      let path := map (fun c : PF.cell => GridPoint.mk (fst c) (snd c))
                      rawPath in
      if (0 <? Z.of_nat (List.length path))
      then (path, with_pathCache (PathCache.set key path (pathCache st)) st)
      else (path, st)
  end.

Definition cellToWorldVector (cell : GridPoint) : Vector2 :=
  Vector2.mk
    (inject_Z (GridPoint.x cell * tileSize) + inject_Z tileSize / 2)%Q
    (inject_Z (GridPoint.y cell * tileSize) + inject_Z tileSize / 2)%Q.

(* ================================================================= *)
(** ** Nearest road cell *)

(** The body of the two inner loops of [findNearestRoadCell] for one offset
    [(dx, dy)].  The accumulator is [candidate] with [bestDistance]; [None]
    is the initial [null] with [+Infinity]. *)
Definition ringStep (st : GameScene) (worldPosition : Vector2)
  (baseX baseY radius dy dx : Z) (acc : option (GridPoint * Q))
  : option (GridPoint * Q) :=
  if negb (Z.max (Z.abs dx) (Z.abs dy) =? radius) then acc
  else
    let x := baseX + dx in
    let y := baseY + dy in
    if negb (isInside x y) then acc
    else if negb (isRoad st x y) then acc
    else
      let centerX := (inject_Z (x * tileSize) + inject_Z tileSize / 2)%Q in
      let centerY := (inject_Z (y * tileSize) + inject_Z tileSize / 2)%Q in
      let diffX := (Vector2.x worldPosition - centerX)%Q in
      let diffY := (Vector2.y worldPosition - centerY)%Q in
      let distance := (diffX * diffX + diffY * diffY)%Q in
      match acc with
      | None => Some (GridPoint.mk x y, distance)
      | Some (_, bestDistance) =>
          if Qltb distance bestDistance
          then Some (GridPoint.mk x y, distance)
          else acc
      end.

Definition scanRing (st : GameScene) (worldPosition : Vector2)
  (baseX baseY radius : Z) : option (GridPoint * Q) :=
  fold_left
    (fun acc dy =>
       fold_left
         (fun acc dx => ringStep st worldPosition baseX baseY radius dy dx acc)
         (range (- radius) (radius + 1)) acc)
    (range (- radius) (radius + 1)) None.

Fixpoint searchRings (st : GameScene) (worldPosition : Vector2)
  (baseX baseY : Z) (radii : list Z) : option GridPoint :=
  match radii with
  | [] => None
  | radius :: rest =>
      match scanRing st worldPosition baseX baseY radius with
      | Some (candidate, _) => Some candidate
      | None => searchRings st worldPosition baseX baseY rest
      end
  end.

Definition findNearestRoadCell (worldPosition : Vector2) (maxRadius : Z)
  (st : GameScene) : option GridPoint :=
  let baseX0 := Qfloor (Vector2.x worldPosition / inject_Z tileSize) in
  let baseY0 := Qfloor (Vector2.y worldPosition / inject_Z tileSize) in
  let '(baseX, baseY) :=
    if negb (isInside baseX0 baseY0)
    then (Clamp baseX0 0 (gridWidth - 1), Clamp baseY0 0 (gridHeight - 1))
    else (baseX0, baseY0) in
  if isRoad st baseX baseY then Some (GridPoint.mk baseX baseY)
  else
    let maxSearch := Z.max 1 maxRadius in
    searchRings st worldPosition baseX baseY (range 1 (maxSearch + 1)).

(** The default value of the parameter [maxRadius]. *)
Definition defaultMaxRadius : Z := Z.max gridWidth gridHeight.

(* ================================================================= *)
(** ** Car-following rule *)

Definition forwardness (car other : Car) : Q :=
  let relX :=
    (Vector2.x (Car.position other) - Vector2.x (Car.position car))%Q in
  let relY :=
    (Vector2.y (Car.position other) - Vector2.y (Car.position car))%Q in
  (relX * Vector2.x (Car.heading car) + relY * Vector2.y (Car.heading car))%Q.

Definition lateral (car other : Car) : Q :=
  let relX :=
    (Vector2.x (Car.position other) - Vector2.x (Car.position car))%Q in
  let relY :=
    (Vector2.y (Car.position other) - Vector2.y (Car.position car))%Q in
  Qabs (relX * Vector2.y (Car.heading car)
        - relY * Vector2.x (Car.heading car))%Q.

Definition safeDistance (car : Car) : Q :=
  Qmax (Car.length car * (15 # 10))%Q
       (Car.currentSpeed car * (6 # 10) + 20)%Q.

Definition computeDesiredSpeed (car : Car) (nearby : list Car) : Q :=
  fold_left
    (fun desired other =>
       if Car.same other car then desired
       else if Qle_bool (forwardness car other) 0 then desired
       else if Qltb (Car.width car * (9 # 10))%Q (lateral car other)
       then desired
       else if Qltb (forwardness car other) (safeDistance car)
       then Qmin desired (Qmax 20 (Car.currentSpeed other - 10)%Q)
       else desired)
    nearby (Car.maxSpeed car).

(* ================================================================= *)
(** ** Vehicles *)

Section Vehicles.
(** [Phaser.Math.Vector2.normalize], a function of the rendering library:
    any function will do for what is proved below. *)
Variable normalize : Vector2 -> Vector2.

(** [color] and [maxSpeedDraw] are the two random draws of the function:
    [GetRandom(colorPalette)] and [Between(60, 110)]. *)
Definition createCar (path : list GridPoint) (color maxSpeedDraw : Z)
  (st : GameScene) : GameScene :=
  if Z.of_nat (List.length path) <? 2 then st
  else
    let gridPath := map GridPoint.copy path in
    let worldPath := map cellToWorldVector gridPath in
    match worldPath with
    | start :: next :: _ =>
        let delta :=
          Vector2.mk (Vector2.x next - Vector2.x start)%Q
                     (Vector2.y next - Vector2.y start)%Q in
        let initialHeading :=
          if Qeq_bool (Vector2.lengthSq delta) 0
          then Vector2.mk 1 0
          else normalize delta in
        let carWidth := (inject_Z tileSize * (7 # 10))%Q in
        let carHeight := (inject_Z tileSize * (4 # 10))%Q in
        let container := nextSprite st in
        let st1 := with_sprites (sprites st ++ [container])
                     (with_nextSprite (S (nextSprite st)) st) in
        let st2 := with_carId (carId st1 + 1) st1 in
        let car :=
          {| Car.id := carId st2;
             Car.sprite := container;
             Car.path := worldPath;
             Car.gridPath := gridPath;
             Car.destination := last gridPath (GridPoint.mk 0 0);
             Car.targetIndex := 1;
             Car.position := Vector2.mk (Vector2.x start) (Vector2.y start);
             Car.heading := initialHeading;
             Car.currentSpeed := 0;
             Car.targetSpeed := 0;
             Car.maxSpeed := inject_Z maxSpeedDraw;
             Car.width := carHeight;
             Car.length := carWidth;
             Car.color := color |} in
        refreshHud true (with_cars (cars st2 ++ [car]) st2)
    | _ => st
    end.

(** [sprite.destroy()] *)
Definition destroySprite (handle : nat) (st : GameScene) : GameScene :=
  with_sprites (filter (fun h => negb (Nat.eqb h handle)) (sprites st)) st.

(** [this.cars.splice(index, 1)]: the position the removal starts at. *)
Definition spliceStart (index len : Z) : Z :=
  if index <? 0 then Z.max (len + index) 0 else Z.min index len.

(** [None] when [splice] removes nothing: [car] is then [undefined] and
    the function throws. *)
Definition removeCarAt (index : Z) (st : GameScene) : option GameScene :=
  let start := Z.to_nat (spliceStart index (Z.of_nat (List.length (cars st)))) in
  match nth_error (cars st) start with
  | Some car =>
      let st1 := with_cars (firstn start (cars st) ++ skipn (S start) (cars st)) st in
      Some (refreshHud true (destroySprite (Car.sprite car) st1))
  | None => None
  end.

Definition clearCars (st : GameScene) : GameScene :=
  let st1 := fold_left (fun s car => destroySprite (Car.sprite car) s)
                       (cars st) st in
  refreshHud true (with_carId 0 (with_cars [] st1)).

Definition seedSimpleRoads (st : GameScene) : GameScene :=
  let midY := gridHeight / 2 in
  let midX := gridWidth / 2 in
  let st1 := fold_left (fun s x => fst (setRoadValue x midY 1 s))
                       (range 3 (gridWidth - 3)) st in
  let st2 := fold_left (fun s y => fst (setRoadValue midX y 1 s))
                       (range 3 (gridHeight - 3)) st1 in
  let quarterX := gridWidth / 4 in
  let threeQuarterX := (gridWidth * 3) / 4 in
  let st3 := fold_left
               (fun s y => fst (setRoadValue threeQuarterX y 1
                                  (fst (setRoadValue quarterX y 1 s))))
               (range (midY - 6) (midY + 6 + 1)) st2 in
  let keyPoints := [ GridPoint.mk midX 4;
                     GridPoint.mk midX (gridHeight - 5);
                     GridPoint.mk 4 midY;
                     GridPoint.mk (gridWidth - 5) midY ] in
  let st4 := fold_left
               (fun s point =>
                  fst (setRoadValue (GridPoint.x point) (GridPoint.y point) 1 s))
               keyPoints st3 in
  let sp1 := JsMap.set (cellKey midX 4) (GridPoint.mk midX 4)
                       (spawnPoints st4) in
  let sp2 := JsMap.set (cellKey 4 midY) (GridPoint.mk 4 midY) sp1 in
  let dp1 := JsMap.set (cellKey midX (gridHeight - 5))
                       (GridPoint.mk midX (gridHeight - 5))
                       (destinationPoints st4) in
  let dp2 := JsMap.set (cellKey (gridWidth - 5) midY)
                       (GridPoint.mk (gridWidth - 5) midY) dp1 in
  rebuildSpawnOrder (with_destinationPoints dp2 (with_spawnPoints sp2 st4)).

(** [forceRedraw]: drawing aside, it lowers the redraw flag and refreshes
    the HUD. *)
Definition forceRedraw (st : GameScene) : GameScene :=
  refreshHud true (with_needsRedraw false st).

Definition resetMap (st : GameScene) : GameScene :=
  let st1 :=
    fold_left
      (fun s y =>
         fold_left
           (fun s x =>
              with_walkMatrix (matrixSet (walkMatrix s) x y 1)
                (with_grid (matrixSet (grid s) x y 0) s))
           (range 0 gridWidth) s)
      (range 0 gridHeight) st in
  let st2 := rebuildSpawnOrder (with_spawnPoints JsMap.empty st1) in
  let st3 := with_destinationPoints JsMap.empty st2 in
  let st4 := with_pathCache (PathCache.clear (pathCache st3)) st3 in
  let st5 := with_roadCount 0 st4 in
  showFlash "Map reset" 2 (forceRedraw (seedSimpleRoads (clearCars st5))).

(** The scene as its field initialisers leave it. *)
Definition newGameScene : GameScene :=
  {| grid := []; walkMatrix := []; roadCount := 0;
     flashMessage := EmptyString; flashTimer := 0; statusTimer := 0;
     cars := []; carId := 0;
     carPathsDirty := false; carPathRefreshDelay := 0;
     pathCache := PathCache.new 2048;
     spawnPoints := JsMap.empty; destinationPoints := JsMap.empty;
     spawnOrder := []; spawnCursor := 0;
     needsRedraw := false;
     sprites := []; nextSprite := 0%nat |}.

(** [create()], the entry point of the scene. *)
Definition create (st : GameScene) : GameScene :=
  forceRedraw (seedSimpleRoads (refreshHud true (initializeGrid st))).

(** The operations of a session. *)
Inductive Op : Type :=
| OpInitializeGrid
| OpSetRoadValue (x y value : Z)
| OpSeedSimpleRoads
| OpResetMap
| OpToggleSpawn (cell : GridPoint)
| OpRemoveSpawn (cell : GridPoint)
| OpToggleDestination (cell : GridPoint)
| OpRemoveDestination (cell : GridPoint)
| OpFindPath (start finish : GridPoint)
| OpCreateCar (path : list GridPoint) (color maxSpeedDraw : Z)
| OpRemoveCarAt (index : Z)
| OpClearCars.

(** An operation that throws leaves the fields as they were. *)
Definition step (o : Op) (st : GameScene) : GameScene :=
  match o with
  | OpInitializeGrid => initializeGrid st
  | OpSetRoadValue x y value => fst (setRoadValue x y value st)
  | OpSeedSimpleRoads => seedSimpleRoads st
  | OpResetMap => resetMap st
  | OpToggleSpawn cell => toggleSpawn cell st
  | OpRemoveSpawn cell => removeSpawn cell st
  | OpToggleDestination cell => toggleDestination cell st
  | OpRemoveDestination cell => removeDestination cell st
  | OpFindPath start finish => snd (findPath start finish st)
  | OpCreateCar path color maxSpeedDraw =>
      createCar path color maxSpeedDraw st
  | OpRemoveCarAt index =>
      match removeCarAt index st with
      | Some st' => st'
      | None => st
      end
  | OpClearCars => clearCars st
  end.

Definition run (ops : list Op) (st : GameScene) : GameScene :=
  fold_left (fun s o => step o s) ops st.

(** The grid is only rebuilt from scratch by [create]. *)
Definition sessionOp (o : Op) : bool :=
  match o with
  | OpInitializeGrid => false
  | _ => true
  end.

(** The operations that reset the id counter. *)
Definition clearingOp (o : Op) : bool :=
  match o with
  | OpResetMap | OpClearCars => true
  | _ => false
  end.

(** The vehicles a step pushes on the car list. *)
Definition createdBy (o : Op) (st : GameScene) : list Car :=
  match o with
  | OpCreateCar _ _ _ => skipn (List.length (cars st)) (cars (step o st))
  | _ => []
  end.

(** The ids of the vehicles created along a run, in order of creation. *)
Fixpoint createdIds (ops : list Op) (st : GameScene) : list Z :=
  match ops with
  | [] => []
  | o :: rest =>
      map Car.id (createdBy o st) ++ createdIds rest (step o st)
  end.
End Vehicles.


(* ================================================================= *)
(** ** Predicates of the statements *)

Definition differs (k k' : string) : bool := negb (String.eqb k k').

(** What overflowing does to the list of keys of a cache. *)
Definition trim (lim : Z) (ks : list string) : list string :=
  if Z.of_nat (List.length ks) >? lim then tl ks else ks.

(** The caches that the operations build keep their keys distinct and
    their size under the limit. *)
Definition cache_wf (c : PathCache.t) : Prop :=
  NoDup (PathCache.keys c) /\ PathCache.size c <= PathCache.limit c.

(** The last [n] elements of a list. *)
Definition lastn {A : Type} (n : nat) (l : list A) : list A :=
  skipn (List.length l - n) l.

(** A matrix of the size of the grid. *)
Definition grid_dims (m : Matrix) : Prop :=
  List.length m = Z.to_nat gridHeight /\
  Forall (fun row => List.length row = Z.to_nat gridWidth) m.

(** The stored search matrix is the complement of the road matrix. *)
Definition complement (g wm : Matrix) : Prop :=
  grid_dims g /\ grid_dims wm /\
  forall x y, isInside x y = true ->
    exists v, matrixGet g x y = Some v /\
              matrixGet wm x y = Some (if v =? 1 then 0 else 1).

(** What an operation does to the two matrices. *)
Definition matrices (st : GameScene) : Matrix * Matrix :=
  (grid st, walkMatrix st).

Definition scene_complement (st : GameScene) : Prop :=
  complement (grid st) (walkMatrix st).

(** The vehicles and the id counter. *)
Definition fleet (st : GameScene) : list Car * Z := (cars st, carId st).

(** Two scenes that differ at most in what the HUD shows: the flash message,
    its timer and the refresh throttle. *)
Definition same_simulation (st st' : GameScene) : Prop :=
  grid st' = grid st /\ walkMatrix st' = walkMatrix st /\
  roadCount st' = roadCount st /\
  cars st' = cars st /\ carId st' = carId st /\
  carPathsDirty st' = carPathsDirty st /\
  carPathRefreshDelay st' = carPathRefreshDelay st /\
  pathCache st' = pathCache st /\
  spawnPoints st' = spawnPoints st /\
  destinationPoints st' = destinationPoints st /\
  spawnOrder st' = spawnOrder st /\ spawnCursor st' = spawnCursor st /\
  needsRedraw st' = needsRedraw st /\
  sprites st' = sprites st /\ nextSprite st' = nextSprite st.

(** The live vehicles carry increasing ids, none above the counter. *)
Definition fleet_ordered (st : GameScene) : Prop :=
  StronglySorted Z.lt (map Car.id (cars st)) /\
  Forall (fun i => i <= carId st) (map Car.id (cars st)).

(** [other] is a neighbour ahead of [car], in its lane, and closer than the
    safe following distance. *)
Definition blocks (car other : Car) : Prop :=
  (~ forwardness car other <= 0 /\
   ~ Car.width car * (9 # 10) < lateral car other /\
   forwardness car other
   < Qmax (Car.length car * (15 # 10)) (Car.currentSpeed car * (6 # 10) + 20))%Q.

(** The speed a blocking neighbour allows. *)
Definition speedCap (other : Car) : Q :=
  Qmax 20 (Car.currentSpeed other - 10)%Q.

(** One turn of the loop of [computeDesiredSpeed]. *)
Definition follow (car : Car) (desired : Q) (other : Car) : Q :=
  if Car.same other car then desired
  else if Qle_bool (forwardness car other) 0 then desired
  else if Qltb (Car.width car * (9 # 10))%Q (lateral car other) then desired
  else if Qltb (forwardness car other) (safeDistance car)
  then Qmin desired (Qmax 20 (Car.currentSpeed other - 10)%Q)
  else desired.

(** A vehicle as [createCar] makes it, heading east, placed at [position]
    with the current speed [speed]; [handle] is its container. *)
Definition sampleCar (handle : nat) (position : Vector2) (speed : Q) : Car :=
  {| Car.id := Z.of_nat handle + 1;
     Car.sprite := handle;
     Car.path := [];
     Car.gridPath := [];
     Car.destination := GridPoint.mk 0 0;
     Car.targetIndex := 1;
     Car.position := position;
     Car.heading := Vector2.mk 1 0;
     Car.currentSpeed := speed;
     Car.targetSpeed := speed;
     Car.maxSpeed := 60;
     Car.width := (inject_Z tileSize * (4 # 10))%Q;
     Car.length := (inject_Z tileSize * (7 # 10))%Q;
     Car.color := 0 |}.

(** Chebyshev distance between a cell and the cell [(baseX, baseY)]. *)
Definition chebyshev (baseX baseY : Z) (c : GridPoint) : Z :=
  Z.max (Z.abs (GridPoint.x c - baseX)) (Z.abs (GridPoint.y c - baseY)).

(** Squared Euclidean distance from a position to the centre of a tile. *)
Definition centerDistance (worldPosition : Vector2) (c : GridPoint) : Q :=
  let centerX :=
    (inject_Z (GridPoint.x c * tileSize) + inject_Z tileSize / 2)%Q in
  let centerY :=
    (inject_Z (GridPoint.y c * tileSize) + inject_Z tileSize / 2)%Q in
  let diffX := (Vector2.x worldPosition - centerX)%Q in
  let diffY := (Vector2.y worldPosition - centerY)%Q in
  (diffX * diffX + diffY * diffY)%Q.

Definition roadCell (st : GameScene) (c : GridPoint) : Prop :=
  isRoad st (GridPoint.x c) (GridPoint.y c) = true.

(** The offset [(dy, dx)] from the base cell leads to a road cell of the
    ring of radius [radius]. *)
Definition onRing (st : GameScene) (baseX baseY radius : Z) (p : Z * Z)
  : Prop :=
  Z.max (Z.abs (snd p)) (Z.abs (fst p)) = radius /\
  isRoad st (baseX + snd p) (baseY + fst p) = true.

(** What the scan of a ring holds after the offsets of [seen]. *)
Definition ringBest (st : GameScene) (worldPosition : Vector2)
  (baseX baseY radius : Z) (seen : list (Z * Z))
  (acc : option (GridPoint * Q)) : Prop :=
  match acc with
  | None => forall p, In p seen -> ~ onRing st baseX baseY radius p
  | Some (c, d) =>
      d = centerDistance worldPosition c /\
      (exists p, In p seen /\ onRing st baseX baseY radius p /\
                 c = GridPoint.mk (baseX + snd p) (baseY + fst p)) /\
      forall p, In p seen -> onRing st baseX baseY radius p ->
        (d <= centerDistance worldPosition
                (GridPoint.mk (baseX + snd p) (baseY + fst p)))%Q
  end.

(** Two cells one unit step apart, along one axis. *)
Definition adjacent (a b : PF.cell) : Prop :=
  Z.abs (fst a - fst b) + Z.abs (snd a - snd b) = 1.

Definition free (g : PF.Grid) (c : PF.cell) : Prop :=
  PF.isWalkableAt g (fst c) (snd c) = true.

(** A walk over free cells by unit steps, latest cell first, that began at
    [s]. *)
Inductive trail (g : PF.Grid) (s : PF.cell) : list PF.cell -> Prop :=
| trail_start : free g s -> trail g s [s]
| trail_step (c n : PF.cell) (p : list PF.cell) :
    trail g s (c :: p) -> adjacent c n -> free g n ->
    trail g s (n :: c :: p).

(** The cells that some path of the frontier ends at. *)
Definition heads (F : list (list PF.cell)) (c : PF.cell) : Prop :=
  exists p, In (c :: p) F.

(** What the search holds when it looks at level [n] with [fuel] levels
    left: the frontier is made of walks of [n] steps, every cell within [n]
    steps is visited, a visited cell off the frontier has all its free
    neighbours visited and is not the target, and the target is not nearer
    than [n] steps. *)
Record searchInv (g : PF.Grid) (s t : PF.cell) (n fuel : nat)
  (V : list PF.cell) (F : list (list PF.cell)) : Prop := {
  inv_trails : forall p, In p F -> trail g s p /\ List.length p = S n;
  inv_near : forall c p, trail g s (c :: p) -> (List.length p <= n)%nat ->
                         In c V;
  inv_closed : forall c, In c V ->
      heads F c \/ (forall d, adjacent c d -> free g d -> In d V);
  inv_target : forall c, In c V -> heads F c \/ c <> t;
  inv_far : forall q, trail g s (t :: q) -> (n <= List.length q)%nat;
  inv_nodup : NoDup V;
  inv_free : forall c, In c V -> free g c;
  inv_fuel : F = [] \/ (PF.cellCount g < fuel + List.length V)%nat
}.

(** The cells of a matrix, row by row from the row numbered [y]. *)
Fixpoint cellsFrom (y : Z) (g : Matrix) : list PF.cell :=
  match g with
  | [] => []
  | row :: rest =>
      map (fun x => (x, y)) (range 0 (Z.of_nat (List.length row)))
      ++ cellsFrom (y + 1) rest
  end.

Definition toPoint (c : PF.cell) : GridPoint :=
  GridPoint.mk (fst c) (snd c).

Definition toCell (p : GridPoint) : PF.cell :=
  (GridPoint.x p, GridPoint.y p).

(** Two grid points one unit step apart: 4-directional, never diagonal. *)
Definition unitStep (a b : GridPoint) : Prop :=
  Z.abs (GridPoint.x a - GridPoint.x b)
  + Z.abs (GridPoint.y a - GridPoint.y b) = 1.

(** Every two consecutive elements of the list are related. *)
Fixpoint chain {A : Type} (R : A -> A -> Prop) (l : list A) : Prop :=
  match l with
  | a :: (b :: _) as rest => R a b /\ chain R rest
  | _ => True
  end.

(** A route from [a] to [b] along road cells only. *)
Definition route (st : GameScene) (a b : GridPoint) (p : list GridPoint)
  : Prop :=
  hd_error p = Some a /\ last p a = b /\
  Forall (roadCell st) p /\ chain unitStep p.

(** What the search gives for [a] and [b] on the stored matrix. *)
Definition searched (st : GameScene) (a b : GridPoint) : list GridPoint :=
  map toPoint
    (PF.AStarFinder.findPath (GridPoint.x a) (GridPoint.y a)
       (GridPoint.x b) (GridPoint.y b) (walkMatrix st)).

(** Every entry of the cache is the search result for its key on the
    matrix as it is now. *)
Definition coherent (st : GameScene) : Prop :=
  forall k p, In (k, p) (PathCache.store (pathCache st)) ->
    exists a b, k = pathKey a b /\ p = searched st a b.

Definition searchView (st : GameScene)
  : Matrix * JsMap.t (list GridPoint) :=
  (walkMatrix st, PathCache.store (pathCache st)).

(* ================================================================= *)
(** ** Road cells, pointer and snapping *)

(** [this.grid[y][x] === 1] is read through [matrixGet]: on a grid of the
    size [initializeGrid] gives it every cell read is there. *)
Definition collectRoadCells (st : GameScene) : list GridPoint :=
  fold_left
    (fun cells y =>
       fold_left
         (fun cells x =>
            if match matrixGet (grid st) x y with
               | Some v => v =? 1
               | None => false
               end
            then cells ++ [GridPoint.mk x y]
            else cells)
         (range 0 gridWidth) cells)
    (range 0 gridHeight) [].

Definition pointerToCell (worldX worldY : Q) : option GridPoint :=
  let x := Qfloor (worldX / inject_Z tileSize) in
  let y := Qfloor (worldY / inject_Z tileSize) in
  if negb (isInside x y) then None else Some (GridPoint.mk x y).

Definition cellCenterToWorld (x y : Z) : Vector2 :=
  Vector2.mk (inject_Z (x * tileSize) + inject_Z tileSize / 2)%Q
             (inject_Z (y * tileSize) + inject_Z tileSize / 2)%Q.

Definition ensureRoadCell (cell : GridPoint) (st : GameScene)
  : option GridPoint :=
  if isRoad st (GridPoint.x cell) (GridPoint.y cell)
  then Some (GridPoint.mk (GridPoint.x cell) (GridPoint.y cell))
  else match findNearestRoadCell (cellToWorldVector cell)
                                 defaultMaxRadius st with
       | Some snapped => Some (GridPoint.copy snapped)
       | None => None
       end.

Definition estimatePathCost (path : list GridPoint) : Z :=
  Z.of_nat (List.length path).

(* ================================================================= *)
(** ** The spatial index of the vehicles

    [carSpatialIndex] maps the key of a square of [spatialCellSize] pixels
    to the array of the cars filed there.  The index is passed explicitly;
    a car object is recognised by its container, as [Car.same] does. *)

Definition spatialCellSize : Z := tileSize * 2.

Definition SpatialIndex : Type := JsMap.t (list Car).

(** [let bucket = index.get(key); if (!bucket) { bucket = [];
    index.set(key, bucket); } bucket.push(car);] *)
Definition pushToBucket (key : string) (car : Car) (idx : SpatialIndex)
  : SpatialIndex :=
  match JsMap.get key idx with
  | Some bucket => JsMap.set key (bucket ++ [car]) idx
  | None => JsMap.set key [car] idx
  end.

Definition rebuildCarSpatialIndex (cars : list Car) : SpatialIndex :=
  fold_left
    (fun idx car =>
       let cellX :=
         Qfloor (Vector2.x (Car.position car) / inject_Z spatialCellSize) in
       let cellY :=
         Qfloor (Vector2.y (Car.position car) / inject_Z spatialCellSize) in
       let key := cellKey cellX cellY in
       pushToBucket key car idx)
    cars JsMap.empty.

(** The result is the content of the scratch array [neighborScratch] after
    the call. *)
Definition gatherNearbyCars (car : Car) (idx : SpatialIndex) : list Car :=
  if JsMap.size idx =? 0 then []
  else
    let baseX :=
      Qfloor (Vector2.x (Car.position car) / inject_Z spatialCellSize) in
    let baseY :=
      Qfloor (Vector2.y (Car.position car) / inject_Z spatialCellSize) in
    fold_left
      (fun nearby dy =>
         fold_left
           (fun nearby dx =>
              let key := cellKey (baseX + dx) (baseY + dy) in
              match JsMap.get key idx with
              | None => nearby
              | Some bucket =>
                  fold_left
                    (fun nearby other =>
                       if negb (Car.same other car) then nearby ++ [other]
                       else nearby)
                    bucket nearby
              end)
           (range (-1) 2) nearby)
      (range (-1) 2) [].

(** [bucket.indexOf(car)], [None] for [-1]. *)
Fixpoint indexOf (car : Car) (bucket : list Car) : option nat :=
  match bucket with
  | [] => None
  | other :: rest =>
      if Car.same other car then Some O
      else match indexOf car rest with
           | Some i => Some (S i)
           | None => None
           end
  end.

Definition removeCarFromBucket (car : Car) (key : string)
  (idx : SpatialIndex) : SpatialIndex * bool :=
  match JsMap.get key idx with
  | None => (idx, false)
  | Some bucket =>
      match indexOf car bucket with
      | None => (idx, false)
      | Some index =>
          let bucket' := firstn index bucket ++ skipn (S index) bucket in
          if Z.of_nat (List.length bucket') =? 0
          then (JsMap.delete key idx, true)
          else (JsMap.set key bucket' idx, true)
      end
  end.

(** [for (const bucketKey of Array.from(index.keys()))
       if (removeCarFromBucket(car, bucketKey)) break;] *)
Fixpoint removeFromFirstBucket (car : Car) (bucketKeys : list string)
  (idx : SpatialIndex) : SpatialIndex :=
  match bucketKeys with
  | [] => idx
  | bucketKey :: rest =>
      let '(idx', removed) := removeCarFromBucket car bucketKey idx in
      if removed then idx' else removeFromFirstBucket car rest idx'
  end.

Definition moveCarInSpatialIndex (car : Car) (fromKey toKey : string)
  (idx : SpatialIndex) : SpatialIndex :=
  if String.eqb fromKey toKey then idx
  else
    let '(idx1, removed) := removeCarFromBucket car fromKey idx in
    let idx2 :=
      if negb removed
      then removeFromFirstBucket car (JsMap.keys idx1) idx1
      else idx1 in
    pushToBucket toKey car idx2.

(** [keyHint] is [None] for [undefined]; an empty string is as falsy. *)
Definition removeCarFromSpatialIndex (car : Car) (keyHint : option string)
  (idx : SpatialIndex) : SpatialIndex :=
  if JsMap.size idx =? 0 then idx
  else
    let '(idx1, removed) :=
      match keyHint with
      | Some hint =>
          if String.eqb hint EmptyString then (idx, false)
          else removeCarFromBucket car hint idx
      | None => (idx, false)
      end in
    if removed then idx1
    else
      let key :=
        cellKey
          (Qfloor (Vector2.x (Car.position car) / inject_Z spatialCellSize))
          (Qfloor (Vector2.y (Car.position car) / inject_Z spatialCellSize))
      in
      let '(idx2, removed2) := removeCarFromBucket car key idx1 in
      if removed2 then idx2
      else removeFromFirstBucket car (JsMap.keys idx2) idx2.

(* ================================================================= *)
(** ** Choosing a journey *)

(** [cost < bestCost], where [None] is [Number.POSITIVE_INFINITY]. *)
Definition costLt (cost : Z) (bestCost : option Z) : bool :=
  match bestCost with
  | None => true
  | Some best => cost <? best
  end.

Module Journey.
Record t : Type := mk {
  start : GridPoint;
  destination : GridPoint;
  path : list GridPoint
}.
End Journey.
Abbreviation Journey := Journey.t.

Definition selectBestJourney (starts destinations : list GridPoint)
  (st : GameScene) : option Journey * GameScene :=
  let '(best, _, st') :=
    fold_left
      (fun acc start =>
         fold_left
           (fun '(best, bestCost, s) destination =>
              if (GridPoint.x start =? GridPoint.x destination)
                 && (GridPoint.y start =? GridPoint.y destination)
              then (best, bestCost, s)
              else
                let '(path, s1) := findPath start destination s in
                if Z.of_nat (List.length path) <? 2 then (best, bestCost, s1)
                else
                  let cost := estimatePathCost path in
                  if costLt cost bestCost
                  then (Some {| Journey.start := GridPoint.copy start;
                                Journey.destination :=
                                  GridPoint.copy destination;
                                Journey.path := path |},
                        Some cost, s1)
                  else (best, bestCost, s1))
           destinations acc)
      starts (None, None, st) in
  (best, st').

Definition selectBestDestinationPath (start fallback : GridPoint)
  (st : GameScene) : option (GridPoint * list GridPoint) * GameScene :=
  let candidates :=
    if JsMap.size (destinationPoints st) >? 0
    then JsMap.values (destinationPoints st)
    else [fallback] in
  let '(bestDestination, bestPath, _, st1) :=
    fold_left
      (fun '(bestDestination, bestPath, bestCost, s) candidate =>
         match ensureRoadCell candidate s with
         | None => (bestDestination, bestPath, bestCost, s)
         | Some snapped =>
             let '(path, s1) := findPath start snapped s in
             if Z.of_nat (List.length path) <? 2
             then (bestDestination, bestPath, bestCost, s1)
             else
               let cost := estimatePathCost path in
               if costLt cost bestCost
               then (Some snapped, Some path, Some cost, s1)
               else (bestDestination, bestPath, bestCost, s1)
         end)
      candidates (None, None, None, st) in
  match bestDestination, bestPath with
  | Some destination, Some path => (Some (destination, path), st1)
  | _, _ =>
      match ensureRoadCell fallback st1 with
      | None => (None, st1)
      | Some fallbackCell =>
          let '(fallbackPath, st2) := findPath start fallbackCell st1 in
          if Z.of_nat (List.length fallbackPath) <? 2 then (None, st2)
          else (Some (fallbackCell, fallbackPath), st2)
      end
  end.

(* ================================================================= *)
(** ** Rerouting the cars after an edit

    A result [None] is a call that throws. *)

Section Rerouting.
Variable normalize : Vector2 -> Vector2.

(** The car of the loop with the path [best.path] to [best.destination]. *)
Definition rerouteCar (car : Car) (destination : GridPoint)
  (bestPath : list GridPoint) : Car :=
  let gridPath := map GridPoint.copy bestPath in
  let worldPath := map cellToWorldVector gridPath in
  let path := Car.position car :: tl worldPath in
  let targetIndex := 1 in
  let heading :=
    match nth_error path (Z.to_nat targetIndex) with
    | Some nextTarget =>
        let heading :=
          Vector2.mk
            (Vector2.x nextTarget - Vector2.x (Car.position car))%Q
            (Vector2.y nextTarget - Vector2.y (Car.position car))%Q in
        if Qltb 0 (Vector2.lengthSq heading) then normalize heading
        else Car.heading car
    | None => Car.heading car
    end in
  {| Car.id := Car.id car;
     Car.sprite := Car.sprite car;
     Car.path := path;
     Car.gridPath := gridPath;
     Car.destination := GridPoint.copy destination;
     Car.targetIndex := targetIndex;
     Car.position := Car.position car;
     Car.heading := heading;
     Car.currentSpeed := Car.currentSpeed car;
     Car.targetSpeed := Car.targetSpeed car;
     Car.maxSpeed := Car.maxSpeed car;
     Car.width := Car.width car;
     Car.length := Car.length car;
     Car.color := Car.color car |}.

(** The body of the loop of [refreshCarPaths] for the index [i]. *)
Definition refreshCarAt (i : nat) (st : GameScene) : option GameScene :=
  match nth_error (cars st) i with
  | None => None
  | Some car =>
      match findNearestRoadCell (Car.position car) defaultMaxRadius st with
      | None => removeCarAt (Z.of_nat i) st
      | Some startCell =>
          let '(best, st1) :=
            selectBestDestinationPath startCell (Car.destination car) st in
          match best with
          | None => removeCarAt (Z.of_nat i) st1
          | Some (destination, bestPath) =>
              Some (with_cars
                      (listSet i (rerouteCar car destination bestPath)
                               (cars st1))
                      st1)
          end
      end
  end.

(** [for (let i = n - 1; i >= 0; i--)] *)
Fixpoint refreshLoop (n : nat) (st : GameScene) : option GameScene :=
  match n with
  | O => Some st
  | S i =>
      match refreshCarAt i st with
      | None => None
      | Some st1 => refreshLoop i st1
      end
  end.

Definition refreshCarPaths (st : GameScene) : option GameScene :=
  if Z.of_nat (List.length (cars st)) =? 0 then Some st
  else refreshLoop (List.length (cars st)) st.

Definition updateCarPathRefresh (dt : Q) (st : GameScene)
  : option GameScene :=
  if negb (carPathsDirty st) then Some st
  else
    let st1 :=
      with_carPathRefreshDelay (carPathRefreshDelay st - dt)%Q st in
    if Qltb 0 (carPathRefreshDelay st1) then Some st1
    else
      match refreshCarPaths st1 with
      | None => None
      | Some st2 => Some (with_carPathsDirty false st2)
      end.
End Rerouting.

(** The calls of [updateCarPathRefresh] of frames in a row, each with its
    time step. *)
Fixpoint refreshTicks (normalize : Vector2 -> Vector2) (dts : list Q)
  (st : GameScene) : option GameScene :=
  match dts with
  | [] => Some st
  | dt :: rest =>
      match updateCarPathRefresh normalize dt st with
      | None => None
      | Some st1 => refreshTicks normalize rest st1
      end
  end.

(* ================================================================= *)
(** ** Picking a spawn point

    [randomRoad] is the draw [GetRandom(roads)].  The result is [None] when
    the function reads a place of [spawnOrder] that is not there and
    throws. *)

(** [this.spawnOrder[index]] *)
Definition spawnOrderAt (index : Z) (st : GameScene) : option GridPoint :=
  if index <? 0 then None else nth_error (spawnOrder st) (Z.to_nat index).

(** The loop over [attempt]; [Some (None, _)] when it ends without a
    [return]. *)
Fixpoint pickSpawnLoop (attempts : nat) (total : Z) (st : GameScene)
  : option (option GridPoint * GameScene) :=
  match attempts with
  | O => Some (None, st)
  | S rest =>
      match spawnOrderAt (spawnCursor st) st with
      | None => None
      | Some candidate =>
          let st1 :=
            with_spawnCursor (Z.rem (spawnCursor st + 1) total) st in
          if isRoad st1 (GridPoint.x candidate) (GridPoint.y candidate)
          then Some (Some (GridPoint.mk (GridPoint.x candidate)
                                        (GridPoint.y candidate)), st1)
          else pickSpawnLoop rest total st1
      end
  end.

Definition pickSpawnStart (randomRoad : GridPoint) (st : GameScene)
  : option (GridPoint * GameScene) :=
  if JsMap.size (spawnPoints st) =? 0
  then Some (GridPoint.copy randomRoad, st)
  else
    let st1 :=
      if Z.of_nat (List.length (spawnOrder st)) =? 0
      then rebuildSpawnOrder st else st in
    let total := Z.of_nat (List.length (spawnOrder st1)) in
    if total =? 0 then Some (GridPoint.copy randomRoad, st1)
    else
      match pickSpawnLoop (Z.to_nat total) total st1 with
      | None => None
      | Some (Some picked, st2) => Some (picked, st2)
      | Some (None, st2) =>
          let st3 := rebuildSpawnOrder st2 in
          let len := Z.of_nat (List.length (spawnOrder st3)) in
          if len =? 0 then Some (GridPoint.copy randomRoad, st3)
          else
            match spawnOrderAt (Z.rem (spawnCursor st3) len) st3 with
            | None => None
            | Some candidate =>
                Some (GridPoint.mk (GridPoint.x candidate)
                                   (GridPoint.y candidate),
                      with_spawnCursor (Z.rem (spawnCursor st3 + 1) len) st3)
            end
    end.

(** The cells of [count] calls in a row, each with its own draw. *)
Fixpoint pickSpawnStarts (draws : list GridPoint) (st : GameScene)
  : option (list GridPoint * GameScene) :=
  match draws with
  | [] => Some ([], st)
  | randomRoad :: rest =>
      match pickSpawnStart randomRoad st with
      | None => None
      | Some (picked, st1) =>
          match pickSpawnStarts rest st1 with
          | None => None
          | Some (more, st2) => Some (picked :: more, st2)
          end
      end
  end.

(* ================================================================= *)
(** ** Spawning cars

    The fields of the scene that only the spawning reads and writes are
    kept beside it. *)

Module Spawner.
Record t : Type := mk {
  scene : GameScene;
  autoSpawn : bool;
  spawnInterval : Q;
  spawnTimer : Q;
  lastSpawnError : option string
}.

Definition with_scene (v : GameScene) (sp : t) : t :=
  {| scene := v; autoSpawn := autoSpawn sp;
     spawnInterval := spawnInterval sp; spawnTimer := spawnTimer sp;
     lastSpawnError := lastSpawnError sp |}.

Definition with_autoSpawn (v : bool) (sp : t) : t :=
  {| scene := scene sp; autoSpawn := v;
     spawnInterval := spawnInterval sp; spawnTimer := spawnTimer sp;
     lastSpawnError := lastSpawnError sp |}.

Definition with_spawnTimer (v : Q) (sp : t) : t :=
  {| scene := scene sp; autoSpawn := autoSpawn sp;
     spawnInterval := spawnInterval sp; spawnTimer := v;
     lastSpawnError := lastSpawnError sp |}.

Definition with_lastSpawnError (v : option string) (sp : t) : t :=
  {| scene := scene sp; autoSpawn := autoSpawn sp;
     spawnInterval := spawnInterval sp; spawnTimer := spawnTimer sp;
     lastSpawnError := v |}.
End Spawner.
Abbreviation Spawner := Spawner.t.

(** The random draws of one call of [spawnCarRandom]: [GetRandom(roads)] in
    [pickSpawnStart], the array [Shuffle] returns, the [GetRandom] of each
    attempt of the last loop, and the two draws of [createCar]. *)
Module Draws.
Record t : Type := mk {
  randomRoad : GridPoint;
  shuffled : list GridPoint;
  ends : nat -> GridPoint;
  color : Z;
  maxSpeedDraw : Z
}.
End Draws.
Abbreviation Draws := Draws.t.

Definition handleSpawnFailure (message : string) (fromAuto : bool)
  (sp : Spawner) : Spawner :=
  if fromAuto && Spawner.autoSpawn sp
  then
    let sp1 := Spawner.with_spawnTimer 0 (Spawner.with_autoSpawn false sp) in
    Spawner.with_scene
      (showFlash (message ++ " | Auto spawn disabled") (25 # 10)
                 (Spawner.scene sp1))
      sp1
  else Spawner.with_scene (showFlash message 2 (Spawner.scene sp)) sp.

Section Spawning.
Variable normalize : Vector2 -> Vector2.

(** [this.lastSpawnError = error; if (!suppressFailure)
    this.handleSpawnFailure(error, fromAuto); return false;] *)
Definition failSpawn (error : string) (fromAuto suppressFailure : bool)
  (sp : Spawner) : bool * Spawner :=
  let sp1 := Spawner.with_lastSpawnError (Some error) sp in
  (false,
   if negb suppressFailure then handleSpawnFailure error fromAuto sp1
   else sp1).

(** The last loop of [spawnCarRandom], from the attempt [attempt] on. *)
Fixpoint tryRandomEnds (attempts attempt : nat) (start : GridPoint)
  (d : Draws) (st : GameScene) : bool * GameScene :=
  match attempts with
  | O => (false, st)
  | S rest =>
      let finish := Draws.ends d attempt in
      let '(path, st1) := findPath start finish st in
      if Z.of_nat (List.length path) >=? 2
      then (true,
            createCar normalize path (Draws.color d) (Draws.maxSpeedDraw d)
                      st1)
      else tryRandomEnds rest (S attempt) start d st1
  end.

Definition spawnCarRandom (fromAuto suppressFailure : bool) (d : Draws)
  (sp : Spawner) : option (bool * Spawner) :=
  let sp0 := Spawner.with_lastSpawnError None sp in
  let st := Spawner.scene sp0 in
  let roads := collectRoadCells st in
  if Z.of_nat (List.length roads) <? 2
  then Some (failSpawn "Draw at least two road tiles to create a journey"
                       fromAuto suppressFailure sp0)
  else
    match pickSpawnStart (Draws.randomRoad d) st with
    | None => None
    | Some (start, st1) =>
        let sp1 := Spawner.with_scene st1 sp0 in
        let destinationCandidates :=
          if JsMap.size (destinationPoints st1) >? 0
          then JsMap.values (destinationPoints st1)
          else roads in
        let filteredDestinations :=
          filter (fun cell =>
                    negb (GridPoint.x cell =? GridPoint.x start)
                    || negb (GridPoint.y cell =? GridPoint.y start))
                 destinationCandidates in
        let effectiveDestinations :=
          if Z.of_nat (List.length filteredDestinations) >? 0
          then filteredDestinations
          else destinationCandidates in
        if Z.of_nat (List.length effectiveDestinations) =? 0
        then Some (failSpawn "No valid destination point is available"
                             fromAuto suppressFailure sp1)
        else
          let pool :=
            if JsMap.size (destinationPoints st1) >? 0
            then effectiveDestinations
            else firstn
                   (Z.to_nat
                      (Z.min 64
                         (Z.of_nat (List.length effectiveDestinations))))
                   (Draws.shuffled d) in
          if Z.of_nat (List.length pool) =? 0
          then Some (failSpawn "No valid destination point is available"
                               fromAuto suppressFailure sp1)
          else
            let '(bestJourney, st2) :=
              selectBestJourney [start] pool st1 in
            match bestJourney with
            | Some journey =>
                Some (true,
                      Spawner.with_scene
                        (createCar normalize (Journey.path journey)
                                   (Draws.color d) (Draws.maxSpeedDraw d)
                                   st2)
                        (Spawner.with_lastSpawnError None sp1))
            | None =>
                let '(created, st3) :=
                  tryRandomEnds
                    (Z.to_nat
                       (Z.min 30
                          (Z.of_nat (List.length effectiveDestinations))))
                    0 start d st2 in
                if created
                then Some (true,
                           Spawner.with_scene st3
                             (Spawner.with_lastSpawnError None sp1))
                else Some (failSpawn
                             "No path found between the selected points"
                             fromAuto suppressFailure
                             (Spawner.with_scene st3 sp1))
            end
    end.

(** The loop of [handleAutoSpawn], from the attempt [i] on. *)
Fixpoint autoSpawnLoop (attempts i : nat) (draws : nat -> Draws)
  (spawned : bool) (sp : Spawner) : option (bool * Spawner) :=
  match attempts with
  | O => Some (spawned, sp)
  | S rest =>
      match spawnCarRandom true true (draws i) sp with
      | None => None
      | Some (ok, sp1) =>
          autoSpawnLoop rest (S i) draws (if ok then true else spawned) sp1
      end
  end.

Definition handleAutoSpawn (dt : Q) (draws : nat -> Draws) (sp : Spawner)
  : option Spawner :=
  if negb (Spawner.autoSpawn sp) then Some sp
  else if Qle_bool (Spawner.spawnInterval sp) 0 then Some sp
  else
    let sp1 := Spawner.with_spawnTimer (Spawner.spawnTimer sp + dt)%Q sp in
    if Qltb (Spawner.spawnTimer sp1) (Spawner.spawnInterval sp1)
    then Some sp1
    else
      let sp2 := Spawner.with_spawnTimer 0 sp1 in
      let attempts :=
        Z.max 1 (JsMap.size (spawnPoints (Spawner.scene sp2))) in
      match autoSpawnLoop (Z.to_nat attempts) 0 draws false sp2 with
      | None => None
      | Some (spawned, sp3) =>
          if negb spawned
          then
            let reason :=
              match Spawner.lastSpawnError sp3 with
              | Some error => error
              | None => "No path found between the selected points"%string
              end in
            Some (handleSpawnFailure reason true sp3)
          else Some sp3
      end.
End Spawning.

(* ================================================================= *)
(** ** The brush

    [activeTool], [brushSize] and the two timers of the automatic spawn are
    passed explicitly. *)

Inductive Tool : Type := ToolRoad | ToolErase | ToolSpawn | ToolDestination.

(** [cell] is [None] for [null]. *)
Definition getBrushCells (cell : option GridPoint) (tool : Tool)
  (brushSize : Z) : list GridPoint :=
  match cell with
  | None => []
  | Some cell =>
      match tool with
      | ToolSpawn | ToolDestination =>
          if isInside (GridPoint.x cell) (GridPoint.y cell)
          then [cell] else []
      | _ =>
          let radius := brushSize - 1 in
          fold_left
            (fun cells dy =>
               fold_left
                 (fun cells dx =>
                    let x := GridPoint.x cell + dx in
                    let y := GridPoint.y cell + dy in
                    if negb (isInside x y) then cells
                    else cells ++ [GridPoint.mk x y])
                 (range (- radius) (radius + 1)) cells)
            (range (- radius) (radius + 1)) []
      end
  end.

(** The result is the scene with the new value of [spawnTimer]. *)
Definition applyBrush (cell : GridPoint) (value : Z) (activeTool : Tool)
  (brushSize : Z) (spawnTimer spawnInterval : Q) (st : GameScene)
  : GameScene * Q :=
  let cells := getBrushCells (Some cell) activeTool brushSize in
  let '(st', modified) :=
    fold_left
      (fun '(s, modified) target =>
         let '(s1, changed) :=
           setRoadValue (GridPoint.x target) (GridPoint.y target) value s in
         (s1, changed || modified))
      cells (st, false) in
  if modified
  then (st', Qmin spawnTimer (spawnInterval * (1 # 2)))
  else (st', spawnTimer).

(* ================================================================= *)
(** ** Moving the cars

    [updateCars] walks the cars from the last to the first.  A car that has
    no point of its path left is removed; a car closer than two pixels to
    its target is put on it and aims at the next point, and is removed when
    that was the last; any other car turns to its target, adapts its speed
    to the cars nearby and moves on.

    The numbers of a car's turn come out of [Math.hypot], [Math.exp] and
    floating-point arithmetic on the car, the time step and the cars the
    spatial index files nearby.  They are given for each car as a [Motion]:
    whether [distance < 2] holds, and the heading, the two speeds and the
    position the last branch ends with.  Any rationals may stand there, so
    that whatever the arithmetic gives is covered; the index, which only
    feeds these numbers, is left out.  A result [None] is a call that
    throws. *)

Module Motion.
Record t : Type := mk {
  close : bool;
  heading : Vector2;
  targetSpeed : Q;
  currentSpeed : Q;
  position : Vector2
}.
End Motion.
Abbreviation Motion := Motion.t.

(** [car.path[index]] *)
Definition pathAt (index : Z) (car : Car) : option Vector2 :=
  if index <? 0 then None else nth_error (Car.path car) (Z.to_nat index).

(** [car.position.copy(target); car.targetIndex += 1;] *)
Definition arriveAt (target : Vector2) (car : Car) : Car :=
  {| Car.id := Car.id car;
     Car.sprite := Car.sprite car;
     Car.path := Car.path car;
     Car.gridPath := Car.gridPath car;
     Car.destination := Car.destination car;
     Car.targetIndex := Car.targetIndex car + 1;
     Car.position := Vector2.mk (Vector2.x target) (Vector2.y target);
     Car.heading := Car.heading car;
     Car.currentSpeed := Car.currentSpeed car;
     Car.targetSpeed := Car.targetSpeed car;
     Car.maxSpeed := Car.maxSpeed car;
     Car.width := Car.width car;
     Car.length := Car.length car;
     Car.color := Car.color car |}.

(** The writes of the last branch: [car.heading.set(..)],
    [car.targetSpeed = ..], [car.currentSpeed = ..] and the two updates of
    [car.position]. *)
Definition moveCar (m : Motion) (car : Car) : Car :=
  {| Car.id := Car.id car;
     Car.sprite := Car.sprite car;
     Car.path := Car.path car;
     Car.gridPath := Car.gridPath car;
     Car.destination := Car.destination car;
     Car.targetIndex := Car.targetIndex car;
     Car.position := Motion.position m;
     Car.heading := Motion.heading m;
     Car.currentSpeed := Motion.currentSpeed m;
     Car.targetSpeed := Motion.targetSpeed m;
     Car.maxSpeed := Car.maxSpeed car;
     Car.width := Car.width car;
     Car.length := Car.length car;
     Car.color := Car.color car |}.

(** The body of the loop of [updateCars] for the index [i]. *)
Definition updateCarAt (m : Motion) (i : nat) (st : GameScene)
  : option GameScene :=
  match nth_error (cars st) i with
  | None => None
  | Some car =>
      if Car.targetIndex car >=? Z.of_nat (List.length (Car.path car))
      then removeCarAt (Z.of_nat i) st
      else
        match pathAt (Car.targetIndex car) car with
        | None => None
        | Some target =>
            if Motion.close m
            then
              let car1 := arriveAt target car in
              let st1 := with_cars (listSet i car1 (cars st)) st in
              if Car.targetIndex car1
                 >=? Z.of_nat (List.length (Car.path car1))
              then removeCarAt (Z.of_nat i) st1
              else Some st1
            else
              Some (with_cars (listSet i (moveCar m car) (cars st)) st)
        end
  end.

(** [for (let i = n - 1; i >= 0; i--)], with the motion of each car. *)
Fixpoint updateLoop (n : nat) (motions : nat -> Motion) (st : GameScene)
  : option GameScene :=
  match n with
  | O => Some st
  | S i =>
      match updateCarAt (motions i) i st with
      | None => None
      | Some st1 => updateLoop i motions st1
      end
  end.

Definition updateCars (motions : nat -> Motion) (st : GameScene)
  : option GameScene :=
  if Z.of_nat (List.length (cars st)) =? 0 then Some st
  else updateLoop (List.length (cars st)) motions st.

(** The end of [update], after [updateCarPathRefresh]: the redraw that was
    asked for is done, the throttle of the HUD advances and the flash
    message runs out. *)
Definition finishUpdate (dt : Q) (st : GameScene) : GameScene :=
  let st1 := if needsRedraw st then with_needsRedraw false st else st in
  let st2 := with_statusTimer (statusTimer st1 + dt)%Q st1 in
  let st3 :=
    if Qle_bool (1 # 4) (statusTimer st2)
    then refreshHud false (with_statusTimer 0 st2)
    else st2 in
  if Qltb 0 (flashTimer st3)
  then
    let st4 := with_flashTimer (flashTimer st3 - dt)%Q st3 in
    if Qle_bool (flashTimer st4) 0
    then refreshHud true (with_flashMessage EmptyString st4)
    else st4
  else st3.

(* ================================================================= *)
(** ** The states of a session

    The scene starts with [create].  From then on Phaser calls [update] for
    every frame and the handlers of the pointer and of the keys, and these
    call the functions of the scene in some order.  Each rule below is one
    such call on the fields kept here, with any argument, any random draw
    and any value of the fields of the automatic spawn, and the rules may
    follow each other in any order:
    - [reach_step]: the operations of [Op], which the pointer handlers
      ([setRoadValue] under the brush, the toggles and the removals), the
      keys C and R and the functions below call;
    - [reach_showFlash]: the message of [setActiveTool], [adjustBrush],
      [adjustSpawnInterval] and of the keys T and C;
    - [reach_applyBrush]: a stroke of the brush;
    - [reach_spawnCarRandom], [reach_pickSpawnStart]: the SPACE key and the
      attempts of the automatic spawn;
    - [reach_updateCars], [reach_handleAutoSpawn],
      [reach_updateCarPathRefresh], [reach_finishUpdate]: the four steps of
      [update] after the shortcuts and the camera;
    - [reach_refreshCarPaths]: the rerouting on its own. *)
Inductive reachable (normalize : Vector2 -> Vector2) : GameScene -> Prop :=
| reach_create : reachable normalize (create newGameScene)
| reach_step (o : Op) (st : GameScene) :
    sessionOp o = true -> reachable normalize st ->
    reachable normalize (step normalize o st)
| reach_showFlash (message : string) (duration : Q) (st : GameScene) :
    reachable normalize st ->
    reachable normalize (showFlash message duration st)
| reach_applyBrush (cell : GridPoint) (value : Z) (activeTool : Tool)
    (brushSize : Z) (spawnTimer spawnInterval : Q) (st : GameScene) :
    reachable normalize st ->
    reachable normalize
      (fst (applyBrush cell value activeTool brushSize spawnTimer
                       spawnInterval st))
| reach_pickSpawnStart (randomRoad picked : GridPoint) (st st' : GameScene) :
    reachable normalize st ->
    pickSpawnStart randomRoad st = Some (picked, st') ->
    reachable normalize st'
| reach_spawnCarRandom (fromAuto suppressFailure : bool) (d : Draws)
    (sp sp' : Spawner) (ok : bool) :
    reachable normalize (Spawner.scene sp) ->
    spawnCarRandom normalize fromAuto suppressFailure d sp = Some (ok, sp') ->
    reachable normalize (Spawner.scene sp')
| reach_handleAutoSpawn (dt : Q) (draws : nat -> Draws) (sp sp' : Spawner) :
    reachable normalize (Spawner.scene sp) ->
    handleAutoSpawn normalize dt draws sp = Some sp' ->
    reachable normalize (Spawner.scene sp')
| reach_refreshCarPaths (st st' : GameScene) :
    reachable normalize st ->
    refreshCarPaths normalize st = Some st' ->
    reachable normalize st'
| reach_updateCarPathRefresh (dt : Q) (st st' : GameScene) :
    reachable normalize st ->
    updateCarPathRefresh normalize dt st = Some st' ->
    reachable normalize st'
| reach_updateCars (motions : nat -> Motion) (st st' : GameScene) :
    reachable normalize st ->
    updateCars motions st = Some st' ->
    reachable normalize st'
| reach_finishUpdate (dt : Q) (st : GameScene) :
    reachable normalize st ->
    reachable normalize (finishUpdate dt st).

(* ================================================================= *)
(** ** Predicates of the further statements *)

(** The value of a road operation is one of the two the type [0 | 1]
    allows. *)
Definition typedOp (o : Op) : bool :=
  match o with
  | OpSetRoadValue _ _ value => (value =? 0) || (value =? 1)
  | _ => true
  end.

(** The cells of the grid as the loops visit them, as pairs [(y, x)]. *)
Definition gridCells : list (Z * Z) :=
  list_prod (range 0 gridHeight) (range 0 gridWidth).

(** The test [this.grid[y][x] === 1] on a pair [(y, x)]. *)
Definition holdsRoad (m : Matrix) (p : Z * Z) : bool :=
  match matrixGet m (snd p) (fst p) with
  | Some v => v =? 1
  | None => false
  end.

(** The road matrix has the size of the grid, holds 0 or 1 everywhere, and
    the running total counts its road cells. *)
Definition counted (st : GameScene) : Prop :=
  grid_dims (grid st) /\
  (forall x y v, matrixGet (grid st) x y = Some v -> v = 0 \/ v = 1) /\
  roadCount st
  = Z.of_nat (List.length (filter (holdsRoad (grid st)) gridCells)).

(** Every point of the map is stored under the key of its cell, on a road
    cell. *)
Definition onRoads (st : GameScene) (points : JsMap.t GridPoint) : Prop :=
  forall k c, In (k, c) points ->
    k = cellKey (GridPoint.x c) (GridPoint.y c) /\ roadCell st c.

(** Spawn and destination points lie on roads and the spawn order lists the
    spawn points. *)
Definition pointsPlaced (st : GameScene) : Prop :=
  onRoads st (spawnPoints st) /\
  onRoads st (destinationPoints st) /\
  spawnOrder st = JsMap.values (spawnPoints st).

(** The road matrix with its running total. *)
Definition roads (st : GameScene) : Matrix * Z := (grid st, roadCount st).

(** The fields that decide where points may stand. *)
Definition placement (st : GameScene)
  : Matrix * JsMap.t GridPoint * JsMap.t GridPoint * list GridPoint :=
  (grid st, spawnPoints st, destinationPoints st, spawnOrder st).

Definition placed (st : GameScene) : Prop :=
  grid_dims (grid st) /\ pointsPlaced st.

(** The vehicles with the display containers that are alive. *)
Definition stage (st : GameScene) : list Car * list nat * nat :=
  (cars st, sprites st, nextSprite st).

(** The containers alive are those of the live vehicles, in their order,
    each once, and all were handed out before the next handle. *)
Definition staged (st : GameScene) : Prop :=
  sprites st = map Car.sprite (cars st) /\
  NoDup (sprites st) /\
  Forall (fun h => (h < nextSprite st)%nat) (sprites st).


(** The square of the spatial index a coordinate falls in. *)
Definition spatialCell (v : Q) : Z := Qfloor (v / inject_Z spatialCellSize).

(** The key a car is filed under by its position. *)
Definition spatialKey (car : Car) : string :=
  cellKey (spatialCell (Vector2.x (Car.position car)))
          (spatialCell (Vector2.y (Car.position car))).

(** The car [c] is in the bucket of [key]. *)
Definition located (idx : SpatialIndex) (key : string) (c : Car) : Prop :=
  exists bucket, JsMap.get key idx = Some bucket /\ In c bucket.

(** No bucket is empty, no bucket holds a car twice, and no car is in two
    buckets. *)
Definition indexed (idx : SpatialIndex) : Prop :=
  (forall k b, JsMap.get k idx = Some b ->
     b <> [] /\ NoDup (map Car.sprite b)) /\
  (forall k1 k2 c1 c2, located idx k1 c1 -> located idx k2 c2 ->
     Car.sprite c1 = Car.sprite c2 -> k1 = k2).

(** [idx'] files the cars of [idx] where they were, but for the car [car],
    which it does not file. *)
Definition withoutCar (car : Car) (idx idx' : SpatialIndex) : Prop :=
  forall k c, located idx' k c <-> located idx k c /\ Car.same c car = false.


(** The cursor of the spawn order points into it. *)
Definition cursorOk (st : GameScene) : Prop :=
  0 <= spawnCursor st < Z.max 1 (Z.of_nat (List.length (spawnOrder st))).

(** The spawn order with its cursor. *)
Definition cursorView (st : GameScene) : list GridPoint * Z :=
  (spawnOrder st, spawnCursor st).

(** [item] is a best choice among [items] by [cost], where [None] rules an
    item out. *)
Definition cheapest {A : Type} (cost : A -> option Z) (items : list A)
  (item : A) : Prop :=
  In item items /\
  exists c, cost item = Some c /\
    forall other c', In other items -> cost other = Some c' -> c <= c'.

(** What a journey between two cells costs in the scene: the number of
    cells of the path [findPath] gives, when they are two different cells
    and the path has two cells at least. *)
Definition journeyCost (st : GameScene) (p : GridPoint * GridPoint)
  : option Z :=
  if GridPoint.eqb (fst p) (snd p) then None
  else
    let path := fst (findPath (fst p) (snd p) st) in
    if Z.of_nat (List.length path) <? 2 then None
    else Some (Z.of_nat (List.length path)).

(** What the loops of [selectBestJourney] hold after the pairs of [seen]:
    the scene differs from [st] in its cache at most, and the journey kept
    is a cheapest one of [seen], with its cost. *)
Definition journeyInv (st : GameScene) (seen : list (GridPoint * GridPoint))
  (acc : option Journey * option Z * GameScene) : Prop :=
  let '(best, bestCost, s) := acc in
  coherent s /\ s = with_pathCache (pathCache s) st /\
  match best with
  | None => bestCost = None /\ forall p, In p seen -> journeyCost st p = None
  | Some j =>
      bestCost = Some (Z.of_nat (List.length (Journey.path j))) /\
      cheapest (journeyCost st) seen (Journey.start j, Journey.destination j) /\
      Journey.path j
      = fst (findPath (Journey.start j) (Journey.destination j) st)
  end.

(** The cell [c] is a cell of the grid in the square of the brush of size
    [brushSize] centred on [cell]. *)
Definition brushed (cell : GridPoint) (brushSize : Z) (c : GridPoint)
  : Prop :=
  isInside (GridPoint.x c) (GridPoint.y c) = true /\
  Z.abs (GridPoint.x c - GridPoint.x cell) <= brushSize - 1 /\
  Z.abs (GridPoint.y c - GridPoint.y cell) <= brushSize - 1.

(** The value a cell of the road matrix holds. *)
Definition valueAt (st : GameScene) (c : GridPoint) : option Z :=
  matrixGet (grid st) (GridPoint.x c) (GridPoint.y c).

(** The destinations [selectBestDestinationPath] tries: the destination
    points, or the fallback alone when there is none. *)
Definition destinationCandidates (fallback : GridPoint) (st : GameScene)
  : list GridPoint :=
  if JsMap.size (destinationPoints st) >? 0
  then JsMap.values (destinationPoints st)
  else [fallback].

(** What the journey from [start] to a candidate costs: the number of cells
    of the path [findPath] gives to the road cell the candidate snaps to,
    when there is one and the path has two cells at least. *)
Definition destinationCost (st : GameScene) (start candidate : GridPoint)
  : option Z :=
  match ensureRoadCell candidate st with
  | None => None
  | Some snapped =>
      let path := fst (findPath start snapped st) in
      if Z.of_nat (List.length path) <? 2 then None
      else Some (Z.of_nat (List.length path))
  end.

(** The choice of [selectBestDestinationPath] as a function of the road
    matrix, the search matrix and the destination points. *)
Definition chooseStep (st : GameScene) (start : GridPoint)
  (acc : option GridPoint * option (list GridPoint) * option Z)
  (candidate : GridPoint)
  : option GridPoint * option (list GridPoint) * option Z :=
  match ensureRoadCell candidate st with
  | None => acc
  | Some snapped =>
      let path := searched st start snapped in
      if Z.of_nat (List.length path) <? 2 then acc
      else if costLt (Z.of_nat (List.length path)) (snd acc)
           then (Some snapped, Some path, Some (Z.of_nat (List.length path)))
           else acc
  end.

Definition chooseDestination (st : GameScene) (start fallback : GridPoint)
  : option (GridPoint * list GridPoint) :=
  match fold_left (chooseStep st start) (destinationCandidates fallback st)
                  (None, None, None) with
  | (Some destination, Some path, _) => Some (destination, path)
  | _ =>
      match ensureRoadCell fallback st with
      | None => None
      | Some fallbackCell =>
          let fallbackPath := searched st start fallbackCell in
          if Z.of_nat (List.length fallbackPath) <? 2 then None
          else Some (fallbackCell, fallbackPath)
      end
  end.

(** The car as [refreshCarPaths] leaves it, or [None] when it removes it. *)
Definition rerouted (normalize : Vector2 -> Vector2) (st : GameScene)
  (car : Car) : option Car :=
  match findNearestRoadCell (Car.position car) defaultMaxRadius st with
  | None => None
  | Some startCell =>
      match chooseDestination st startCell (Car.destination car) with
      | None => None
      | Some (destination, path) =>
          Some (rerouteCar normalize car destination path)
      end
  end.

Fixpoint filterMap {A B : Type} (f : A -> option B) (l : list A) : list B :=
  match l with
  | [] => []
  | a :: r =>
      match f a with
      | Some b => b :: filterMap f r
      | None => filterMap f r
      end
  end.

(** What the choice of a destination reads of the scene. *)
Definition routing (st : GameScene)
  : Matrix * Matrix * JsMap.t GridPoint :=
  (grid st, walkMatrix st, destinationPoints st).

(** The scene but for its cars, their containers, the path cache and the
    throttle of the HUD. *)
Definition backdrop (st : GameScene) : GameScene :=
  with_statusTimer 0 (with_cars [] (with_sprites []
    (with_pathCache (PathCache.new 0) st))).

(** The scene of a session as the proofs below need it: the cache agrees
    with the map, the points stand on roads, the cursor points into the
    spawn order, and the containers are those of the cars. *)
Definition sound (st : GameScene) : Prop :=
  coherent st /\ placed st /\ cursorOk st /\ staged st.

(** The map with its points. *)
Definition terrain (st : GameScene)
  : Matrix * Matrix * Z * JsMap.t GridPoint * JsMap.t GridPoint
    * list GridPoint :=
  (grid st, walkMatrix st, roadCount st, spawnPoints st,
   destinationPoints st, spawnOrder st).

(** [st'] is a sound scene on the map of [st]. *)
Definition settled (st st' : GameScene) : Prop :=
  sound st' /\ terrain st' = terrain st.

(** The map with its points, the spawn order and its cursor. *)
Definition layout (st : GameScene)
  : Matrix * Matrix * Z * JsMap.t GridPoint * JsMap.t GridPoint
    * list GridPoint * Z :=
  (grid st, walkMatrix st, roadCount st, spawnPoints st,
   destinationPoints st, spawnOrder st, spawnCursor st).

(* ================================================================= *)
(** ** The scenes of the examples *)

(** A spawner on the scene [st], with the automatic spawn on, every two
    seconds. *)
Definition spawnerOn (st : GameScene) : Spawner :=
  {| Spawner.scene := st;
     Spawner.autoSpawn := true;
     Spawner.spawnInterval := 2;
     Spawner.spawnTimer := 0;
     Spawner.lastSpawnError := None |}.

Definition sampleDraws : Draws :=
  {| Draws.randomRoad := GridPoint.mk 24 4;
     Draws.shuffled := [];
     Draws.ends := fun _ => GridPoint.mk 4 16;
     Draws.color := 0;
     Draws.maxSpeedDraw := 60 |}.

(** The seeded map after SPACE was pressed once: a car stands on the first
    spawn point and the cursor is on the second. *)
Definition sceneAfterSpawn : GameScene :=
  match spawnCarRandom (fun v => v) false false sampleDraws
                       (spawnerOn (create newGameScene)) with
  | Some (_, sp) => Spawner.scene sp
  | None => create newGameScene
  end.

(** A car that is not close to its target yet and moves eight pixels down
    the road from the spawn point (24, 4), at half its speed. *)
Definition sampleMotion : Motion :=
  {| Motion.close := false;
     Motion.heading := Vector2.mk 0 1;
     Motion.targetSpeed := 60;
     Motion.currentSpeed := 30;
     Motion.position := Vector2.mk 784 152 |}.

(** The scene of [sceneAfterSpawn] after a frame moved the car. *)
Definition sceneAfterDrive : GameScene :=
  match updateCars (fun _ => sampleMotion) sceneAfterSpawn with
  | Some st => st
  | None => sceneAfterSpawn
  end.

(* ================================================================= *)
(** * Properties *)

(* ================================================================= *)
(** ** Keys are injective *)

Module KeyFacts.
Import DecimalString.

Lemma uint_chars_numeric (d : Decimal.uint) :
  string_forall numeric_char (NilEmpty.string_of_uint d) = true.
Proof.
  induction d; simpl; try rewrite IHd; reflexivity.
Qed.

Lemma numberToString_numeric (n : Z) :
  string_forall numeric_char (numberToString n) = true.
Proof.
  unfold numberToString.
  destruct (Z.to_int n) as [d | d]; simpl.
  - apply uint_chars_numeric.
  - rewrite uint_chars_numeric. reflexivity.
Qed.

Lemma numberToString_inj (a b : Z) :
  numberToString a = numberToString b -> a = b.
Proof.
  unfold numberToString. intros H.
  apply DecimalZ.to_int_inj.
  pose proof (NilEmpty.isi (Z.to_int a)) as Ha.
  pose proof (NilEmpty.isi (Z.to_int b)) as Hb.
  rewrite H in Ha. rewrite Ha in Hb. now inversion Hb.
Qed.

(** Two strings free of [c] that agree up to and after a [c] are equal. *)
Lemma split_at_separator (f : ascii -> bool) (c : ascii) :
  f c = false ->
  forall s1 s2 r1 r2,
    string_forall f s1 = true -> string_forall f s2 = true ->
    (s1 ++ String c r1)%string = (s2 ++ String c r2)%string ->
    s1 = s2 /\ r1 = r2.
Proof.
  intros Hc. induction s1 as [| a s1 IH]; intros s2 r1 r2 H1 H2 E.
  - destruct s2 as [| b s2]; simpl in *.
    + inversion E. auto.
    + inversion E; subst. apply andb_true_iff in H2. destruct H2 as [H2 _].
      congruence.
  - destruct s2 as [| b s2]; simpl in *.
    + inversion E; subst. apply andb_true_iff in H1. destruct H1 as [H1 _].
      congruence.
    + inversion E; subst.
      apply andb_true_iff in H1. apply andb_true_iff in H2.
      destruct H1 as [_ H1]. destruct H2 as [_ H2].
      destruct (IH s2 r1 r2 H1 H2 H3) as [E1 E2]. subst. split; reflexivity.
Qed.

Lemma cellKey_inj (x y x' y' : Z) :
  cellKey x y = cellKey x' y' -> x = x' /\ y = y'.
Proof.
  unfold cellKey. simpl. intros E.
  apply (split_at_separator numeric_char) in E;
    try apply numberToString_numeric; try reflexivity.
  destruct E as [E1 E2].
  split; apply numberToString_inj; assumption.
Qed.

Lemma pathKey_inj (a b a' b' : GridPoint) :
  pathKey a b = pathKey a' b' -> a = a' /\ b = b'.
Proof.
  unfold pathKey. simpl. intros E.
  apply (split_at_separator numeric_char) in E;
    try apply numberToString_numeric; try reflexivity.
  destruct E as [E1 E].
  apply (split_at_separator numeric_char) in E;
    try apply numberToString_numeric; try reflexivity.
  destruct E as [E2 E].
  apply (split_at_separator numeric_char) in E;
    try apply numberToString_numeric; try reflexivity.
  destruct E as [E3 E4].
  apply numberToString_inj in E1, E2, E3, E4.
  destruct a, b, a', b'; simpl in *; subst; auto.
Qed.
End KeyFacts.

(* ================================================================= *)
(** ** Insertion-ordered maps *)

Module JsMapFacts.
Section WithValue.
Context {V : Type}.
Implicit Types (m : JsMap.t V) (k : string) (v : V).

Lemma keys_delete k m :
JsMap.keys (JsMap.delete k m) = filter (differs k) (JsMap.keys m).
Proof.
unfold JsMap.keys, JsMap.delete, differs.
induction m as [| [k' v'] r IH]; simpl; [reflexivity |].
destruct (String.eqb k k'); simpl; now rewrite IH.
Qed.

Lemma get_none_iff k m :
JsMap.get k m = None <-> ~ In k (JsMap.keys m).
Proof.
induction m as [| [k' v'] r IH]; simpl.
- tauto.
- destruct (String.eqb_spec k k') as [-> | Hne].
  + split; [discriminate | tauto].
  + rewrite IH. split; [intros H [E | HI]; [congruence | tauto] | tauto].
Qed.

Lemma has_false_iff k m :
JsMap.has k m = false <-> ~ In k (JsMap.keys m).
Proof.
unfold JsMap.has. rewrite <- get_none_iff.
destruct (JsMap.get k m); split; congruence.
Qed.

Lemma has_true_iff k m :
JsMap.has k m = true <-> In k (JsMap.keys m).
Proof.
pose proof (has_false_iff k m) as H.
destruct (JsMap.has k m).
- split; [intros _ | reflexivity].
  destruct (in_dec string_dec k (JsMap.keys m)) as [HI | HN]; [assumption |].
  apply H in HN. discriminate.
- split; [discriminate | intros HI]. exfalso. now apply H.
Qed.

Lemma delete_absent k m :
~ In k (JsMap.keys m) -> JsMap.delete k m = m.
Proof.
unfold JsMap.delete.
induction m as [| [k' v'] r IH]; simpl; intros HN; [reflexivity |].
destruct (String.eqb_spec k k') as [-> | Hne]; simpl.
- tauto.
- rewrite IH; tauto.
Qed.

Lemma set_absent k v m :
~ In k (JsMap.keys m) -> JsMap.set k v m = m ++ [(k, v)].
Proof.
induction m as [| [k' v'] r IH]; simpl; intros HN; [reflexivity |].
destruct (String.eqb_spec k k') as [-> | Hne].
- tauto.
- rewrite IH; tauto.
Qed.

Lemma not_in_delete k m : ~ In k (JsMap.keys (JsMap.delete k m)).
Proof.
rewrite keys_delete, filter_In. unfold differs.
rewrite String.eqb_refl. intros [_ H]. discriminate.
Qed.

Lemma get_append_new k v m :
~ In k (JsMap.keys m) -> JsMap.get k (m ++ [(k, v)]) = Some v.
Proof.
induction m as [| [k' v'] r IH]; simpl; intros HN.
- now rewrite String.eqb_refl.
- destruct (String.eqb_spec k k') as [-> | Hne]; [tauto |].
  apply IH. tauto.
Qed.

Lemma get_in k v m : JsMap.get k m = Some v -> In (k, v) m.
Proof.
induction m as [| [k' v'] r IH]; simpl; [discriminate |].
destruct (String.eqb_spec k k') as [-> | Hne].
- intros [= ->]. now left.
- intros H. right. now apply IH.
Qed.

Lemma in_delete e k m : In e (JsMap.delete k m) -> In e m.
Proof. unfold JsMap.delete. rewrite filter_In. tauto. Qed.
End WithValue.

Lemma filter_differs_absent k (l : list string) :
  ~ In k l -> filter (differs k) l = l.
Proof.
  unfold differs.
  induction l as [| a r IH]; simpl; intros HN; [reflexivity |].
  destruct (String.eqb_spec k a) as [-> | Hne]; simpl.
  - tauto.
  - rewrite IH; tauto.
Qed.

Lemma filter_differs_head k (l : list string) :
  NoDup (k :: l) -> filter (differs k) (k :: l) = l.
Proof.
  intros H. inversion H; subst. simpl. unfold differs at 1.
  rewrite String.eqb_refl. simpl. now apply filter_differs_absent.
Qed.
End JsMapFacts.

(* ================================================================= *)
(** ** The path cache: eviction order *)

Module PathCacheFacts.
Import JsMapFacts.

Lemma limit_set k p c : PathCache.limit (PathCache.set k p c) = PathCache.limit c.
Proof. reflexivity. Qed.

Lemma keys_set k p c :
  NoDup (PathCache.keys c) ->
  PathCache.keys (PathCache.set k p c) =
  trim (PathCache.limit c) (filter (differs k) (PathCache.keys c) ++ [k]).
Proof.
  intros ND. unfold PathCache.keys, PathCache.set, trim. simpl.
  set (s1 := if JsMap.has k (PathCache.store c)
             then JsMap.delete k (PathCache.store c)
             else PathCache.store c).
  assert (E1 : s1 = JsMap.delete k (PathCache.store c)).
  { unfold s1. destruct (JsMap.has k (PathCache.store c)) eqn:Hh; [reflexivity |].
    symmetry. apply delete_absent. now apply has_false_iff. }
  assert (E2 : JsMap.set k (map GridPoint.copy p) s1
               = s1 ++ [(k, map GridPoint.copy p)]).
  { apply set_absent. rewrite E1. apply not_in_delete. }
  rewrite E2.
  assert (E3 : JsMap.keys (s1 ++ [(k, map GridPoint.copy p)])
               = filter (differs k) (JsMap.keys (PathCache.store c)) ++ [k]).
  { unfold JsMap.keys at 1. rewrite map_app. simpl.
    fold (JsMap.keys s1). now rewrite E1, keys_delete. }
  unfold JsMap.size.
  replace (List.length (s1 ++ [(k, map GridPoint.copy p)]))
    with (List.length (JsMap.keys (s1 ++ [(k, map GridPoint.copy p)])))
    by (unfold JsMap.keys; apply length_map).
  rewrite E3.
  destruct (Z.of_nat _ >? PathCache.limit c) eqn:Hover; [| exact E3].
  assert (ND2 : NoDup (JsMap.keys (s1 ++ [(k, map GridPoint.copy p)]))).
  { rewrite E3. apply NoDup_app.
    - now apply NoDup_filter.
    - constructor; [intros [] | constructor].
    - intros a Ha [<- | []]. apply filter_In in Ha. unfold differs in Ha.
      rewrite String.eqb_refl in Ha. destruct Ha; discriminate. }
  destruct (JsMap.keys (s1 ++ [(k, map GridPoint.copy p)])) as [| o ks] eqn:Hk.
  - exfalso. destruct (filter (differs k) (JsMap.keys (PathCache.store c)));
      discriminate.
  - rewrite <- E3. simpl.
    rewrite keys_delete, Hk. now apply filter_differs_head.
Qed.

Lemma wf_new lim : 0 <= lim -> cache_wf (PathCache.new lim).
Proof. intros H. split; [constructor | exact H]. Qed.

Lemma NoDup_trim lim ks : NoDup ks -> NoDup (trim lim ks).
Proof.
  unfold trim. intros H. destruct (_ >? _); [| assumption].
  destruct ks; simpl; [constructor | now inversion H].
Qed.

Lemma NoDup_moved k (ks : list string) :
  NoDup ks -> NoDup (filter (differs k) ks ++ [k]).
Proof.
  intros ND. apply NoDup_app.
  - now apply NoDup_filter.
  - constructor; [intros [] | constructor].
  - intros a Ha [<- | []]. apply filter_In in Ha. unfold differs in Ha.
    rewrite String.eqb_refl in Ha. destruct Ha; discriminate.
Qed.

Lemma length_keys c :
  Z.of_nat (List.length (PathCache.keys c)) = PathCache.size c.
Proof.
  unfold PathCache.keys, PathCache.size, JsMap.keys, JsMap.size.
  now rewrite length_map.
Qed.

Lemma wf_set k p c : 0 <= PathCache.limit c -> cache_wf c -> cache_wf (PathCache.set k p c).
Proof.
  intros Hl [ND Hs]. split.
  - rewrite keys_set by assumption. apply NoDup_trim, NoDup_moved, ND.
  - rewrite <- length_keys, keys_set, limit_set by assumption.
    rewrite <- length_keys in Hs. unfold trim.
    pose proof (filter_length_le (differs k) (PathCache.keys c)) as Hf.
    destruct (_ >? _) eqn:Hover.
    + destruct (filter (differs k) (PathCache.keys c) ++ [k]) as [| a r] eqn:E.
      * simpl. lia.
      * assert (L : List.length (a :: r)
                    = S (List.length (filter (differs k) (PathCache.keys c)))).
        { rewrite <- E, length_app. simpl. lia. }
        simpl in *. lia.
    + rewrite Z.gtb_ltb in Hover. apply Z.ltb_ge in Hover. exact Hover.
Qed.

Lemma wf_clear c : 0 <= PathCache.limit c -> cache_wf c -> cache_wf (PathCache.clear c).
Proof. intros H _. split; [constructor | exact H]. Qed.

Lemma limit_run ops c :
  PathCache.limit (PathCache.run ops c) = PathCache.limit c.
Proof.
  revert c. induction ops as [| o r IH]; intros c; [reflexivity |].
  unfold PathCache.run in *. simpl. rewrite IH. now destruct o.
Qed.

Lemma wf_run ops c :
  0 <= PathCache.limit c -> cache_wf c -> cache_wf (PathCache.run ops c).
Proof.
  revert c. induction ops as [| o r IH]; intros c Hl Hw; [assumption |].
  unfold PathCache.run in *. simpl. apply IH.
  - now destruct o.
  - destruct o; simpl; auto using wf_set, wf_clear.
Qed.
End PathCacheFacts.

Module PathCacheEviction.
Import JsMapFacts PathCacheFacts.

Lemma skipn_succ_tl {A : Type} (n : nat) (l : list A) :
  skipn (S n) l = tl (skipn n l).
Proof.
  revert l. induction n as [| n IH]; intros [| a l]; try reflexivity.
  change (skipn (S n) l = tl (skipn n l)). apply IH.
Qed.

Lemma lastn_short {A : Type} (n : nat) (l : list A) :
  (List.length l <= n)%nat -> lastn n l = l.
Proof.
  intros H. unfold lastn. replace (List.length l - n)%nat with 0%nat by lia.
  reflexivity.
Qed.

Lemma length_lastn {A : Type} (n : nat) (l : list A) :
  (n <= List.length l)%nat -> List.length (lastn n l) = n.
Proof. intros H. unfold lastn. rewrite length_skipn. lia. Qed.

Lemma lastn_snoc_full {A : Type} (n : nat) (l : list A) (a : A) :
  (n <= List.length l)%nat ->
  lastn n (l ++ [a]) = tl (lastn n l ++ [a]).
Proof.
  intros H. unfold lastn. rewrite length_app. simpl.
  replace (List.length l + 1 - n)%nat with (S (List.length l - n)) by lia.
  rewrite skipn_succ_tl, skipn_app.
  replace (List.length l - n - List.length l)%nat with 0%nat by lia.
  reflexivity.
Qed.

Lemma setAll_snoc kps k p c :
  PathCache.setAll (kps ++ [(k, p)]) c
  = PathCache.set k p (PathCache.setAll kps c).
Proof. unfold PathCache.setAll. now rewrite fold_left_app. Qed.

Lemma limit_setAll kps c :
  PathCache.limit (PathCache.setAll kps c) = PathCache.limit c.
Proof.
  revert c. induction kps as [| [k p] r IH]; intros c; [reflexivity |].
  unfold PathCache.setAll in *. simpl. now rewrite IH.
Qed.

Lemma wf_setAll kps c :
  0 <= PathCache.limit c -> cache_wf c -> cache_wf (PathCache.setAll kps c).
Proof.
  revert c. induction kps as [| [k p] r IH]; intros c Hl Hw; [assumption |].
  unfold PathCache.setAll in *. simpl. apply IH; [assumption |].
  now apply wf_set.
Qed.

Lemma incl_lastn {A : Type} (n : nat) (l : list A) (a : A) :
  In a (lastn n l) -> In a l.
Proof.
  unfold lastn. intros H. rewrite <- (firstn_skipn (List.length l - n) l).
  apply in_or_app. now right.
Qed.

(** After distinct keys were put one after the other, the cache ends with
    the most recent of them, as many as the limit allows. *)
Lemma setAll_suffix kps : forall c,
  0 <= PathCache.limit c -> cache_wf c -> NoDup (map fst kps) ->
  exists pre,
    PathCache.keys (PathCache.setAll kps c)
    = pre ++ lastn (Z.to_nat (PathCache.limit c)) (map fst kps).
Proof.
  induction kps as [| [k p] kps IH] using rev_ind; intros c Hl Hw ND.
  - exists (PathCache.keys c). simpl. unfold lastn. simpl.
    now rewrite app_nil_r.
  - rewrite map_app in ND. simpl in ND.
    assert (NDks : NoDup (map fst kps)) by (eapply NoDup_app_remove_r; eauto).
    assert (Hk : ~ In k (map fst kps)).
    { intros HI. apply NoDup_remove_2 in ND. apply ND.
      rewrite app_nil_r. exact HI. }
    destruct (IH c Hl Hw NDks) as [pre Hpre].
    pose proof (wf_setAll kps c Hl Hw) as [NDc Hsz].
    rewrite limit_setAll in Hsz. rewrite <- length_keys in Hsz.
    rewrite setAll_snoc, keys_set, limit_setAll by assumption.
    rewrite Hpre in *. rewrite map_app. simpl.
    set (n := Z.to_nat (PathCache.limit c)) in *.
    set (ks := map fst kps) in *.
    rewrite filter_app.
    rewrite (filter_differs_absent k (lastn n ks))
      by (intros HI; apply Hk; eapply incl_lastn; eauto).
    rewrite <- app_assoc.
    destruct (Nat.lt_ge_cases (List.length ks) n) as [Hshort | Hfull].
    + rewrite !lastn_short by (rewrite ?length_app; simpl; lia).
      unfold trim. destruct (_ >? _) eqn:Hover.
      * destruct (filter (differs k) pre) as [| a fp] eqn:Hf; simpl.
        -- exfalso. simpl in Hover. rewrite Z.gtb_ltb in Hover.
           apply Z.ltb_lt in Hover. rewrite length_app in Hover.
           simpl in Hover. lia.
        -- exists fp. reflexivity.
      * eexists. reflexivity.
    + assert (pre = []) as ->.
      { rewrite length_app, length_lastn in Hsz by assumption.
        destruct pre; [reflexivity | simpl in Hsz; lia]. }
      simpl. exists []. simpl. unfold trim.
      rewrite length_app, length_lastn by assumption. simpl.
      replace (Z.of_nat (n + 1) >? PathCache.limit c) with true
        by (symmetry; rewrite Z.gtb_ltb; apply Z.ltb_lt; lia).
      symmetry. now apply lastn_snoc_full.
Qed.

Lemma filter_differs_shorter k (l : list string) :
  In k l -> (List.length (filter (differs k) l) < List.length l)%nat.
Proof.
  unfold differs.
  induction l as [| a r IH]; simpl; [tauto |].
  intros [-> | HI].
  - rewrite String.eqb_refl. simpl.
    pose proof (filter_length_le (fun k' => negb (String.eqb k k')) r). lia.
  - specialize (IH HI). destruct (negb (String.eqb k a)); simpl; lia.
Qed.

(** C3. In a cache built by any operations under a limit [lim]: putting
    [lim + 1] distinct keys leaves exactly [lim] entries, all the keys put
    but the first, which is gone; putting a key that is present moves it
    to the newest place; putting a new key in a full cache evicts the
    oldest key; and [get] leaves the cache as it is. *)
Theorem PathCache_eviction_order (lim : Z) (ops : list PathCache.Op) :
  0 <= lim ->
  let c := PathCache.run ops (PathCache.new lim) in
  (forall kps,
      NoDup (map fst kps) ->
      Z.of_nat (List.length kps) = lim + 1 ->
      let c' := PathCache.setAll kps c in
      PathCache.size c' = lim /\
      PathCache.keys c' = tl (map fst kps) /\
      (forall k0, hd_error (map fst kps) = Some k0 ->
                  PathCache.get k0 c' = None)) /\
  (forall k p,
      JsMap.has k (PathCache.store c) = true ->
      PathCache.keys (PathCache.set k p c)
      = filter (differs k) (PathCache.keys c) ++ [k]) /\
  (forall k p,
      JsMap.has k (PathCache.store c) = false ->
      PathCache.size c = lim ->
      PathCache.keys (PathCache.set k p c) = tl (PathCache.keys c ++ [k])) /\
  (forall k, fst (PathCache.exec (PathCache.OpGet k) c) = c).
Proof.
  intros Hlim c.
  assert (Hl : PathCache.limit c = lim) by (unfold c; now rewrite limit_run).
  assert (Hw : cache_wf c).
  { unfold c. apply wf_run; [exact Hlim | now apply wf_new]. }
  repeat split.
  - (* size *)
    destruct (setAll_suffix kps c) as [pre Hpre]; try assumption; try lia.
    pose proof (wf_setAll kps c) as [_ Hsz]; try assumption; try lia.
    rewrite limit_setAll, Hl in Hsz. rewrite <- length_keys in *.
    rewrite Hpre, Hl in *.
    rewrite length_app, length_lastn in * by (rewrite length_map; lia).
    lia.
  - (* keys *)
    destruct (setAll_suffix kps c) as [pre Hpre]; try assumption; try lia.
    pose proof (wf_setAll kps c) as [_ Hsz]; try assumption; try lia.
    rewrite limit_setAll, Hl in Hsz. rewrite <- length_keys in Hsz.
    rewrite Hpre, Hl in *.
    rewrite length_app, length_lastn in Hsz by (rewrite length_map; lia).
    assert (pre = []) as -> by (destruct pre; [reflexivity | simpl in Hsz; lia]).
    simpl. unfold lastn. rewrite length_map.
    replace (List.length kps - Z.to_nat lim)%nat with 1%nat by lia.
    destruct (map fst kps); reflexivity.
  - (* the first key is gone *)
    intros k0 Hk0.
    destruct (setAll_suffix kps c) as [pre Hpre]; try assumption; try lia.
    pose proof (wf_setAll kps c) as [_ Hsz]; try assumption; try lia.
    rewrite limit_setAll, Hl in Hsz. rewrite <- length_keys in Hsz.
    rewrite Hpre, Hl in *.
    rewrite length_app, length_lastn in Hsz by (rewrite length_map; lia).
    assert (pre = []) as -> by (destruct pre; [reflexivity | simpl in Hsz; lia]).
    simpl in Hpre. unfold lastn in Hpre. rewrite length_map in Hpre.
    replace (List.length kps - Z.to_nat lim)%nat with 1%nat in Hpre by lia.
    unfold PathCache.get.
    destruct (JsMap.get k0 (PathCache.store (PathCache.setAll kps c))) eqn:Hg;
      [| reflexivity].
    exfalso.
    assert (HI : In k0 (PathCache.keys (PathCache.setAll kps c))).
    { unfold PathCache.keys. apply has_true_iff. unfold JsMap.has.
      now rewrite Hg. }
    rewrite Hpre in HI.
    destruct (map fst kps) as [| a r]; [discriminate |].
    simpl in Hk0. injection Hk0 as ->. simpl in HI.
    match goal with H : NoDup (_ :: _) |- _ => inversion H end. tauto.
  - (* a present key moves to the newest place *)
    intros k p Hhas. destruct Hw as [ND Hsz].
    rewrite keys_set by assumption. unfold trim.
    apply has_true_iff in Hhas.
    pose proof (filter_differs_shorter k _ Hhas) as Hlt.
    fold (PathCache.keys c) in Hlt.
    rewrite <- length_keys in Hsz.
    replace (_ >? _) with false; [reflexivity |].
    symmetry. rewrite Z.gtb_ltb. apply Z.ltb_ge.
    rewrite length_app. simpl. lia.
  - (* a new key in a full cache evicts the oldest *)
    intros k p Hhas Hfull. destruct Hw as [ND Hsz].
    rewrite keys_set by assumption. unfold trim.
    apply has_false_iff in Hhas.
    rewrite filter_differs_absent by exact Hhas.
    rewrite <- length_keys in Hfull.
    replace (_ >? _) with true; [reflexivity |].
    symmetry. rewrite Z.gtb_ltb. apply Z.ltb_lt.
    rewrite length_app. simpl. lia.
Qed.

Lemma PathCache_eviction_order_witness :
  0 <= 2 /\
  PathCache.keys
    (PathCache.setAll
       [("a"%string, [GridPoint.mk 0 0]); ("b"%string, []);
        ("c"%string, [GridPoint.mk 1 0])]
       (PathCache.run [PathCache.OpSet "z"%string []; PathCache.OpGet "z"%string]
                      (PathCache.new 2)))
  = ["b"%string; "c"%string].
Proof.
  split; [lia |].
  pose proof (PathCache_eviction_order 2
                [PathCache.OpSet "z"%string []; PathCache.OpGet "z"%string]
                ltac:(lia)) as H.
  cbv zeta in H. destruct H as [H _].
  specialize (H [("a"%string, [GridPoint.mk 0 0]); ("b"%string, []);
                 ("c"%string, [GridPoint.mk 1 0])]).
  destruct H as [_ [H _]].
  - repeat constructor; simpl; intuition discriminate.
  - reflexivity.
  - exact H.
Defined.
End PathCacheEviction.

(* ================================================================= *)
(** ** The path cache: snapshots are not shared *)

Module HeapFacts.
Import Heap.

Lemma read_some_lt l h o : read l h = Some o -> (l < List.length h)%nat.
Proof. unfold read. intros H. apply nth_error_Some. congruence. Qed.

Lemma read_app_old l h ext :
  (l < List.length h)%nat -> read l (h ++ ext) = read l h.
Proof. unfold read. intros H. now apply nth_error_app1. Qed.

Lemma read_app_some l h ext o :
  read l h = Some o -> read l (h ++ ext) = Some o.
Proof.
  intros H. rewrite read_app_old; [assumption |]. eapply read_some_lt; eauto.
Qed.

Lemma read_alloc_new o h : read (List.length h) (h ++ [o]) = Some o.
Proof.
  unfold read. rewrite nth_error_app2 by lia. now rewrite Nat.sub_diag.
Qed.

Lemma cellsContent_app ls h ext cs :
  cellsContent ls h = Some cs -> cellsContent ls (h ++ ext) = Some cs.
Proof.
  revert cs. induction ls as [| l r IH]; intros cs; simpl; [auto |].
  destruct (read l h) as [[cx cy | es] |] eqn:Hr; try discriminate.
  destruct (cellsContent r h) as [cs' |] eqn:Hc; try discriminate.
  intros [= <-]. rewrite (read_app_some _ _ _ _ Hr), (IH cs' eq_refl).
  reflexivity.
Qed.

(** Reading cells only looks at the locations listed. *)
Lemma cellsContent_agree ls h h' :
  (forall l, In l ls -> read l h' = read l h) ->
  cellsContent ls h' = cellsContent ls h.
Proof.
  induction ls as [| l r IH]; intros H; simpl; [reflexivity |].
  rewrite H by now left. rewrite IH; [reflexivity |].
  intros l' Hl'. apply H. now right.
Qed.

(** Copying the cells of a path allocates fresh cells with the same
    content and touches nothing else. *)
Lemma copyCells_spec elems : forall h cs,
  cellsContent elems h = Some cs ->
  exists ls ext,
    copyCells elems h = Some (ls, h ++ ext) /\
    cellsContent ls (h ++ ext) = Some cs /\
    Forall (fun l => (List.length h <= l < List.length (h ++ ext))%nat) ls.
Proof.
  induction elems as [| l r IH]; intros h cs; simpl.
  - intros [= <-]. exists [], []. rewrite app_nil_r. auto.
  - destruct (read l h) as [[cx cy | es] |] eqn:Hr; try discriminate.
    destruct (cellsContent r h) as [cs' |] eqn:Hc; try discriminate.
    intros [= <-].
    destruct (IH (h ++ [Cell cx cy]) cs') as (ls & ext & Hcp & Hct & Hfr).
    { now apply cellsContent_app. }
    rewrite Hcp. rewrite <- app_assoc in *. simpl in *.
    exists (List.length h :: ls), (Cell cx cy :: ext).
    split; [reflexivity |]. split.
    + simpl. rewrite Hct.
      replace (read (List.length h) (h ++ Cell cx cy :: ext))
        with (Some (Cell cx cy)); [reflexivity |].
      symmetry. change (h ++ Cell cx cy :: ext) with (h ++ [Cell cx cy] ++ ext).
      rewrite app_assoc. apply read_app_some, read_alloc_new.
    + constructor.
      * rewrite length_app. simpl. lia.
      * eapply Forall_impl; [| exact Hfr]. simpl. intros a.
        rewrite !length_app. simpl. lia.
Qed.

(** The copy of a path, in any later heap that left the copy alone. *)
Lemma copyPath_spec p h cs :
  content p h = Some cs ->
  exists r ext,
    copyPath p h = Some (r, h ++ ext) /\
    (List.length h <= r < List.length (h ++ ext))%nat /\
    forall h2, agree_on (List.length h) (List.length (h ++ ext)) (h ++ ext) h2 ->
               content r h2 = Some cs.
Proof.
  unfold content, copyPath.
  destruct (read p h) as [[cx cy | elems] |] eqn:Hr; try discriminate.
  intros Hc.
  destruct (copyCells_spec elems h cs Hc) as (ls & ext & Hcp & Hct & Hfr).
  rewrite Hcp. unfold alloc. rewrite <- app_assoc.
  exists (List.length (h ++ ext)), (ext ++ [Arr ls]).
  split; [reflexivity |]. split.
  - rewrite !length_app. simpl. lia.
  - intros h2 Hag.
    rewrite Hag by (rewrite !length_app; simpl; lia).
    rewrite app_assoc, read_alloc_new.
    rewrite (cellsContent_agree ls (((h ++ ext) ++ [Arr ls])) h2).
    + now apply cellsContent_app.
    + intros l Hl. rewrite Forall_forall in Hfr. specialize (Hfr l Hl).
      rewrite <- app_assoc. apply Hag. rewrite !length_app in *. simpl. lia.
Qed.

Lemma agree_on_refl lo hi h : agree_on lo hi h h.
Proof. intros l _. reflexivity. Qed.

Lemma agree_on_app lo hi h h' ext :
  (hi <= List.length h')%nat ->
  agree_on lo hi h h' -> agree_on lo hi h (h' ++ ext).
Proof.
  intros Hhi H l Hl. rewrite read_app_old by lia. now apply H.
Qed.

Lemma read_write_other l l' o h :
  l <> l' -> read l (write l' o h) = read l h.
Proof.
  unfold read. revert l l'. induction h as [| a r IH]; intros l l' Hne.
  - destruct l'; reflexivity.
  - destruct l' as [| l']; destruct l as [| l]; simpl; try reflexivity.
    + congruence.
    + apply IH. congruence.
Qed.

Lemma length_write l o h : List.length (write l o h) = List.length h.
Proof.
  revert l. induction h as [| a r IH]; intros [| l]; simpl; auto.
Qed.

End HeapFacts.

Module RefCacheFacts.
Import Heap HeapFacts JsMapFacts.

Lemma get_delete_other {V : Type} (o k : string) (m : JsMap.t V) :
  o <> k -> JsMap.get k (JsMap.delete o m) = JsMap.get k m.
Proof.
  intros Hne. unfold JsMap.delete.
  induction m as [| [k' v'] r IH]; simpl; [reflexivity |].
  destruct (String.eqb_spec o k') as [-> | Hok]; simpl.
  - destruct (String.eqb_spec k k'); [congruence | exact IH].
  - rewrite IH. reflexivity.
Qed.

(** Under a limit of at least one, what was just put is in the store. *)
Lemma stored_after_set {V : Type} (k : string) (v : V) (m : JsMap.t V)
  (lim : Z) :
  1 <= lim ->
  let s1 := if JsMap.has k m then JsMap.delete k m else m in
  let s2 := JsMap.set k v s1 in
  let s3 := if JsMap.size s2 >? lim
            then match JsMap.keys s2 with
                 | oldest :: _ => JsMap.delete oldest s2
                 | [] => s2
                 end
            else s2 in
  JsMap.get k s3 = Some v.
Proof.
  intros Hlim s1 s2 s3.
  assert (E1 : s1 = JsMap.delete k m).
  { unfold s1. destruct (JsMap.has k m) eqn:Hh; [reflexivity |].
    symmetry. apply delete_absent. now apply has_false_iff. }
  assert (E2 : s2 = s1 ++ [(k, v)]).
  { unfold s2. apply set_absent. rewrite E1. apply not_in_delete. }
  assert (G2 : JsMap.get k s2 = Some v).
  { rewrite E2. apply get_append_new. rewrite E1. apply not_in_delete. }
  unfold s3. destruct (JsMap.size s2 >? lim) eqn:Hover; [| exact G2].
  destruct (JsMap.keys s2) as [| o ks] eqn:Hk; [exact G2 |].
  destruct (String.eqb_spec o k) as [-> | Hne].
  - exfalso. rewrite E2 in Hk, Hover.
    destruct s1 as [| [k1 v1] r1].
    + unfold JsMap.size in Hover. simpl in Hover.
      rewrite Z.gtb_ltb in Hover. apply Z.ltb_lt in Hover. lia.
    + simpl in Hk. injection Hk as -> _.
      apply (not_in_delete k m). rewrite <- E1. simpl. now left.
  - rewrite get_delete_other by assumption. exact G2.
Qed.

(** C6. After [set(k, p)] on a cache with room for an entry, [get(k)]
    gives an array with the cells of [p] in order, which is a new object:
    not [p], nor any object that existed before the call.  This holds in
    every heap that agrees with the heap after [set] on the objects [set]
    allocated, so whatever was written meanwhile to [p], to its cells or
    to arrays that earlier calls of [get] returned; and [get] itself
    writes to no object that exists, so it holds for every later call. *)
Theorem PathCache_get_after_put (c : RefCache.t) (h : Heap.t) (k : string)
  (p : Heap.loc) (cells : list GridPoint) :
  1 <= RefCache.limit c ->
  Heap.content p h = Some cells ->
  exists c1 h1,
    RefCache.set k p c h = Some (c1, h1) /\
    forall h2,
      Heap.agree_on (List.length h) (List.length h1) h1 h2 ->
      exists r h3,
        RefCache.get k c1 h2 = Some (Some r, h3) /\
        Heap.content r h3 = Some cells /\
        r <> p /\
        (List.length h2 <= r)%nat /\
        Heap.agree_on 0 (List.length h2) h2 h3 /\
        Heap.agree_on (List.length h) (List.length h1) h1 h3.
Proof.
  intros Hlim Hc.
  destruct (copyPath_spec p h cells Hc) as (snap & ext & Hcp & Hb & Hown).
  unfold RefCache.set. rewrite Hcp.
  eexists. exists (h ++ ext). split; [reflexivity |].
  intros h2 Hag.
  unfold RefCache.get. cbn [RefCache.store].
  rewrite (stored_after_set k snap (RefCache.store c) (RefCache.limit c) Hlim).
  pose proof (Hown h2 Hag) as Hc2.
  destruct (copyPath_spec snap h2 cells Hc2) as (r & ext2 & Hcp2 & Hb2 & Hown2).
  rewrite Hcp2. exists r, (h2 ++ ext2).
  assert (Hlen : (List.length (h ++ ext) <= List.length h2)%nat).
  { pose proof (Hag (List.length (h ++ ext) - 1)%nat ltac:(lia)) as Hs.
    destruct (read (List.length (h ++ ext) - 1)%nat (h ++ ext)) as [o |] eqn:Hn.
    - apply read_some_lt in Hs. lia.
    - unfold read in Hn. apply nth_error_None in Hn. lia. }
  assert (Hp : (p < List.length h)%nat).
  { unfold content in Hc. destruct (read p h) eqn:Hr; [| discriminate].
    eapply read_some_lt; eauto. }
  split; [reflexivity |]. split; [apply Hown2, agree_on_refl |].
  split; [rewrite length_app in Hlen; lia |].
  split; [lia |]. split.
  - intros l Hl. apply read_app_old. lia.
  - apply agree_on_app; [exact Hlen | exact Hag].
Qed.

(** A path of two cells is put, then read; the array read and the array
    put are both emptied; the next read still gives the two cells. *)
Lemma PathCache_get_after_put_witness :
  let h := [Cell 0 0; Cell 1 0; Arr [0%nat; 1%nat]] in
  1 <= RefCache.limit (RefCache.new 2) /\
  Heap.content 2%nat h = Some [GridPoint.mk 0 0; GridPoint.mk 1 0] /\
  exists c1 h1 r h2,
    RefCache.set "a"%string 2%nat (RefCache.new 2) h = Some (c1, h1) /\
    RefCache.get "a"%string c1 h1 = Some (Some r, h2) /\
    exists r' h3,
      RefCache.get "a"%string c1 (write 2%nat (Arr []) (write r (Arr []) h2))
      = Some (Some r', h3) /\
      Heap.content r' h3 = Some [GridPoint.mk 0 0; GridPoint.mk 1 0].
Proof.
  intros h.
  assert (Hlim : 1 <= RefCache.limit (RefCache.new 2)) by (simpl; lia).
  assert (Hc : Heap.content 2%nat h
               = Some [GridPoint.mk 0 0; GridPoint.mk 1 0]) by reflexivity.
  split; [exact Hlim |]. split; [exact Hc |].
  destruct (PathCache_get_after_put (RefCache.new 2) h "a"%string 2%nat _
              Hlim Hc) as (c1 & h1 & Hset & Hget).
  injection Hset as <- <-.
  eexists. eexists. eexists. eexists.
  split; [reflexivity |]. split; [reflexivity |].
  match goal with
  | |- exists r' h3, RefCache.get _ _ ?hh = _ /\ _ =>
      destruct (Hget hh) as (r' & h3 & Hg & Hcont & _)
  end.
  - intros l Hl. simpl in Hl.
    rewrite !read_write_other by (simpl; lia).
    do 6 (destruct l as [| l]; [try lia; reflexivity |]). lia.
  - exists r', h3. split; [exact Hg | exact Hcont].
Defined.
End RefCacheFacts.

(* ================================================================= *)
(** ** The road matrix and its complement *)

Module GridFacts.

Lemma length_listSet {A : Type} (n : nat) (v : A) (l : list A) :
  List.length (listSet n v l) = List.length l.
Proof.
  revert n. induction l as [| a r IH]; intros [| n]; simpl; auto.
Qed.

Lemma nth_error_listSet_same {A : Type} (n : nat) (v : A) (l : list A) :
  (n < List.length l)%nat -> nth_error (listSet n v l) n = Some v.
Proof.
  revert n. induction l as [| a r IH]; intros [| n] H; simpl in *;
    try lia; [reflexivity |].
  apply IH. lia.
Qed.

Lemma nth_error_listSet_other {A : Type} (n n' : nat) (v : A) (l : list A) :
  n <> n' -> nth_error (listSet n v l) n' = nth_error l n'.
Proof.
  revert n n'. induction l as [| a r IH]; intros [| n] [| n'] H; simpl;
    try reflexivity; try congruence.
  apply IH. congruence.
Qed.

Lemma Forall_listSet {A : Type} (P : A -> Prop) (n : nat) (v : A)
  (l : list A) : P v -> Forall P l -> Forall P (listSet n v l).
Proof.
  intros Hv. revert n. induction l as [| a r IH]; intros [| n] H; simpl;
    try constructor; inversion H; subst; auto.
Qed.

Lemma dims_matrixSet m x y v : grid_dims m -> grid_dims (matrixSet m x y v).
Proof.
  intros [Hh Hw]. unfold matrixSet.
  destruct ((x <? 0) || (y <? 0)); [now split |].
  destruct (nth_error m (Z.to_nat y)) as [row |] eqn:Hrow; [| now split].
  split.
  - now rewrite length_listSet.
  - apply Forall_listSet; [| assumption].
    rewrite length_listSet. rewrite Forall_forall in Hw. apply Hw.
    eapply nth_error_In; eauto.
Qed.

Lemma matrixGet_inside m x y :
  grid_dims m -> isInside x y = true -> exists v, matrixGet m x y = Some v.
Proof.
  intros [Hh Hw] Hin. unfold isInside in Hin.
  apply andb_true_iff in Hin. destruct Hin as [Hin Hy].
  apply andb_true_iff in Hin. destruct Hin as [Hin Hx].
  apply andb_true_iff in Hin. destruct Hin as [Hx0 Hy0].
  apply Z.geb_le in Hx0, Hy0. apply Z.ltb_lt in Hx, Hy.
  unfold matrixGet.
  replace ((x <? 0) || (y <? 0)) with false
    by (symmetry; apply orb_false_iff; split; apply Z.ltb_ge; lia).
  destruct (nth_error m (Z.to_nat y)) as [row |] eqn:Hrow.
  - rewrite Forall_forall in Hw.
    pose proof (Hw row (nth_error_In _ _ Hrow)) as Hlen.
    destruct (nth_error row (Z.to_nat x)) as [v |] eqn:Hv; [eauto |].
    apply nth_error_None in Hv. lia.
  - apply nth_error_None in Hrow. lia.
Qed.

Lemma matrixGet_some_inside m x y v :
  grid_dims m -> matrixGet m x y = Some v -> isInside x y = true.
Proof.
  intros [Hh Hw]. unfold matrixGet, isInside.
  destruct (x <? 0) eqn:Hx0; [discriminate |].
  destruct (y <? 0) eqn:Hy0; [discriminate |]. simpl.
  apply Z.ltb_ge in Hx0, Hy0.
  destruct (nth_error m (Z.to_nat y)) as [row |] eqn:Hrow; [| discriminate].
  intros Hv.
  assert (Hy : (Z.to_nat y < List.length m)%nat)
    by (apply nth_error_Some; congruence).
  assert (Hx : (Z.to_nat x < List.length row)%nat)
    by (apply nth_error_Some; congruence).
  rewrite Forall_forall in Hw.
  rewrite (Hw row (nth_error_In _ _ Hrow)) in Hx.
  repeat (apply andb_true_iff; split);
    try (apply Z.geb_le; lia); apply Z.ltb_lt; lia.
Qed.

Lemma matrixGet_matrixSet_same m x y v w :
  matrixGet m x y = Some w -> matrixGet (matrixSet m x y v) x y = Some v.
Proof.
  unfold matrixGet, matrixSet.
  destruct ((x <? 0) || (y <? 0)); [discriminate |].
  destruct (nth_error m (Z.to_nat y)) as [row |] eqn:Hrow; [| discriminate].
  intros Hv.
  rewrite nth_error_listSet_same by (apply nth_error_Some; congruence).
  apply nth_error_listSet_same. apply nth_error_Some. congruence.
Qed.

Lemma matrixGet_matrixSet_other m x y v x' y' :
  (x, y) <> (x', y') ->
  matrixGet (matrixSet m x y v) x' y' = matrixGet m x' y'.
Proof.
  intros Hne. unfold matrixGet, matrixSet.
  destruct (x <? 0) eqn:Hx0; [reflexivity |].
  destruct (y <? 0) eqn:Hy0; [reflexivity |]. simpl.
  destruct (x' <? 0) eqn:Hx0'; [reflexivity |].
  destruct (y' <? 0) eqn:Hy0'; [reflexivity |]. simpl.
  apply Z.ltb_ge in Hx0, Hy0, Hx0', Hy0'.
  destruct (nth_error m (Z.to_nat y)) as [row |] eqn:Hrow; [| reflexivity].
  destruct (Nat.eq_dec (Z.to_nat y) (Z.to_nat y')) as [Ey | Ny].
  - rewrite <- Ey.
    rewrite nth_error_listSet_same by (apply nth_error_Some; congruence).
    rewrite Hrow. apply nth_error_listSet_other.
    intros Ex. apply Hne. f_equal; lia.
  - now rewrite nth_error_listSet_other.
Qed.

Lemma complement_set g wm x y v :
  complement g wm ->
  complement (matrixSet g x y v)
             (matrixSet wm x y (if v =? 1 then 0 else 1)).
Proof.
  intros (Hg & Hw & Hc). split; [now apply dims_matrixSet |].
  split; [now apply dims_matrixSet |].
  intros x' y' Hin.
  destruct (Hc x' y' Hin) as (v' & Hgv & Hwv).
  destruct (Z.eq_dec x x') as [-> | Nx].
  - destruct (Z.eq_dec y y') as [-> | Ny].
    + exists v. split; eapply matrixGet_matrixSet_same; eauto.
    + exists v'. rewrite !matrixGet_matrixSet_other by congruence. auto.
  - exists v'. rewrite !matrixGet_matrixSet_other by congruence. auto.
Qed.

Lemma nth_error_repeat {A : Type} (a : A) (n i : nat) :
  (i < n)%nat -> nth_error (repeat a n) i = Some a.
Proof.
  revert i. induction n as [| n IH]; intros [| i] H; simpl; try lia;
    [reflexivity |].
  apply IH. lia.
Qed.

Lemma dims_repeat v :
  grid_dims (repeat (repeat v (Z.to_nat gridWidth)) (Z.to_nat gridHeight)).
Proof.
  split.
  - apply repeat_length.
  - apply Forall_forall. intros row Hrow. apply repeat_spec in Hrow.
    subst. apply repeat_length.
Qed.

Lemma matrixGet_repeat v x y :
  isInside x y = true ->
  matrixGet (repeat (repeat v (Z.to_nat gridWidth)) (Z.to_nat gridHeight))
            x y = Some v.
Proof.
  intros Hin.
  destruct (matrixGet_inside _ x y (dims_repeat v) Hin) as [w Hw].
  rewrite Hw. f_equal. unfold matrixGet in Hw.
  destruct ((x <? 0) || (y <? 0)); [discriminate |].
  destruct (nth_error _ (Z.to_nat y)) as [row |] eqn:Hrow; [| discriminate].
  apply nth_error_In, repeat_spec in Hrow. subst row.
  apply nth_error_In, repeat_spec in Hw. exact Hw.
Qed.

Lemma complement_initial :
  complement (repeat (repeat 0 (Z.to_nat gridWidth)) (Z.to_nat gridHeight))
             (repeat (repeat 1 (Z.to_nat gridWidth)) (Z.to_nat gridHeight)).
Proof.
  split; [apply dims_repeat |]. split; [apply dims_repeat |].
  intros x y Hin. exists 0. split; now apply matrixGet_repeat.
Qed.
End GridFacts.

Module SceneFacts.
Import GridFacts.

Local Opaque gridWidth gridHeight range Z.to_nat.

Lemma matrices_rebuildSpawnOrder st :
  matrices (rebuildSpawnOrder st) = matrices st.
Proof. reflexivity. Qed.

Lemma matrices_showFlash m d st : matrices (showFlash m d st) = matrices st.
Proof. reflexivity. Qed.

Lemma matrices_invalidatePaths d st :
  matrices (invalidatePaths d st) = matrices st.
Proof. reflexivity. Qed.

Lemma matrices_setRoadValue x y v st :
  matrices (fst (setRoadValue x y v st)) = matrices st \/
  matrices (fst (setRoadValue x y v st))
  = (matrixSet (grid st) x y v,
     matrixSet (walkMatrix st) x y (if v =? 1 then 0 else 1)).
Proof.
  unfold setRoadValue.
  destruct (negb (isInside x y)); [now left |].
  destruct (match matrixGet (grid st) x y with
            | Some p => p =? v
            | None => false
            end); [now left |].
  right. destruct (v =? 1); [reflexivity |].
  cbv zeta. destruct (JsMap.has _ _); reflexivity.
Qed.

Lemma complement_of_matrices st st' :
  matrices st' = matrices st -> scene_complement st -> scene_complement st'.
Proof.
  unfold matrices, scene_complement. intros [= -> ->]. auto.
Qed.

Lemma complement_setRoadValue x y v st :
  scene_complement st -> scene_complement (fst (setRoadValue x y v st)).
Proof.
  intros H. destruct (matrices_setRoadValue x y v st) as [E | E].
  - eapply complement_of_matrices; eauto.
  - unfold scene_complement. unfold matrices in E.
    injection E as -> ->. now apply complement_set.
Qed.

Lemma complement_fold {A : Type} (f : GameScene -> A -> GameScene)
  (l : list A) :
  (forall s a, scene_complement s -> scene_complement (f s a)) ->
  forall st, scene_complement st -> scene_complement (fold_left f l st).
Proof.
  intros Hf. induction l as [| a r IH]; intros st H; simpl; auto.
Qed.

Lemma matrices_points sp dp st :
  matrices (rebuildSpawnOrder
              (with_destinationPoints dp (with_spawnPoints sp st)))
  = matrices st.
Proof. reflexivity. Qed.

Lemma complement_seedSimpleRoads st :
  scene_complement st -> scene_complement (seedSimpleRoads st).
Proof.
  intros H. unfold seedSimpleRoads. cbv zeta.
  eapply complement_of_matrices; [apply matrices_points |].
  repeat (apply complement_fold;
          [intros; cbv beta; repeat apply complement_setRoadValue;
           assumption |]).
  exact H.
Qed.

Lemma complement_initializeGrid st : scene_complement (initializeGrid st).
Proof. apply complement_initial. Qed.

Lemma matrices_clearCars st : matrices (clearCars st) = matrices st.
Proof.
  unfold clearCars. cbv zeta.
  change (matrices (fold_left (fun s car => destroySprite (Car.sprite car) s)
                              (cars st) st) = matrices st).
  generalize (cars st) as l. intros l. revert st.
  induction l as [| a r IH]; intros st; simpl; [reflexivity |].
  now rewrite IH.
Qed.

Lemma matrices_reset_tail sp st :
  matrices (with_roadCount 0
              (with_pathCache (PathCache.clear (pathCache
                 (with_destinationPoints JsMap.empty
                    (rebuildSpawnOrder (with_spawnPoints sp st)))))
                 (with_destinationPoints JsMap.empty
                    (rebuildSpawnOrder (with_spawnPoints sp st)))))
  = matrices st.
Proof. reflexivity. Qed.

Lemma matrices_redraw m d st :
  matrices (showFlash m d (forceRedraw st)) = matrices st.
Proof. reflexivity. Qed.

Lemma complement_resetMap st :
  scene_complement st -> scene_complement (resetMap st).
Proof.
  intros H. unfold resetMap. cbv zeta.
  eapply complement_of_matrices; [apply matrices_redraw |].
  apply complement_seedSimpleRoads.
  eapply complement_of_matrices; [apply matrices_clearCars |].
  eapply complement_of_matrices; [apply matrices_reset_tail |].
  apply complement_fold; [| exact H].
  intros s y Hs. apply complement_fold; [| exact Hs].
  intros s' x Hs'. unfold scene_complement in *.
  apply (complement_set _ _ x y 0 Hs').
Qed.

Lemma matrices_toggleSpawn c st : matrices (toggleSpawn c st) = matrices st.
Proof.
  unfold toggleSpawn. destruct (negb _); [reflexivity |].
  cbv zeta. destruct (JsMap.has _ _); reflexivity.
Qed.

Lemma matrices_removeSpawn c st : matrices (removeSpawn c st) = matrices st.
Proof. unfold removeSpawn. destruct (JsMap.has _ _); reflexivity. Qed.

Lemma matrices_toggleDestination c st :
  matrices (toggleDestination c st) = matrices st.
Proof.
  unfold toggleDestination. destruct (negb _); [reflexivity |].
  cbv zeta. destruct (JsMap.has _ _); reflexivity.
Qed.

Lemma matrices_removeDestination c st :
  matrices (removeDestination c st) = matrices st.
Proof. unfold removeDestination. destruct (JsMap.has _ _); reflexivity. Qed.

Lemma matrices_findPath a b st :
  matrices (snd (findPath a b st)) = matrices st.
Proof.
  unfold findPath. destruct (PathCache.get _ _); [reflexivity |].
  cbv zeta. destruct (0 <? _); reflexivity.
Qed.

Lemma matrices_createCar nz p c m st :
  matrices (createCar nz p c m st) = matrices st.
Proof.
  unfold createCar. destruct (_ <? 2); [reflexivity |].
  cbv zeta. destruct (map cellToWorldVector _) as [| s [| n r]];
    reflexivity.
Qed.

Lemma matrices_removeCarAt i st st' :
  removeCarAt i st = Some st' -> matrices st' = matrices st.
Proof.
  unfold removeCarAt. cbv zeta. destruct (nth_error _ _); [| discriminate].
  intros [= <-]. reflexivity.
Qed.

Lemma complement_step nz o st :
  scene_complement st -> scene_complement (step nz o st).
Proof.
  intros H. destruct o; simpl.
  - apply complement_initializeGrid.
  - now apply complement_setRoadValue.
  - now apply complement_seedSimpleRoads.
  - now apply complement_resetMap.
  - eapply complement_of_matrices; [apply matrices_toggleSpawn | exact H].
  - eapply complement_of_matrices; [apply matrices_removeSpawn | exact H].
  - eapply complement_of_matrices; [apply matrices_toggleDestination | exact H].
  - eapply complement_of_matrices; [apply matrices_removeDestination | exact H].
  - eapply complement_of_matrices; [apply matrices_findPath | exact H].
  - eapply complement_of_matrices; [apply matrices_createCar | exact H].
  - destruct (removeCarAt index st) eqn:E; [| exact H].
    eapply complement_of_matrices; [eapply matrices_removeCarAt; eauto | exact H].
  - eapply complement_of_matrices; [apply matrices_clearCars | exact H].
Qed.

Lemma complement_run nz ops st :
  scene_complement st -> scene_complement (run nz ops st).
Proof.
  revert st. induction ops as [| o r IH]; intros st H; simpl; [exact H |].
  apply IH. now apply complement_step.
Qed.

Lemma isRoad_iff st x y :
  isRoad st x y = true <->
  isInside x y = true /\ matrixGet (grid st) x y = Some 1.
Proof.
  unfold isRoad. rewrite andb_true_iff.
  destruct (matrixGet (grid st) x y) as [v |].
  - rewrite Z.eqb_eq. split; intros [H1 H2]; split; congruence.
  - split; intros [H1 H2]; discriminate.
Qed.

(** C2. After the grid was initialised, and then after any sequence of
    operations (setting road values, seeding, resetting, initialising
    again, and the operations that leave the grid alone), the stored
    search matrix holds 0 at an in-bounds cell exactly when the road
    matrix holds 1 there, and [isRoad] is true exactly on the in-bounds
    cells at which the road matrix holds 1. *)
Theorem walkMatrix_complements_grid (normalize : Vector2 -> Vector2)
  (st0 : GameScene) (ops : list Op) (x y : Z) :
  let st := run normalize ops (initializeGrid st0) in
  (isInside x y = true ->
     (matrixGet (walkMatrix st) x y = Some 0 <->
      matrixGet (grid st) x y = Some 1)) /\
  (isRoad st x y = true <->
     isInside x y = true /\ matrixGet (grid st) x y = Some 1).
Proof.
  intros st. split; [| apply isRoad_iff].
  intros Hin.
  assert (H : scene_complement st)
    by (apply complement_run, complement_initializeGrid).
  destruct H as (_ & _ & H). destruct (H x y Hin) as (v & Hg & Hw).
  rewrite Hg, Hw. destruct (Z.eqb_spec v 1) as [-> | Hne].
  - tauto.
  - split; intros [= E]; congruence.
Qed.
End SceneFacts.

(* ================================================================= *)
(** ** Vehicle ids *)

Module FleetFacts.

Local Opaque gridWidth gridHeight range.

Lemma fleet_setRoadValue x y v st :
  fleet (fst (setRoadValue x y v st)) = fleet st.
Proof.
  unfold setRoadValue.
  destruct (negb (isInside x y)); [reflexivity |].
  destruct (match matrixGet (grid st) x y with
            | Some p => p =? v
            | None => false
            end); [reflexivity |].
  destruct (v =? 1); [reflexivity |].
  cbv zeta. destruct (JsMap.has _ _); reflexivity.
Qed.

Lemma fleet_fold {A : Type} (f : GameScene -> A -> GameScene) (l : list A) :
  (forall s a, fleet (f s a) = fleet s) ->
  forall st, fleet (fold_left f l st) = fleet st.
Proof.
  intros Hf. induction l as [| a r IH]; intros st; simpl; [reflexivity |].
  now rewrite IH, Hf.
Qed.

Lemma fleet_points sp dp st :
  fleet (rebuildSpawnOrder
           (with_destinationPoints dp (with_spawnPoints sp st)))
  = fleet st.
Proof. reflexivity. Qed.

Lemma fleet_seedSimpleRoads st : fleet (seedSimpleRoads st) = fleet st.
Proof.
  unfold seedSimpleRoads. cbv zeta. rewrite fleet_points.
  repeat (rewrite fleet_fold;
          [| intros; cbv beta; now rewrite ?fleet_setRoadValue]).
  reflexivity.
Qed.

Lemma cars_destroyAll l st :
  fleet (fold_left (fun s car => destroySprite (Car.sprite car) s) l st)
  = fleet st.
Proof. apply fleet_fold. reflexivity. Qed.

Lemma fleet_clearCars st : fleet (clearCars st) = ([], 0).
Proof. reflexivity. Qed.

Lemma fleet_redraw m d st :
  fleet (showFlash m d (forceRedraw st)) = fleet st.
Proof. reflexivity. Qed.

Lemma fleet_resetMap st : fleet (resetMap st) = ([], 0).
Proof.
  unfold resetMap. cbv zeta.
  rewrite fleet_redraw, fleet_seedSimpleRoads. apply fleet_clearCars.
Qed.

Lemma fleet_toggleSpawn c st : fleet (toggleSpawn c st) = fleet st.
Proof.
  unfold toggleSpawn. destruct (negb _); [reflexivity |].
  cbv zeta. destruct (JsMap.has _ _); reflexivity.
Qed.

Lemma fleet_removeSpawn c st : fleet (removeSpawn c st) = fleet st.
Proof. unfold removeSpawn. destruct (JsMap.has _ _); reflexivity. Qed.

Lemma fleet_toggleDestination c st :
  fleet (toggleDestination c st) = fleet st.
Proof.
  unfold toggleDestination. destruct (negb _); [reflexivity |].
  cbv zeta. destruct (JsMap.has _ _); reflexivity.
Qed.

Lemma fleet_removeDestination c st :
  fleet (removeDestination c st) = fleet st.
Proof. unfold removeDestination. destruct (JsMap.has _ _); reflexivity. Qed.

Lemma fleet_findPath a b st : fleet (snd (findPath a b st)) = fleet st.
Proof.
  unfold findPath. destruct (PathCache.get _ _); [reflexivity |].
  cbv zeta. destruct (0 <? _); reflexivity.
Qed.

(** [createCar] either leaves the fleet alone or appends one vehicle whose
    id is the counter after it was advanced by one. *)
Lemma fleet_createCar nz p c m st :
  fleet (createCar nz p c m st) = fleet st \/
  exists car,
    Car.id car = carId st + 1 /\
    fleet (createCar nz p c m st) = (cars st ++ [car], carId st + 1).
Proof.
  unfold createCar. destruct (_ <? 2); [now left |].
  cbv zeta. destruct (map cellToWorldVector _) as [| s [| n r]];
    try (now left).
  right. eexists. split; [| reflexivity]. reflexivity.
Qed.

Lemma fleet_removeCarAt i st st' :
  removeCarAt i st = Some st' ->
  exists n, fleet st' = (firstn n (cars st) ++ skipn (S n) (cars st), carId st).
Proof.
  unfold removeCarAt. cbv zeta. destruct (nth_error _ _); [| discriminate].
  intros [= <-]. eexists. reflexivity.
Qed.

Lemma fleet_initializeGrid st : fleet (initializeGrid st) = fleet st.
Proof. reflexivity. Qed.

Lemma sorted_remove (l : list Z) (n : nat) :
  StronglySorted Z.lt l ->
  StronglySorted Z.lt (firstn n l ++ skipn (S n) l).
Proof.
  revert n. induction l as [| a r IH]; intros n H.
  - destruct n; constructor.
  - inversion H as [| ? ? Hr Ha]; subst. destruct n as [| n]; simpl.
    + exact Hr.
    + constructor; [now apply IH |].
      rewrite Forall_forall in *. intros z Hz. apply Ha.
      apply in_app_or in Hz. destruct Hz as [Hz | Hz].
      * rewrite <- (firstn_skipn n r). apply in_or_app. now left.
      * rewrite <- (firstn_skipn (S n) r). apply in_or_app. now right.
Qed.

Lemma incl_remove {A : Type} (l : list A) (n : nat) (a : A) :
  In a (firstn n l ++ skipn (S n) l) -> In a l.
Proof.
  intros H. apply in_app_or in H. destruct H as [H | H].
  - rewrite <- (firstn_skipn n l). apply in_or_app. now left.
  - rewrite <- (firstn_skipn (S n) l). apply in_or_app. now right.
Qed.

Lemma sorted_snoc (l : list Z) (a : Z) :
  StronglySorted Z.lt l -> Forall (fun i => i < a) l ->
  StronglySorted Z.lt (l ++ [a]).
Proof.
  induction l as [| b r IH]; intros Hs Hf; simpl.
  - repeat constructor.
  - inversion Hs; subst. inversion Hf; subst.
    constructor; [now apply IH |].
    apply Forall_app. split; [assumption | now constructor].
Qed.

Lemma ordered_of_fleet st st' :
  fleet st' = fleet st -> fleet_ordered st -> fleet_ordered st'.
Proof. unfold fleet, fleet_ordered. intros [= -> ->]. auto. Qed.

Lemma ordered_empty st : fleet st = ([], 0) -> fleet_ordered st.
Proof.
  unfold fleet, fleet_ordered. intros [= -> ->]. split; constructor.
Qed.

Lemma ordered_step nz o st : fleet_ordered st -> fleet_ordered (step nz o st).
Proof.
  intros H. destruct o; simpl.
  - exact H.
  - eapply ordered_of_fleet; [apply fleet_setRoadValue | exact H].
  - eapply ordered_of_fleet; [apply fleet_seedSimpleRoads | exact H].
  - apply ordered_empty, fleet_resetMap.
  - eapply ordered_of_fleet; [apply fleet_toggleSpawn | exact H].
  - eapply ordered_of_fleet; [apply fleet_removeSpawn | exact H].
  - eapply ordered_of_fleet; [apply fleet_toggleDestination | exact H].
  - eapply ordered_of_fleet; [apply fleet_removeDestination | exact H].
  - eapply ordered_of_fleet; [apply fleet_findPath | exact H].
  - destruct (fleet_createCar nz path color maxSpeedDraw st)
      as [E | (car & Hid & E)].
    + eapply ordered_of_fleet; eauto.
    + destruct H as [Hs Hb]. unfold fleet in E. injection E as Ec Ei.
      unfold fleet_ordered. rewrite Ec, Ei, map_app. simpl. rewrite Hid.
      split.
      * apply sorted_snoc; [assumption |].
        eapply Forall_impl; [| exact Hb]. simpl. intros; lia.
      * apply Forall_app. split.
        -- eapply Forall_impl; [| exact Hb]. simpl. intros; lia.
        -- constructor; [lia | constructor].
  - destruct (removeCarAt index st) as [st' |] eqn:E; [| exact H].
    destruct (fleet_removeCarAt _ _ _ E) as [n En].
    destruct H as [Hs Hb]. unfold fleet in En. injection En as Ec Ei.
    unfold fleet_ordered. rewrite Ei.
    change (match cars st with [] => [] | _ :: l => skipn n l end)
      with (skipn (S n) (cars st)) in Ec.
    rewrite Ec, ?Ei. rewrite map_app, <- firstn_map, <- skipn_map. split.
    + now apply sorted_remove.
    + rewrite Forall_forall in *. intros z Hz. apply Hb.
      eapply incl_remove; eauto.
  - apply ordered_empty, fleet_clearCars.
Qed.

Lemma ordered_run nz ops st :
  fleet_ordered st -> fleet_ordered (run nz ops st).
Proof.
  revert st. induction ops as [| o r IH]; intros st H; simpl; [exact H |].
  apply IH. now apply ordered_step.
Qed.

Lemma fleet_forceRedraw st : fleet (forceRedraw st) = fleet st.
Proof. reflexivity. Qed.

Lemma fleet_refreshHud b st : fleet (refreshHud b st) = fleet st.
Proof. destruct b; reflexivity. Qed.

Lemma fleet_create st : fleet (create st) = fleet st.
Proof.
  unfold create.
  now rewrite fleet_forceRedraw, fleet_seedSimpleRoads, fleet_refreshHud,
    fleet_initializeGrid.
Qed.

Lemma ordered_create : fleet_ordered (create newGameScene).
Proof.
  apply (ordered_of_fleet newGameScene); [apply fleet_create |].
  split; constructor.
Qed.

(** What a step that does not clear does to the counter and which ids it
    hands out. *)
Lemma created_step nz o st :
  clearingOp o = false ->
  (map Car.id (createdBy nz o st) = [] /\ carId (step nz o st) = carId st) \/
  (map Car.id (createdBy nz o st) = [carId st + 1] /\
   carId (step nz o st) = carId st + 1).
Proof.
  intros Hc.
  assert (F : forall s, fleet s = fleet st -> carId s = carId st)
    by (unfold fleet; intros s [= _ ->]; reflexivity).
  destruct o; try discriminate Hc; unfold createdBy, step;
    try (left; split; [reflexivity |]).
  - reflexivity.
  - apply F, fleet_setRoadValue.
  - apply F, fleet_seedSimpleRoads.
  - apply F, fleet_toggleSpawn.
  - apply F, fleet_removeSpawn.
  - apply F, fleet_toggleDestination.
  - apply F, fleet_removeDestination.
  - apply F, fleet_findPath.
  - destruct (fleet_createCar nz path color maxSpeedDraw st)
      as [E | (car & Hid & E)]; unfold fleet in E; injection E as Ec Ei.
    + left. rewrite Ec, Ei, skipn_all. split; reflexivity.
    + right. rewrite Ec, Ei, skipn_app, skipn_all, Nat.sub_diag. simpl.
      now rewrite Hid.
  - destruct (removeCarAt index st) as [st' |] eqn:E; [| reflexivity].
    destruct (fleet_removeCarAt _ _ _ E) as [n En].
    unfold fleet in En. now injection En.
Qed.

Lemma createdIds_increasing nz ops : forall st,
  forallb (fun o => negb (clearingOp o)) ops = true ->
  StronglySorted Z.lt (createdIds nz ops st) /\
  Forall (fun i => carId st < i) (createdIds nz ops st).
Proof.
  induction ops as [| o r IH]; intros st Hops; simpl.
  - split; constructor.
  - simpl in Hops. apply andb_true_iff in Hops. destruct Hops as [Ho Hr].
    apply negb_true_iff in Ho.
    destruct (IH (step nz o st) Hr) as [Hs Hf].
    destruct (created_step nz o st Ho) as [[E Ei] | [E Ei]];
      rewrite E; rewrite Ei in Hf; simpl.
    + split; assumption.
    + split.
      * constructor; assumption.
      * constructor; [lia |].
        eapply Forall_impl; [| exact Hf]. simpl. intros; lia.
Qed.

(** C7, as the code has it.  The ids of the live vehicles are pairwise
    distinct and increase in the order of creation, whatever operations
    ran before.  Along operations among which none clears the vehicles
    ([clearCars], [resetMap]), removals included, every vehicle created
    gets an id strictly greater than the id of every vehicle created
    before it and of every vehicle alive at the start. *)
Theorem car_ids_increase_between_clears (normalize : Vector2 -> Vector2)
  (before ops : list Op) :
  forallb (fun o => negb (clearingOp o)) ops = true ->
  let st := run normalize before (create newGameScene) in
  StronglySorted Z.lt (map Car.id (cars st)) /\
  NoDup (map Car.id (cars st)) /\
  StronglySorted Z.lt (createdIds normalize ops st) /\
  Forall (fun i => Forall (fun j => j < i) (map Car.id (cars st)))
         (createdIds normalize ops st).
Proof.
  intros Hops st.
  assert (Ho : fleet_ordered st) by (apply ordered_run, ordered_create).
  destruct Ho as [Hs Hb].
  destruct (createdIds_increasing normalize ops st Hops) as [Hc Hf].
  split; [exact Hs |]. split.
  - clear - Hs. induction Hs as [| a l Hl IH Ha]; constructor; [| exact IH].
    intros HI. rewrite Forall_forall in Ha. specialize (Ha a HI). lia.
  - split; [exact Hc |].
    eapply Forall_impl; [| exact Hf]. simpl. intros i Hi.
    eapply Forall_impl; [| exact Hb]. simpl. intros; lia.
Qed.

Lemma car_ids_increase_between_clears_witness :
  let ops := [OpCreateCar [GridPoint.mk 24 4; GridPoint.mk 24 5] 0 60;
              OpRemoveCarAt 0;
              OpCreateCar [GridPoint.mk 24 5; GridPoint.mk 24 6] 1 70] in
  forallb (fun o => negb (clearingOp o)) ops = true /\
  StronglySorted Z.lt
    (createdIds (fun v => v) ops
       (run (fun v => v) [OpClearCars] (create newGameScene))).
Proof.
  intros ops.
  assert (H : forallb (fun o => negb (clearingOp o)) ops = true)
    by reflexivity.
  split; [exact H |].
  pose proof (car_ids_increase_between_clears (fun v => v) [OpClearCars]
                ops H) as T.
  cbv zeta in T. destruct T as (_ & _ & T & _). exact T.
Defined.

(** C7 as stated fails: a vehicle created after [clearCars] gets the id 1
    again, the id of the vehicle created before it. *)
Lemma car_ids_repeat_after_clear :
  let ids :=
    createdIds (fun v => v)
      [OpCreateCar [GridPoint.mk 24 4; GridPoint.mk 24 5] 0 60;
       OpClearCars;
       OpCreateCar [GridPoint.mk 24 4; GridPoint.mk 24 5] 0 60]
      (create newGameScene) in
  ids = [1; 1] /\ ~ NoDup ids.
Proof.
  assert (E : createdIds (fun v => v)
      [OpCreateCar [GridPoint.mk 24 4; GridPoint.mk 24 5] 0 60;
       OpClearCars;
       OpCreateCar [GridPoint.mk 24 4; GridPoint.mk 24 5] 0 60]
      (create newGameScene) = [1; 1]) by (vm_compute; reflexivity).
  cbv zeta. rewrite E. split; [reflexivity |].
  intros H. inversion H as [| ? ? Hn _]. apply Hn. now left.
Qed.
End FleetFacts.

(* ================================================================= *)
(** ** The car-following rule *)

Module AvoidanceFacts.
Local Open Scope Q_scope.

Lemma Qltb_iff (a b : Q) : Qltb a b = true <-> a < b.
Proof.
  unfold Qltb. rewrite negb_true_iff. split.
  - intros H. apply Qnot_le_lt. intros Hle.
    apply Qle_bool_iff in Hle. congruence.
  - intros H. destruct (Qle_bool b a) eqn:E; [| reflexivity].
    apply Qle_bool_iff in E. exfalso. now apply (Qlt_not_le a b).
Qed.

Lemma Qmin_cases (a b : Q) : Qmin a b = a \/ Qmin a b = b.
Proof.
  unfold Qmin, GenericMinMax.gmin. destruct (a ?= b); auto.
Qed.

Lemma follow_cases car desired other :
  (Car.same other car = false /\ blocks car other /\
   follow car desired other = Qmin desired (speedCap other)) \/
  (~ (Car.same other car = false /\ blocks car other) /\
   follow car desired other = desired).
Proof.
  unfold follow, blocks, speedCap, safeDistance.
  destruct (Car.same other car); [right; split; [intros [? _]; discriminate | reflexivity] |].
  destruct (Qle_bool (forwardness car other) 0) eqn:E1.
  { right. split; [| reflexivity]. apply Qle_bool_iff in E1. tauto. }
  destruct (Qltb (Car.width car * (9 # 10)) (lateral car other)) eqn:E2.
  { right. split; [| reflexivity]. apply Qltb_iff in E2. tauto. }
  destruct (Qltb (forwardness car other) _) eqn:E3.
  - left. apply Qltb_iff in E3. repeat split; try assumption.
    + intros H. apply Qle_bool_iff in H. congruence.
    + intros H. apply Qltb_iff in H. congruence.
  - right. split; [| reflexivity]. intros (_ & _ & _ & H).
    apply Qltb_iff in H. congruence.
Qed.

Lemma fold_follow car nearby : forall acc,
  let d := fold_left (follow car) nearby acc in
  d <= acc /\
  (20 <= acc -> 20 <= d) /\
  (forall o, In o nearby -> Car.same o car = false -> blocks car o ->
             d <= speedCap o) /\
  (d = acc \/
   exists o, In o nearby /\ Car.same o car = false /\ blocks car o /\
             d = speedCap o).
Proof.
  induction nearby as [| o r IH]; intros acc; simpl.
  - split; [apply Qle_refl |]. split; [auto |]. split; [tauto | now left].
  - destruct (IH (follow car acc o)) as (Hle & Hfloor & Hcaps & Hwho).
    destruct (follow_cases car acc o) as [(Hs & Hb & E) | (Hn & E)];
      rewrite E in *.
    + split; [eapply Qle_trans; [exact Hle | apply Q.le_min_l] |].
      split.
      { intros H20. apply Hfloor. apply Q.min_glb; [exact H20 |].
        unfold speedCap. apply Q.le_max_l. }
      split.
      { intros o' [<- | Hin] Hs' Hb'.
        - eapply Qle_trans; [exact Hle | apply Q.le_min_r].
        - now apply Hcaps. }
      destruct Hwho as [Hd | (o' & Hin & Hs' & Hb' & Hd)].
      * destruct (Qmin_cases acc (speedCap o)) as [Em | Em].
        -- left. congruence.
        -- right. exists o. split; [now left |]. split; [exact Hs |].
           split; [exact Hb | congruence].
      * right. exists o'. split; [now right |]. auto.
    + split; [exact Hle |]. split; [exact Hfloor |]. split.
      { intros o' [<- | Hin] Hs' Hb'; [tauto | now apply Hcaps]. }
      destruct Hwho as [Hd | (o' & Hin & Hs' & Hb' & Hd)]; [now left |].
      right. exists o'. split; [now right |]. auto.
Qed.

(** C4. For a vehicle whose [maxSpeed] is at least 20 and any list of
    neighbours, the desired speed is at least 20; it is the least of the
    vehicle's [maxSpeed] and of the caps [max(20, currentSpeed - 10)] of
    the neighbours that block it: those with a positive forward
    projection, a lateral offset of at most 0.9 times the vehicle's
    width, and a forward distance below
    [max(1.5 * length, currentSpeed * 0.6 + 20)]. *)
Theorem desired_speed_floor (car : Car) (nearby : list Car) :
  20 <= Car.maxSpeed car ->
  let d := computeDesiredSpeed car nearby in
  20 <= d /\
  d <= Car.maxSpeed car /\
  (forall o, In o nearby -> Car.same o car = false -> blocks car o ->
             d <= speedCap o) /\
  (d = Car.maxSpeed car \/
   exists o, In o nearby /\ Car.same o car = false /\ blocks car o /\
             d = speedCap o).
Proof.
  intros Hmax d.
  destruct (fold_follow car nearby (Car.maxSpeed car))
    as (Hle & Hfloor & Hcaps & Hwho).
  change (fold_left (follow car) nearby (Car.maxSpeed car)) with d in *.
  auto.
Qed.

(** A vehicle driving east at speed 30 with a stopped vehicle 20 units
    ahead of it: the desired speed is the floor, 20. *)
Lemma desired_speed_floor_witness :
  let car := sampleCar 0 (Vector2.mk 100 100) 30 in
  let lead := sampleCar 1 (Vector2.mk 120 100) 0 in
  20 <= Car.maxSpeed car /\
  20 <= computeDesiredSpeed car [lead] /\
  computeDesiredSpeed car [lead] == 20.
Proof.
  intros car lead.
  assert (H : 20 <= Car.maxSpeed car) by (unfold Qle; simpl; lia).
  split; [exact H |]. split.
  - exact (proj1 (desired_speed_floor car [lead] H)).
  - vm_compute. reflexivity.
Defined.
End AvoidanceFacts.

(* ================================================================= *)
(** ** Nearest road cell *)

Module NearestFacts.

Lemma in_range lo hi z : In z (range lo hi) <-> lo <= z < hi.
Proof.
  unfold range. rewrite in_map_iff. split.
  - intros (i & <- & Hi). apply in_seq in Hi. lia.
  - intros H. exists (Z.to_nat (z - lo)). split; [lia |].
    apply in_seq. lia.
Qed.

Lemma range_cons lo hi : lo < hi -> range lo hi = lo :: range (lo + 1) hi.
Proof.
  intros H. unfold range.
  replace (Z.to_nat (hi - lo)) with (S (Z.to_nat (hi - (lo + 1)))) by lia.
  cbn [seq map]. f_equal; [lia |].
  rewrite <- seq_shift, map_map. apply map_ext. intros i. lia.
Qed.

Lemma range_split_nat (n : nat) : forall lo r hi,
  Z.to_nat (r - lo) = n -> lo <= r < hi ->
  range lo hi = range lo r ++ r :: range (r + 1) hi.
Proof.
  induction n as [| n IH]; intros lo r hi Hn H.
  - assert (r = lo) as -> by lia.
    rewrite (range_cons lo hi) by lia.
    assert (E : range lo lo = []).
    { unfold range. now replace (Z.to_nat (lo - lo)) with 0%nat by lia. }
    now rewrite E.
  - rewrite (range_cons lo hi), (range_cons lo r) by lia. simpl. f_equal.
    apply IH; lia.
Qed.

Lemma range_split lo r hi :
  lo <= r < hi -> range lo hi = range lo r ++ r :: range (r + 1) hi.
Proof. intros H. now apply (range_split_nat (Z.to_nat (r - lo))). Qed.

Lemma fold_row {A B S : Type} (f : A -> B -> S -> S) (a : A)
  (xs : list B) : forall acc,
  fold_left (fun acc b => f a b acc) xs acc
  = fold_left (fun acc p => f (fst p) (snd p) acc)
              (map (fun y => (a, y)) xs) acc.
Proof.
  induction xs as [| b xs IHx]; intros acc; simpl;
    [reflexivity | apply IHx].
Qed.

Lemma fold_nested {A B S : Type} (f : A -> B -> S -> S) (xs : list B)
  (ys : list A) : forall acc,
  fold_left (fun acc a => fold_left (fun acc b => f a b acc) xs acc) ys acc
  = fold_left (fun acc p => f (fst p) (snd p) acc) (list_prod ys xs) acc.
Proof.
  induction ys as [| a r IH]; intros acc; simpl; [reflexivity |].
  now rewrite fold_left_app, <- IH, fold_row.
Qed.

Section Ring.
Variables (st : GameScene) (worldPosition : Vector2).
Variables (baseX baseY radius : Z).

Let stepOf (acc : option (GridPoint * Q)) (p : Z * Z) :=
  ringStep st worldPosition baseX baseY radius (fst p) (snd p) acc.

Lemma isRoad_inside x y : isRoad st x y = true -> isInside x y = true.
Proof. unfold isRoad. intros H. now apply andb_true_iff in H. Qed.

Lemma ringStep_off p acc :
  ~ onRing st baseX baseY radius p -> stepOf acc p = acc.
Proof.
  unfold onRing, stepOf, ringStep. intros H.
  destruct (Z.eqb_spec (Z.max (Z.abs (snd p)) (Z.abs (fst p))) radius)
    as [E | E]; simpl; [| reflexivity].
  destruct (isInside _ _); simpl; [| reflexivity].
  destruct (isRoad st _ _) eqn:Hr; simpl; [tauto | reflexivity].
Qed.

Lemma ringStep_on p acc :
  onRing st baseX baseY radius p ->
  let c := GridPoint.mk (baseX + snd p) (baseY + fst p) in
  let d := centerDistance worldPosition c in
  stepOf acc p =
  match acc with
  | None => Some (c, d)
  | Some (_, best) => if Qltb d best then Some (c, d) else acc
  end.
Proof.
  unfold onRing, stepOf, ringStep. intros [E Hr].
  rewrite (proj2 (Z.eqb_eq _ _) E), (isRoad_inside _ _ Hr), Hr.
  reflexivity.
Qed.

Lemma onRing_dec p :
  onRing st baseX baseY radius p \/ ~ onRing st baseX baseY radius p.
Proof.
  unfold onRing.
  destruct (Z.eq_dec (Z.max (Z.abs (snd p)) (Z.abs (fst p))) radius);
    destruct (isRoad st (baseX + snd p) (baseY + fst p));
    intuition congruence.
Qed.

Lemma ringBest_step seen acc p :
  ringBest st worldPosition baseX baseY radius seen acc ->
  ringBest st worldPosition baseX baseY radius (seen ++ [p])
           (stepOf acc p).
Proof.
  intros H. destruct (onRing_dec p) as [Hon | Hoff].
  - rewrite (ringStep_on p acc Hon). cbv zeta.
    destruct acc as [[c best] |]; simpl in H.
    + destruct H as (Hd & (q & Hq & Hqon & Hc) & Hmin).
      destruct (Qltb _ best) eqn:Hlt.
      * simpl. split; [reflexivity |]. split.
        { exists p. split; [apply in_or_app; right; now left |]. auto. }
        intros q' Hq' Hon'. apply in_app_or in Hq'.
        destruct Hq' as [Hq' | [<- | []]]; [| apply Qle_refl].
        apply AvoidanceFacts.Qltb_iff in Hlt.
        eapply Qle_trans; [apply Qlt_le_weak; exact Hlt |].
        now apply Hmin.
      * simpl. split; [exact Hd |]. split.
        { exists q. split; [apply in_or_app; now left |]. auto. }
        intros q' Hq' Hon'. apply in_app_or in Hq'.
        destruct Hq' as [Hq' | [<- | []]]; [now apply Hmin |].
        apply Qnot_lt_le. intros Hc'.
        apply AvoidanceFacts.Qltb_iff in Hc'. congruence.
    + simpl. split; [reflexivity |]. split.
      { exists p. split; [apply in_or_app; right; now left |]. auto. }
      intros q' Hq' Hon'. apply in_app_or in Hq'.
      destruct Hq' as [Hq' | [<- | []]]; [| apply Qle_refl].
      exfalso. now apply (H q').
  - rewrite (ringStep_off p acc Hoff).
    destruct acc as [[c best] |]; simpl in *.
    + destruct H as (Hd & (q & Hq & Hqon & Hc) & Hmin).
      split; [exact Hd |]. split.
      { exists q. split; [apply in_or_app; now left |]. auto. }
      intros q' Hq' Hon'. apply in_app_or in Hq'.
      destruct Hq' as [Hq' | [<- | []]]; [now apply Hmin | tauto].
    + intros q' Hq'. apply in_app_or in Hq'.
      destruct Hq' as [Hq' | [<- | []]]; [now apply H | exact Hoff].
Qed.

Lemma ringBest_fold todo : forall seen acc,
  ringBest st worldPosition baseX baseY radius seen acc ->
  ringBest st worldPosition baseX baseY radius (seen ++ todo)
           (fold_left stepOf todo acc).
Proof.
  induction todo as [| p r IH]; intros seen acc H; simpl.
  - now rewrite app_nil_r.
  - replace (seen ++ p :: r) with ((seen ++ [p]) ++ r)
      by (now rewrite <- app_assoc).
    apply IH. now apply ringBest_step.
Qed.

Lemma scanRing_best :
  ringBest st worldPosition baseX baseY radius
    (list_prod (range (- radius) (radius + 1))
               (range (- radius) (radius + 1)))
    (scanRing st worldPosition baseX baseY radius).
Proof.
  unfold scanRing.
  rewrite (fold_nested
             (fun dy dx acc =>
                ringStep st worldPosition baseX baseY radius dy dx acc)).
  apply (ringBest_fold _ [] None). simpl. tauto.
Qed.
End Ring.

Lemma offset_on_ring st baseX baseY radius c :
  roadCell st c -> chebyshev baseX baseY c = radius ->
  let p := (GridPoint.y c - baseY, GridPoint.x c - baseX) in
  In p (list_prod (range (- radius) (radius + 1))
                  (range (- radius) (radius + 1))) /\
  onRing st baseX baseY radius p /\
  GridPoint.mk (baseX + snd p) (baseY + fst p) = c.
Proof.
  intros Hr Hc. cbv zeta. unfold roadCell, chebyshev, onRing in *. simpl.
  split; [| split].
  - apply in_prod; apply in_range; lia.
  - split; [exact Hc |].
    now replace (baseX + (GridPoint.x c - baseX)) with (GridPoint.x c) by lia;
      replace (baseY + (GridPoint.y c - baseY)) with (GridPoint.y c) by lia.
  - destruct c as [cx cy]. simpl. f_equal; lia.
Qed.

Lemma scanRing_none st pos baseX baseY radius :
  scanRing st pos baseX baseY radius = None ->
  forall c, roadCell st c -> chebyshev baseX baseY c <> radius.
Proof.
  intros E c Hr Hc.
  pose proof (scanRing_best st pos baseX baseY radius) as H.
  rewrite E in H. simpl in H.
  destruct (offset_on_ring st baseX baseY radius c Hr Hc) as (Hin & Hon & _).
  exact (H _ Hin Hon).
Qed.

Lemma scanRing_some st pos baseX baseY radius c d :
  scanRing st pos baseX baseY radius = Some (c, d) ->
  roadCell st c /\ chebyshev baseX baseY c = radius /\
  forall c', roadCell st c' -> chebyshev baseX baseY c' = radius ->
             (centerDistance pos c <= centerDistance pos c')%Q.
Proof.
  intros E.
  pose proof (scanRing_best st pos baseX baseY radius) as H.
  rewrite E in H. simpl in H.
  destruct H as (Hd & (p & Hp & [Hpr Hproad] & Hc) & Hmin).
  subst c d. split; [exact Hproad |]. split.
  - unfold chebyshev. simpl.
    now replace (baseX + snd p - baseX) with (snd p) by lia;
      replace (baseY + fst p - baseY) with (fst p) by lia.
  - intros c' Hr' Hc'.
    destruct (offset_on_ring st baseX baseY radius c' Hr' Hc')
      as (Hin & Hon & Heq).
    specialize (Hmin _ Hin Hon). now rewrite Heq in Hmin.
Qed.

Lemma searchRings_none st pos baseX baseY radii :
  (forall r, In r radii -> scanRing st pos baseX baseY r = None) ->
  searchRings st pos baseX baseY radii = None.
Proof.
  induction radii as [| r rest IH]; intros H; simpl; [reflexivity |].
  rewrite (H r) by now left. apply IH. intros q Hq. apply H. now right.
Qed.

Lemma searchRings_first st pos baseX baseY pre r post c d :
  (forall q, In q pre -> scanRing st pos baseX baseY q = None) ->
  scanRing st pos baseX baseY r = Some (c, d) ->
  searchRings st pos baseX baseY (pre ++ r :: post) = Some c.
Proof.
  induction pre as [| q pre IH]; intros H E; simpl.
  - now rewrite E.
  - rewrite (H q) by now left. apply IH; [| exact E].
    intros q' Hq'. apply H. now right.
Qed.

(** No road cell on the ring means the scan of the ring finds nothing. *)
Lemma scanRing_empty st pos baseX baseY radius :
  (forall c, roadCell st c -> chebyshev baseX baseY c <> radius) ->
  scanRing st pos baseX baseY radius = None.
Proof.
  intros H.
  destruct (scanRing st pos baseX baseY radius) as [[c d] |] eqn:E;
    [| reflexivity].
  destruct (scanRing_some _ _ _ _ _ _ _ E) as (Hr & Hc & _).
  exfalso. exact (H c Hr Hc).
Qed.

(** C5, as the code has it.  For a position whose containing cell
    [(baseX, baseY)] is in bounds: when that cell is a road it is
    returned; otherwise, when the rings of Chebyshev radius 1 to [r - 1]
    hold no road cell and the ring of radius [r] holds one, for an [r]
    from 1 to [max(1, maxRadius)], the result is a road cell of the ring
    [r] whose tile centre is at least as close to the position as that of
    every road cell of the ring; and when no road cell lies on the rings
    1 to [max(1, maxRadius)], in particular on a grid without roads, the
    result is none. *)
Theorem findNearestRoadCell_rings (worldPosition : Vector2)
  (maxRadius : Z) (st : GameScene) :
  let baseX := Qfloor (Vector2.x worldPosition / inject_Z tileSize) in
  let baseY := Qfloor (Vector2.y worldPosition / inject_Z tileSize) in
  let found := findNearestRoadCell worldPosition maxRadius st in
  isInside baseX baseY = true ->
  (isRoad st baseX baseY = true ->
     found = Some (GridPoint.mk baseX baseY)) /\
  (isRoad st baseX baseY = false ->
     forall r,
       1 <= r <= Z.max 1 maxRadius ->
       (forall c, roadCell st c ->
                  ~ 1 <= chebyshev baseX baseY c < r) ->
       (exists c, roadCell st c /\ chebyshev baseX baseY c = r) ->
       exists c,
         found = Some c /\ roadCell st c /\
         chebyshev baseX baseY c = r /\
         forall c', roadCell st c' -> chebyshev baseX baseY c' = r ->
           (centerDistance worldPosition c
            <= centerDistance worldPosition c')%Q) /\
  (isRoad st baseX baseY = false ->
     (forall c, roadCell st c ->
                ~ 1 <= chebyshev baseX baseY c <= Z.max 1 maxRadius) ->
     found = None) /\
  ((forall x y, isRoad st x y = false) -> found = None).
Proof.
  intros baseX baseY found Hin.
  assert (Ef : found =
               if isRoad st baseX baseY then Some (GridPoint.mk baseX baseY)
               else searchRings st worldPosition baseX baseY
                      (range 1 (Z.max 1 maxRadius + 1))).
  { unfold found, findNearestRoadCell. fold baseX baseY.
    rewrite Hin. reflexivity. }
  assert (Hnone : isRoad st baseX baseY = false ->
     (forall c, roadCell st c ->
                ~ 1 <= chebyshev baseX baseY c <= Z.max 1 maxRadius) ->
     found = None).
  { intros Hb Hno. rewrite Ef, Hb. apply searchRings_none.
    intros r Hr. apply in_range in Hr. apply scanRing_empty.
    intros c Hc Hcheb. apply (Hno c Hc). lia. }
  split; [intros Hb; now rewrite Ef, Hb |].
  split; [| split; [exact Hnone |]].
  - intros Hb r Hr Hbefore (c0 & Hc0 & Hcheb0).
    rewrite Ef, Hb.
    rewrite (range_split 1 r (Z.max 1 maxRadius + 1)) by lia.
    destruct (scanRing st worldPosition baseX baseY r) as [[c d] |] eqn:E.
    + exists c. split.
      * apply (searchRings_first _ _ _ _ _ _ _ c d); [| exact E].
        intros q Hq. apply in_range in Hq. apply scanRing_empty.
        intros c' Hc' Hcheb'. apply (Hbefore c' Hc'). lia.
      * exact (scanRing_some _ _ _ _ _ _ _ E).
    + exfalso. exact (scanRing_none _ _ _ _ _ E c0 Hc0 Hcheb0).
  - intros Hfree. apply Hnone; [apply Hfree |].
    intros c Hc. unfold roadCell in Hc. rewrite Hfree in Hc. discriminate.
Qed.

Lemma findNearestRoadCell_rings_witness :
  let st := fst (setRoadValue 2 0 1 (initializeGrid newGameScene)) in
  let pos := Vector2.mk 5 5 in
  isInside (Qfloor (Vector2.x pos / inject_Z tileSize))
           (Qfloor (Vector2.y pos / inject_Z tileSize)) = true /\
  (isRoad st 0 0 = false ->
   forall r, 1 <= r <= Z.max 1 3 ->
     (forall c, roadCell st c -> ~ 1 <= chebyshev 0 0 c < r) ->
     (exists c, roadCell st c /\ chebyshev 0 0 c = r) ->
     exists c, findNearestRoadCell pos 3 st = Some c /\ roadCell st c /\
               chebyshev 0 0 c = r /\
               forall c', roadCell st c' -> chebyshev 0 0 c' = r ->
                 (centerDistance pos c <= centerDistance pos c')%Q).
Proof.
  intros st pos.
  assert (H : isInside (Qfloor (Vector2.x pos / inject_Z tileSize))
                       (Qfloor (Vector2.y pos / inject_Z tileSize)) = true)
    by (vm_compute; reflexivity).
  split; [exact H |].
  exact (proj1 (proj2 (findNearestRoadCell_rings pos 3 st H))).
Defined.

(** C5 as stated fails for a [maxRadius] below 1: the search still looks
    at the ring of radius 1.  Here no road cell lies within 0 rings of the
    base cell (0, 0), which is not a road, and the result is the road
    cell (1, 0). *)
Lemma findNearestRoadCell_searches_first_ring :
  let st := fst (setRoadValue 1 0 1 (initializeGrid newGameScene)) in
  let pos := Vector2.mk 5 5 in
  Qfloor (Vector2.x pos / inject_Z tileSize) = 0 /\
  Qfloor (Vector2.y pos / inject_Z tileSize) = 0 /\
  isInside 0 0 = true /\
  isRoad st 0 0 = false /\
  (forall c, roadCell st c -> ~ 1 <= chebyshev 0 0 c <= 0) /\
  findNearestRoadCell pos 0 st = Some (GridPoint.mk 1 0).
Proof.
  cbv zeta. repeat split; try (vm_compute; reflexivity).
  intros c _ H. lia.
Qed.
End NearestFacts.

(* ================================================================= *)
(** ** The grid search *)

Module SearchFacts.
Import PF.

Lemma cellEqb_eq (a b : cell) : cellEqb a b = true <-> a = b.
Proof.
  unfold cellEqb. rewrite andb_true_iff, !Z.eqb_eq.
  destruct a, b; simpl. split; [intros [-> ->]; reflexivity |].
  intros [= -> ->]. auto.
Qed.

Lemma memCell_iff (c : cell) (l : list cell) :
  memCell c l = true <-> In c l.
Proof.
  unfold memCell. rewrite existsb_exists. split.
  - intros (x & Hx & E). apply cellEqb_eq in E. now subst.
  - intros H. exists c. split; [exact H | now apply cellEqb_eq].
Qed.

Lemma neighbours4_adjacent (c d : cell) :
  In d (neighbours4 c) <-> adjacent c d.
Proof.
  unfold neighbours4, adjacent. destruct c as [cx cy], d as [dx dy].
  simpl. split.
  - intros [E | [E | [E | [E | []]]]]; injection E as <- <-; lia.
  - intros H.
    assert (Hc : (dx = cx /\ dy = cy - 1) \/ (dx = cx + 1 /\ dy = cy) \/
                 (dx = cx /\ dy = cy + 1) \/ (dx = cx - 1 /\ dy = cy))
      by lia.
    destruct Hc as [[-> ->] | [[-> ->] | [[-> ->] | [-> ->]]]]; auto.
Qed.

Lemma in_candidates (F : list (list cell)) (d : cell) (p : list cell) :
  In (d, p) (candidates F) <->
  exists c r, p = c :: r /\ In p F /\ adjacent c d.
Proof.
  unfold candidates. rewrite in_flat_map. split.
  - intros (q & Hq & Hin). destruct q as [| c r]; [destruct Hin |].
    apply in_map_iff in Hin. destruct Hin as (n & [= <- <-] & Hn).
    exists c, r. split; [reflexivity |]. split; [exact Hq |].
    now apply neighbours4_adjacent.
  - intros (c & r & -> & Hp & Ha). exists (c :: r). split; [exact Hp |].
    apply in_map_iff. exists d. split; [reflexivity |].
    now apply neighbours4_adjacent.
Qed.

(** What one level of expansion adds. *)
Lemma expand_spec (g : Grid) (cands : list (cell * list cell)) :
  forall V V' F',
    expand g V cands = (V', F') ->
    incl V V' /\
    (forall p', In p' F' ->
       exists d p, In (d, p) cands /\ p' = d :: p /\ free g d) /\
    (forall d p, In (d, p) cands -> free g d -> In d V') /\
    (forall c, In c V' -> In c V \/ heads F' c) /\
    (NoDup V -> NoDup V') /\
    List.length V' = (List.length V + List.length F')%nat /\
    (forall c, In c V' -> In c V \/ free g c).
Proof.
  induction cands as [| [d p] rest IH]; intros V V' F' E; simpl in E.
  - injection E as <- <-.
    repeat split; auto using incl_refl; try (intros; tauto);
      simpl; try lia; try (intros p' []).
  - destruct (isWalkableAt g (fst d) (snd d) && negb (memCell d V)) eqn:Hc.
    + destruct (expand g (d :: V) rest) as [v f] eqn:Er.
      injection E as <- <-.
      apply andb_true_iff in Hc. destruct Hc as [Hfree Hnew].
      apply negb_true_iff in Hnew.
      destruct (IH _ _ _ Er) as (H1 & H2 & H3 & H4 & H5 & H6 & H7).
      split; [intros c Hc; apply H1; now right |].
      split.
      { intros p' [<- | Hp'].
        - exists d, p. split; [now left | auto].
        - destruct (H2 p' Hp') as (d' & q & Hin & Heq & Hf).
          exists d', q. split; [now right | auto]. }
      split.
      { intros d' q [[= <- <-] | Hin] Hf.
        - apply H1. now left.
        - eapply H3; eauto. }
      split.
      { intros c Hc. destruct (H4 c Hc) as [[<- | Hv] | (q & Hq)].
        - right. exists p. now left.
        - now left.
        - right. exists q. now right. }
      split.
      { intros ND. apply H5. constructor; [| exact ND].
        intros HI. apply memCell_iff in HI. congruence. }
      split; [simpl in *; lia |].
      intros c Hc. destruct (H7 c Hc) as [[<- | Hv] | Hf]; auto.
    + destruct (IH _ _ _ E) as (H1 & H2 & H3 & H4 & H5 & H6 & H7).
      split; [exact H1 |].
      split.
      { intros p' Hp'. destruct (H2 p' Hp') as (d' & q & Hin & Heq & Hf).
        exists d', q. split; [now right | auto]. }
      split.
      { intros d' q [[= <- <-] | Hin] Hf.
        - unfold free in Hf. rewrite Hf in Hc. simpl in Hc.
          apply negb_false_iff in Hc. apply memCell_iff in Hc. now apply H1.
        - eapply H3; eauto. }
      auto.
Qed.

Lemma trail_free_start g s p : trail g s p -> free g s.
Proof. induction 1; assumption. Qed.

Lemma trail_head_free g s c p : trail g s (c :: p) -> free g c.
Proof. inversion 1; subst; assumption. Qed.

Lemma trail_inv g s c p :
  trail g s (c :: p) ->
  (p = [] /\ c = s /\ free g s) \/
  (exists c' p', p = c' :: p' /\ trail g s (c' :: p') /\
                 adjacent c' c /\ free g c).
Proof.
  inversion 1; subst; [left | right]; eauto 7.
Qed.

Lemma find_reaches_some (t : cell) F p :
  find (reaches t) F = Some p -> In p F /\ exists r, p = t :: r.
Proof.
  intros H. apply find_some in H. destruct H as [Hin Hr].
  split; [exact Hin |]. destruct p as [| c r]; [discriminate |].
  simpl in Hr. apply cellEqb_eq in Hr. subst. eauto.
Qed.

Lemma find_reaches_none (t : cell) F :
  find (reaches t) F = None -> ~ heads F t.
Proof.
  intros H (p & Hp).
  pose proof (find_none _ _ H _ Hp) as Hr. simpl in Hr.
  assert (cellEqb t t = true) by now apply cellEqb_eq. congruence.
Qed.

Lemma length_range lo hi : List.length (range lo hi) = Z.to_nat (hi - lo).
Proof. unfold range. now rewrite length_map, length_seq. Qed.

Lemma length_cellsFrom g : forall y,
  List.length (cellsFrom y g) = cellCount g.
Proof.
  induction g as [| row rest IH]; intros y; simpl; [reflexivity |].
  rewrite length_app, length_map, length_range, IH. lia.
Qed.

Lemma in_cellsFrom g : forall y0 (k : nat) row x,
  nth_error g k = Some row ->
  0 <= x < Z.of_nat (List.length row) ->
  In (x, y0 + Z.of_nat k) (cellsFrom y0 g).
Proof.
  induction g as [| r rest IH]; intros y0 k row x Hk Hx.
  - destruct k; discriminate.
  - simpl. apply in_or_app. destruct k as [| k]; simpl in Hk.
    + injection Hk as ->. left. apply in_map_iff. exists x.
      split; [f_equal; lia |]. apply NearestFacts.in_range. lia.
    + right. replace (y0 + Z.of_nat (S k)) with (y0 + 1 + Z.of_nat k) by lia.
      eapply IH; eauto.
Qed.

Lemma free_in_cells g c : free g c -> In c (cellsFrom 0 g).
Proof.
  unfold free, isWalkableAt, matrixGet. destruct c as [x y]. simpl.
  destruct (x <? 0) eqn:Hx; [discriminate |].
  destruct (y <? 0) eqn:Hy; [discriminate |]. simpl.
  apply Z.ltb_ge in Hx, Hy.
  destruct (nth_error g (Z.to_nat y)) as [row |] eqn:Hrow; [| discriminate].
  destruct (nth_error row (Z.to_nat x)) as [v |] eqn:Hv; [| discriminate].
  intros _.
  assert (Hlt : (Z.to_nat x < List.length row)%nat)
    by (apply nth_error_Some; congruence).
  replace y with (0 + Z.of_nat (Z.to_nat y)) by lia.
  eapply in_cellsFrom; eauto. lia.
Qed.

Lemma visited_bounded g V :
  NoDup V -> (forall c, In c V -> free g c) ->
  (List.length V <= cellCount g)%nat.
Proof.
  intros ND Hf. rewrite <- (length_cellsFrom g 0).
  apply NoDup_incl_length; [exact ND |].
  intros c Hc. now apply free_in_cells, Hf.
Qed.

Section Search.
Variables (g : Grid) (s t : cell).

Lemma inv_initial :
  free g s -> searchInv g s t 0 (cellCount g) [s] [[s]].
Proof.
  intros Hs. constructor.
  - intros p [<- | []]. split; [now constructor | reflexivity].
  - intros c p Ht Hl. destruct p; [| simpl in Hl; lia].
    destruct (trail_inv _ _ _ _ Ht) as [(_ & -> & _) | (c' & p' & E & _)];
      [now left | discriminate].
  - intros c [<- | []]. left. exists []. now left.
  - intros c [<- | []]. left. exists []. now left.
  - intros q _. lia.
  - constructor; [intros [] | constructor].
  - intros c [<- | []]. exact Hs.
  - right. simpl. lia.
Qed.

(** With an empty frontier every cell that can be walked to is visited. *)
Lemma closed_holds_trails n fuel V p :
  searchInv g s t n fuel V [] -> trail g s p ->
  forall c r, p = c :: r -> In c V.
Proof.
  intros I Ht. induction Ht as [Hs | c n' p' Ht IH Ha Hf];
    intros c0 r [= <- <-].
  - apply (inv_near _ _ _ _ _ _ _ I s []); [now constructor | simpl; lia].
  - specialize (IH c p' eq_refl).
    destruct (inv_closed _ _ _ _ _ _ _ I c IH) as [(q & []) | Hcl].
    now apply Hcl.
Qed.

Lemma no_trail_when_exhausted n fuel V F :
  searchInv g s t n fuel V F ->
  find (reaches t) F = None ->
  F = [] ->
  ~ exists q, trail g s (t :: q).
Proof.
  intros I Hfind -> (q & Hq).
  pose proof (closed_holds_trails _ _ _ _ I Hq t q eq_refl) as Hin.
  destruct (inv_target _ _ _ _ _ _ _ I t Hin) as [(p & []) | Hne].
  congruence.
Qed.

Lemma inv_next n fuel V F V' F' :
  searchInv g s t n (S fuel) V F ->
  find (reaches t) F = None ->
  F <> [] ->
  expand g V (candidates F) = (V', F') ->
  searchInv g s t (S n) fuel V' F'.
Proof.
  intros I Hfind Hne E.
  destruct (expand_spec g _ _ _ _ E) as (H1 & H2 & H3 & H4 & H5 & H6 & H7).
  pose proof (find_reaches_none _ _ Hfind) as Hnot.
  assert (Hvt : forall c, In c V -> c <> t).
  { intros c Hc. destruct (inv_target _ _ _ _ _ _ _ I c Hc) as [Hh | Hn];
      [| exact Hn]. intros ->. contradiction. }
  constructor.
  - intros p' Hp'. destruct (H2 p' Hp') as (d & p & Hin & -> & Hf).
    apply in_candidates in Hin. destruct Hin as (c & r & -> & Hp & Ha).
    destruct (inv_trails _ _ _ _ _ _ _ I _ Hp) as [Ht Hl].
    split; [now constructor | simpl in *; lia].
  - intros c p Ht Hl.
    destruct (trail_inv _ _ _ _ Ht)
      as [(-> & -> & Hs) | (c' & p' & -> & Ht' & Ha & Hf)].
    + apply H1.
      apply (inv_near _ _ _ _ _ _ _ I s []); [exact Ht | simpl; lia].
    + simpl in Hl.
      assert (Hc' : In c' V)
        by (apply (inv_near _ _ _ _ _ _ _ I c' p' Ht'); lia).
      destruct (inv_closed _ _ _ _ _ _ _ I c' Hc') as [(r & Hr) | Hcl].
      * apply (H3 c (c' :: r)); [| exact Hf].
        apply in_candidates. exists c', r. auto.
      * apply H1. now apply Hcl.
  - intros c Hc. destruct (H4 c Hc) as [Hv | Hh]; [| now left].
    right. intros d Ha Hf.
    destruct (inv_closed _ _ _ _ _ _ _ I c Hv) as [(r & Hr) | Hcl].
    + apply (H3 d (c :: r)); [| exact Hf].
      apply in_candidates. exists c, r. auto.
    + apply H1. now apply Hcl.
  - intros c Hc. destruct (H4 c Hc) as [Hv | Hh]; [| now left].
    right. now apply Hvt.
  - intros q Hq.
    destruct (Nat.le_gt_cases (List.length q) n) as [Hle | Hgt]; [| lia].
    exfalso. apply (Hvt t); [| reflexivity].
    now apply (inv_near _ _ _ _ _ _ _ I t q).
  - apply H5, (inv_nodup _ _ _ _ _ _ _ I).
  - intros c Hc. destruct (H7 c Hc) as [Hv | Hf]; [| exact Hf].
    now apply (inv_free _ _ _ _ _ _ _ I).
  - destruct F' as [| p' F'']; [now left |]. right.
    destruct (inv_fuel _ _ _ _ _ _ _ I) as [-> | Hlt]; [congruence |].
    rewrite H6. simpl in *. lia.
Qed.

(** The search by levels: it comes back empty only when no walk leads
    from the start to the target, and otherwise with a walk that no
    other walk to the target has fewer cells than. *)
Lemma levels_spec fuel : forall n V F,
  searchInv g s t n fuel V F ->
  (levels fuel g t V F = [] /\ ~ exists q, trail g s (t :: q)) \/
  (exists r, levels fuel g t V F = rev (t :: r) /\
             trail g s (t :: r) /\
             forall q, trail g s (t :: q) ->
                       (List.length r <= List.length q)%nat).
Proof.
  induction fuel as [| fuel IH]; intros n V F I; simpl.
  - destruct (find (reaches t) F) as [p |] eqn:Hfind.
    + right. apply find_reaches_some in Hfind.
      destruct Hfind as [Hin (r & ->)]. exists r.
      destruct (inv_trails _ _ _ _ _ _ _ I _ Hin) as [Ht Hl].
      split; [reflexivity |]. split; [exact Ht |].
      intros q Hq. pose proof (inv_far _ _ _ _ _ _ _ I q Hq).
      simpl in Hl. lia.
    + left. split; [reflexivity |].
      destruct F as [| p F'].
      * eapply no_trail_when_exhausted; eauto.
      * exfalso.
        destruct (inv_fuel _ _ _ _ _ _ _ I) as [Hnil | Hlt];
          [discriminate |].
        pose proof (visited_bounded g V (inv_nodup _ _ _ _ _ _ _ I)
                      (inv_free _ _ _ _ _ _ _ I)). lia.
  - destruct (find (reaches t) F) as [p |] eqn:Hfind.
    + right. apply find_reaches_some in Hfind.
      destruct Hfind as [Hin (r & ->)]. exists r.
      destruct (inv_trails _ _ _ _ _ _ _ I _ Hin) as [Ht Hl].
      split; [reflexivity |]. split; [exact Ht |].
      intros q Hq. pose proof (inv_far _ _ _ _ _ _ _ I q Hq).
      simpl in Hl. lia.
    + destruct F as [| p F'].
      * left. split; [reflexivity |].
        eapply no_trail_when_exhausted; eauto.
      * destruct (expand g V (candidates (p :: F'))) as [V' F''] eqn:E.
        apply (IH (S n) V' F'').
        eapply inv_next; eauto. discriminate.
Qed.

(** Modelled search, start to finish. *)
Lemma findPath_spec :
  let res := AStarFinder.findPath (fst s) (snd s) (fst t) (snd t) g in
  (res = [] /\ ~ exists q, trail g s (t :: q)) \/
  (exists r, res = rev (t :: r) /\ trail g s (t :: r) /\
             forall q, trail g s (t :: q) ->
                       (List.length r <= List.length q)%nat).
Proof.
  unfold AStarFinder.findPath.
  destruct (isWalkableAt g (fst s) (snd s)) eqn:Hs.
  - replace (fst s, snd s) with s by (destruct s; reflexivity).
    replace (fst t, snd t) with t by (destruct t; reflexivity).
    apply (levels_spec _ 0). now apply inv_initial.
  - left. split; [reflexivity |]. intros (q & Hq).
    apply trail_free_start in Hq. unfold free in Hq. congruence.
Qed.
End Search.
End SearchFacts.

(* ================================================================= *)
(** ** The cache stays coherent with the grid *)

Module CoherenceFacts.
Import JsMapFacts.

Local Opaque gridWidth gridHeight range.

Lemma copy_id (c : GridPoint) : GridPoint.copy c = c.
Proof. now destruct c. Qed.

Lemma map_copy_id (p : list GridPoint) : map GridPoint.copy p = p.
Proof.
  induction p as [| c r IH]; simpl; [reflexivity |].
  now rewrite copy_id, IH.
Qed.

Lemma in_JsMap_set {V : Type} (k0 : string) (v : V) (m : JsMap.t V) e :
  In e (JsMap.set k0 v m) -> e = (k0, v) \/ In e m.
Proof.
  induction m as [| [k' v'] r IH]; simpl.
  - intros [<- | []]. now left.
  - destruct (String.eqb_spec k0 k') as [-> | Hne]; simpl.
    + intros [<- | H]; auto.
    + intros [<- | H]; auto. destruct (IH H); auto.
Qed.

Lemma in_store_set key path c e :
  In e (PathCache.store (PathCache.set key path c)) ->
  e = (key, path) \/ In e (PathCache.store c).
Proof.
  unfold PathCache.set. cbn [PathCache.store]. rewrite map_copy_id.
  intros H.
  assert (H2 : In e (JsMap.set key path
                       (if JsMap.has key (PathCache.store c)
                        then JsMap.delete key (PathCache.store c)
                        else PathCache.store c))).
  { destruct (_ >? _); [| exact H].
    destruct (JsMap.keys _); [exact H |]. eapply in_delete; eauto. }
  apply in_JsMap_set in H2. destruct H2 as [-> | H2]; [now left |].
  right. destruct (JsMap.has key (PathCache.store c)); [| exact H2].
  eapply in_delete; eauto.
Qed.

Lemma coherent_cleared st :
  PathCache.store (pathCache st) = [] -> coherent st.
Proof. unfold coherent. intros -> k p []. Qed.

Lemma coherent_view st st' :
  searchView st' = searchView st -> coherent st -> coherent st'.
Proof.
  unfold searchView, coherent, searched. intros [= Ew Es] H k p Hin.
  rewrite Es in Hin. rewrite Ew. now apply H.
Qed.

Lemma findPath_value a b st :
  coherent st -> fst (findPath a b st) = searched st a b.
Proof.
  intros Hc. unfold findPath, PathCache.get.
  destruct (JsMap.get (pathKey a b) (PathCache.store (pathCache st)))
    as [cached |] eqn:Hg.
  - simpl. rewrite map_copy_id. apply get_in in Hg.
    destruct (Hc _ _ Hg) as (a' & b' & Hk & ->).
    apply KeyFacts.pathKey_inj in Hk. destruct Hk as [-> ->]. reflexivity.
  - cbv zeta. destruct (0 <? _); reflexivity.
Qed.

Lemma coherent_findPath a b st :
  coherent st -> coherent (snd (findPath a b st)).
Proof.
  intros Hc. unfold findPath.
  destruct (PathCache.get (pathKey a b) (pathCache st)); [exact Hc |].
  cbv zeta. destruct (0 <? _); [| exact Hc]. simpl.
  intros k p Hin. simpl in Hin. apply in_store_set in Hin.
  destruct Hin as [[= -> ->] | Hin].
  - exists a, b. split; reflexivity.
  - destruct (Hc k p Hin) as (a' & b' & -> & ->). exists a', b'.
    split; reflexivity.
Qed.

Lemma coherent_setRoadValue x y v st :
  coherent st -> coherent (fst (setRoadValue x y v st)).
Proof.
  intros Hc. unfold setRoadValue.
  destruct (negb (isInside x y)); [exact Hc |].
  destruct (match matrixGet (grid st) x y with
            | Some p => p =? v
            | None => false
            end); [exact Hc |].
  apply coherent_cleared.
  destruct (v =? 1); [reflexivity |].
  cbv zeta. destruct (JsMap.has _ _); reflexivity.
Qed.

Lemma coherent_fold {A : Type} (f : GameScene -> A -> GameScene)
  (l : list A) :
  (forall s a, coherent s -> coherent (f s a)) ->
  forall st, coherent st -> coherent (fold_left f l st).
Proof.
  intros Hf. induction l as [| a r IH]; intros st H; simpl; auto.
Qed.

Lemma view_points sp dp st :
  searchView (rebuildSpawnOrder
                (with_destinationPoints dp (with_spawnPoints sp st)))
  = searchView st.
Proof. reflexivity. Qed.

Lemma coherent_seedSimpleRoads st :
  coherent st -> coherent (seedSimpleRoads st).
Proof.
  intros H. unfold seedSimpleRoads. cbv zeta.
  eapply coherent_view; [apply view_points |].
  repeat (apply coherent_fold;
          [intros; cbv beta; repeat apply coherent_setRoadValue;
           assumption |]).
  exact H.
Qed.

Lemma view_clearCars st : searchView (clearCars st) = searchView st.
Proof.
  unfold clearCars. cbv zeta.
  change (searchView
            (fold_left (fun s car => destroySprite (Car.sprite car) s)
                       (cars st) st) = searchView st).
  generalize (cars st) as l. intros l. revert st.
  induction l as [| a r IH]; intros st; simpl; [reflexivity |].
  now rewrite IH.
Qed.

Lemma view_redraw m d st :
  searchView (showFlash m d (forceRedraw st)) = searchView st.
Proof. reflexivity. Qed.

Lemma store_reset_tail st :
  PathCache.store
    (pathCache
       (with_roadCount 0
          (with_pathCache (PathCache.clear (pathCache st)) st))) = [].
Proof. reflexivity. Qed.

Lemma coherent_resetMap st : coherent (resetMap st).
Proof.
  unfold resetMap. cbv zeta.
  eapply coherent_view; [apply view_redraw |].
  apply coherent_seedSimpleRoads.
  eapply coherent_view; [apply view_clearCars |].
  apply coherent_cleared, store_reset_tail.
Qed.

Lemma coherent_toggleSpawn c st :
  coherent st -> coherent (toggleSpawn c st).
Proof.
  intros H. unfold toggleSpawn. destruct (negb _).
  - eapply coherent_view; [| exact H]. reflexivity.
  - apply coherent_cleared. cbv zeta. destruct (JsMap.has _ _); reflexivity.
Qed.

Lemma coherent_removeSpawn c st :
  coherent st -> coherent (removeSpawn c st).
Proof.
  intros H. unfold removeSpawn. destruct (JsMap.has _ _); [| exact H].
  apply coherent_cleared. reflexivity.
Qed.

Lemma coherent_toggleDestination c st :
  coherent st -> coherent (toggleDestination c st).
Proof.
  intros H. unfold toggleDestination. destruct (negb _).
  - eapply coherent_view; [| exact H]. reflexivity.
  - apply coherent_cleared. cbv zeta. destruct (JsMap.has _ _); reflexivity.
Qed.

Lemma coherent_removeDestination c st :
  coherent st -> coherent (removeDestination c st).
Proof.
  intros H. unfold removeDestination. destruct (JsMap.has _ _); [| exact H].
  apply coherent_cleared. reflexivity.
Qed.

Lemma view_createCar nz p c m st :
  searchView (createCar nz p c m st) = searchView st.
Proof.
  unfold createCar. destruct (_ <? 2); [reflexivity |].
  cbv zeta. destruct (map cellToWorldVector _) as [| s [| n r]];
    reflexivity.
Qed.

Lemma view_removeCarAt i st st' :
  removeCarAt i st = Some st' -> searchView st' = searchView st.
Proof.
  unfold removeCarAt. cbv zeta. destruct (nth_error _ _); [| discriminate].
  intros [= <-]. reflexivity.
Qed.

Lemma coherent_step nz o st :
  sessionOp o = true -> coherent st -> coherent (step nz o st).
Proof.
  intros Ho H. destruct o; try discriminate Ho; unfold step.
  - now apply coherent_setRoadValue.
  - now apply coherent_seedSimpleRoads.
  - apply coherent_resetMap.
  - now apply coherent_toggleSpawn.
  - now apply coherent_removeSpawn.
  - now apply coherent_toggleDestination.
  - now apply coherent_removeDestination.
  - now apply coherent_findPath.
  - eapply coherent_view; [apply view_createCar | exact H].
  - destruct (removeCarAt index st) eqn:E; [| exact H].
    eapply coherent_view; [eapply view_removeCarAt; eauto | exact H].
  - eapply coherent_view; [apply view_clearCars | exact H].
Qed.

Lemma view_forceRedraw st : searchView (forceRedraw st) = searchView st.
Proof. reflexivity. Qed.

Lemma store_started st :
  PathCache.store (pathCache st) = [] ->
  PathCache.store (pathCache (refreshHud true (initializeGrid st))) = [].
Proof. intros H. exact H. Qed.

Lemma coherent_create : coherent (create newGameScene).
Proof.
  unfold create.
  eapply coherent_view; [apply view_forceRedraw |].
  apply coherent_seedSimpleRoads, coherent_cleared, store_started.
  reflexivity.
Qed.

Lemma matrices_forceRedraw st : matrices (forceRedraw st) = matrices st.
Proof. reflexivity. Qed.

Lemma matrices_refreshHud b st : matrices (refreshHud b st) = matrices st.
Proof. destruct b; reflexivity. Qed.

Lemma complement_create st : scene_complement (create st).
Proof.
  unfold create.
  eapply SceneFacts.complement_of_matrices; [apply matrices_forceRedraw |].
  apply SceneFacts.complement_seedSimpleRoads.
  eapply SceneFacts.complement_of_matrices; [apply matrices_refreshHud |].
  apply SceneFacts.complement_initializeGrid.
Qed.

End CoherenceFacts.

(* ================================================================= *)
(** ** Rejected placements and the guard of [createCar] *)

Module GuardFacts.

(** C9. On a scene whose grid is laid out, as it is from [create] on,
    and on a cell that is not a road tile (out of bounds included),
    [toggleSpawn] and [toggleDestination] change nothing but the flash
    message, its timer and the HUD throttle: grid, search matrix, road
    count, spawn and destination points, spawn order and cursor, path
    cache, vehicles and the refresh flags all stay as they were. *)
Theorem toggle_off_road_rejected (cell : GridPoint) (st : GameScene) :
  grid_dims (grid st) ->
  isRoad st (GridPoint.x cell) (GridPoint.y cell) = false ->
  same_simulation st (toggleSpawn cell st) /\
  flashMessage (toggleSpawn cell st) = "Place a spawn on a road tile"%string /\
  same_simulation st (toggleDestination cell st) /\
  flashMessage (toggleDestination cell st)
  = "Place a destination on a road tile"%string.
Proof.
  intros _ H. unfold toggleSpawn, toggleDestination. rewrite H. simpl.
  unfold same_simulation. simpl. repeat split; reflexivity.
Qed.

(** The corner (0, 0) of the seeded map is not a road tile. *)
Lemma toggle_off_road_rejected_witness :
  let st := create newGameScene in
  let cell := GridPoint.mk 0 0 in
  grid_dims (grid st) /\ isRoad st 0 0 = false /\
  same_simulation st (toggleSpawn cell st) /\
  same_simulation st (toggleDestination cell st).
Proof.
  intros st cell.
  assert (Hd : grid_dims (grid st))
    by exact (proj1 (CoherenceFacts.complement_create newGameScene)).
  assert (H : isRoad st 0 0 = false) by (vm_compute; reflexivity).
  split; [exact Hd |]. split; [exact H |].
  destruct (toggle_off_road_rejected cell st Hd H) as (H1 & _ & H3 & _).
  split; [exact H1 | exact H3].
Defined.

(** C10. For a path of fewer than two cells [createCar] returns at its
    guard: the scene is the one it was given, so no vehicle is added, the
    id counter is not advanced and no container is made. *)
Theorem createCar_short_path_noop (normalize : Vector2 -> Vector2)
  (path : list GridPoint) (color maxSpeedDraw : Z) (st : GameScene) :
  (List.length path < 2)%nat ->
  createCar normalize path color maxSpeedDraw st = st /\
  cars (createCar normalize path color maxSpeedDraw st) = cars st /\
  carId (createCar normalize path color maxSpeedDraw st) = carId st /\
  sprites (createCar normalize path color maxSpeedDraw st) = sprites st /\
  nextSprite (createCar normalize path color maxSpeedDraw st) = nextSprite st.
Proof.
  intros H. unfold createCar.
  replace (Z.of_nat (List.length path) <? 2) with true
    by (symmetry; apply Z.ltb_lt; lia).
  repeat split; reflexivity.
Qed.

Lemma createCar_short_path_noop_witness :
  (List.length [GridPoint.mk 24 4] < 2)%nat /\
  createCar (fun v => v) [GridPoint.mk 24 4] 0 60 newGameScene
  = newGameScene.
Proof.
  assert (H : (List.length [GridPoint.mk 24 4] < 2)%nat) by (simpl; lia).
  split; [exact H |].
  exact (proj1 (createCar_short_path_noop (fun v => v) [GridPoint.mk 24 4]
                  0 60 newGameScene H)).
Defined.
End GuardFacts.

(* ================================================================= *)
(** ** Routes found through the cache *)

Module RouteLemmas.
Import GridFacts.

Lemma toPoint_toCell (a : GridPoint) : toPoint (toCell a) = a.
Proof. now destruct a. Qed.

Lemma toCell_toPoint (c : PF.cell) : toCell (toPoint c) = c.
Proof. now destruct c. Qed.

Lemma adjacent_unitStep (c d : PF.cell) :
  adjacent c d <-> unitStep (toPoint c) (toPoint d).
Proof. reflexivity. Qed.

(** On a scene whose matrices are complementary the search walks exactly
    on the road cells. *)
Lemma free_iff_road st (c : PF.cell) :
  scene_complement st ->
  (free (walkMatrix st) c <-> roadCell st (toPoint c)).
Proof.
  intros (Hg & Hw & Hc). unfold free, roadCell, PF.isWalkableAt. simpl.
  rewrite SceneFacts.isRoad_iff. split.
  - destruct (matrixGet (walkMatrix st) (fst c) (snd c)) as [v |] eqn:E;
      [| discriminate].
    intros Hv. apply Z.eqb_eq in Hv. subst v.
    pose proof (matrixGet_some_inside _ _ _ _ Hw E) as Hin.
    split; [exact Hin |].
    destruct (Hc _ _ Hin) as (v & Hgv & Hwv). rewrite Hgv.
    rewrite E in Hwv. destruct (Z.eqb_spec v 1); congruence.
  - intros [Hin Hgv]. destruct (Hc _ _ Hin) as (v & Hgv' & Hwv).
    rewrite Hwv. rewrite Hgv in Hgv'. injection Hgv' as <-. reflexivity.
Qed.

Lemma chain_snoc {A : Type} (R : A -> A -> Prop) (l : list A) (y z : A) :
  chain R (l ++ [y]) -> R y z -> chain R ((l ++ [y]) ++ [z]).
Proof.
  induction l as [| a r IH]; simpl; intros H Hr.
  - auto.
  - destruct r as [| b r']; simpl in *.
    + destruct H as [Hab _]. auto.
    + destruct H as [Hab H]. split; [exact Hab |]. now apply IH.
Qed.

Lemma chain_snoc_inv {A : Type} (R : A -> A -> Prop) (l : list A)
  (y z : A) :
  chain R ((l ++ [y]) ++ [z]) -> chain R (l ++ [y]) /\ R y z.
Proof.
  induction l as [| a r IH]; simpl; intros H.
  - tauto.
  - destruct r as [| b r']; simpl in *.
    + destruct H as [Hab [Hyz _]]. auto.
    + destruct H as [Hab H]. destruct (IH H) as [H1 H2]. auto.
Qed.

(** A walk of the search, turned around, is a route. *)
Lemma trail_route st s p :
  scene_complement st -> trail (walkMatrix st) s p ->
  exists t r, p = t :: r /\
    route st (toPoint s) (toPoint t) (map toPoint (rev p)).
Proof.
  intros Hc Ht. induction Ht as [Hs | c n p Ht IH Ha Hf].
  - exists s, []. split; [reflexivity |]. simpl.
    repeat split; auto. constructor; [| constructor].
    now apply free_iff_road.
  - destruct IH as (t & r & [= <- <-] & Hhd & Hlast & Hall & Hch).
    exists n, (c :: p). split; [reflexivity |].
    change (rev (n :: c :: p)) with (rev (c :: p) ++ [n]).
    rewrite map_app. simpl map at 2.
    assert (Hne : exists l, map toPoint (rev (c :: p)) = l ++ [toPoint c]).
    { exists (map toPoint (rev p)). simpl. now rewrite map_app. }
    destruct Hne as (l & El). rewrite El in *.
    split; [| split; [| split]].
    + destruct l; simpl in *; exact Hhd.
    + now rewrite last_last.
    + apply Forall_app. split; [exact Hall |].
      constructor; [| constructor]. now apply free_iff_road.
    + apply chain_snoc; [exact Hch |]. now apply adjacent_unitStep.
Qed.

(** A route, turned around, is a walk of the search. *)
Lemma route_trail st (q : list GridPoint) : forall a,
  scene_complement st ->
  hd_error q = Some a -> Forall (roadCell st) q -> chain unitStep q ->
  trail (walkMatrix st) (toCell a) (rev (map toCell q)) /\
  exists r, rev (map toCell q) = toCell (last q a) :: r.
Proof.
  induction q as [| z q0 IH] using rev_ind; intros a Hc Hhd Hall Hch.
  - discriminate.
  - rewrite map_app, rev_app_distr, last_last. simpl.
    apply Forall_app in Hall. destruct Hall as [Hall0 Hz].
    inversion Hz as [| ? ? Hzr _]; subst.
    assert (Hfz : free (walkMatrix st) (toCell z)).
    { apply free_iff_road; [exact Hc |]. now rewrite toPoint_toCell. }
    destruct q0 as [| y q1] using rev_ind.
    + simpl in Hhd. injection Hhd as <-. split; [now constructor | eauto].
    + clear IHq1.
      assert (Hhd0 : hd_error (q1 ++ [y]) = Some a)
        by (destruct q1; simpl in *; exact Hhd).
      apply chain_snoc_inv in Hch. destruct Hch as [Hch0 Hyz].
      destruct (IH a Hc Hhd0 Hall0 Hch0) as [Ht (r & Er)].
      rewrite last_last in Er. rewrite Er in *.
      split; [| eauto]. constructor; [exact Ht | | exact Hfz].
      apply adjacent_unitStep. now rewrite !toPoint_toCell.
Qed.

Lemma route_nonempty st a b q : route st a b q -> q <> [].
Proof. intros [H _] ->. discriminate. Qed.
End RouteLemmas.

(* ================================================================= *)
(** ** What [setRoadValue] does *)

Module RoadValueFacts.
Import GridFacts.

(** A call that changes nothing returns [false] and the scene it was
    given; a call that changes the cell returns [true], and every field
    it touches is as listed. *)
Lemma setRoadValue_effect x y v st :
  let r := setRoadValue x y v st in
  (snd r = false /\ fst r = st /\
   (isInside x y = false \/ matrixGet (grid st) x y = Some v)) \/
  (snd r = true /\ isInside x y = true /\
   matrixGet (grid st) x y <> Some v /\
   grid (fst r) = matrixSet (grid st) x y v /\
   walkMatrix (fst r)
   = matrixSet (walkMatrix st) x y (if v =? 1 then 0 else 1) /\
   roadCount (fst r)
   = (if v =? 1 then roadCount st + 1 else Z.max 0 (roadCount st - 1)) /\
   PathCache.store (pathCache (fst r)) = [] /\
   spawnPoints (fst r)
   = (if v =? 1 then spawnPoints st
      else JsMap.delete (cellKey x y) (spawnPoints st)) /\
   destinationPoints (fst r)
   = (if v =? 1 then destinationPoints st
      else JsMap.delete (cellKey x y) (destinationPoints st)) /\
   spawnOrder (fst r)
   = (if v =? 1 then spawnOrder st
      else if JsMap.has (cellKey x y) (spawnPoints st)
           then map GridPoint.copy
                  (JsMap.values (JsMap.delete (cellKey x y) (spawnPoints st)))
           else spawnOrder st) /\
   carPathsDirty (fst r) = true /\
   carPathRefreshDelay (fst r) = (1 # 4)%Q /\
   needsRedraw (fst r) = true).
Proof.
  unfold setRoadValue.
  destruct (isInside x y) eqn:Hin; simpl negb; cbv iota.
  2: { left. auto. }
  destruct (matrixGet (grid st) x y) as [p |] eqn:Hg.
  - destruct (Z.eqb_spec p v) as [-> | Hne].
    + left. auto.
    + right. cbv zeta.
      destruct (v =? 1) eqn:Hv.
      * simpl. repeat split; auto. congruence.
      * destruct (JsMap.has _ _) eqn:Hh; simpl in Hh; rewrite ?Hh; simpl;
          repeat split; auto; congruence.
  - right. cbv zeta.
    destruct (v =? 1) eqn:Hv.
    + simpl. repeat split; auto. congruence.
    + destruct (JsMap.has _ _) eqn:Hh; simpl in Hh; rewrite ?Hh; simpl;
        repeat split; auto; congruence.
Qed.
End RoadValueFacts.

(* ================================================================= *)
(** ** The running total of road cells *)

Module RoadCountFacts.
Import GridFacts RoadValueFacts.

Lemma NoDup_range lo hi : NoDup (range lo hi).
Proof.
  unfold range.
  apply NoDup_map_NoDup_ForallPairs; [| apply seq_NoDup].
  intros a b _ _ H. cbv beta in H. apply Nat2Z.inj. lia.
Qed.

Local Opaque gridWidth gridHeight range.

Lemma NoDup_list_prod {A B : Type} (l1 : list A) (l2 : list B) :
  NoDup l1 -> NoDup l2 -> NoDup (list_prod l1 l2).
Proof.
  intros H1 H2. induction H1 as [| a r Ha Hr IH]; simpl; [constructor |].
  apply NoDup_app.
  - apply NoDup_map_NoDup_ForallPairs; [| exact H2].
    intros x y _ _ [= E]. exact E.
  - exact IH.
  - intros [a' b'] Hin Hin'. apply in_map_iff in Hin.
    destruct Hin as (b0 & [= <- <-] & _).
    apply in_prod_iff in Hin'. tauto.
Qed.

Lemma NoDup_gridCells : NoDup gridCells.
Proof. apply NoDup_list_prod; apply NoDup_range. Qed.

Lemma in_gridCells x y : In (y, x) gridCells <-> isInside x y = true.
Proof.
  unfold gridCells, isInside. rewrite in_prod_iff, !NearestFacts.in_range.
  rewrite !andb_true_iff, !Z.geb_le, !Z.ltb_lt. lia.
Qed.

Lemma fold_push {A B : Type} (f : A -> bool) (h : A -> B) (l : list A) :
  forall acc,
    fold_left (fun cells p => if f p then cells ++ [h p] else cells) l acc
    = acc ++ map h (filter f l).
Proof.
  induction l as [| a r IH]; intros acc; simpl.
  - now rewrite app_nil_r.
  - rewrite IH. destruct (f a); simpl; [now rewrite <- app_assoc | reflexivity].
Qed.

Lemma collectRoadCells_filter st :
  collectRoadCells st
  = map (fun p => GridPoint.mk (snd p) (fst p))
        (filter (holdsRoad (grid st)) gridCells).
Proof.
  unfold collectRoadCells.
  rewrite (NearestFacts.fold_nested
             (fun y x cells =>
                if match matrixGet (grid st) x y with
                   | Some v => v =? 1
                   | None => false
                   end
                then cells ++ [GridPoint.mk x y] else cells)).
  apply (fold_push (holdsRoad (grid st))
                   (fun p => GridPoint.mk (snd p) (fst p))).
Qed.

Lemma filter_count_change {A : Type} (f g : A -> bool) (p : A)
  (l : list A) :
  NoDup l -> In p l -> (forall q, q <> p -> g q = f q) ->
  Z.of_nat (List.length (filter g l))
  = Z.of_nat (List.length (filter f l)) - Z.b2z (f p) + Z.b2z (g p).
Proof.
  intros ND Hin Hag. induction ND as [| a r Ha Hr IH]; [destruct Hin |].
  simpl. destruct Hin as [-> | Hin].
  - assert (E : filter g r = filter f r).
    { apply filter_ext_in. intros q Hq. apply Hag. intros ->. tauto. }
    rewrite E. destruct (f p), (g p); simpl Z.b2z; simpl List.length; lia.
  - specialize (IH Hin). rewrite (Hag a) by (intros ->; tauto).
    destruct (f a); simpl List.length; lia.
Qed.

Lemma holdsRoad_other m x y v q :
  q <> (y, x) -> holdsRoad (matrixSet m x y v) q = holdsRoad m q.
Proof.
  intros Hne. unfold holdsRoad.
  rewrite matrixGet_matrixSet_other; [reflexivity |].
  intros [= E1 E2]. apply Hne. destruct q; simpl in *. congruence.
Qed.

Lemma counted_set x y v st st' :
  (v = 0 \/ v = 1) ->
  counted st ->
  isInside x y = true ->
  matrixGet (grid st) x y <> Some v ->
  grid st' = matrixSet (grid st) x y v ->
  roadCount st'
  = (if v =? 1 then roadCount st + 1 else Z.max 0 (roadCount st - 1)) ->
  counted st'.
Proof.
  intros Hv (Hd & Hb & Hc) Hin Hne Eg Er.
  destruct (matrixGet_inside _ x y Hd Hin) as [p0 Hp0].
  unfold counted. rewrite Eg, Er. split; [now apply dims_matrixSet |].
  split.
  - intros x' y' w Hw.
    destruct (Z.eq_dec x x') as [-> | Nx];
      [destruct (Z.eq_dec y y') as [-> | Ny] |].
    + rewrite (matrixGet_matrixSet_same _ _ _ _ _ Hp0) in Hw. congruence.
    + rewrite matrixGet_matrixSet_other in Hw by congruence. eauto.
    + rewrite matrixGet_matrixSet_other in Hw by congruence. eauto.
  - pose proof (filter_count_change (holdsRoad (grid st))
                  (holdsRoad (matrixSet (grid st) x y v)) (y, x) gridCells
                  NoDup_gridCells (proj2 (in_gridCells x y) Hin)
                  (fun q Hq => holdsRoad_other _ _ _ _ q Hq)) as Hn.
    assert (E1 : holdsRoad (grid st) (y, x) = (p0 =? 1))
      by (unfold holdsRoad; simpl; now rewrite Hp0).
    assert (E2 : holdsRoad (matrixSet (grid st) x y v) (y, x) = (v =? 1))
      by (unfold holdsRoad; simpl;
          now rewrite (matrixGet_matrixSet_same _ _ _ _ _ Hp0)).
    rewrite E1, E2 in Hn.
    rewrite Hc.
    destruct (Hb _ _ _ Hp0) as [-> | ->]; destruct Hv as [-> | ->];
      try congruence; simpl in *; lia.
Qed.

Lemma counted_same st st' :
  grid st' = grid st -> roadCount st' = roadCount st ->
  counted st -> counted st'.
Proof. unfold counted. intros -> ->. auto. Qed.

Lemma counted_setRoadValue x y v st :
  (v = 0 \/ v = 1) -> counted st -> counted (fst (setRoadValue x y v st)).
Proof.
  intros Hv Hc.
  destruct (setRoadValue_effect x y v st)
    as [(_ & E & _) | (_ & Hin & Hne & Eg & _ & Er & _)].
  - cbv zeta in E. now rewrite E.
  - eapply counted_set; eauto.
Qed.

Lemma counted_fold {A : Type} (f : GameScene -> A -> GameScene)
  (l : list A) :
  (forall s a, counted s -> counted (f s a)) ->
  forall st, counted st -> counted (fold_left f l st).
Proof.
  intros Hf. induction l as [| a r IH]; intros st H; simpl; auto.
Qed.

Lemma counted_points sp dp st :
  counted st ->
  counted (rebuildSpawnOrder
             (with_destinationPoints dp (with_spawnPoints sp st))).
Proof. apply counted_same; reflexivity. Qed.

Lemma counted_seedSimpleRoads st :
  counted st -> counted (seedSimpleRoads st).
Proof.
  intros H. unfold seedSimpleRoads. cbv zeta.
  apply counted_points.
  repeat (apply counted_fold;
          [intros; cbv beta;
           repeat (apply counted_setRoadValue; [now right |]);
           assumption |]).
  exact H.
Qed.

Lemma filter_none {A : Type} (f : A -> bool) (l : list A) :
  (forall a, In a l -> f a = false) -> filter f l = [].
Proof.
  induction l as [| a r IH]; intros H; simpl; [reflexivity |].
  rewrite (H a) by now left. apply IH. intros b Hb. apply H. now right.
Qed.

(** A matrix of the size of the grid that holds 0 everywhere inside. *)
Lemma counted_zero st :
  grid_dims (grid st) ->
  (forall x y, isInside x y = true -> matrixGet (grid st) x y = Some 0) ->
  roadCount st = 0 ->
  counted st.
Proof.
  intros Hd Hz Hr. split; [exact Hd |]. split.
  - intros x y v Hv. left.
    pose proof (matrixGet_some_inside _ _ _ _ Hd Hv) as Hin.
    rewrite (Hz _ _ Hin) in Hv. congruence.
  - rewrite Hr, filter_none; [reflexivity |].
    intros [y x] Hin. apply in_gridCells in Hin.
    unfold holdsRoad. simpl. now rewrite (Hz _ _ Hin).
Qed.

Lemma counted_initializeGrid st : counted (initializeGrid st).
Proof.
  apply counted_zero.
  - apply dims_repeat.
  - intros x y Hin. now apply matrixGet_repeat.
  - reflexivity.
Qed.

(** The two loops of [resetMap], as they act on the road matrix. *)
Lemma grid_zeroing (l : list (Z * Z)) : forall st,
  grid (fold_left
          (fun s p =>
             with_walkMatrix (matrixSet (walkMatrix s) (snd p) (fst p) 1)
               (with_grid (matrixSet (grid s) (snd p) (fst p) 0) s))
          l st)
  = fold_left (fun m p => matrixSet m (snd p) (fst p) 0) l (grid st).
Proof.
  induction l as [| p r IH]; intros st; simpl; [reflexivity |].
  now rewrite IH.
Qed.

Lemma zeroed_cells (l : list (Z * Z)) : forall m x y,
  In (y, x) l \/ matrixGet m x y = Some 0 ->
  (exists w, matrixGet m x y = Some w) ->
  matrixGet (fold_left (fun m p => matrixSet m (snd p) (fst p) 0) l m) x y
  = Some 0.
Proof.
  induction l as [| p r IH]; intros m x y H (w & Hw); simpl.
  - destruct H as [[] | H]. exact H.
  - destruct (Z.eq_dec (snd p) x) as [Ex | Nx];
      [destruct (Z.eq_dec (fst p) y) as [Ey | Ny] |].
    + subst. apply IH.
      * right. eapply matrixGet_matrixSet_same; eauto.
      * exists 0. eapply matrixGet_matrixSet_same; eauto.
    + apply IH.
      * rewrite matrixGet_matrixSet_other by congruence.
        destruct H as [[E | H] | H]; auto.
        subst p. simpl in Ny. congruence.
      * rewrite matrixGet_matrixSet_other by congruence. eauto.
    + apply IH.
      * rewrite matrixGet_matrixSet_other by congruence.
        destruct H as [[E | H] | H]; auto.
        subst p. simpl in Nx. congruence.
      * rewrite matrixGet_matrixSet_other by congruence. eauto.
Qed.

Lemma dims_zeroing (l : list (Z * Z)) : forall m,
  grid_dims m ->
  grid_dims (fold_left (fun m p => matrixSet m (snd p) (fst p) 0) l m).
Proof.
  induction l as [| p r IH]; intros m H; simpl; [exact H |].
  apply IH. now apply dims_matrixSet.
Qed.

Lemma counted_cleared st st' :
  grid st' = grid st -> roadCount st' = 0 ->
  grid_dims (grid st) ->
  (forall x y, isInside x y = true -> matrixGet (grid st) x y = Some 0) ->
  counted st'.
Proof.
  intros Eg Er Hd Hz. apply counted_zero; rewrite ?Eg; assumption.
Qed.

Lemma grid_clearCars st : grid (clearCars st) = grid st.
Proof.
  pose proof (SceneFacts.matrices_clearCars st) as H.
  unfold matrices in H. congruence.
Qed.

Lemma roadCount_clearCars st : roadCount (clearCars st) = roadCount st.
Proof.
  unfold clearCars. cbv zeta.
  change (roadCount
            (fold_left (fun s car => destroySprite (Car.sprite car) s)
                       (cars st) st) = roadCount st).
  generalize (cars st) as l. intros l. revert st.
  induction l as [| a r IH]; intros st; simpl; [reflexivity |].
  now rewrite IH.
Qed.

Lemma counted_redraw m d st :
  counted st -> counted (showFlash m d (forceRedraw st)).
Proof. apply counted_same; reflexivity. Qed.

Lemma counted_reset_tail sp st :
  grid_dims (grid st) ->
  (forall x y, isInside x y = true -> matrixGet (grid st) x y = Some 0) ->
  counted
    (clearCars
       (with_roadCount 0
          (with_pathCache
             (PathCache.clear
                (pathCache
                   (with_destinationPoints JsMap.empty
                      (rebuildSpawnOrder (with_spawnPoints sp st)))))
             (with_destinationPoints JsMap.empty
                (rebuildSpawnOrder (with_spawnPoints sp st)))))).
Proof.
  intros Hd Hz. apply (counted_cleared st); try assumption.
  - now rewrite grid_clearCars.
  - now rewrite roadCount_clearCars.
Qed.

Lemma counted_resetMap st :
  grid_dims (grid st) -> counted (resetMap st).
Proof.
  intros Hd. unfold resetMap. cbv zeta.
  apply counted_redraw, counted_seedSimpleRoads, counted_reset_tail.
  - rewrite (NearestFacts.fold_nested
               (fun y x s =>
                  with_walkMatrix (matrixSet (walkMatrix s) x y 1)
                    (with_grid (matrixSet (grid s) x y 0) s))).
    rewrite grid_zeroing. now apply dims_zeroing.
  - intros x y Hin.
    rewrite (NearestFacts.fold_nested
               (fun y x s =>
                  with_walkMatrix (matrixSet (walkMatrix s) x y 1)
                    (with_grid (matrixSet (grid s) x y 0) s))).
    rewrite grid_zeroing. apply zeroed_cells.
    + left. now apply in_gridCells.
    + now apply matrixGet_inside.
Qed.

Lemma counted_roads st st' : roads st' = roads st -> counted st -> counted st'.
Proof. unfold roads. intros [= Eg Er]. now apply counted_same. Qed.

Lemma roads_toggleSpawn c st : roads (toggleSpawn c st) = roads st.
Proof.
  unfold toggleSpawn. destruct (negb _); [reflexivity |].
  cbv zeta. destruct (JsMap.has _ _); reflexivity.
Qed.

Lemma roads_removeSpawn c st : roads (removeSpawn c st) = roads st.
Proof. unfold removeSpawn. destruct (JsMap.has _ _); reflexivity. Qed.

Lemma roads_toggleDestination c st :
  roads (toggleDestination c st) = roads st.
Proof.
  unfold toggleDestination. destruct (negb _); [reflexivity |].
  cbv zeta. destruct (JsMap.has _ _); reflexivity.
Qed.

Lemma roads_removeDestination c st :
  roads (removeDestination c st) = roads st.
Proof. unfold removeDestination. destruct (JsMap.has _ _); reflexivity. Qed.

Lemma roads_findPath a b st : roads (snd (findPath a b st)) = roads st.
Proof.
  unfold findPath. destruct (PathCache.get _ _); [reflexivity |].
  cbv zeta. destruct (0 <? _); reflexivity.
Qed.

Lemma roads_createCar nz p c m st :
  roads (createCar nz p c m st) = roads st.
Proof.
  unfold createCar. destruct (_ <? 2); [reflexivity |].
  cbv zeta. destruct (map cellToWorldVector _) as [| s [| n r]];
    reflexivity.
Qed.

Lemma roads_removeCarAt i st st' :
  removeCarAt i st = Some st' -> roads st' = roads st.
Proof.
  unfold removeCarAt. cbv zeta. destruct (nth_error _ _); [| discriminate].
  intros [= <-]. reflexivity.
Qed.

Lemma roads_clearCars st : roads (clearCars st) = roads st.
Proof. unfold roads. now rewrite grid_clearCars, roadCount_clearCars. Qed.

Lemma counted_step nz o st :
  typedOp o = true -> counted st -> counted (step nz o st).
Proof.
  intros Ht H. destruct o; unfold step.
  - apply counted_initializeGrid.
  - apply counted_setRoadValue; [| exact H]. simpl in Ht.
    apply orb_true_iff in Ht. rewrite !Z.eqb_eq in Ht. exact Ht.
  - now apply counted_seedSimpleRoads.
  - apply counted_resetMap. apply H.
  - eapply counted_roads; [apply roads_toggleSpawn | exact H].
  - eapply counted_roads; [apply roads_removeSpawn | exact H].
  - eapply counted_roads; [apply roads_toggleDestination | exact H].
  - eapply counted_roads; [apply roads_removeDestination | exact H].
  - eapply counted_roads; [apply roads_findPath | exact H].
  - eapply counted_roads; [apply roads_createCar | exact H].
  - destruct (removeCarAt index st) eqn:E; [| exact H].
    eapply counted_roads; [eapply roads_removeCarAt; eauto | exact H].
  - eapply counted_roads; [apply roads_clearCars | exact H].
Qed.

Lemma counted_run nz ops : forall st,
  forallb typedOp ops = true -> counted st -> counted (run nz ops st).
Proof.
  induction ops as [| o r IH]; intros st Hops H; simpl; [exact H |].
  simpl in Hops. apply andb_true_iff in Hops. destruct Hops as [Ho Hr].
  apply IH; [exact Hr |]. now apply counted_step.
Qed.

Lemma holdsRoad_isRoad st x y :
  isInside x y = true -> holdsRoad (grid st) (y, x) = isRoad st x y.
Proof. intros Hin. unfold holdsRoad, isRoad. now rewrite Hin. Qed.

(** X1. After the grid was initialised, and then after any operations in
    which every road value is 0 or 1, the running total [roadCount] is
    the number of cells that [collectRoadCells] lists, and that list
    holds exactly the road cells, each once. *)
Theorem roadCount_counts_road_cells (normalize : Vector2 -> Vector2)
  (st0 : GameScene) (ops : list Op) :
  forallb typedOp ops = true ->
  let st := run normalize ops (initializeGrid st0) in
  roadCount st = Z.of_nat (List.length (collectRoadCells st)) /\
  (forall c, In c (collectRoadCells st) <-> roadCell st c) /\
  NoDup (collectRoadCells st).
Proof.
  intros Hops st.
  assert (Hc : counted st)
    by (apply counted_run; [exact Hops | apply counted_initializeGrid]).
  destruct Hc as (Hd & Hb & Hn).
  rewrite collectRoadCells_filter. split; [| split].
  - now rewrite length_map.
  - intros c. rewrite in_map_iff. unfold roadCell. split.
    + intros ([y x] & <- & Hin). apply filter_In in Hin.
      destruct Hin as [Hin Hr]. apply in_gridCells in Hin. simpl.
      now rewrite <- holdsRoad_isRoad.
    + intros Hr. exists (GridPoint.y c, GridPoint.x c). simpl.
      split; [now destruct c |]. apply filter_In.
      pose proof (NearestFacts.isRoad_inside _ _ _ Hr) as Hin.
      split; [now apply in_gridCells | now rewrite holdsRoad_isRoad].
  - apply NoDup_map_NoDup_ForallPairs.
    + intros [y x] [y' x'] _ _ [= -> ->]. reflexivity.
    + apply NoDup_filter, NoDup_gridCells.
Qed.

Lemma roadCount_counts_road_cells_witness :
  let ops := [OpSetRoadValue 1 0 1; OpSetRoadValue 2 0 1;
              OpSetRoadValue 1 0 0; OpSeedSimpleRoads] in
  forallb typedOp ops = true /\
  roadCount (run (fun v => v) ops (initializeGrid newGameScene))
  = Z.of_nat
      (List.length
         (collectRoadCells
            (run (fun v => v) ops (initializeGrid newGameScene)))).
Proof.
  intros ops.
  assert (H : forallb typedOp ops = true) by reflexivity.
  split; [exact H |].
  exact (proj1 (roadCount_counts_road_cells (fun v => v) newGameScene
                  ops H)).
Defined.
End RoadCountFacts.

(* ================================================================= *)
(** ** Spawn and destination points stay on roads *)

Module PlacementLemmas.
Import GridFacts RoadValueFacts JsMapFacts.

Local Opaque gridWidth gridHeight range.

Lemma placed_placement st st' :
  placement st' = placement st -> placed st -> placed st'.
Proof.
  unfold placement, placed, pointsPlaced, onRoads, roadCell, isRoad.
  intros [= -> -> -> ->]. auto.
Qed.

Lemma isRoad_set_other st st' x y v a b :
  grid st' = matrixSet (grid st) x y v -> (x, y) <> (a, b) ->
  isRoad st' a b = isRoad st a b.
Proof.
  intros Eg Hne. unfold isRoad. rewrite Eg.
  now rewrite matrixGet_matrixSet_other.
Qed.

Lemma isRoad_set_one st st' x y a b :
  grid st' = matrixSet (grid st) x y 1 ->
  isRoad st a b = true -> isRoad st' a b = true.
Proof.
  intros Eg Hr.
  destruct (Z.eq_dec x a) as [-> | Nx];
    [destruct (Z.eq_dec y b) as [-> | Ny] |].
  - apply SceneFacts.isRoad_iff in Hr. destruct Hr as [Hin Hg].
    apply SceneFacts.isRoad_iff. split; [exact Hin |]. rewrite Eg.
    eapply matrixGet_matrixSet_same; eauto.
  - rewrite (isRoad_set_other st st' a y 1 a b); auto. congruence.
  - rewrite (isRoad_set_other st st' x y 1 a b); auto. congruence.
Qed.

Lemma onRoads_delete st st' x y v points :
  grid st' = matrixSet (grid st) x y v ->
  onRoads st points ->
  onRoads st' (JsMap.delete (cellKey x y) points).
Proof.
  intros Eg H k c Hin. unfold JsMap.delete in Hin.
  apply filter_In in Hin. destruct Hin as [Hin Hk]. simpl in Hk.
  destruct (H k c Hin) as [-> Hr]. split; [reflexivity |].
  unfold roadCell in *.
  rewrite (isRoad_set_other st st' x y v); [exact Hr | exact Eg |].
  intros [= -> ->]. rewrite String.eqb_refl in Hk. discriminate.
Qed.

Lemma onRoads_kept st st' x y points :
  grid st' = matrixSet (grid st) x y 1 ->
  onRoads st points -> onRoads st' points.
Proof.
  intros Eg H k c Hin. destruct (H k c Hin) as [-> Hr].
  split; [reflexivity |]. unfold roadCell in *.
  eapply isRoad_set_one; eauto.
Qed.

Lemma onRoads_same st st' points :
  grid st' = grid st -> onRoads st points -> onRoads st' points.
Proof.
  unfold onRoads, roadCell, isRoad. intros ->. auto.
Qed.

Lemma onRoads_subset st points k0 :
  onRoads st points -> onRoads st (JsMap.delete k0 points).
Proof.
  intros H k c Hin. apply H. eapply in_delete; eauto.
Qed.

Lemma onRoads_set st points c :
  roadCell st c -> onRoads st points ->
  onRoads st (JsMap.set (cellKey (GridPoint.x c) (GridPoint.y c)) c points).
Proof.
  intros Hr H k c' Hin. apply CoherenceFacts.in_JsMap_set in Hin.
  destruct Hin as [[= -> ->] | Hin]; auto.
Qed.

Lemma values_delete_absent {V : Type} k (m : JsMap.t V) :
  JsMap.has k m = false -> JsMap.values (JsMap.delete k m) = JsMap.values m.
Proof.
  intros H. rewrite delete_absent; [reflexivity |]. now apply has_false_iff.
Qed.

Lemma placed_setRoadValue x y v st :
  placed st -> placed (fst (setRoadValue x y v st)).
Proof.
  intros (Hd & Hs & Hdst & Ho).
  destruct (setRoadValue_effect x y v st)
    as [(_ & E & _) |
        (_ & Hin & Hne & Eg & _ & _ & _ & Es & Ed & Eo & _)];
    cbv zeta in *.
  - rewrite E. exact (conj Hd (conj Hs (conj Hdst Ho))).
  - split; [rewrite Eg; now apply dims_matrixSet |].
    unfold pointsPlaced. rewrite Es, Ed, Eo.
    destruct (Z.eqb_spec v 1) as [-> | Hv].
    + split; [eapply onRoads_kept; eauto |].
      split; [eapply onRoads_kept; eauto | exact Ho].
    + split; [eapply onRoads_delete; eauto |].
      split; [eapply onRoads_delete; eauto |].
      destruct (JsMap.has _ _) eqn:Hh.
      * apply CoherenceFacts.map_copy_id.
      * rewrite Ho. symmetry. now apply values_delete_absent.
Qed.

Lemma placed_toggleSpawn c st : placed st -> placed (toggleSpawn c st).
Proof.
  intros (Hd & Hs & Hdst & Ho). unfold toggleSpawn.
  destruct (isRoad st (GridPoint.x c) (GridPoint.y c)) eqn:Hr; simpl negb;
    cbv iota.
  - cbv zeta. destruct (JsMap.has _ _) eqn:Hh.
    + split; [exact Hd |]. split; [| split].
      * apply (onRoads_same st); [reflexivity |]. simpl.
        now apply onRoads_subset.
      * apply (onRoads_same st); [reflexivity | exact Hdst].
      * simpl. apply CoherenceFacts.map_copy_id.
    + split; [exact Hd |]. split; [| split].
      * apply (onRoads_same st); [reflexivity |]. simpl.
        rewrite CoherenceFacts.copy_id. now apply onRoads_set.
      * apply (onRoads_same st); [reflexivity | exact Hdst].
      * simpl. apply CoherenceFacts.map_copy_id.
  - exact (conj Hd (conj Hs (conj Hdst Ho))).
Qed.

Lemma placed_removeSpawn c st : placed st -> placed (removeSpawn c st).
Proof.
  intros (Hd & Hs & Hdst & Ho). unfold removeSpawn.
  destruct (JsMap.has _ _); [| exact (conj Hd (conj Hs (conj Hdst Ho)))].
  split; [exact Hd |]. split; [| split].
  - apply (onRoads_same st); [reflexivity |]. simpl.
    now apply onRoads_subset.
  - apply (onRoads_same st); [reflexivity | exact Hdst].
  - simpl. apply CoherenceFacts.map_copy_id.
Qed.

Lemma placed_toggleDestination c st :
  placed st -> placed (toggleDestination c st).
Proof.
  intros (Hd & Hs & Hdst & Ho). unfold toggleDestination.
  destruct (isRoad st (GridPoint.x c) (GridPoint.y c)) eqn:Hr; simpl negb;
    cbv iota.
  - cbv zeta. destruct (JsMap.has _ _) eqn:Hh.
    + split; [exact Hd |]. split; [| split].
      * apply (onRoads_same st); [reflexivity | exact Hs].
      * apply (onRoads_same st); [reflexivity |]. simpl.
        now apply onRoads_subset.
      * exact Ho.
    + split; [exact Hd |]. split; [| split].
      * apply (onRoads_same st); [reflexivity | exact Hs].
      * apply (onRoads_same st); [reflexivity |]. simpl.
        rewrite CoherenceFacts.copy_id. now apply onRoads_set.
      * exact Ho.
  - exact (conj Hd (conj Hs (conj Hdst Ho))).
Qed.

Lemma placed_removeDestination c st :
  placed st -> placed (removeDestination c st).
Proof.
  intros (Hd & Hs & Hdst & Ho). unfold removeDestination.
  destruct (JsMap.has _ _); [| exact (conj Hd (conj Hs (conj Hdst Ho)))].
  split; [exact Hd |]. split; [| split].
  - apply (onRoads_same st); [reflexivity | exact Hs].
  - apply (onRoads_same st); [reflexivity |]. simpl.
    now apply onRoads_subset.
  - exact Ho.
Qed.

Lemma dims_setRoadValue x y v st :
  grid_dims (grid st) -> grid_dims (grid (fst (setRoadValue x y v st))).
Proof.
  intros Hd.
  destruct (setRoadValue_effect x y v st)
    as [(_ & E & _) | (_ & _ & _ & Eg & _)]; cbv zeta in *.
  - now rewrite E.
  - rewrite Eg. now apply dims_matrixSet.
Qed.

Lemma road_after_set_one x y st :
  grid_dims (grid st) -> isInside x y = true ->
  isRoad (fst (setRoadValue x y 1 st)) x y = true.
Proof.
  intros Hd Hin.
  destruct (setRoadValue_effect x y 1 st)
    as [(_ & E & [Ho | Hg]) | (_ & _ & _ & Eg & _)]; cbv zeta in *.
  - congruence.
  - rewrite E. apply SceneFacts.isRoad_iff. auto.
  - apply SceneFacts.isRoad_iff. split; [exact Hin |]. rewrite Eg.
    destruct (matrixGet_inside _ x y Hd Hin) as [w Hw].
    eapply matrixGet_matrixSet_same; eauto.
Qed.

Lemma road_kept_set_one x y a b st :
  isRoad st a b = true -> isRoad (fst (setRoadValue x y 1 st)) a b = true.
Proof.
  intros Hr.
  destruct (setRoadValue_effect x y 1 st)
    as [(_ & E & _) | (_ & _ & _ & Eg & _)]; cbv zeta in *.
  - now rewrite E.
  - eapply isRoad_set_one; eauto.
Qed.

Lemma roads_kept_fold (l : list GridPoint) : forall st a b,
  isRoad st a b = true ->
  isRoad (fold_left
            (fun s point =>
               fst (setRoadValue (GridPoint.x point) (GridPoint.y point) 1 s))
            l st) a b = true.
Proof.
  induction l as [| p r IH]; intros st a b H; simpl; [exact H |].
  apply IH. now apply road_kept_set_one.
Qed.

Lemma dims_fold_points (l : list GridPoint) : forall st,
  grid_dims (grid st) ->
  grid_dims (grid (fold_left
                     (fun s point =>
                        fst (setRoadValue (GridPoint.x point)
                                          (GridPoint.y point) 1 s))
                     l st)).
Proof.
  induction l as [| p r IH]; intros st H; simpl; [exact H |].
  apply IH. now apply dims_setRoadValue.
Qed.

Lemma roads_made_fold (l : list GridPoint) : forall st p,
  grid_dims (grid st) -> In p l ->
  isInside (GridPoint.x p) (GridPoint.y p) = true ->
  roadCell (fold_left
              (fun s point =>
                 fst (setRoadValue (GridPoint.x point) (GridPoint.y point) 1 s))
              l st) p.
Proof.
  unfold roadCell.
  induction l as [| q r IH]; intros st p Hd Hin Hp; [destruct Hin |].
  simpl. destruct Hin as [-> | Hin].
  - apply roads_kept_fold. now apply road_after_set_one.
  - apply IH; auto. now apply dims_setRoadValue.
Qed.

Lemma placed_fold {A : Type} (f : GameScene -> A -> GameScene)
  (l : list A) :
  (forall s a, placed s -> placed (f s a)) ->
  forall st, placed st -> placed (fold_left f l st).
Proof.
  intros Hf. induction l as [| a r IH]; intros st H; simpl; auto.
Qed.

(** The last step of [seedSimpleRoads]: two spawn points and two
    destination points are registered, on cells that are roads. *)
Lemma placed_registered st a1 a2 b1 b2 :
  placed st ->
  roadCell st a1 -> roadCell st a2 -> roadCell st b1 -> roadCell st b2 ->
  placed
    (rebuildSpawnOrder
       (with_destinationPoints
          (JsMap.set (cellKey (GridPoint.x b2) (GridPoint.y b2)) b2
             (JsMap.set (cellKey (GridPoint.x b1) (GridPoint.y b1)) b1
                (destinationPoints st)))
          (with_spawnPoints
             (JsMap.set (cellKey (GridPoint.x a2) (GridPoint.y a2)) a2
                (JsMap.set (cellKey (GridPoint.x a1) (GridPoint.y a1)) a1
                   (spawnPoints st)))
             st))).
Proof.
  intros (Hd & Hs & Hdst & Ho) Ha1 Ha2 Hb1 Hb2.
  split; [exact Hd |]. split; [| split].
  - apply (onRoads_same st); [reflexivity |]. simpl.
    now apply onRoads_set, onRoads_set.
  - apply (onRoads_same st); [reflexivity |]. simpl.
    now apply onRoads_set, onRoads_set.
  - simpl. apply CoherenceFacts.map_copy_id.
Qed.

Lemma placed_seedSimpleRoads st : placed st -> placed (seedSimpleRoads st).
Proof.
  intros H. unfold seedSimpleRoads. cbv zeta.
  match goal with
  | |- placed (rebuildSpawnOrder (with_destinationPoints _
                 (with_spawnPoints _ (fold_left ?f ?l ?s)))) =>
      assert (Hs : placed s);
      [| assert (Hk : forall p, In p l ->
                   isInside (GridPoint.x p) (GridPoint.y p) = true ->
                   roadCell (fold_left f l s) p)
           by (intros p Hp Hin; apply roads_made_fold;
               [apply Hs | exact Hp | exact Hin]);
         assert (Hl : placed (fold_left f l s))
           by (apply placed_fold;
               [intros; now apply placed_setRoadValue | exact Hs])]
  end.
  { repeat (apply placed_fold;
            [intros; cbv beta; repeat apply placed_setRoadValue;
             assumption |]).
    exact H. }
  apply (placed_registered _
           (GridPoint.mk (gridWidth / 2) 4)
           (GridPoint.mk 4 (gridHeight / 2))
           (GridPoint.mk (gridWidth / 2) (gridHeight - 5))
           (GridPoint.mk (gridWidth - 5) (gridHeight / 2)) Hl);
    apply Hk; simpl; auto; vm_compute; reflexivity.
Qed.

Lemma placement_clearCars st : placement (clearCars st) = placement st.
Proof.
  unfold clearCars. cbv zeta.
  change (placement
            (fold_left (fun s car => destroySprite (Car.sprite car) s)
                       (cars st) st) = placement st).
  generalize (cars st) as l. intros l. revert st.
  induction l as [| a r IH]; intros st; simpl; [reflexivity |].
  now rewrite IH.
Qed.

Lemma placed_reset_tail st :
  grid_dims (grid st) ->
  placed
    (clearCars
       (with_roadCount 0
          (with_pathCache
             (PathCache.clear
                (pathCache
                   (with_destinationPoints JsMap.empty
                      (rebuildSpawnOrder (with_spawnPoints JsMap.empty st)))))
             (with_destinationPoints JsMap.empty
                (rebuildSpawnOrder (with_spawnPoints JsMap.empty st)))))).
Proof.
  intros Hd.
  eapply placed_placement; [apply placement_clearCars |].
  split; [exact Hd |]. split; [| split]; try (intros k c []).
  reflexivity.
Qed.

Lemma placed_redraw m d st :
  placed st -> placed (showFlash m d (forceRedraw st)).
Proof. apply placed_placement. reflexivity. Qed.

Lemma placed_resetMap st : grid_dims (grid st) -> placed (resetMap st).
Proof.
  intros Hd. unfold resetMap. cbv zeta.
  apply placed_redraw, placed_seedSimpleRoads, placed_reset_tail.
  rewrite (NearestFacts.fold_nested
             (fun y x s =>
                with_walkMatrix (matrixSet (walkMatrix s) x y 1)
                  (with_grid (matrixSet (grid s) x y 0) s))).
  rewrite RoadCountFacts.grid_zeroing.
  now apply RoadCountFacts.dims_zeroing.
Qed.

Lemma placement_findPath a b st :
  placement (snd (findPath a b st)) = placement st.
Proof.
  unfold findPath. destruct (PathCache.get _ _); [reflexivity |].
  cbv zeta. destruct (0 <? _); reflexivity.
Qed.

Lemma placement_createCar nz p c m st :
  placement (createCar nz p c m st) = placement st.
Proof.
  unfold createCar. destruct (_ <? 2); [reflexivity |].
  cbv zeta. destruct (map cellToWorldVector _) as [| s [| n r]];
    reflexivity.
Qed.

Lemma placement_removeCarAt i st st' :
  removeCarAt i st = Some st' -> placement st' = placement st.
Proof.
  unfold removeCarAt. cbv zeta. destruct (nth_error _ _); [| discriminate].
  intros [= <-]. reflexivity.
Qed.

Lemma placed_step nz o st :
  sessionOp o = true -> placed st -> placed (step nz o st).
Proof.
  intros Ho H. destruct o; try discriminate Ho; unfold step.
  - now apply placed_setRoadValue.
  - now apply placed_seedSimpleRoads.
  - apply placed_resetMap, H.
  - now apply placed_toggleSpawn.
  - now apply placed_removeSpawn.
  - now apply placed_toggleDestination.
  - now apply placed_removeDestination.
  - eapply placed_placement; [apply placement_findPath | exact H].
  - eapply placed_placement; [apply placement_createCar | exact H].
  - destruct (removeCarAt index st) eqn:E; [| exact H].
    eapply placed_placement; [eapply placement_removeCarAt; eauto | exact H].
  - eapply placed_placement; [apply placement_clearCars | exact H].
Qed.

Lemma placed_started st :
  spawnPoints st = [] -> destinationPoints st = [] -> spawnOrder st = [] ->
  placed (refreshHud true (initializeGrid st)).
Proof.
  intros Es Ed Eo. split; [apply dims_repeat |].
  unfold pointsPlaced. simpl. rewrite Es, Ed, Eo.
  split; [| split]; try (intros k c []). reflexivity.
Qed.

Lemma placed_forceRedraw st : placed st -> placed (forceRedraw st).
Proof. apply placed_placement. reflexivity. Qed.

Lemma placed_create : placed (create newGameScene).
Proof.
  unfold create.
  apply placed_forceRedraw, placed_seedSimpleRoads, placed_started;
    reflexivity.
Qed.
End PlacementLemmas.

(* ================================================================= *)
(** ** The cache stays within its limit *)

Module CacheBoundFacts.

Lemma get_set_other {V : Type} (k k' : string) (v : V) (m : JsMap.t V) :
  k' <> k -> JsMap.get k' (JsMap.set k v m) = JsMap.get k' m.
Proof.
  intros Hne. induction m as [| [k0 v0] r IH]; simpl.
  - destruct (String.eqb_spec k' k); [contradiction | reflexivity].
  - destruct (String.eqb_spec k k0) as [-> | Hk]; simpl.
    + destruct (String.eqb_spec k' k0); [contradiction | reflexivity].
    + now rewrite IH.
Qed.

Lemma get_delete_same {V : Type} (k : string) (m : JsMap.t V) :
  JsMap.get k (JsMap.delete k m) = None.
Proof.
  unfold JsMap.delete. induction m as [| [k0 v0] r IH]; simpl; auto.
  destruct (String.eqb_spec k k0) as [-> | Hk]; simpl; auto.
  destruct (String.eqb_spec k k0); [contradiction | exact IH].
Qed.

Lemma get_after_set_other k p c k' :
  k' <> k ->
  PathCache.get k' (PathCache.set k p c) = PathCache.get k' c \/
  PathCache.get k' (PathCache.set k p c) = None.
Proof.
  intros Hne. unfold PathCache.get, PathCache.set. cbv zeta.
  cbn [PathCache.store].
  set (s1 := if JsMap.has k (PathCache.store c)
             then JsMap.delete k (PathCache.store c)
             else PathCache.store c).
  assert (E1 : JsMap.get k' s1 = JsMap.get k' (PathCache.store c)).
  { unfold s1. destruct (JsMap.has k _); [| reflexivity].
    apply RefCacheFacts.get_delete_other. congruence. }
  set (s2 := JsMap.set k (map GridPoint.copy p) s1).
  assert (E2 : JsMap.get k' s2 = JsMap.get k' (PathCache.store c)).
  { unfold s2. now rewrite get_set_other. }
  destruct (JsMap.size s2 >? PathCache.limit c).
  - destruct (JsMap.keys s2) as [| oldest rest].
    + left. now rewrite E2.
    + destruct (String.eqb_spec oldest k') as [-> | Ho].
      * right. now rewrite get_delete_same.
      * left. rewrite RefCacheFacts.get_delete_other by exact Ho.
        now rewrite E2.
  - left. now rewrite E2.
Qed.

(** X3. Whatever operations ran on a cache made with a limit that is not
    negative, it holds at most [limit] entries under pairwise distinct
    keys; and a [set] leaves the path stored under every other key as it
    was, or evicts it. *)
Theorem PathCache_bounded_and_stable (lim : Z) (ops : list PathCache.Op) :
  0 <= lim ->
  let c := PathCache.run ops (PathCache.new lim) in
  PathCache.size c <= lim /\
  NoDup (PathCache.keys c) /\
  forall k p k', k' <> k ->
    PathCache.get k' (PathCache.set k p c) = PathCache.get k' c \/
    PathCache.get k' (PathCache.set k p c) = None.
Proof.
  intros Hlim c.
  destruct (PathCacheFacts.wf_run ops (PathCache.new lim) Hlim
              (PathCacheFacts.wf_new lim Hlim)) as [Hn Hs].
  fold c in Hn, Hs. unfold c in Hs at 2.
  rewrite PathCacheFacts.limit_run in Hs.
  split; [exact Hs |]. split; [exact Hn |].
  intros k p k'. apply get_after_set_other.
Qed.

Lemma PathCache_bounded_and_stable_witness :
  let c := PathCache.run
             [PathCache.OpSet "a" []; PathCache.OpSet "b" [];
              PathCache.OpSet "c" []]
             (PathCache.new 2) in
  PathCache.size c <= 2 /\ NoDup (PathCache.keys c).
Proof.
  intros c.
  pose proof (PathCache_bounded_and_stable 2
                [PathCache.OpSet "a" []; PathCache.OpSet "b" [];
                 PathCache.OpSet "c" []] ltac:(lia)) as H.
  exact (conj (proj1 H) (proj1 (proj2 H))).
Defined.
End CacheBoundFacts.

(* ================================================================= *)
(** ** Asking for the same path twice *)

Module RepeatFacts.

Lemma get_after_set k p c :
  1 <= PathCache.limit c ->
  PathCache.get k (PathCache.set k p c) = Some p.
Proof.
  intros Hl. unfold PathCache.get, PathCache.set. cbv zeta.
  cbn [PathCache.store PathCache.limit].
  rewrite (RefCacheFacts.stored_after_set k (map GridPoint.copy p)
             (PathCache.store c) (PathCache.limit c) Hl).
  now rewrite !CoherenceFacts.map_copy_id.
Qed.

Lemma get_copy k c p :
  PathCache.get k c = Some p ->
  JsMap.get k (PathCache.store c) = Some p.
Proof.
  unfold PathCache.get. destruct (JsMap.get k _); [| discriminate].
  rewrite CoherenceFacts.map_copy_id. auto.
Qed.

(** X4. When the cache has room for an entry, asking [findPath] again for
    the same pair of cells right after a call returns the same path and
    leaves the scene as the first call left it. *)
Theorem findPath_repeat_is_stable (a b : GridPoint) (st : GameScene) :
  1 <= PathCache.limit (pathCache st) ->
  findPath a b (snd (findPath a b st)) = findPath a b st.
Proof.
  intros Hl.
  destruct (PathCache.get (pathKey a b) (pathCache st)) as [cached |] eqn:Hg.
  - assert (E : findPath a b st = (cached, st))
      by (unfold findPath; now rewrite Hg).
    rewrite E. simpl. exact E.
  - assert (E : findPath a b st
                = (let path := map (fun c : PF.cell =>
                                      GridPoint.mk (fst c) (snd c))
                     (PF.AStarFinder.findPath (GridPoint.x a) (GridPoint.y a)
                        (GridPoint.x b) (GridPoint.y b) (walkMatrix st)) in
                   if 0 <? Z.of_nat (List.length path)
                   then (path, with_pathCache
                                 (PathCache.set (pathKey a b) path
                                    (pathCache st)) st)
                   else (path, st)))
      by (unfold findPath; now rewrite Hg).
    cbv zeta in E.
    set (path := map (fun c : PF.cell => GridPoint.mk (fst c) (snd c)) _) in E.
    destruct (0 <? Z.of_nat (List.length path)); rewrite E; simpl.
    + unfold findPath. simpl pathCache. rewrite get_after_set by exact Hl.
      reflexivity.
    + now rewrite E.
Qed.

Lemma findPath_repeat_is_stable_witness :
  let st := create newGameScene in
  1 <= PathCache.limit (pathCache st) /\
  findPath (GridPoint.mk 3 16) (GridPoint.mk 5 16)
    (snd (findPath (GridPoint.mk 3 16) (GridPoint.mk 5 16) st))
  = findPath (GridPoint.mk 3 16) (GridPoint.mk 5 16) st.
Proof.
  intros st.
  assert (Hl : 1 <= PathCache.limit (pathCache st))
    by (vm_compute; discriminate).
  split; [exact Hl |].
  exact (findPath_repeat_is_stable (GridPoint.mk 3 16) (GridPoint.mk 5 16)
           st Hl).
Defined.
End RepeatFacts.

(* ================================================================= *)
(** ** Snapping to the nearest road *)

Module SnapFacts.

Lemma searchRings_some st pos baseX baseY radii : forall c,
  searchRings st pos baseX baseY radii = Some c ->
  exists r d, In r radii /\ scanRing st pos baseX baseY r = Some (c, d).
Proof.
  induction radii as [| r rest IH]; intros c H; simpl in H; [discriminate |].
  destruct (scanRing st pos baseX baseY r) as [[c' d] |] eqn:E.
  - injection H as <-. exists r, d. split; [now left | exact E].
  - destruct (IH c H) as (r' & d & Hin & Hs).
    exists r', d. split; [now right | exact Hs].
Qed.

Lemma searchRings_all_none st pos baseX baseY radii :
  searchRings st pos baseX baseY radii = None ->
  forall r, In r radii -> scanRing st pos baseX baseY r = None.
Proof.
  induction radii as [| r rest IH]; intros H q Hq; [destruct Hq |].
  simpl in H.
  destruct (scanRing st pos baseX baseY r) as [[c' d] |] eqn:E;
    [discriminate |].
  destruct Hq as [<- | Hq]; [exact E | now apply IH].
Qed.

Lemma inside_bounds x y :
  isInside x y = true <-> 0 <= x < gridWidth /\ 0 <= y < gridHeight.
Proof.
  unfold isInside. rewrite !andb_true_iff, !Z.geb_le, !Z.ltb_lt. lia.
Qed.

(** The cell the search starts from, after clamping. *)
Lemma base_inside bx by_ :
  let '(x, y) :=
    if negb (isInside bx by_)
    then (Clamp bx 0 (gridWidth - 1), Clamp by_ 0 (gridHeight - 1))
    else (bx, by_) in
  isInside x y = true.
Proof.
  destruct (isInside bx by_) eqn:E; simpl; [exact E |].
  apply inside_bounds. unfold Clamp, gridWidth, gridHeight. lia.
Qed.

Lemma nearest_sound pos r st c :
  findNearestRoadCell pos r st = Some c -> roadCell st c.
Proof.
  unfold findNearestRoadCell. cbv zeta.
  destruct (if negb (isInside _ _) then _ else _) as [bx by_].
  destruct (isRoad st bx by_) eqn:Hr.
  - intros [= <-]. exact Hr.
  - intros H. apply searchRings_some in H.
    destruct H as (q & d & _ & Hs).
    now apply NearestFacts.scanRing_some in Hs.
Qed.

Lemma nearest_none_iff pos st :
  findNearestRoadCell pos defaultMaxRadius st = None <->
  forall c, ~ roadCell st c.
Proof.
  unfold findNearestRoadCell. cbv zeta.
  pose proof (base_inside
                (Qfloor (Vector2.x pos / inject_Z tileSize))
                (Qfloor (Vector2.y pos / inject_Z tileSize))) as Hb.
  destruct (if negb (isInside _ _) then _ else _) as [bx by_].
  apply inside_bounds in Hb.
  destruct (isRoad st bx by_) eqn:Hr.
  - split; [discriminate |]. intros H. elim (H (GridPoint.mk bx by_)).
    exact Hr.
  - split.
    + intros H c Hc.
      pose proof (NearestFacts.isRoad_inside st _ _ Hc) as Hin.
      apply inside_bounds in Hin.
      destruct (Z.eq_dec (chebyshev bx by_ c) 0) as [E0 | N0].
      * unfold chebyshev in E0.
        assert (GridPoint.x c = bx /\ GridPoint.y c = by_) as [Ex Ey] by lia.
        unfold roadCell in Hc. rewrite Ex, Ey in Hc. congruence.
      * refine (NearestFacts.scanRing_none st pos bx by_ _ _ c Hc eq_refl).
        apply (searchRings_all_none _ _ _ _ _ H).
        apply NearestFacts.in_range.
        unfold chebyshev, defaultMaxRadius, gridWidth, gridHeight in *. lia.
    + intros H. apply NearestFacts.searchRings_none. intros r _.
      apply NearestFacts.scanRing_empty. intros c Hc. elim (H c Hc).
Qed.

(** X5. Whatever the position and the radius, a cell that
    [findNearestRoadCell] returns is a road cell; and with the default
    radius it returns none exactly when the grid holds no road cell. *)
Theorem findNearestRoadCell_finds_any_road (pos : Vector2)
  (st : GameScene) :
  (forall r c, findNearestRoadCell pos r st = Some c -> roadCell st c) /\
  (findNearestRoadCell pos defaultMaxRadius st = None <->
   forall c, ~ roadCell st c).
Proof.
  split; [intros r c; apply nearest_sound | apply nearest_none_iff].
Qed.

(** X6. [ensureRoadCell] returns a road cell itself, returns only road
    cells, and returns none exactly when the grid holds no road cell. *)
Theorem ensureRoadCell_snaps_to_road (cell : GridPoint) (st : GameScene) :
  (roadCell st cell -> ensureRoadCell cell st = Some cell) /\
  (forall c, ensureRoadCell cell st = Some c -> roadCell st c) /\
  (ensureRoadCell cell st = None <-> forall c, ~ roadCell st c).
Proof.
  unfold ensureRoadCell, roadCell.
  destruct (isRoad st (GridPoint.x cell) (GridPoint.y cell)) eqn:Hr.
  - split; [intros _; now destruct cell |]. split.
    + intros c [= <-]. exact Hr.
    + split; [discriminate |]. intros H. elim (H cell). exact Hr.
  - split; [discriminate |].
    destruct (findNearestRoadCell (cellToWorldVector cell)
                defaultMaxRadius st) as [snapped |] eqn:E.
    + split.
      * intros c [= <-]. rewrite CoherenceFacts.copy_id.
        exact (nearest_sound _ _ _ _ E).
      * split; [discriminate |]. intros H.
        elim (H snapped). exact (nearest_sound _ _ _ _ E).
    + split; [discriminate |]. split; [| reflexivity].
      intros _. exact (proj1 (nearest_none_iff _ _) E).
Qed.
End SnapFacts.

(* ================================================================= *)
(** ** Pointer positions and cells *)

Module PointerFacts.

Lemma floor_unique (q : Q) (z : Z) :
  (inject_Z z <= q)%Q -> (q < inject_Z (z + 1))%Q -> Qfloor q = z.
Proof.
  intros Hlo Hhi.
  pose proof (Qfloor_le q) as Hf1. pose proof (Qlt_floor q) as Hf2.
  assert (H1 : (inject_Z z < inject_Z (Qfloor q + 1))%Q)
    by (eapply Qle_lt_trans; eauto).
  assert (H2 : (inject_Z (Qfloor q) < inject_Z (z + 1))%Q)
    by (eapply Qle_lt_trans; eauto).
  rewrite <- Zlt_Qlt in H1, H2. lia.
Qed.

Lemma floor_center (x : Z) :
  Qfloor ((inject_Z (x * tileSize) + inject_Z tileSize / 2)
          / inject_Z tileSize) = x.
Proof.
  apply floor_unique; unfold tileSize, Qle, Qlt, Qdiv, Qmult, Qplus, Qinv,
    inject_Z; simpl; lia.
Qed.

Lemma floor_tile (w : Q) :
  (inject_Z (Qfloor (w / inject_Z tileSize) * tileSize) <= w)%Q /\
  (w < inject_Z ((Qfloor (w / inject_Z tileSize) + 1) * tileSize))%Q.
Proof.
  pose proof (Qfloor_le (w / inject_Z tileSize)) as Hlo.
  pose proof (Qlt_floor (w / inject_Z tileSize)) as Hhi.
  set (f := Qfloor (w / inject_Z tileSize)) in *.
  assert (Ht : (0 < inject_Z tileSize)%Q) by reflexivity.
  assert (Ew : (w / inject_Z tileSize * inject_Z tileSize == w)%Q)
    by (apply Qdiv_mult_l; discriminate).
  split.
  - rewrite inject_Z_mult, <- Ew. apply Qmult_le_compat_r; [exact Hlo |].
    now apply Qlt_le_weak.
  - rewrite inject_Z_mult, <- Ew at 1. apply Qmult_lt_compat_r; assumption.
Qed.

(** X7. The centre of a cell of the grid is a pointer position of that
    cell; a position has a cell exactly when it lies in the world, and the
    cell it gets is inside the grid with the position on its tile. *)
Theorem pointerToCell_round_trip :
  (forall x y, isInside x y = true ->
     pointerToCell (Vector2.x (cellCenterToWorld x y))
                   (Vector2.y (cellCenterToWorld x y))
     = Some (GridPoint.mk x y)) /\
  (forall wx wy c, pointerToCell wx wy = Some c ->
     isInside (GridPoint.x c) (GridPoint.y c) = true /\
     (inject_Z (GridPoint.x c * tileSize) <= wx)%Q /\
     (wx < inject_Z ((GridPoint.x c + 1) * tileSize))%Q /\
     (inject_Z (GridPoint.y c * tileSize) <= wy)%Q /\
     (wy < inject_Z ((GridPoint.y c + 1) * tileSize))%Q) /\
  (forall wx wy, pointerToCell wx wy = None <->
     ~ ((0 <= wx)%Q /\ (wx < inject_Z (gridWidth * tileSize))%Q /\
        (0 <= wy)%Q /\ (wy < inject_Z (gridHeight * tileSize))%Q)).
Proof.
  split; [| split].
  - intros x y Hin. unfold pointerToCell, cellCenterToWorld.
    cbn [Vector2.x Vector2.y]. cbv zeta.
    rewrite !floor_center, Hin. reflexivity.
  - intros wx wy c. unfold pointerToCell. cbv zeta.
    destruct (isInside _ _) eqn:Hin; [| discriminate].
    intros [= <-]. simpl.
    destruct (floor_tile wx) as [H1 H2]. destruct (floor_tile wy) as [H3 H4].
    auto.
  - intros wx wy. unfold pointerToCell. cbv zeta.
    destruct (floor_tile wx) as [H1 H2]. destruct (floor_tile wy) as [H3 H4].
    set (fx := Qfloor (wx / inject_Z tileSize)) in *.
    set (fy := Qfloor (wy / inject_Z tileSize)) in *.
    destruct (isInside fx fy) eqn:Hin; simpl.
    + split; [discriminate |]. intros H. elim H.
      apply SnapFacts.inside_bounds in Hin. destruct Hin as [[Hx0 Hx1] [Hy0 Hy1]].
      assert (Ax : (inject_Z 0 <= inject_Z (fx * tileSize))%Q)
        by (rewrite <- Zle_Qle; unfold tileSize; lia).
      assert (Bx : (inject_Z ((fx + 1) * tileSize)
                    <= inject_Z (gridWidth * tileSize))%Q)
        by (rewrite <- Zle_Qle; unfold tileSize; lia).
      assert (Ay : (inject_Z 0 <= inject_Z (fy * tileSize))%Q)
        by (rewrite <- Zle_Qle; unfold tileSize; lia).
      assert (By : (inject_Z ((fy + 1) * tileSize)
                    <= inject_Z (gridHeight * tileSize))%Q)
        by (rewrite <- Zle_Qle; unfold tileSize; lia).
      split; [exact (Qle_trans _ _ _ Ax H1) |].
      split; [exact (Qlt_le_trans _ _ _ H2 Bx) |].
      split; [exact (Qle_trans _ _ _ Ay H3) |].
      exact (Qlt_le_trans _ _ _ H4 By).
    + split; [| reflexivity]. intros _ (Hx0 & Hx1 & Hy0 & Hy1).
      assert (Cx : (inject_Z (fx * tileSize)
                    < inject_Z (gridWidth * tileSize))%Q)
        by exact (Qle_lt_trans _ _ _ H1 Hx1).
      assert (Dx : (inject_Z 0 < inject_Z ((fx + 1) * tileSize))%Q)
        by exact (Qle_lt_trans _ _ _ Hx0 H2).
      assert (Cy : (inject_Z (fy * tileSize)
                    < inject_Z (gridHeight * tileSize))%Q)
        by exact (Qle_lt_trans _ _ _ H3 Hy1).
      assert (Dy : (inject_Z 0 < inject_Z ((fy + 1) * tileSize))%Q)
        by exact (Qle_lt_trans _ _ _ Hy0 H4).
      rewrite <- Zlt_Qlt in Cx, Dx, Cy, Dy.
      assert (Hb : isInside fx fy = true)
        by (apply SnapFacts.inside_bounds; unfold tileSize in *; lia).
      congruence.
Qed.
End PointerFacts.

(* ================================================================= *)
(** ** Painting a cell *)

Module PaintFacts.
Import GridFacts.

(** X8. Painting a cell of the grid with a value leaves that value in the
    cell and every other cell as it was; the call reports a change exactly
    when the cell held another value; and painting the same cell with the
    same value again changes nothing and reports no change. *)
Theorem setRoadValue_settles (x y v : Z) (st : GameScene) :
  grid_dims (grid st) -> isInside x y = true ->
  let st' := fst (setRoadValue x y v st) in
  matrixGet (grid st') x y = Some v /\
  (forall a b, (x, y) <> (a, b) ->
     matrixGet (grid st') a b = matrixGet (grid st) a b) /\
  (snd (setRoadValue x y v st) = true <->
   matrixGet (grid st) x y <> Some v) /\
  setRoadValue x y v st' = (st', false).
Proof.
  intros Hd Hin st'.
  assert (Hv : matrixGet (grid st') x y = Some v).
  { unfold st'.
    destruct (RoadValueFacts.setRoadValue_effect x y v st)
      as [(_ & E & [Ho | Hg]) | (_ & _ & _ & Eg & _)]; cbv zeta in *.
    - congruence.
    - now rewrite E.
    - rewrite Eg. destruct (matrixGet_inside _ x y Hd Hin) as [w Hw].
      eapply matrixGet_matrixSet_same; eauto. }
  split; [exact Hv |]. split; [| split].
  - intros a b Hne. unfold st'.
    destruct (RoadValueFacts.setRoadValue_effect x y v st)
      as [(_ & E & _) | (_ & _ & _ & Eg & _)]; cbv zeta in *.
    + now rewrite E.
    + rewrite Eg. now apply matrixGet_matrixSet_other.
  - destruct (RoadValueFacts.setRoadValue_effect x y v st)
      as [(E & _ & [Ho | Hg]) | (E & _ & Hg & _)]; cbv zeta in *;
      rewrite E; split; try congruence; try discriminate.
  - destruct (RoadValueFacts.setRoadValue_effect x y v st')
      as [(E1 & E2 & _) | (_ & _ & Hg & _)]; cbv zeta in *.
    + destruct (setRoadValue x y v st'); simpl in *; congruence.
    + contradiction.
Qed.

Lemma setRoadValue_settles_witness :
  let st := initializeGrid newGameScene in
  let st' := fst (setRoadValue 3 4 1 st) in
  matrixGet (grid st') 3 4 = Some 1 /\
  setRoadValue 3 4 1 st' = (st', false).
Proof.
  intros st st'.
  destruct (setRoadValue_settles 3 4 1 st) as (H1 & _ & _ & H4).
  - apply dims_repeat.
  - reflexivity.
  - exact (conj H1 H4).
Defined.
End PaintFacts.

(* ================================================================= *)
(** ** Vehicles and their display containers *)

Module StageFacts.

Local Opaque gridWidth gridHeight range.

Lemma stage_setRoadValue x y v st :
  stage (fst (setRoadValue x y v st)) = stage st.
Proof.
  unfold setRoadValue.
  destruct (negb (isInside x y)); [reflexivity |].
  destruct (match matrixGet (grid st) x y with
            | Some p => p =? v
            | None => false
            end); [reflexivity |].
  destruct (v =? 1); [reflexivity |].
  cbv zeta. destruct (JsMap.has _ _); reflexivity.
Qed.

Lemma stage_fold {A : Type} (f : GameScene -> A -> GameScene) (l : list A) :
  (forall s a, stage (f s a) = stage s) ->
  forall st, stage (fold_left f l st) = stage st.
Proof.
  intros Hf. induction l as [| a r IH]; intros st; simpl; [reflexivity |].
  now rewrite IH, Hf.
Qed.

Lemma stage_points sp dp st :
  stage (rebuildSpawnOrder
           (with_destinationPoints dp (with_spawnPoints sp st)))
  = stage st.
Proof. reflexivity. Qed.

Lemma stage_seedSimpleRoads st : stage (seedSimpleRoads st) = stage st.
Proof.
  unfold seedSimpleRoads. cbv zeta. rewrite stage_points.
  repeat (rewrite stage_fold;
          [| intros; cbv beta; now rewrite ?stage_setRoadValue]).
  reflexivity.
Qed.

Lemma stage_redraw m d st :
  stage (showFlash m d (forceRedraw st)) = stage st.
Proof. reflexivity. Qed.

Lemma stage_toggleSpawn c st : stage (toggleSpawn c st) = stage st.
Proof.
  unfold toggleSpawn. destruct (negb _); [reflexivity |].
  cbv zeta. destruct (JsMap.has _ _); reflexivity.
Qed.

Lemma stage_removeSpawn c st : stage (removeSpawn c st) = stage st.
Proof. unfold removeSpawn. destruct (JsMap.has _ _); reflexivity. Qed.

Lemma stage_toggleDestination c st :
  stage (toggleDestination c st) = stage st.
Proof.
  unfold toggleDestination. destruct (negb _); [reflexivity |].
  cbv zeta. destruct (JsMap.has _ _); reflexivity.
Qed.

Lemma stage_removeDestination c st :
  stage (removeDestination c st) = stage st.
Proof. unfold removeDestination. destruct (JsMap.has _ _); reflexivity. Qed.

Lemma stage_findPath a b st : stage (snd (findPath a b st)) = stage st.
Proof.
  unfold findPath. destruct (PathCache.get _ _); [reflexivity |].
  cbv zeta. destruct (0 <? _); reflexivity.
Qed.

Lemma staged_of_stage st st' :
  stage st' = stage st -> staged st -> staged st'.
Proof. unfold stage, staged. intros [= -> -> ->]. auto. Qed.

Lemma staged_createCar nz p c m st :
  staged st -> staged (createCar nz p c m st).
Proof.
  intros (Hs & Hn & Hf). unfold createCar.
  destruct (_ <? 2); [now split |].
  cbv zeta. destruct (map cellToWorldVector _) as [| s [| n r]];
    try (now split).
  unfold staged. simpl. rewrite map_app, Hs. simpl.
  split; [reflexivity |]. rewrite <- Hs. split.
  - apply NoDup_app; [exact Hn | repeat constructor; intros [] |].
    intros h Hh [<- | []]. rewrite Forall_forall in Hf.
    specialize (Hf _ Hh). lia.
  - apply Forall_app. split.
    + eapply Forall_impl; [| exact Hf]. simpl. intros; lia.
    + repeat constructor.
Qed.

Lemma filter_remove_nth (l : list Car) : forall n a,
  NoDup (map Car.sprite l) -> nth_error l n = Some a ->
  filter (fun h => negb (Nat.eqb h (Car.sprite a))) (map Car.sprite l)
  = map Car.sprite (firstn n l ++ skipn (S n) l).
Proof.
  induction l as [| b r IH]; intros n a Hn Ha; [now destruct n |].
  inversion Hn as [| ? ? Hb Hr]; subst.
  destruct n as [| n]; simpl in Ha.
  - injection Ha as ->. simpl. rewrite Nat.eqb_refl. simpl.
    clear IH Hn Hr. induction r as [| c r IH]; simpl; [reflexivity |].
    simpl in Hb.
    destruct (Nat.eqb_spec (Car.sprite c) (Car.sprite a)) as [E | N]; simpl.
    + elim Hb. left. exact E.
    + f_equal. apply IH. intros H. apply Hb. now right.
  - change (firstn (S n) (b :: r) ++ skipn (S (S n)) (b :: r))
      with (b :: (firstn n r ++ skipn (S n) r)).
    simpl.
    destruct (Nat.eqb_spec (Car.sprite b) (Car.sprite a)) as [E | N]; simpl.
    + elim Hb. rewrite E. apply in_map. eapply nth_error_In; eauto.
    + f_equal. now apply IH.
Qed.

Lemma staged_removeCarAt i st st' :
  removeCarAt i st = Some st' -> staged st -> staged st'.
Proof.
  unfold removeCarAt. cbv zeta.
  destruct (nth_error _ _) as [car |] eqn:E; [| discriminate].
  intros [= <-] (Hs & Hn & Hf).
  assert (Hn' : NoDup (map Car.sprite (cars st)))
    by (rewrite <- Hs; exact Hn).
  pose proof (filter_remove_nth _ _ _ Hn' E) as Hfil. rewrite <- Hs in Hfil.
  unfold staged. split; [exact Hfil |]. split.
  - apply NoDup_filter. exact Hn.
  - rewrite Forall_forall in *. intros h Hh. apply filter_In in Hh.
    apply Hf, Hh.
Qed.

Lemma sprites_destroyAll (l : list Car) : forall st h,
  In h (sprites (fold_left (fun s car => destroySprite (Car.sprite car) s)
                           l st)) ->
  In h (sprites st) /\ ~ In h (map Car.sprite l).
Proof.
  induction l as [| a r IH]; intros st h H; simpl in *; [auto |].
  apply IH in H. destruct H as [H Hr]. simpl in H.
  apply filter_In in H. destruct H as [H Hne].
  split; [exact H |]. intros [E | Hin]; [| contradiction].
  rewrite E, Nat.eqb_refl in Hne. discriminate.
Qed.

Lemma nextSprite_destroyAll (l : list Car) : forall st,
  nextSprite (fold_left (fun s car => destroySprite (Car.sprite car) s) l st)
  = nextSprite st.
Proof.
  induction l as [| a r IH]; intros st; simpl; [reflexivity |].
  now rewrite IH.
Qed.

Lemma staged_clearCars st : staged st -> staged (clearCars st).
Proof.
  intros (Hs & _). unfold clearCars. cbv zeta. unfold staged. simpl.
  destruct (sprites (fold_left _ (cars st) st)) as [| h t] eqn:E.
  - split; [reflexivity |]. split; constructor.
  - exfalso.
    destruct (sprites_destroyAll (cars st) st h) as [H1 H2].
    + rewrite E. now left.
    + apply H2. now rewrite <- Hs.
Qed.

Lemma stage_zeroing (ys xs : list Z) st :
  stage (fold_left
           (fun s y =>
              fold_left
                (fun s x =>
                   with_walkMatrix (matrixSet (walkMatrix s) x y 1)
                     (with_grid (matrixSet (grid s) x y 0) s))
                xs s)
           ys st)
  = stage st.
Proof. apply stage_fold. intros s y. apply stage_fold. reflexivity. Qed.

Lemma stage_reset_tail st :
  stage
    (with_roadCount 0
       (with_pathCache
          (PathCache.clear
             (pathCache
                (with_destinationPoints JsMap.empty
                   (rebuildSpawnOrder (with_spawnPoints JsMap.empty st)))))
          (with_destinationPoints JsMap.empty
             (rebuildSpawnOrder (with_spawnPoints JsMap.empty st)))))
  = stage st.
Proof. reflexivity. Qed.

Lemma staged_resetMap st : staged st -> staged (resetMap st).
Proof.
  intros H. unfold resetMap. cbv zeta.
  eapply staged_of_stage; [apply stage_redraw |].
  eapply staged_of_stage; [apply stage_seedSimpleRoads |].
  apply staged_clearCars.
  eapply staged_of_stage; [| exact H].
  rewrite stage_reset_tail. apply stage_zeroing.
Qed.

Lemma staged_step nz o st : staged st -> staged (step nz o st).
Proof.
  intros H. destruct o; unfold step.
  - eapply staged_of_stage; [| exact H]. reflexivity.
  - eapply staged_of_stage; [apply stage_setRoadValue | exact H].
  - eapply staged_of_stage; [apply stage_seedSimpleRoads | exact H].
  - now apply staged_resetMap.
  - eapply staged_of_stage; [apply stage_toggleSpawn | exact H].
  - eapply staged_of_stage; [apply stage_removeSpawn | exact H].
  - eapply staged_of_stage; [apply stage_toggleDestination | exact H].
  - eapply staged_of_stage; [apply stage_removeDestination | exact H].
  - eapply staged_of_stage; [apply stage_findPath | exact H].
  - now apply staged_createCar.
  - destruct (removeCarAt index st) eqn:E; [| exact H].
    eapply staged_removeCarAt; eauto.
  - now apply staged_clearCars.
Qed.

Lemma staged_run nz ops : forall st,
  staged st -> staged (run nz ops st).
Proof.
  induction ops as [| o r IH]; intros st H; simpl; [exact H |].
  apply IH. now apply staged_step.
Qed.

Lemma stage_forceRedraw st : stage (forceRedraw st) = stage st.
Proof. reflexivity. Qed.

Lemma staged_create : staged (create newGameScene).
Proof.
  unfold create.
  eapply staged_of_stage; [apply stage_forceRedraw |].
  eapply staged_of_stage; [apply stage_seedSimpleRoads |].
  split; [reflexivity |]. split; constructor.
Qed.

(** X9. Whatever operations ran since the scene was created, the display
    containers that are alive are exactly those of the live vehicles, in
    the order of the vehicles and each once: removing a vehicle or
    clearing the fleet destroys its container and no other. *)
Theorem sprites_follow_cars (normalize : Vector2 -> Vector2)
  (ops : list Op) :
  let st := run normalize ops (create newGameScene) in
  sprites st = map Car.sprite (cars st) /\ NoDup (sprites st).
Proof.
  intros st.
  destruct (staged_run normalize ops _ staged_create) as (H1 & H2 & _).
  auto.
Qed.
End StageFacts.

(* ================================================================= *)
(** ** The spatial index *)

Module SpatialFacts.

Lemma get_set_same {V : Type} (k : string) (v : V) (m : JsMap.t V) :
  JsMap.get k (JsMap.set k v m) = Some v.
Proof.
  induction m as [| [k0 v0] r IH]; simpl.
  - now rewrite String.eqb_refl.
  - destruct (String.eqb_spec k k0) as [-> | Hk]; simpl.
    + now rewrite String.eqb_refl.
    + destruct (String.eqb_spec k k0); [contradiction | exact IH].
Qed.

Lemma get_set (k k' : string) (v : list Car) (m : SpatialIndex) :
  JsMap.get k' (JsMap.set k v m)
  = if String.eqb k' k then Some v else JsMap.get k' m.
Proof.
  destruct (String.eqb_spec k' k) as [-> | Hne].
  - apply get_set_same.
  - now apply CacheBoundFacts.get_set_other.
Qed.

Lemma get_delete (k k' : string) (m : SpatialIndex) :
  JsMap.get k' (JsMap.delete k m)
  = if String.eqb k' k then None else JsMap.get k' m.
Proof.
  destruct (String.eqb_spec k' k) as [-> | Hne].
  - apply CacheBoundFacts.get_delete_same.
  - apply RefCacheFacts.get_delete_other. congruence.
Qed.

Lemma get_push key car idx k :
  JsMap.get k (pushToBucket key car idx)
  = if String.eqb k key
    then Some (match JsMap.get key idx with
               | Some b => b ++ [car]
               | None => [car]
               end)
    else JsMap.get k idx.
Proof.
  unfold pushToBucket. destruct (JsMap.get key idx); apply get_set.
Qed.

Lemma same_false_iff a b :
  Car.same a b = false <-> Car.sprite a <> Car.sprite b.
Proof. apply Nat.eqb_neq. Qed.

Lemma same_true_iff a b :
  Car.same a b = true <-> Car.sprite a = Car.sprite b.
Proof. apply Nat.eqb_eq. Qed.

(** *** Rebuilding *)

Lemma get_filed (cars : list Car) : forall idx k,
  JsMap.get k
    (fold_left (fun idx car => pushToBucket (spatialKey car) car idx)
               cars idx)
  = match JsMap.get k idx with
    | Some b =>
        Some (b ++ filter (fun c => String.eqb (spatialKey c) k) cars)
    | None =>
        match filter (fun c => String.eqb (spatialKey c) k) cars with
        | [] => None
        | b => Some b
        end
    end.
Proof.
  induction cars as [| car r IH]; intros idx k; simpl.
  - destruct (JsMap.get k idx); [now rewrite app_nil_r | reflexivity].
  - rewrite IH, get_push. rewrite (String.eqb_sym k).
    destruct (String.eqb_spec (spatialKey car) k) as [<- | Hne].
    + destruct (JsMap.get (spatialKey car) idx); simpl;
        [now rewrite <- app_assoc | reflexivity].
    + reflexivity.
Qed.

Lemma get_rebuild cars k :
  JsMap.get k (rebuildCarSpatialIndex cars)
  = match filter (fun c => String.eqb (spatialKey c) k) cars with
    | [] => None
    | b => Some b
    end.
Proof.
  exact (get_filed cars JsMap.empty k).
Qed.

Lemma located_rebuild cars k c :
  located (rebuildCarSpatialIndex cars) k c <->
  In c cars /\ spatialKey c = k.
Proof.
  unfold located. rewrite get_rebuild. split.
  - intros (b & Hb & Hin).
    destruct (filter _ cars) as [| a t] eqn:E; [discriminate |].
    injection Hb as <-. rewrite <- E in Hin. apply filter_In in Hin.
    destruct Hin as [H1 H2]. apply String.eqb_eq in H2. auto.
  - intros [Hin Hk].
    assert (Hf : In c (filter (fun c => String.eqb (spatialKey c) k) cars))
      by (apply filter_In; split; [exact Hin | now apply String.eqb_eq]).
    destruct (filter _ cars) as [| a t] eqn:E; [destruct Hf |].
    eexists. split; [reflexivity | exact Hf].
Qed.

Lemma sprites_filter (keep : Car -> bool) (cars : list Car) :
  NoDup (map Car.sprite cars) ->
  NoDup (map Car.sprite (filter keep cars)).
Proof.
  induction cars as [| a r IH]; simpl; intros H; [constructor |].
  inversion H as [| ? ? Ha Hr]; subst.
  destruct (keep a); simpl; [| now apply IH].
  constructor; [| now apply IH].
  intros Hin. apply Ha. apply in_map_iff in Hin.
  destruct Hin as (x & Hx & Hf). apply filter_In in Hf.
  apply in_map_iff. exists x. tauto.
Qed.

Lemma same_sprite_same_car (cars : list Car) a b :
  NoDup (map Car.sprite cars) -> In a cars -> In b cars ->
  Car.sprite a = Car.sprite b -> a = b.
Proof.
  induction cars as [| c r IH]; simpl; intros H Ha Hb E; [destruct Ha |].
  inversion H as [| ? ? Hc Hr]; subst.
  destruct Ha as [-> | Ha], Hb as [-> | Hb]; auto.
  - elim Hc. rewrite E. now apply in_map.
  - elim Hc. rewrite <- E. now apply in_map.
Qed.

Lemma indexed_rebuild cars :
  NoDup (map Car.sprite cars) -> indexed (rebuildCarSpatialIndex cars).
Proof.
  intros Hn. split.
  - intros k b. rewrite get_rebuild.
    destruct (filter _ cars) as [| a t] eqn:E; [discriminate |].
    intros [= <-]. split; [discriminate |].
    rewrite <- E. now apply sprites_filter.
  - intros k1 k2 c1 c2 H1 H2 E.
    apply located_rebuild in H1, H2.
    destruct H1 as [H1 <-], H2 as [H2 <-].
    now rewrite (same_sprite_same_car cars c1 c2 Hn H1 H2 E).
Qed.

(** X10. After a rebuild from a fleet whose cars are distinct objects,
    the bucket of every key holds exactly the cars of the fleet whose
    position falls in the square of that key, in the order of the fleet;
    no bucket is empty, and no car is filed twice. *)
Theorem rebuildCarSpatialIndex_files_by_square (cars : list Car) :
  NoDup (map Car.sprite cars) ->
  let idx := rebuildCarSpatialIndex cars in
  (forall k,
     JsMap.get k idx
     = match filter (fun c => String.eqb (spatialKey c) k) cars with
       | [] => None
       | b => Some b
       end) /\
  (forall k b, JsMap.get k idx = Some b ->
     b <> [] /\ NoDup (map Car.sprite b)) /\
  (forall k1 k2 c1 c2, located idx k1 c1 -> located idx k2 c2 ->
     Car.sprite c1 = Car.sprite c2 -> k1 = k2).
Proof.
  intros Hn idx. split; [intros k; apply get_rebuild |].
  exact (indexed_rebuild cars Hn).
Qed.

Lemma rebuildCarSpatialIndex_files_by_square_witness :
  let cars := [sampleCar 0 (Vector2.mk 10 10) 0;
               sampleCar 1 (Vector2.mk 70 10) 0;
               sampleCar 2 (Vector2.mk 20 30) 0] in
  NoDup (map Car.sprite cars) /\
  JsMap.get (cellKey 0 0) (rebuildCarSpatialIndex cars)
  = Some [sampleCar 0 (Vector2.mk 10 10) 0;
          sampleCar 2 (Vector2.mk 20 30) 0].
Proof.
  intros cars.
  assert (Hn : NoDup (map Car.sprite cars)).
  { simpl. repeat constructor; simpl; intuition discriminate. }
  split; [exact Hn |].
  rewrite (proj1 (rebuildCarSpatialIndex_files_by_square cars Hn)).
  reflexivity.
Defined.

(** *** Gathering *)

Lemma fold_append {A B : Type} (h : B -> list A) (l : list B) :
  forall acc,
    fold_left (fun acc p => acc ++ h p) l acc = acc ++ flat_map h l.
Proof.
  induction l as [| p r IH]; intros acc; simpl.
  - now rewrite app_nil_r.
  - now rewrite IH, app_assoc.
Qed.

Lemma fold_same {A B : Type} (f g : A -> B -> A) (l : list B) :
  (forall acc p, f acc p = g acc p) ->
  forall acc, fold_left f l acc = fold_left g l acc.
Proof.
  intros H. induction l as [| p r IH]; intros acc; simpl; [reflexivity |].
  now rewrite H, IH.
Qed.

Lemma fold_others car (bucket : list Car) : forall nearby,
  fold_left (fun nearby other =>
               if negb (Car.same other car) then nearby ++ [other]
               else nearby)
            bucket nearby
  = nearby ++ filter (fun other => negb (Car.same other car)) bucket.
Proof.
  intros nearby.
  rewrite (RoadCountFacts.fold_push
             (fun other => negb (Car.same other car)) (fun o => o)).
  now rewrite map_id.
Qed.

Lemma in_gather car idx c :
  In c (gatherNearbyCars car idx) <->
  Car.same c car = false /\
  exists dx dy, -1 <= dx <= 1 /\ -1 <= dy <= 1 /\
    located idx
      (cellKey (spatialCell (Vector2.x (Car.position car)) + dx)
               (spatialCell (Vector2.y (Car.position car)) + dy)) c.
Proof.
  unfold gatherNearbyCars.
  destruct (JsMap.size idx =? 0) eqn:Es.
  - apply Z.eqb_eq in Es. unfold JsMap.size in Es.
    destruct idx; [| simpl in Es; lia].
    split; [intros [] |]. intros (_ & dx & dy & _ & _ & b & Hb & _).
    discriminate.
  - cbv zeta. fold (spatialCell (Vector2.x (Car.position car))).
    fold (spatialCell (Vector2.y (Car.position car))).
    set (bx := spatialCell (Vector2.x (Car.position car))).
    set (by_ := spatialCell (Vector2.y (Car.position car))).
    rewrite (NearestFacts.fold_nested
               (fun dy dx nearby =>
                  match JsMap.get (cellKey (bx + dx) (by_ + dy)) idx with
                  | None => nearby
                  | Some bucket =>
                      fold_left
                        (fun nearby other =>
                           if negb (Car.same other car)
                           then nearby ++ [other] else nearby)
                        bucket nearby
                  end)).
    rewrite (fold_same
               _
               (fun acc p =>
                  acc ++
                  match JsMap.get (cellKey (bx + snd p) (by_ + fst p)) idx
                  with
                  | None => []
                  | Some bucket =>
                      filter (fun other => negb (Car.same other car)) bucket
                  end)).
    2: { intros acc p. destruct (JsMap.get _ idx);
           [apply fold_others | now rewrite app_nil_r]. }
    rewrite fold_append, app_nil_l, in_flat_map. split.
    + intros ([dy dx] & Hp & Hin). simpl in Hin.
      apply in_prod_iff in Hp. destruct Hp as [Hy Hx].
      apply NearestFacts.in_range in Hx, Hy.
      destruct (JsMap.get _ idx) as [b |] eqn:Hb; [| destruct Hin].
      apply filter_In in Hin. destruct Hin as [Hin Hs].
      apply negb_true_iff in Hs. split; [exact Hs |].
      exists dx, dy. split; [lia |]. split; [lia |].
      exists b. auto.
    + intros (Hs & dx & dy & Hx & Hy & b & Hb & Hin).
      exists (dy, dx). split.
      * apply in_prod_iff. split; apply NearestFacts.in_range; lia.
      * simpl. rewrite Hb. apply filter_In. split; [exact Hin |].
        now apply negb_true_iff.
Qed.

Lemma cells_of_close (p q : Q) :
  (Qabs (q - p) <= inject_Z spatialCellSize)%Q ->
  Z.abs (spatialCell q - spatialCell p) <= 1.
Proof.
  intros H. apply Qabs_Qle_condition in H. destruct H as [Hlo Hhi].
  unfold spatialCell.
  assert (Hc : (0 < inject_Z spatialCellSize)%Q) by reflexivity.
  set (s := inject_Z spatialCellSize) in *.
  pose proof (Qfloor_le (p / s)) as Hp1. pose proof (Qlt_floor (p / s)) as Hp2.
  pose proof (Qfloor_le (q / s)) as Hq1. pose proof (Qlt_floor (q / s)) as Hq2.
  set (fp := Qfloor (p / s)) in *. set (fq := Qfloor (q / s)) in *.
  assert (Ep : (p / s * s == p)%Q) by (apply Qdiv_mult_l; discriminate).
  assert (Eq : (q / s * s == q)%Q) by (apply Qdiv_mult_l; discriminate).
  assert (Hd1 : (q / s <= p / s + 1)%Q).
  { apply Qmult_lt_0_le_reg_r with (z := s); [exact Hc |].
    rewrite Qmult_plus_distr_l, Ep, Eq, Qmult_1_l.
    apply Qplus_le_l with (z := (- p)%Q).
    setoid_replace (p + s + - p)%Q with s by ring. exact Hhi. }
  assert (Hd2 : (p / s <= q / s + 1)%Q).
  { apply Qmult_lt_0_le_reg_r with (z := s); [exact Hc |].
    rewrite Qmult_plus_distr_l, Ep, Eq, Qmult_1_l.
    apply Qplus_le_l with (z := (- s - p)%Q).
    setoid_replace (p + (- s - p))%Q with (- s)%Q by ring.
    setoid_replace (q + s + (- s - p))%Q with (q - p)%Q by ring.
    exact Hlo. }
  assert (H1 : (inject_Z fq < inject_Z (fp + 1) + 1)%Q).
  { eapply Qle_lt_trans; [exact Hq1 |].
    eapply Qle_lt_trans; [exact Hd1 |].
    apply Qplus_lt_l. exact Hp2. }
  assert (H2 : (inject_Z fp < inject_Z (fq + 1) + 1)%Q).
  { eapply Qle_lt_trans; [exact Hp1 |].
    eapply Qle_lt_trans; [exact Hd2 |].
    apply Qplus_lt_l. exact Hq2. }
  change 1%Q with (inject_Z 1) in H1, H2.
  rewrite <- inject_Z_plus in H1, H2.
  rewrite <- Zlt_Qlt in H1, H2. lia.
Qed.

Lemma in_gather_rebuild cars car other :
  In other (gatherNearbyCars car (rebuildCarSpatialIndex cars)) <->
  In other cars /\ Car.same other car = false /\
  Z.abs (spatialCell (Vector2.x (Car.position other))
         - spatialCell (Vector2.x (Car.position car))) <= 1 /\
  Z.abs (spatialCell (Vector2.y (Car.position other))
         - spatialCell (Vector2.y (Car.position car))) <= 1.
Proof.
  rewrite in_gather. split.
  - intros (Hs & dx & dy & Hx & Hy & Hl).
    apply located_rebuild in Hl. destruct Hl as [Hin Hk].
    unfold spatialKey in Hk. apply KeyFacts.cellKey_inj in Hk.
    destruct Hk as [-> ->]. repeat split; auto; lia.
  - intros (Hin & Hs & Hx & Hy). split; [exact Hs |].
    exists (spatialCell (Vector2.x (Car.position other))
            - spatialCell (Vector2.x (Car.position car))),
           (spatialCell (Vector2.y (Car.position other))
            - spatialCell (Vector2.y (Car.position car))).
    split; [lia |]. split; [lia |].
    apply located_rebuild. split; [exact Hin |].
    unfold spatialKey. f_equal; lia.
Qed.

(** X11. After a rebuild, the cars gathered around a car are exactly the
    other cars of the fleet whose square is the car's own or one of the
    eight around it; so no other car within [spatialCellSize] pixels of
    the car along both axes is missed. *)
Theorem gatherNearbyCars_after_rebuild (cars : list Car)
  (car other : Car) :
  let idx := rebuildCarSpatialIndex cars in
  (In other (gatherNearbyCars car idx) <->
   In other cars /\ Car.same other car = false /\
   Z.abs (spatialCell (Vector2.x (Car.position other))
          - spatialCell (Vector2.x (Car.position car))) <= 1 /\
   Z.abs (spatialCell (Vector2.y (Car.position other))
          - spatialCell (Vector2.y (Car.position car))) <= 1) /\
  (In other cars -> Car.same other car = false ->
   (Qabs (Vector2.x (Car.position other) - Vector2.x (Car.position car))
    <= inject_Z spatialCellSize)%Q ->
   (Qabs (Vector2.y (Car.position other) - Vector2.y (Car.position car))
    <= inject_Z spatialCellSize)%Q ->
   In other (gatherNearbyCars car idx)).
Proof.
  intros idx. split; [apply in_gather_rebuild |].
  intros Hin Hs Hx Hy. apply in_gather_rebuild.
  split; [exact Hin |]. split; [exact Hs |].
  split; now apply cells_of_close.
Qed.
End SpatialFacts.

(* ================================================================= *)
(** ** Updating the spatial index *)

Module SpatialUpdateFacts.
Import SpatialFacts.

Lemma indexOf_none car bucket :
  indexOf car bucket = None ->
  forall c, In c bucket -> Car.same c car = false.
Proof.
  induction bucket as [| o r IH]; simpl; intros H c Hc; [destruct Hc |].
  destruct (Car.same o car) eqn:Es; [discriminate |].
  destruct (indexOf car r); [discriminate |].
  destruct Hc as [<- | Hc]; auto.
Qed.

Lemma indexOf_some car bucket : forall i,
  indexOf car bucket = Some i ->
  exists c0, nth_error bucket i = Some c0 /\ Car.same c0 car = true.
Proof.
  induction bucket as [| o r IH]; simpl; intros i H; [discriminate |].
  destruct (Car.same o car) eqn:Es.
  - injection H as <-. exists o. auto.
  - destruct (indexOf car r) as [j |]; [| discriminate].
    injection H as <-. apply (IH j eq_refl).
Qed.

Lemma in_remove_nth (b : list Car) : forall i a c,
  NoDup (map Car.sprite b) -> nth_error b i = Some a ->
  (In c (firstn i b ++ skipn (S i) b) <->
   In c b /\ Car.sprite c <> Car.sprite a).
Proof.
  induction b as [| b0 r IH]; intros i a c Hn Ha; [now destruct i |].
  inversion Hn as [| ? ? Hb Hr]; subst.
  destruct i as [| i]; simpl in Ha.
  - injection Ha as ->. simpl. split.
    + intros Hc. split; [now right |]. intros E. apply Hb.
      rewrite <- E. now apply in_map.
    + intros [[<- | Hc] Hne]; [now elim Hne | exact Hc].
  - change (firstn (S i) (b0 :: r) ++ skipn (S (S i)) (b0 :: r))
      with (b0 :: (firstn i r ++ skipn (S i) r)).
    simpl. rewrite (IH i a c Hr Ha). split.
    + intros [<- | [Hc Hne]]; [| tauto].
      split; [now left |]. intros E. apply Hb. rewrite E.
      apply in_map. eapply nth_error_In; eauto.
    + intros [[<- | Hc] Hne]; [now left | right; tauto].
Qed.

Lemma NoDup_remove_nth (b : list Car) i a :
  NoDup (map Car.sprite b) -> nth_error b i = Some a ->
  NoDup (map Car.sprite (firstn i b ++ skipn (S i) b)).
Proof.
  intros Hn Ha. rewrite <- (StageFacts.filter_remove_nth b i a Hn Ha).
  now apply NoDup_filter.
Qed.

(** A bucket that loses the one entry of a car. *)
Lemma without_replace car key (idx idx' : SpatialIndex) bucket bucket' c0 :
  indexed idx ->
  JsMap.get key idx = Some bucket -> In c0 bucket ->
  Car.same c0 car = true ->
  (forall c, In c bucket' <->
             In c bucket /\ Car.sprite c <> Car.sprite c0) ->
  NoDup (map Car.sprite bucket') ->
  (forall k, JsMap.get k idx'
             = if String.eqb k key
               then match bucket' with [] => None | _ => Some bucket' end
               else JsMap.get k idx) ->
  indexed idx' /\ withoutCar car idx idx'.
Proof.
  intros [Hw1 Hw2] Hg Hc0 Hs Hin' Hn' Hget.
  apply same_true_iff in Hs.
  assert (W : withoutCar car idx idx').
  { intros k c. unfold located. rewrite Hget.
    destruct (String.eqb_spec k key) as [-> | Hne].
    - split.
      + intros (b & Hb & Hin).
        destruct bucket' as [| h t] eqn:Eb; [discriminate |].
        injection Hb as <-. apply Hin' in Hin. destruct Hin as [Hin Hd].
        split; [exists bucket; auto |].
        apply same_false_iff. congruence.
      + intros ((b & Hb & Hin) & Hd). rewrite Hg in Hb. injection Hb as <-.
        apply same_false_iff in Hd.
        assert (Hi : In c bucket') by (apply Hin'; split; congruence).
        destruct bucket' as [| h t]; [destruct Hi |].
        eexists. split; [reflexivity | exact Hi].
    - split.
      + intros (b & Hb & Hin). split; [exists b; auto |].
        apply same_false_iff. intros E. apply Hne.
        apply (Hw2 k key c c0); [exists b; auto | exists bucket; auto |].
        congruence.
      + intros ((b & Hb & Hin) & _). exists b. auto. }
  split; [| exact W]. split.
  - intros k b. rewrite Hget.
    destruct (String.eqb_spec k key) as [-> | Hne]; [| apply Hw1].
    destruct bucket' as [| h t]; [discriminate |].
    intros [= <-]. split; [discriminate | exact Hn'].
  - intros k1 k2 c1 c2 H1 H2. apply W in H1, H2.
    apply Hw2; tauto.
Qed.

Lemma removeCarFromBucket_spec car key idx :
  indexed idx ->
  let r := removeCarFromBucket car key idx in
  (snd r = true /\ indexed (fst r) /\ withoutCar car idx (fst r)) \/
  (snd r = false /\ fst r = idx /\
   forall c, located idx key c -> Car.same c car = false).
Proof.
  intros Hw. unfold removeCarFromBucket.
  destruct (JsMap.get key idx) as [bucket |] eqn:Hg.
  2: { right. simpl. repeat split; auto.
       intros c (b & Hb & _). congruence. }
  destruct (indexOf car bucket) as [i |] eqn:Hi.
  2: { right. simpl. repeat split; auto.
       intros c (b & Hb & Hin). rewrite Hg in Hb. injection Hb as <-.
       eapply indexOf_none; eauto. }
  left. cbv zeta.
  destruct (indexOf_some _ _ _ Hi) as (c0 & Hn & Hs).
  destruct (proj1 Hw key bucket Hg) as [_ Hnd].
  set (bucket' := firstn i bucket ++ skipn (S i) bucket).
  assert (Hin' : forall c, In c bucket' <->
                   In c bucket /\ Car.sprite c <> Car.sprite c0)
    by (intros c; now apply in_remove_nth).
  assert (Hn' : NoDup (map Car.sprite bucket'))
    by (eapply NoDup_remove_nth; eauto).
  assert (Hc0 : In c0 bucket) by (eapply nth_error_In; eauto).
  destruct (Z.of_nat (List.length bucket') =? 0) eqn:El; simpl;
    (split; [reflexivity |]);
    apply (without_replace car key idx _ bucket bucket' c0); auto.
  - intros k. rewrite get_delete.
    apply Z.eqb_eq in El. destruct bucket'; [reflexivity | simpl in El; lia].
  - intros k. rewrite get_set.
    apply Z.eqb_neq in El. destruct bucket'; [now elim El | reflexivity].
Qed.

Lemma removeFromFirstBucket_spec car (bucketKeys : list string) : forall idx,
  indexed idx ->
  (forall k c, located idx k c -> Car.same c car = true ->
               In k bucketKeys) ->
  indexed (removeFromFirstBucket car bucketKeys idx) /\
  withoutCar car idx (removeFromFirstBucket car bucketKeys idx).
Proof.
  induction bucketKeys as [| k0 r IH]; intros idx Hw Hk; simpl.
  - split; [exact Hw |]. intros k c. split; [| tauto].
    intros H. split; [exact H |].
    destruct (Car.same c car) eqn:E; [| reflexivity].
    destruct (Hk k c H E).
  - destruct (removeCarFromBucket_spec car k0 idx Hw)
      as [(E & Hw' & W) | (E & E' & Hno)]; cbv zeta in *;
      destruct (removeCarFromBucket car k0 idx) as [idx' ok];
      simpl in *; subst.
    + auto.
    + apply IH; [exact Hw |]. intros k c Hl Hs.
      destruct (Hk k c Hl Hs) as [<- | Hr]; [| exact Hr].
      rewrite (Hno c Hl) in Hs. discriminate.
Qed.

Lemma located_key idx k c : located idx k c -> In k (JsMap.keys idx).
Proof.
  intros (b & Hb & _).
  destruct (in_dec string_dec k (JsMap.keys idx)) as [H | H]; [exact H |].
  apply JsMapFacts.get_none_iff in H. congruence.
Qed.

Lemma push_spec car key idx :
  indexed idx ->
  (forall k c, located idx k c -> Car.same c car = false) ->
  indexed (pushToBucket key car idx) /\
  forall k c, located (pushToBucket key car idx) k c <->
              located idx k c \/ (k = key /\ c = car).
Proof.
  intros [Hw1 Hw2] Hno.
  assert (L : forall k c, located (pushToBucket key car idx) k c <->
                          located idx k c \/ (k = key /\ c = car)).
  { intros k c. unfold located. rewrite get_push.
    destruct (String.eqb_spec k key) as [-> | Hne].
    - destruct (JsMap.get key idx) as [b |] eqn:Hg; split.
      + intros (b' & [= <-] & Hin). apply in_app_or in Hin.
        destruct Hin as [Hin | [<- | []]]; [left; exists b; auto | auto].
      + intros [(b' & [= <-] & Hin) | [_ ->]];
          (eexists; split; [reflexivity |]); apply in_or_app;
          [now left | right; now left].
      + intros (b' & [= <-] & [<- | []]). auto.
      + intros [(b' & Hb & _) | [_ ->]]; [discriminate |].
        eexists. split; [reflexivity | now left].
    - split.
      + intros H. now left.
      + intros [H | [E _]]; [exact H | contradiction]. }
  split; [| exact L]. split.
  - intros k b. rewrite get_push.
    destruct (String.eqb_spec k key) as [-> | Hne]; [| apply Hw1].
    intros [= <-].
    destruct (JsMap.get key idx) as [b |] eqn:Hg.
    + split; [intros E; apply app_eq_nil in E; destruct E; discriminate |].
      rewrite map_app. simpl.
      apply NoDup_app; [apply (Hw1 key b Hg) | repeat constructor; intros [] |].
      intros h Hh [<- | []]. apply in_map_iff in Hh.
      destruct Hh as (c & Ec & Hc).
      assert (Hf : Car.same c car = false)
        by (apply (Hno key c); exists b; auto).
      apply same_false_iff in Hf. contradiction.
    + split; [discriminate |]. simpl. repeat constructor. intros [].
  - intros k1 k2 c1 c2 H1 H2 E. apply L in H1, H2.
    destruct H1 as [H1 | [-> ->]], H2 as [H2 | [-> ->]].
    + eapply Hw2; eauto.
    + apply Hno in H1. apply same_false_iff in H1. contradiction.
    + apply Hno in H2. apply same_false_iff in H2. congruence.
    + reflexivity.
Qed.

(** X12. Taking a car out of an index in which no car is filed twice
    leaves it filed nowhere, whatever the hint, and every other car in the
    bucket it was in; no bucket is left empty. *)
Theorem removeCarFromSpatialIndex_unfiles (car : Car)
  (keyHint : option string) (idx : SpatialIndex) :
  indexed idx ->
  let idx' := removeCarFromSpatialIndex car keyHint idx in
  indexed idx' /\
  (forall k c, located idx' k c <->
               located idx k c /\ Car.same c car = false).
Proof.
  intros Hw idx'. subst idx'. unfold removeCarFromSpatialIndex.
  destruct (JsMap.size idx =? 0) eqn:Es.
  { split; [exact Hw |]. apply Z.eqb_eq in Es. unfold JsMap.size in Es.
    destruct idx; [| simpl in Es; lia].
    intros k c. split; [intros (b & Hb & _); discriminate |].
    intros [(b & Hb & _) _]. discriminate. }
  assert (Hfirst :
            let r := match keyHint with
                     | Some hint =>
                         if String.eqb hint EmptyString then (idx, false)
                         else removeCarFromBucket car hint idx
                     | None => (idx, false)
                     end in
            (snd r = true /\ indexed (fst r) /\ withoutCar car idx (fst r)) \/
            (snd r = false /\ fst r = idx)).
  { destruct keyHint as [hint |]; [| right; auto].
    destruct (String.eqb hint EmptyString); [right; auto |].
    destruct (removeCarFromBucket_spec car hint idx Hw)
      as [H | (H1 & H2 & _)]; [left; exact H | right; auto]. }
  cbv zeta in Hfirst.
  destruct (match keyHint with
            | Some hint =>
                if String.eqb hint EmptyString then (idx, false)
                else removeCarFromBucket car hint idx
            | None => (idx, false)
            end) as [idx1 ok1].
  simpl in Hfirst. destruct Hfirst as [(-> & H) | (-> & ->)]; [exact H |].
  cbv zeta.
  destruct (removeCarFromBucket_spec car
              (cellKey
                 (Qfloor (Vector2.x (Car.position car)
                          / inject_Z spatialCellSize))
                 (Qfloor (Vector2.y (Car.position car)
                          / inject_Z spatialCellSize)))
              idx Hw)
    as [(E & H) | (E & E' & _)]; cbv zeta in *;
    destruct (removeCarFromBucket car _ idx) as [idx2 ok2];
    simpl in *; subst; [exact H |].
  apply removeFromFirstBucket_spec; [exact Hw |].
  intros k c Hl _. eapply located_key; eauto.
Qed.

Lemma removeCarFromSpatialIndex_unfiles_witness :
  let a := sampleCar 0 (Vector2.mk 10 10) 0 in
  let b := sampleCar 1 (Vector2.mk 70 10) 0 in
  let c := sampleCar 2 (Vector2.mk 20 30) 0 in
  let idx := rebuildCarSpatialIndex [a; b; c] in
  indexed idx /\
  located (removeCarFromSpatialIndex a (Some "7,7"%string) idx)
          (cellKey 0 0) c.
Proof.
  intros a b c idx.
  assert (Hw : indexed idx).
  { apply indexed_rebuild. simpl.
    repeat constructor; simpl; intuition discriminate. }
  split; [exact Hw |].
  apply (proj2 (removeCarFromSpatialIndex_unfiles a (Some "7,7"%string)
                  idx Hw)).
  split; [| reflexivity].
  apply located_rebuild. split; [simpl; auto | reflexivity].
Defined.

(** X13. Moving a car between two different keys of an index in which no
    car is filed twice files it under the new key and nowhere else, even
    when the old key is not where it was, and leaves every other car in
    the bucket it was in; no car is filed twice afterwards and no bucket
    is empty. *)
Theorem moveCarInSpatialIndex_refiles (car : Car) (fromKey toKey : string)
  (idx : SpatialIndex) :
  indexed idx -> fromKey <> toKey ->
  let idx' := moveCarInSpatialIndex car fromKey toKey idx in
  indexed idx' /\
  (forall k c, located idx' k c <->
     (located idx k c /\ Car.same c car = false) \/
     (k = toKey /\ c = car)).
Proof.
  intros Hw Hne idx'. subst idx'. unfold moveCarInSpatialIndex.
  destruct (String.eqb_spec fromKey toKey) as [E | _]; [contradiction |].
  assert (H2 : exists idx2,
             (let '(idx1, removed) := removeCarFromBucket car fromKey idx in
              if negb removed
              then removeFromFirstBucket car (JsMap.keys idx1) idx1
              else idx1) = idx2 /\
             indexed idx2 /\ withoutCar car idx idx2).
  { eexists. split; [reflexivity |].
    destruct (removeCarFromBucket_spec car fromKey idx Hw)
      as [(E & H) | (E & E' & _)]; cbv zeta in *;
      destruct (removeCarFromBucket car fromKey idx) as [idx1 ok];
      simpl in *; subst; simpl; [exact H |].
    apply removeFromFirstBucket_spec; [exact Hw |].
    intros k c Hl _. eapply located_key; eauto. }
  destruct H2 as (idx2 & E2 & Hw2 & W).
  destruct (removeCarFromBucket car fromKey idx) as [idx1 ok].
  rewrite E2.
  destruct (push_spec car toKey idx2 Hw2) as [Hi L].
  { intros k c Hl. now apply W in Hl. }
  split; [exact Hi |]. intros k c. rewrite L.
  split; intros [H | H]; auto; left; now apply W.
Qed.

Lemma moveCarInSpatialIndex_refiles_witness :
  let a := sampleCar 0 (Vector2.mk 10 10) 0 in
  let b := sampleCar 1 (Vector2.mk 70 10) 0 in
  let a' := sampleCar 0 (Vector2.mk 66 10) 0 in
  let idx := rebuildCarSpatialIndex [a; b] in
  indexed idx /\ cellKey 0 0 <> cellKey 1 0 /\
  located (moveCarInSpatialIndex a' (cellKey 0 0) (cellKey 1 0) idx)
          (cellKey 1 0) a'.
Proof.
  intros a b a' idx.
  assert (Hw : indexed idx).
  { apply indexed_rebuild. simpl.
    repeat constructor; simpl; intuition discriminate. }
  assert (Hne : cellKey 0 0 <> cellKey 1 0) by (vm_compute; discriminate).
  split; [exact Hw |]. split; [exact Hne |].
  apply (proj2 (moveCarInSpatialIndex_refiles a' (cellKey 0 0) (cellKey 1 0)
                  idx Hw Hne)).
  right. split; reflexivity.
Defined.
End SpatialUpdateFacts.

(* ================================================================= *)
(** ** Choosing the cheapest journey *)

Module JourneyLemmas.

Lemma findPath_cache_only a b st :
  snd (findPath a b st)
  = with_pathCache (pathCache (snd (findPath a b st))) st.
Proof.
  unfold findPath. destruct (PathCache.get _ _); simpl.
  - now destruct st.
  - cbv zeta. destruct (0 <? _); simpl; now destruct st.
Qed.

Lemma findPath_in_frame st s a b :
  coherent st -> coherent s -> s = with_pathCache (pathCache s) st ->
  fst (findPath a b s) = fst (findPath a b st) /\
  coherent (snd (findPath a b s)) /\
  snd (findPath a b s)
  = with_pathCache (pathCache (snd (findPath a b s))) st.
Proof.
  intros Hc Hs Es. split; [| split].
  - rewrite !CoherenceFacts.findPath_value by assumption.
    unfold searched. now rewrite Es.
  - now apply CoherenceFacts.coherent_findPath.
  - rewrite findPath_cache_only at 1. rewrite Es at 2. reflexivity.
Qed.

Lemma eqb_point a b :
  (GridPoint.x a =? GridPoint.x b) && (GridPoint.y a =? GridPoint.y b)
  = GridPoint.eqb a b.
Proof. reflexivity. Qed.

Lemma cheapest_snoc_none {A : Type} (cost : A -> option Z) seen item new :
  cost new = None ->
  cheapest cost seen item -> cheapest cost (seen ++ [new]) item.
Proof.
  intros Hn (Hin & c & Hc & Hmin). split; [apply in_or_app; now left |].
  exists c. split; [exact Hc |]. intros other c' Ho Hc'.
  apply in_app_or in Ho. destruct Ho as [Ho | [<- | []]]; [eauto |].
  congruence.
Qed.

Lemma cheapest_snoc_keep {A : Type} (cost : A -> option Z) seen item new
  c c' :
  cost item = Some c -> cost new = Some c' -> c <= c' ->
  cheapest cost seen item -> cheapest cost (seen ++ [new]) item.
Proof.
  intros Hc Hn Hle (Hin & c0 & Hc0 & Hmin).
  split; [apply in_or_app; now left |].
  exists c0. split; [exact Hc0 |]. intros other c1 Ho Hc1.
  apply in_app_or in Ho. destruct Ho as [Ho | [<- | []]]; [eauto |].
  congruence.
Qed.

Lemma cheapest_snoc_new {A : Type} (cost : A -> option Z) seen new c :
  cost new = Some c ->
  (forall other c', In other seen -> cost other = Some c' -> c <= c') ->
  cheapest cost (seen ++ [new]) new.
Proof.
  intros Hc Hmin. split; [apply in_or_app; right; now left |].
  exists c. split; [exact Hc |]. intros other c' Ho Hc'.
  apply in_app_or in Ho. destruct Ho as [Ho | [<- | []]]; [eauto |].
  assert (c' = c) by congruence. lia.
Qed.

Lemma none_snoc {A : Type} (cost : A -> option Z) seen new :
  cost new = None ->
  (forall p, In p seen -> cost p = None) ->
  forall p, In p (seen ++ [new]) -> cost p = None.
Proof.
  intros Hn H p Hp. apply in_app_or in Hp.
  destruct Hp as [Hp | [<- | []]]; auto.
Qed.

Section Loop.
Variable st : GameScene.
Hypothesis Hst : coherent st.

Let stepOf (acc : option Journey * option Z * GameScene)
  (p : GridPoint * GridPoint) :=
  let '(best, bestCost, s) := acc in
  if (GridPoint.x (fst p) =? GridPoint.x (snd p))
     && (GridPoint.y (fst p) =? GridPoint.y (snd p))
  then (best, bestCost, s)
  else
    let '(path, s1) := findPath (fst p) (snd p) s in
    if Z.of_nat (List.length path) <? 2 then (best, bestCost, s1)
    else
      let cost := estimatePathCost path in
      if costLt cost bestCost
      then (Some {| Journey.start := GridPoint.copy (fst p);
                    Journey.destination := GridPoint.copy (snd p);
                    Journey.path := path |},
            Some cost, s1)
      else (best, bestCost, s1).

Lemma journey_step seen acc p :
  journeyInv st seen acc -> journeyInv st (seen ++ [p]) (stepOf acc p).
Proof.
  destruct acc as [[best bestCost] s]. destruct p as [a b].
  unfold journeyInv, stepOf. cbn [fst snd].
  intros (Hs & Es & Hbest).
  assert (Keep : forall s',
             coherent s' -> s' = with_pathCache (pathCache s') st ->
             journeyCost st (a, b) = None ->
             coherent s' /\ s' = with_pathCache (pathCache s') st /\
             match best with
             | None =>
                 bestCost = None /\
                 forall p, In p (seen ++ [(a, b)]) ->
                           journeyCost st p = None
             | Some j =>
                 bestCost
                 = Some (Z.of_nat (List.length (Journey.path j))) /\
                 cheapest (journeyCost st) (seen ++ [(a, b)])
                   (Journey.start j, Journey.destination j) /\
                 Journey.path j
                 = fst (findPath (Journey.start j)
                          (Journey.destination j) st)
             end).
  { intros s' Hs' Es' Hn. split; [exact Hs' |]. split; [exact Es' |].
    destruct best as [j |].
    - destruct Hbest as (Hb & Hch & Hp). split; [exact Hb |].
      split; [| exact Hp]. now apply cheapest_snoc_none.
    - destruct Hbest as [Hb Hno]. split; [exact Hb |].
      now apply none_snoc. }
  rewrite eqb_point.
  destruct (GridPoint.eqb a b) eqn:Eab.
  { apply Keep; auto. unfold journeyCost. cbn [fst snd]. now rewrite Eab. }
  destruct (findPath_in_frame st s a b Hst Hs Es) as (Ep & Hs1 & Es1).
  destruct (findPath a b s) as [path s1]. cbn [fst snd] in *.
  destruct (Z.of_nat (List.length path) <? 2) eqn:El.
  { apply Keep; auto. unfold journeyCost. cbn [fst snd].
    now rewrite Eab, <- Ep, El. }
  assert (Hcost : journeyCost st (a, b)
                  = Some (Z.of_nat (List.length path))).
  { unfold journeyCost. cbn [fst snd]. now rewrite Eab, <- Ep, El. }
  cbv zeta. unfold estimatePathCost.
  destruct (costLt (Z.of_nat (List.length path)) bestCost) eqn:Elt.
  - split; [exact Hs1 |]. split; [exact Es1 |].
    cbn [Journey.start Journey.destination Journey.path].
    rewrite !CoherenceFacts.copy_id. split; [reflexivity |].
    split; [| exact Ep].
    apply cheapest_snoc_new with (c := Z.of_nat (List.length path));
      [exact Hcost |].
    intros other c' Ho Hc'. destruct best as [j |].
    + destruct Hbest as (Hb & (_ & c & Hc & Hmin) & Hp).
      assert (c = Z.of_nat (List.length (Journey.path j))).
      { unfold journeyCost in Hc. cbn [fst snd] in Hc.
        destruct (GridPoint.eqb _ _); [discriminate |].
        rewrite <- Hp in Hc.
        destruct (_ <? 2); [discriminate |]. congruence. }
      subst c. rewrite Hb in Elt. simpl in Elt.
      apply Z.ltb_lt in Elt. specialize (Hmin other c' Ho Hc'). lia.
    + destruct Hbest as [_ Hno]. rewrite (Hno other Ho) in Hc'.
      discriminate.
  - split; [exact Hs1 |]. split; [exact Es1 |].
    destruct best as [j |].
    + destruct Hbest as (Hb & Hch & Hp). split; [exact Hb |].
      split; [| exact Hp].
      rewrite Hb in Elt. simpl in Elt. apply Z.ltb_ge in Elt.
      apply cheapest_snoc_keep
        with (c := Z.of_nat (List.length (Journey.path j)))
             (c' := Z.of_nat (List.length path)); auto.
      destruct Hch as (_ & c & Hc & _).
      unfold journeyCost in *. cbn [fst snd] in *.
      destruct (GridPoint.eqb _ _); [discriminate |].
      rewrite <- Hp in *.
      destruct (_ <? 2); [discriminate | reflexivity].
    + destruct Hbest as [Hb _]. rewrite Hb in Elt. discriminate.
Qed.

Lemma journey_fold todo : forall seen acc,
  journeyInv st seen acc ->
  journeyInv st (seen ++ todo) (fold_left stepOf todo acc).
Proof.
  induction todo as [| p r IH]; intros seen acc H; simpl.
  - now rewrite app_nil_r.
  - replace (seen ++ p :: r) with ((seen ++ [p]) ++ r)
      by now rewrite <- app_assoc.
    apply IH. now apply journey_step.
Qed.

Lemma journey_loops starts destinations :
  journeyInv st (list_prod starts destinations)
    (fold_left
       (fun acc start =>
          fold_left
            (fun '(best, bestCost, s) destination =>
               if (GridPoint.x start =? GridPoint.x destination)
                  && (GridPoint.y start =? GridPoint.y destination)
               then (best, bestCost, s)
               else
                 let '(path, s1) := findPath start destination s in
                 if Z.of_nat (List.length path) <? 2
                 then (best, bestCost, s1)
                 else
                   let cost := estimatePathCost path in
                   if costLt cost bestCost
                   then (Some {| Journey.start := GridPoint.copy start;
                                 Journey.destination :=
                                   GridPoint.copy destination;
                                 Journey.path := path |},
                         Some cost, s1)
                   else (best, bestCost, s1))
            destinations acc)
       starts (None, None, st)).
Proof.
  match goal with
  | |- journeyInv _ _ ?t =>
      replace t
        with (fold_left stepOf (list_prod starts destinations)
                        (None, None, st))
  end.
  2: { symmetry. etransitivity.
       { apply (SpatialFacts.fold_same _
                  (fun acc start =>
                     fold_left (fun acc b => stepOf acc (start, b))
                               destinations acc)).
         intros acc start. apply SpatialFacts.fold_same.
         intros [[best bestCost] s] d. reflexivity. }
       etransitivity.
       - exact (NearestFacts.fold_nested
                  (fun start destination
                       (acc : option Journey * option Z * GameScene) =>
                     stepOf acc (start, destination))
                  destinations starts (None, None, st)).
       - apply SpatialFacts.fold_same. intros acc [a b]. reflexivity. }
  apply (journey_fold _ []).
  split; [exact Hst |]. split; [now destruct st |].
  split; [reflexivity |]. intros p [].
Qed.
End Loop.
End JourneyLemmas.

(* ================================================================= *)
(** ** Spawn points in turn *)

Module SpawnTurnLemmas.

Local Opaque gridWidth gridHeight range.

Lemma cursorOk_of_view st st' :
  cursorView st' = cursorView st -> cursorOk st -> cursorOk st'.
Proof. unfold cursorView, cursorOk. intros [= -> ->]. auto. Qed.

Lemma cursorOk_rebuild st :
  0 <= spawnCursor st -> cursorOk (rebuildSpawnOrder st).
Proof.
  intros H. unfold rebuildSpawnOrder, cursorOk. cbv zeta. simpl.
  destruct (map GridPoint.copy (JsMap.values (spawnPoints st)))
    as [| c r]; simpl List.length.
  - simpl. lia.
  - pose proof (Z.rem_bound_pos (spawnCursor st)
                  (Z.of_nat (S (List.length r))) H ltac:(lia)). lia.
Qed.

Lemma cursorOk_setRoadValue x y v st :
  cursorOk st -> cursorOk (fst (setRoadValue x y v st)).
Proof.
  intros H. unfold setRoadValue.
  destruct (negb (isInside x y)); [exact H |].
  destruct (match matrixGet (grid st) x y with
            | Some p => p =? v
            | None => false
            end); [exact H |].
  destruct (v =? 1); [exact H |].
  cbv zeta. destruct (JsMap.has _ _); simpl fst.
  - apply cursorOk_rebuild. apply H.
  - exact H.
Qed.

Lemma cursorOk_fold {A : Type} (f : GameScene -> A -> GameScene)
  (l : list A) :
  (forall s a, cursorOk s -> cursorOk (f s a)) ->
  forall st, cursorOk st -> cursorOk (fold_left f l st).
Proof.
  intros Hf. induction l as [| a r IH]; intros st H; simpl; auto.
Qed.

Lemma cursorOk_registered sp dp st :
  cursorOk st ->
  cursorOk (rebuildSpawnOrder
              (with_destinationPoints dp (with_spawnPoints sp st))).
Proof. intros H. apply cursorOk_rebuild. apply H. Qed.

Lemma cursorOk_seedSimpleRoads st :
  cursorOk st -> cursorOk (seedSimpleRoads st).
Proof.
  intros H. unfold seedSimpleRoads. cbv zeta.
  apply cursorOk_registered.
  repeat (apply cursorOk_fold;
          [intros; cbv beta; repeat apply cursorOk_setRoadValue;
           assumption |]).
  exact H.
Qed.

Lemma cursor_fold {A : Type} (f : GameScene -> A -> GameScene) (l : list A) :
  (forall s a, cursorView (f s a) = cursorView s) ->
  forall st, cursorView (fold_left f l st) = cursorView st.
Proof.
  intros Hf. induction l as [| a r IH]; intros st; simpl; [reflexivity |].
  now rewrite IH, Hf.
Qed.

Lemma cursor_clearCars st : cursorView (clearCars st) = cursorView st.
Proof.
  unfold clearCars. cbv zeta.
  change (cursorView
            (fold_left (fun s car => destroySprite (Car.sprite car) s)
                       (cars st) st) = cursorView st).
  apply cursor_fold. reflexivity.
Qed.

Lemma cursor_zeroing (ys xs : list Z) st :
  cursorView (fold_left
                (fun s y =>
                   fold_left
                     (fun s x =>
                        with_walkMatrix (matrixSet (walkMatrix s) x y 1)
                          (with_grid (matrixSet (grid s) x y 0) s))
                     xs s)
                ys st)
  = cursorView st.
Proof. apply cursor_fold. intros s y. apply cursor_fold. reflexivity. Qed.

Lemma cursorOk_reset_tail st :
  0 <= spawnCursor st ->
  cursorOk
    (with_roadCount 0
       (with_pathCache
          (PathCache.clear
             (pathCache
                (with_destinationPoints JsMap.empty
                   (rebuildSpawnOrder (with_spawnPoints JsMap.empty st)))))
          (with_destinationPoints JsMap.empty
             (rebuildSpawnOrder (with_spawnPoints JsMap.empty st))))).
Proof.
  intros H.
  apply (cursorOk_of_view
           (rebuildSpawnOrder (with_spawnPoints JsMap.empty st)));
    [reflexivity |].
  apply cursorOk_rebuild. exact H.
Qed.

Lemma cursorOk_redraw m d st :
  cursorOk st -> cursorOk (showFlash m d (forceRedraw st)).
Proof. apply cursorOk_of_view. reflexivity. Qed.

Lemma cursorOk_resetMap st : cursorOk st -> cursorOk (resetMap st).
Proof.
  intros H. unfold resetMap. cbv zeta.
  apply cursorOk_redraw, cursorOk_seedSimpleRoads.
  eapply cursorOk_of_view; [apply cursor_clearCars |].
  apply cursorOk_reset_tail.
  pose proof (f_equal snd
                (cursor_zeroing (range 0 gridHeight) (range 0 gridWidth) st))
    as E.
  unfold cursorView in E. cbn [snd] in E. rewrite E. apply H.
Qed.

Lemma cursorOk_toggleSpawn c st :
  cursorOk st -> cursorOk (toggleSpawn c st).
Proof.
  intros H. unfold toggleSpawn. destruct (negb _).
  - eapply cursorOk_of_view; [| exact H]. reflexivity.
  - cbv zeta.
    destruct (JsMap.has _ _);
      (eapply cursorOk_of_view;
       [| apply cursorOk_rebuild]; [reflexivity | apply H]).
Qed.

Lemma cursorOk_removeSpawn c st :
  cursorOk st -> cursorOk (removeSpawn c st).
Proof.
  intros H. unfold removeSpawn. destruct (JsMap.has _ _); [| exact H].
  cbv zeta.
  eapply cursorOk_of_view; [| apply cursorOk_rebuild]; [reflexivity |].
  apply H.
Qed.

Lemma cursorOk_toggleDestination c st :
  cursorOk st -> cursorOk (toggleDestination c st).
Proof.
  unfold toggleDestination. destruct (negb _);
    [apply cursorOk_of_view; reflexivity |].
  cbv zeta. destruct (JsMap.has _ _); apply cursorOk_of_view; reflexivity.
Qed.

Lemma cursorOk_removeDestination c st :
  cursorOk st -> cursorOk (removeDestination c st).
Proof.
  unfold removeDestination. destruct (JsMap.has _ _); [| auto].
  apply cursorOk_of_view. reflexivity.
Qed.

Lemma cursorOk_findPath a b st :
  cursorOk st -> cursorOk (snd (findPath a b st)).
Proof.
  unfold findPath. destruct (PathCache.get _ _); [auto |].
  cbv zeta. destruct (0 <? _); [| auto].
  apply cursorOk_of_view. reflexivity.
Qed.

Lemma cursorOk_createCar nz p c m st :
  cursorOk st -> cursorOk (createCar nz p c m st).
Proof.
  unfold createCar. destruct (_ <? 2); [auto |].
  cbv zeta. destruct (map cellToWorldVector _) as [| s [| n r]]; auto;
    apply cursorOk_of_view; reflexivity.
Qed.

Lemma cursorOk_removeCarAt i st st' :
  removeCarAt i st = Some st' -> cursorOk st -> cursorOk st'.
Proof.
  unfold removeCarAt. cbv zeta. destruct (nth_error _ _); [| discriminate].
  intros [= <-]. apply cursorOk_of_view. reflexivity.
Qed.

Lemma cursorOk_step nz o st : cursorOk st -> cursorOk (step nz o st).
Proof.
  intros H. destruct o; unfold step.
  - eapply cursorOk_of_view; [| exact H]. reflexivity.
  - now apply cursorOk_setRoadValue.
  - now apply cursorOk_seedSimpleRoads.
  - now apply cursorOk_resetMap.
  - now apply cursorOk_toggleSpawn.
  - now apply cursorOk_removeSpawn.
  - now apply cursorOk_toggleDestination.
  - now apply cursorOk_removeDestination.
  - now apply cursorOk_findPath.
  - now apply cursorOk_createCar.
  - destruct (removeCarAt index st) eqn:E; [| exact H].
    eapply cursorOk_removeCarAt; eauto.
  - eapply cursorOk_of_view; [apply cursor_clearCars | exact H].
Qed.

Lemma cursor_forceRedraw st : cursorView (forceRedraw st) = cursorView st.
Proof. reflexivity. Qed.

Lemma cursorOk_started st :
  spawnCursor st = 0 -> cursorOk (refreshHud true (initializeGrid st)).
Proof.
  intros E. unfold cursorOk.
  change (spawnCursor (refreshHud true (initializeGrid st)))
    with (spawnCursor st).
  rewrite E. lia.
Qed.

Lemma cursorOk_create : cursorOk (create newGameScene).
Proof.
  unfold create.
  eapply cursorOk_of_view; [apply cursor_forceRedraw |].
  apply cursorOk_seedSimpleRoads, cursorOk_started. reflexivity.
Qed.

Lemma order_nonempty st :
  placed st -> spawnPoints st <> [] ->
  0 < Z.of_nat (List.length (spawnOrder st)).
Proof.
  intros (_ & _ & _ & Ho) Hne. rewrite Ho. unfold JsMap.values.
  rewrite length_map. destruct (spawnPoints st); [now elim Hne | simpl; lia].
Qed.

(** One call on a scene with spawn points. *)
Lemma pickSpawnStart_next randomRoad st :
  placed st -> cursorOk st -> spawnPoints st <> [] ->
  let total := Z.of_nat (List.length (spawnOrder st)) in
  exists c,
    nth_error (spawnOrder st) (Z.to_nat (spawnCursor st)) = Some c /\
    pickSpawnStart randomRoad st
    = Some (c, with_spawnCursor ((spawnCursor st + 1) mod total) st).
Proof.
  intros (Hd & Hs & _ & Ho) [Hc0 Hc1] Hne. cbv zeta.
  assert (Hlen : (0 < List.length (spawnOrder st))%nat).
  { rewrite Ho. unfold JsMap.values. rewrite length_map.
    destruct (spawnPoints st); [now elim Hne | simpl; lia]. }
  assert (Hlt : (Z.to_nat (spawnCursor st) < List.length (spawnOrder st))%nat)
    by lia.
  destruct (nth_error (spawnOrder st) (Z.to_nat (spawnCursor st)))
    as [c |] eqn:Ec; [| apply nth_error_None in Ec; lia].
  exists c. split; [reflexivity |].
  unfold pickSpawnStart.
  assert (E0 : (JsMap.size (spawnPoints st) =? 0) = false).
  { apply Z.eqb_neq. unfold JsMap.size.
    destruct (spawnPoints st); [now elim Hne | simpl; lia]. }
  rewrite E0.
  assert (E1 : (Z.of_nat (List.length (spawnOrder st)) =? 0) = false)
    by (apply Z.eqb_neq; lia).
  rewrite E1. cbv zeta. rewrite E1.
  destruct (Z.to_nat (Z.of_nat (List.length (spawnOrder st))))
    as [| n] eqn:En; [lia |].
  simpl pickSpawnLoop. unfold spawnOrderAt.
  assert (E2 : (spawnCursor st <? 0) = false) by (apply Z.ltb_ge; lia).
  rewrite E2, Ec.
  assert (Hroad : isRoad st (GridPoint.x c) (GridPoint.y c) = true).
  { apply nth_error_In in Ec. rewrite Ho in Ec.
    unfold JsMap.values in Ec. apply in_map_iff in Ec.
    destruct Ec as ([k c'] & <- & Hin). apply (Hs k c' Hin). }
  change (isRoad (with_spawnCursor _ st) (GridPoint.x c) (GridPoint.y c))
    with (isRoad st (GridPoint.x c) (GridPoint.y c)).
  rewrite Hroad. rewrite Z.rem_mod_nonneg by lia.
  now destruct c.
Qed.

Lemma with_cursor_same st : with_spawnCursor (spawnCursor st) st = st.
Proof. now destruct st. Qed.

Lemma pickSpawnStarts_cycle (draws : list GridPoint) : forall st,
  placed st -> cursorOk st -> spawnPoints st <> [] ->
  let total := Z.of_nat (List.length (spawnOrder st)) in
  exists picks,
    pickSpawnStarts draws st
    = Some (picks,
            with_spawnCursor
              ((spawnCursor st + Z.of_nat (List.length draws)) mod total)
              st) /\
    List.length picks = List.length draws /\
    forall i, (i < List.length draws)%nat ->
      nth_error picks i
      = nth_error (spawnOrder st)
          (Z.to_nat ((spawnCursor st + Z.of_nat i) mod total)).
Proof.
  induction draws as [| r rest IH]; intros st Hp Hc Hne; cbv zeta.
  - exists []. simpl. split; [| split; [reflexivity | intros; lia]].
    rewrite Z.add_0_r, Z.mod_small; [now rewrite with_cursor_same |].
    pose proof (order_nonempty st Hp Hne). unfold cursorOk in Hc. lia.
  - destruct (pickSpawnStart_next r st Hp Hc Hne) as (c & Ec & Epick).
    cbv zeta in Epick.
    set (total := Z.of_nat (List.length (spawnOrder st))) in *.
    set (st1 := with_spawnCursor ((spawnCursor st + 1) mod total) st) in *.
    assert (Ht : 0 < total) by (apply order_nonempty; assumption).
    assert (Hp1 : placed st1)
      by (eapply PlacementLemmas.placed_placement; [| exact Hp];
          reflexivity).
    assert (Hc1 : cursorOk st1).
    { unfold cursorOk, st1. simpl. fold total.
      pose proof (Z.mod_pos_bound (spawnCursor st + 1) total Ht). lia. }
    destruct (IH st1 Hp1 Hc1 Hne) as (picks & Ep & El & Hn).
    exists (c :: picks). simpl pickSpawnStarts. rewrite Epick, Ep.
    change (spawnOrder st1) with (spawnOrder st) in *. fold total in Hn |- *.
    change (spawnCursor st1) with ((spawnCursor st + 1) mod total) in *.
    split; [| split].
    + f_equal. f_equal. unfold st1.
      replace (((spawnCursor st + 1) mod total
                + Z.of_nat (List.length rest)) mod total)
        with ((spawnCursor st + Z.of_nat (List.length (r :: rest)))
                mod total).
      * now destruct st.
      * rewrite Z.add_mod_idemp_l by lia. f_equal. simpl List.length. lia.
    + simpl. now rewrite El.
    + intros [| i] Hi.
      * simpl. rewrite Z.add_0_r, Z.mod_small; [now rewrite Ec |].
        unfold cursorOk in Hc. fold total in Hc. lia.
      * simpl nth_error at 1. rewrite Hn by (simpl in Hi; lia).
        rewrite Z.add_mod_idemp_l by lia.
        do 3 f_equal. lia.
Qed.
End SpawnTurnLemmas.

(* ================================================================= *)
(** ** The brush *)

Module BrushFacts.
Import GridFacts.

Lemma in_getBrushCells cell tool brushSize c :
  tool = ToolRoad \/ tool = ToolErase ->
  (In c (getBrushCells (Some cell) tool brushSize) <->
   brushed cell brushSize c).
Proof.
  intros Ht.
  assert (E : getBrushCells (Some cell) tool brushSize
              = map (fun p => GridPoint.mk (GridPoint.x cell + snd p)
                                           (GridPoint.y cell + fst p))
                  (filter (fun p => isInside (GridPoint.x cell + snd p)
                                             (GridPoint.y cell + fst p))
                     (list_prod
                        (range (- (brushSize - 1)) (brushSize - 1 + 1))
                        (range (- (brushSize - 1)) (brushSize - 1 + 1))))).
  { transitivity
      (fold_left
         (fun cells dy =>
            fold_left
              (fun cells dx =>
                 if negb (isInside (GridPoint.x cell + dx)
                                   (GridPoint.y cell + dy))
                 then cells
                 else cells ++ [GridPoint.mk (GridPoint.x cell + dx)
                                             (GridPoint.y cell + dy)])
              (range (- (brushSize - 1)) (brushSize - 1 + 1)) cells)
         (range (- (brushSize - 1)) (brushSize - 1 + 1)) []).
    { destruct Ht as [-> | ->]; reflexivity. }
    rewrite (NearestFacts.fold_nested
               (fun dy dx cells =>
                  if negb (isInside (GridPoint.x cell + dx)
                                    (GridPoint.y cell + dy))
                  then cells
                  else cells ++ [GridPoint.mk (GridPoint.x cell + dx)
                                              (GridPoint.y cell + dy)])).
    rewrite <- (app_nil_l (map _ _)).
    rewrite <- RoadCountFacts.fold_push.
    apply SpatialFacts.fold_same. intros acc p.
    now destruct (isInside _ _). }
  rewrite E, in_map_iff. unfold brushed. split.
  - intros ([dy dx] & <- & Hin). apply filter_In in Hin.
    destruct Hin as [Hin Hi]. apply in_prod_iff in Hin.
    destruct Hin as [Hy Hx]. apply NearestFacts.in_range in Hx, Hy.
    simpl in *. split; [exact Hi |]. lia.
  - intros (Hi & Hx & Hy).
    exists (GridPoint.y c - GridPoint.y cell,
            GridPoint.x c - GridPoint.x cell). simpl.
    replace (GridPoint.x cell + (GridPoint.x c - GridPoint.x cell))
      with (GridPoint.x c) by lia.
    replace (GridPoint.y cell + (GridPoint.y c - GridPoint.y cell))
      with (GridPoint.y c) by lia.
    split; [now destruct c |].
    apply filter_In. split.
    + apply in_prod_iff. split; apply NearestFacts.in_range; lia.
    + cbn [fst snd].
      replace (GridPoint.x cell + (GridPoint.x c - GridPoint.x cell))
        with (GridPoint.x c) by lia.
      replace (GridPoint.y cell + (GridPoint.y c - GridPoint.y cell))
        with (GridPoint.y c) by lia.
      exact Hi.
Qed.

Lemma set_value x y v st :
  grid_dims (grid st) -> isInside x y = true ->
  matrixGet (grid (fst (setRoadValue x y v st))) x y = Some v.
Proof.
  intros Hd Hin.
  destruct (RoadValueFacts.setRoadValue_effect x y v st)
    as [(_ & E & [Ho | Hg]) | (_ & _ & _ & Eg & _)]; cbv zeta in *.
  - congruence.
  - now rewrite E.
  - rewrite Eg. destruct (matrixGet_inside _ x y Hd Hin) as [w Hw].
    eapply matrixGet_matrixSet_same; eauto.
Qed.

Lemma set_other x y v st a b :
  (x, y) <> (a, b) ->
  matrixGet (grid (fst (setRoadValue x y v st))) a b
  = matrixGet (grid st) a b.
Proof.
  intros Hne.
  destruct (RoadValueFacts.setRoadValue_effect x y v st)
    as [(_ & E & _) | (_ & _ & _ & Eg & _)]; cbv zeta in *.
  - now rewrite E.
  - rewrite Eg. now apply matrixGet_matrixSet_other.
Qed.

Lemma set_report x y v st :
  isInside x y = true ->
  (snd (setRoadValue x y v st) = true <->
   matrixGet (grid st) x y <> Some v) /\
  (matrixGet (grid st) x y = Some v -> fst (setRoadValue x y v st) = st).
Proof.
  intros Hin.
  destruct (RoadValueFacts.setRoadValue_effect x y v st)
    as [(E & E' & [Ho | Hg]) | (E & _ & Hg & _)]; cbv zeta in *;
    rewrite E; repeat split; try congruence; try discriminate.
Qed.

Lemma paint_fold value (l : list GridPoint) : forall st modified,
  grid_dims (grid st) ->
  (forall c, In c l -> isInside (GridPoint.x c) (GridPoint.y c) = true) ->
  let r := fold_left
             (fun '(s, modified) target =>
                let '(s1, changed) :=
                  setRoadValue (GridPoint.x target) (GridPoint.y target)
                               value s in
                (s1, changed || modified))
             l (st, modified) in
  (forall c, In c l -> valueAt (fst r) c = Some value) /\
  (forall c, (forall c', In c' l -> toCell c' <> toCell c) ->
             valueAt (fst r) c = valueAt st c) /\
  (snd r = true <->
   modified = true \/ exists c, In c l /\ valueAt st c <> Some value) /\
  ((forall c, In c l -> valueAt st c = Some value) -> fst r = st).
Proof.
  induction l as [| c0 rest IH]; intros st modified Hd Hin; cbv zeta.
  - simpl. split; [intros c [] |]. split; [reflexivity |].
    split; [| reflexivity]. split; [now left |].
    intros [H | (c & [] & _)]. exact H.
  - simpl fold_left.
    pose proof (set_value (GridPoint.x c0) (GridPoint.y c0) value st Hd
                  (Hin c0 (or_introl eq_refl))) as Hv.
    pose proof (fun a b => set_other (GridPoint.x c0) (GridPoint.y c0)
                             value st a b) as Ho.
    pose proof (set_report (GridPoint.x c0) (GridPoint.y c0) value st
                  (Hin c0 (or_introl eq_refl))) as [Hr Hs].
    pose proof (PlacementLemmas.dims_setRoadValue
                  (GridPoint.x c0) (GridPoint.y c0) value st Hd) as Hd1.
    destruct (setRoadValue (GridPoint.x c0) (GridPoint.y c0) value st)
      as [s1 changed].
    cbn [fst snd] in *.
    specialize (IH s1 (changed || modified) Hd1
                  (fun c Hc => Hin c (or_intror Hc))).
    cbv zeta in IH. destruct IH as (Ia & Ib & Ic & Id).
    set (r := fold_left _ rest (s1, changed || modified)) in *.
    assert (Hsame : forall c, toCell c <> toCell c0 ->
                      valueAt s1 c = valueAt st c).
    { intros c Hne. unfold valueAt. apply Ho. intros E. apply Hne.
      unfold toCell. congruence. }
    split; [| split; [| split]].
    + intros c [<- | Hc]; [| now apply Ia].
      destruct (in_dec (fun p q : Z * Z =>
                          ltac:(decide equality; apply Z.eq_dec))
                  (toCell c0) (map toCell rest)) as [Hm | Hm].
      * apply in_map_iff in Hm. destruct Hm as (c' & Ec & Hc').
        specialize (Ia c' Hc'). unfold valueAt, toCell in *.
        injection Ec as Ex Ey. now rewrite <- Ex, <- Ey.
      * rewrite Ib; [exact Hv |].
        intros c' Hc' E. apply Hm. rewrite <- E. now apply in_map.
    + intros c Hc. rewrite Ib.
      * apply Hsame. intros E. apply (Hc c0); [now left | now symmetry].
      * intros c' Hc'. apply Hc. now right.
    + rewrite Ic, orb_true_iff, Hr. split.
      * intros [[Hch | Hm] | (c & Hc & Hne)].
        -- right. exists c0. split; [now left | exact Hch].
        -- now left.
        -- right.
           destruct (Z.eq_dec (GridPoint.x c) (GridPoint.x c0)) as [Ex | Nx];
             [destruct (Z.eq_dec (GridPoint.y c) (GridPoint.y c0))
               as [Ey | Ny] |].
           ++ exfalso. apply Hne. unfold valueAt. now rewrite Ex, Ey.
           ++ exists c. split; [now right |].
              rewrite <- Hsame; [exact Hne |]. unfold toCell. congruence.
           ++ exists c. split; [now right |].
              rewrite <- Hsame; [exact Hne |]. unfold toCell. congruence.
      * intros [Hm | (c & [<- | Hc] & Hne)].
        -- left. now right.
        -- left. now left.
        -- destruct (Z.eq_dec (GridPoint.x c) (GridPoint.x c0)) as [Ex | Nx];
             [destruct (Z.eq_dec (GridPoint.y c) (GridPoint.y c0))
               as [Ey | Ny] |].
           ++ left. left. unfold valueAt in Hne. now rewrite <- Ex, <- Ey.
           ++ right. exists c. split; [exact Hc |].
              rewrite Hsame; [exact Hne |]. unfold toCell. congruence.
           ++ right. exists c. split; [exact Hc |].
              rewrite Hsame; [exact Hne |]. unfold toCell. congruence.
    + intros Hall.
      assert (E1 : s1 = st) by (apply Hs, (Hall c0); now left).
      rewrite Id; [exact E1 |].
      intros c Hc. rewrite E1. apply Hall. now right.
Qed.

(** X16. With the road or the erase tool, [applyBrush] leaves its value
    in every cell of the grid within [brushSize - 1] cells of the pointer
    cell along both axes and every other cell as it was; it cuts the spawn
    timer to half the interval exactly when a cell of the square held
    another value, and when none did it changes nothing at all. *)
Theorem applyBrush_paints_square (cell : GridPoint) (value : Z)
  (tool : Tool) (brushSize : Z) (spawnTimer spawnInterval : Q)
  (st : GameScene) :
  grid_dims (grid st) -> tool = ToolRoad \/ tool = ToolErase ->
  let r := applyBrush cell value tool brushSize spawnTimer spawnInterval
                      st in
  (forall c, brushed cell brushSize c -> valueAt (fst r) c = Some value) /\
  (forall c, isInside (GridPoint.x c) (GridPoint.y c) = true ->
             ~ brushed cell brushSize c ->
             valueAt (fst r) c = valueAt st c) /\
  ((exists c, brushed cell brushSize c /\ valueAt st c <> Some value) ->
   snd r = Qmin spawnTimer (spawnInterval * (1 # 2))) /\
  ((forall c, brushed cell brushSize c -> valueAt st c = Some value) ->
   r = (st, spawnTimer)).
Proof.
  intros Hd Ht. unfold applyBrush. cbv zeta.
  pose proof (paint_fold value (getBrushCells (Some cell) tool brushSize)
                st false Hd) as H.
  assert (Hin : forall c,
             In c (getBrushCells (Some cell) tool brushSize) ->
             isInside (GridPoint.x c) (GridPoint.y c) = true).
  { intros c Hc. apply (in_getBrushCells _ _ _ _ Ht) in Hc. apply Hc. }
  specialize (H Hin). cbv zeta in H.
  destruct (fold_left _ (getBrushCells (Some cell) tool brushSize)
              (st, false)) as [st' modified].
  cbn [fst snd] in H. destruct H as (Ha & Hb & Hc & Hs).
  assert (Efst : forall q, fst (if modified then (st', q) else (st', spawnTimer))
                           = st') by (intros; now destruct modified).
  rewrite Efst. split; [| split; [| split]].
  - intros c Hc'. apply Ha. now apply in_getBrushCells.
  - intros c Hi Hn. apply Hb. intros c' Hc' E.
    apply (in_getBrushCells _ _ _ _ Ht) in Hc'. apply Hn.
    unfold brushed, toCell in *. injection E as Ex Ey.
    now rewrite <- Ex, <- Ey.
  - intros (c & Hc' & Hne).
    assert (Em : modified = true).
    { apply Hc. right. exists c. split; [| exact Hne].
      now apply in_getBrushCells. }
    now rewrite Em.
  - intros Hall.
    assert (Es : st' = st).
    { apply Hs. intros c Hc'. apply Hall.
      now apply (in_getBrushCells _ _ _ _ Ht). }
    destruct modified eqn:Em; [| now rewrite Es].
    exfalso. destruct (proj1 Hc eq_refl) as [F | (c & Hc' & Hne)];
      [discriminate |].
    apply Hne, Hall. now apply (in_getBrushCells _ _ _ _ Ht).
Qed.

Lemma applyBrush_paints_square_witness :
  let st := initializeGrid newGameScene in
  let r := applyBrush (GridPoint.mk 0 0) 1 ToolRoad 2 3 2 st in
  grid_dims (grid st) /\
  valueAt (fst r) (GridPoint.mk 1 1) = Some 1 /\
  snd r = Qmin 3 (2 * (1 # 2)).
Proof.
  intros st r.
  assert (Hd : grid_dims (grid st)) by apply dims_repeat.
  split; [exact Hd |].
  destruct (applyBrush_paints_square (GridPoint.mk 0 0) 1 ToolRoad 2 3 2 st
              Hd (or_introl eq_refl)) as (Ha & _ & Hc & _).
  assert (Hb : brushed (GridPoint.mk 0 0) 2 (GridPoint.mk 1 1))
    by (unfold brushed; simpl; split; [reflexivity | lia]).
  split; [exact (Ha _ Hb) |].
  apply Hc. exists (GridPoint.mk 1 1). split; [exact Hb |].
  vm_compute. discriminate.
Defined.
End BrushFacts.

(* ================================================================= *)
(** ** Choosing a destination *)

Module DestinationLemmas.

Lemma isRoad_grid s s' x y :
  grid s' = grid s -> isRoad s' x y = isRoad s x y.
Proof. intros E. unfold isRoad. now rewrite E. Qed.

Lemma ringStep_grid s s' pos bx by_ radius dy dx acc :
  grid s' = grid s ->
  ringStep s' pos bx by_ radius dy dx acc
  = ringStep s pos bx by_ radius dy dx acc.
Proof.
  intros E. unfold ringStep. now rewrite (isRoad_grid s s' _ _ E).
Qed.

Lemma scanRing_grid s s' pos bx by_ radius :
  grid s' = grid s ->
  scanRing s' pos bx by_ radius = scanRing s pos bx by_ radius.
Proof.
  intros E. unfold scanRing. apply SpatialFacts.fold_same. intros acc dy.
  apply SpatialFacts.fold_same. intros acc' dx. now apply ringStep_grid.
Qed.

Lemma searchRings_grid s s' pos bx by_ radii :
  grid s' = grid s ->
  searchRings s' pos bx by_ radii = searchRings s pos bx by_ radii.
Proof.
  intros E. induction radii as [| r rest IH]; simpl; [reflexivity |].
  now rewrite (scanRing_grid s s' pos bx by_ r E), IH.
Qed.

Lemma nearest_grid s s' pos radius :
  grid s' = grid s ->
  findNearestRoadCell pos radius s' = findNearestRoadCell pos radius s.
Proof.
  intros E. unfold findNearestRoadCell. cbv zeta.
  destruct (if negb (isInside _ _) then _ else _) as [bx by_].
  now rewrite (isRoad_grid s s' _ _ E), (searchRings_grid s s' _ _ _ _ E).
Qed.

Lemma ensure_grid s s' c :
  grid s' = grid s -> ensureRoadCell c s' = ensureRoadCell c s.
Proof.
  intros E. unfold ensureRoadCell.
  now rewrite (isRoad_grid s s' _ _ E), (nearest_grid s s' _ _ E).
Qed.

Lemma ensure_sound c st d : ensureRoadCell c st = Some d -> roadCell st d.
Proof.
  unfold ensureRoadCell, roadCell.
  destruct (isRoad st (GridPoint.x c) (GridPoint.y c)) eqn:Hr.
  - intros [= <-]. exact Hr.
  - destruct (findNearestRoadCell _ _ st) as [snapped |] eqn:E;
      [| discriminate].
    intros [= <-]. rewrite CoherenceFacts.copy_id.
    exact (SnapFacts.nearest_sound _ _ _ _ E).
Qed.

Lemma searched_walk s s' a b :
  walkMatrix s' = walkMatrix s -> searched s' a b = searched s a b.
Proof. intros E. unfold searched. now rewrite E. Qed.

Lemma chooseStep_routing s s' start acc c :
  routing s' = routing s ->
  chooseStep s' start acc c = chooseStep s start acc c.
Proof.
  unfold routing. intros [= Eg Ew Ed]. unfold chooseStep.
  rewrite (ensure_grid s s' c Eg).
  destruct (ensureRoadCell c s); [| reflexivity].
  now rewrite (searched_walk s s' _ _ Ew).
Qed.

Lemma choose_routing s s' start fallback :
  routing s' = routing s ->
  chooseDestination s' start fallback = chooseDestination s start fallback.
Proof.
  intros E. unfold chooseDestination, destinationCandidates.
  pose proof E as E'. unfold routing in E'. injection E' as Eg Ew Ed.
  rewrite Ed.
  rewrite (SpatialFacts.fold_same (chooseStep s' start) (chooseStep s start))
    by (intros; now apply chooseStep_routing).
  rewrite (ensure_grid s s' fallback Eg).
  destruct (ensureRoadCell fallback s) as [fc |].
  - now rewrite (searched_walk s s' _ _ Ew).
  - reflexivity.
Qed.

Lemma rerouted_routing nz s s' car :
  routing s' = routing s -> rerouted nz s' car = rerouted nz s car.
Proof.
  intros E. unfold rerouted.
  pose proof E as E'. unfold routing in E'. injection E' as Eg Ew Ed.
  rewrite (nearest_grid s s' _ _ Eg).
  destruct (findNearestRoadCell _ _ s) as [a |]; [| reflexivity].
  now rewrite (choose_routing s s' _ _ E).
Qed.

Lemma routing_cache c st : routing (with_pathCache c st) = routing st.
Proof. reflexivity. Qed.

(** *** The loop against the function *)

Section Loop.
Variables (st : GameScene) (start : GridPoint).
Hypothesis Hst : coherent st.

Lemma select_step bd bp bc s candidate :
  coherent s -> s = with_pathCache (pathCache s) st ->
  exists s',
    (match ensureRoadCell candidate s with
     | None => (bd, bp, bc, s)
     | Some snapped =>
         let '(path, s1) := findPath start snapped s in
         if Z.of_nat (List.length path) <? 2 then (bd, bp, bc, s1)
         else
           if costLt (estimatePathCost path) bc
           then (Some snapped, Some path, Some (estimatePathCost path),
                 s1)
           else (bd, bp, bc, s1)
     end) = (chooseStep st start (bd, bp, bc) candidate, s') /\
    coherent s' /\ s' = with_pathCache (pathCache s') st.
Proof.
  intros Hs Es.
  assert (Eg : grid s = grid st) by (rewrite Es; reflexivity).
  unfold chooseStep. rewrite (ensure_grid st s candidate Eg).
  destruct (ensureRoadCell candidate st) as [snapped |].
  2: { exists s. auto. }
  destruct (JourneyLemmas.findPath_in_frame st s start snapped Hst Hs Es)
    as (Ep & Hs1 & Es1).
  rewrite (CoherenceFacts.findPath_value start snapped st Hst) in Ep.
  destruct (findPath start snapped s) as [path s1]. cbn [fst snd] in *.
  subst path. exists s1. split; [| auto].
  cbv zeta. unfold estimatePathCost. cbn [snd].
  destruct (_ <? 2); [reflexivity |].
  destruct (costLt _ bc); reflexivity.
Qed.

Lemma select_loop (candidates : list GridPoint) : forall bd bp bc s,
  coherent s -> s = with_pathCache (pathCache s) st ->
  exists s',
    fold_left
      (fun '(bestDestination, bestPath, bestCost, s) candidate =>
         match ensureRoadCell candidate s with
         | None => (bestDestination, bestPath, bestCost, s)
         | Some snapped =>
             let '(path, s1) := findPath start snapped s in
             if Z.of_nat (List.length path) <? 2
             then (bestDestination, bestPath, bestCost, s1)
             else
               if costLt (estimatePathCost path) bestCost
               then (Some snapped, Some path,
                     Some (estimatePathCost path), s1)
               else (bestDestination, bestPath, bestCost, s1)
         end)
      candidates (bd, bp, bc, s)
    = (fold_left (chooseStep st start) candidates (bd, bp, bc), s') /\
    coherent s' /\ s' = with_pathCache (pathCache s') st.
Proof.
  induction candidates as [| c rest IH]; intros bd bp bc s Hs Es.
  - exists s. auto.
  - cbn [fold_left].
    destruct (select_step bd bp bc s c Hs Es) as (s1 & E1 & Hs1 & Es1).
    rewrite E1.
    destruct (chooseStep st start (bd, bp, bc) c) as [[bd1 bp1] bc1].
    apply IH; assumption.
Qed.
End Loop.

Lemma select_pure start fallback st :
  coherent st ->
  exists s',
    selectBestDestinationPath start fallback st
    = (chooseDestination st start fallback, s') /\
    coherent s' /\ s' = with_pathCache (pathCache s') st.
Proof.
  intros Hst. unfold selectBestDestinationPath, chooseDestination.
  cbv zeta. fold (destinationCandidates fallback st).
  destruct (select_loop st start Hst (destinationCandidates fallback st)
              None None None st Hst) as (s1 & E1 & Hs1 & Es1);
    [now destruct st |].
  rewrite E1.
  destruct (fold_left (chooseStep st start) _ _) as [[bd bp] bc].
  assert (Fallback :
            exists s',
              match ensureRoadCell fallback s1 with
              | Some fallbackCell =>
                  let '(fallbackPath, st2) :=
                    findPath start fallbackCell s1 in
                  if Z.of_nat (List.length fallbackPath) <? 2
                  then (None, st2)
                  else (Some (fallbackCell, fallbackPath), st2)
              | None => (None, s1)
              end
              = (match ensureRoadCell fallback st with
                 | Some fallbackCell =>
                     let fallbackPath := searched st start fallbackCell in
                     if Z.of_nat (List.length fallbackPath) <? 2 then None
                     else Some (fallbackCell, fallbackPath)
                 | None => None
                 end, s') /\
              coherent s' /\ s' = with_pathCache (pathCache s') st).
  { assert (Eg : grid s1 = grid st) by (rewrite Es1; reflexivity).
    rewrite (ensure_grid st s1 fallback Eg).
    destruct (ensureRoadCell fallback st) as [fc |]; [| exists s1; auto].
    destruct (JourneyLemmas.findPath_in_frame st s1 start fc Hst Hs1 Es1)
      as (Ep & Hs2 & Es2).
    rewrite (CoherenceFacts.findPath_value start fc st Hst) in Ep.
    destruct (findPath start fc s1) as [path s2]. cbn [fst snd] in *.
    subst path. exists s2. split; [| auto]. cbv zeta.
    destruct (_ <? 2); reflexivity. }
  destruct bd as [d |]; [destruct bp as [p |] |]; try exact Fallback.
  exists s1. auto.
Qed.

(** *** What the function chooses *)

Lemma cost_searched st start c :
  coherent st ->
  destinationCost st start c
  = match ensureRoadCell c st with
    | None => None
    | Some snapped =>
        if Z.of_nat (List.length (searched st start snapped)) <? 2
        then None
        else Some (Z.of_nat (List.length (searched st start snapped)))
    end.
Proof.
  intros Hst. unfold destinationCost.
  destruct (ensureRoadCell c st); [| reflexivity].
  cbv zeta. now rewrite CoherenceFacts.findPath_value.
Qed.

Section Choice.
Variables (st : GameScene) (start : GridPoint).
Hypothesis Hst : coherent st.

Let kept (seen : list GridPoint)
  (acc : option GridPoint * option (list GridPoint) * option Z) : Prop :=
  match acc with
  | (Some d, Some p, bc) =>
      bc = Some (Z.of_nat (List.length p)) /\
      p = searched st start d /\
      exists c, cheapest (destinationCost st start) seen c /\
                ensureRoadCell c st = Some d
  | (None, None, bc) =>
      bc = None /\
      forall c, In c seen -> destinationCost st start c = None
  | _ => False
  end.

Lemma choose_step seen acc c :
  kept seen acc -> kept (seen ++ [c]) (chooseStep st start acc c).
Proof.
  destruct acc as [[bd bp] bc]. unfold kept, chooseStep. cbn [snd].
  intros H.
  pose proof (cost_searched st start c Hst) as Ec.
  destruct (ensureRoadCell c st) as [snapped |] eqn:Ee.
  2: { destruct bd as [d |], bp as [p |]; try exact H.
       - destruct H as (Hb & Hp & c0 & Hc0 & He0).
         split; [exact Hb |]. split; [exact Hp |]. exists c0.
         split; [| exact He0]. now apply JourneyLemmas.cheapest_snoc_none.
       - destruct H as [Hb Hno]. split; [exact Hb |].
         now apply JourneyLemmas.none_snoc. }
  cbv zeta.
  destruct (Z.of_nat (List.length (searched st start snapped)) <? 2)
    eqn:El.
  { destruct bd as [d |], bp as [p |]; try exact H.
    - destruct H as (Hb & Hp & c0 & Hc0 & He0).
      split; [exact Hb |]. split; [exact Hp |]. exists c0.
      split; [| exact He0]. now apply JourneyLemmas.cheapest_snoc_none.
    - destruct H as [Hb Hno]. split; [exact Hb |].
      now apply JourneyLemmas.none_snoc. }
  destruct (costLt _ bc) eqn:Elt.
  - split; [reflexivity |]. split; [reflexivity |].
    exists c. split; [| exact Ee].
    apply JourneyLemmas.cheapest_snoc_new
      with (c := Z.of_nat (List.length (searched st start snapped)));
      [exact Ec |].
    intros other c' Ho Hc'.
    destruct bd as [d |], bp as [p |]; try contradiction.
    + destruct H as (Hb & Hp & c0 & (_ & k & Hk & Hmin) & He0).
      assert (k = Z.of_nat (List.length p)).
      { rewrite (cost_searched st start c0 Hst), He0, <- Hp in Hk.
        destruct (_ <? 2); [discriminate |]. congruence. }
      subst k. rewrite Hb in Elt. simpl in Elt. apply Z.ltb_lt in Elt.
      specialize (Hmin other c' Ho Hc'). lia.
    + destruct H as [_ Hno]. rewrite (Hno other Ho) in Hc'. discriminate.
  - destruct bd as [d |], bp as [p |]; try exact H.
    + destruct H as (Hb & Hp & c0 & Hc0 & He0).
      split; [exact Hb |]. split; [exact Hp |]. exists c0.
      split; [| exact He0].
      rewrite Hb in Elt. simpl in Elt. apply Z.ltb_ge in Elt.
      apply JourneyLemmas.cheapest_snoc_keep
        with (c := Z.of_nat (List.length p))
             (c' := Z.of_nat (List.length (searched st start snapped)));
        auto.
      destruct Hc0 as (_ & k & Hk & _).
      rewrite (cost_searched st start c0 Hst), He0, <- Hp in Hk |- *.
      destruct (_ <? 2); [discriminate | reflexivity].
    + destruct H as [Hb _]. rewrite Hb in Elt. discriminate.
Qed.

Lemma choose_fold todo : forall seen acc,
  kept seen acc ->
  kept (seen ++ todo) (fold_left (chooseStep st start) todo acc).
Proof.
  induction todo as [| c r IH]; intros seen acc H; simpl.
  - now rewrite app_nil_r.
  - replace (seen ++ c :: r) with ((seen ++ [c]) ++ r)
      by now rewrite <- app_assoc.
    apply IH. now apply choose_step.
Qed.

Lemma choose_spec fallback :
  match chooseDestination st start fallback with
  | Some (d, p) =>
      p = fst (findPath start d st) /\
      (2 <= List.length p)%nat /\ roadCell st d /\
      ((exists c,
          cheapest (destinationCost st start)
                   (destinationCandidates fallback st) c /\
          ensureRoadCell c st = Some d) \/
       ((forall c, In c (destinationCandidates fallback st) ->
                   destinationCost st start c = None) /\
        ensureRoadCell fallback st = Some d))
  | None =>
      (forall c, In c (destinationCandidates fallback st) ->
                 destinationCost st start c = None) /\
      destinationCost st start fallback = None
  end.
Proof.
  unfold chooseDestination.
  pose proof (choose_fold (destinationCandidates fallback st) []
                (None, None, None)) as H.
  simpl app in H.
  assert (H0 : kept [] (None, None, None))
    by (split; [reflexivity | intros c []]).
  specialize (H H0). clear H0.
  destruct (fold_left _ _ _) as [[bd bp] bc]. unfold kept in H.
  assert (Fallback :
            (forall c, In c (destinationCandidates fallback st) ->
                       destinationCost st start c = None) ->
            match
              match ensureRoadCell fallback st with
              | Some fallbackCell =>
                  let fallbackPath := searched st start fallbackCell in
                  if Z.of_nat (List.length fallbackPath) <? 2 then None
                  else Some (fallbackCell, fallbackPath)
              | None => None
              end
            with
            | Some (d, p) =>
                p = fst (findPath start d st) /\
                (2 <= List.length p)%nat /\ roadCell st d /\
                ((exists c,
                    cheapest (destinationCost st start)
                             (destinationCandidates fallback st) c /\
                    ensureRoadCell c st = Some d) \/
                 ((forall c, In c (destinationCandidates fallback st) ->
                             destinationCost st start c = None) /\
                  ensureRoadCell fallback st = Some d))
            | None =>
                (forall c, In c (destinationCandidates fallback st) ->
                           destinationCost st start c = None) /\
                destinationCost st start fallback = None
            end).
  { intros Hno. rewrite (cost_searched st start fallback Hst).
    destruct (ensureRoadCell fallback st) as [fc |] eqn:Ef; [| auto].
    cbv zeta.
    destruct (Z.of_nat (List.length (searched st start fc)) <? 2) eqn:El;
      [auto |].
    apply Z.ltb_ge in El.
    split; [now rewrite CoherenceFacts.findPath_value |].
    split; [lia |]. split; [eapply ensure_sound; eauto |].
    right. auto. }
  destruct bd as [d |], bp as [p |]; try contradiction.
  - destruct H as (Hb & Hp & c0 & Hc0 & He0).
    split; [now rewrite CoherenceFacts.findPath_value |].
    split; [| split; [eapply ensure_sound; eauto | left; eauto]].
    destruct Hc0 as (_ & k & Hk & _).
    rewrite (cost_searched st start c0 Hst), He0, <- Hp in Hk.
    destruct (Z.of_nat (List.length p) <? 2) eqn:El; [discriminate |].
    apply Z.ltb_ge in El. lia.
  - apply Fallback. apply H.
Qed.
End Choice.
End DestinationLemmas.

(* ================================================================= *)
(** ** Rerouting the cars *)

Module RerouteLemmas.

Lemma nth_mid {A : Type} (P : list A) a F :
  nth_error (P ++ a :: F) (List.length P) = Some a.
Proof. induction P as [| b P IH]; simpl; auto. Qed.

Lemma firstn_mid {A : Type} (P : list A) a F :
  firstn (List.length P) (P ++ a :: F) = P.
Proof. induction P as [| b P IH]; simpl; [reflexivity | now rewrite IH]. Qed.

Lemma skipn_mid {A : Type} (P : list A) a F :
  skipn (S (List.length P)) (P ++ a :: F) = F.
Proof. induction P as [| b P IH]; simpl; auto. Qed.

Lemma listSet_mid {A : Type} (P : list A) a a' F :
  listSet (List.length P) a' (P ++ a :: F) = P ++ a' :: F.
Proof. induction P as [| b P IH]; simpl; [reflexivity | now rewrite IH]. Qed.

Lemma split_at {A : Type} (l : list A) : forall i a,
  nth_error l i = Some a ->
  firstn (S i) l = firstn i l ++ [a] /\
  skipn i l = a :: skipn (S i) l /\
  List.length (firstn i l) = i.
Proof.
  induction l as [| b r IH]; intros i a H; [now destruct i |].
  destruct i as [| i]; simpl in H.
  - injection H as ->. auto.
  - destruct (IH i a H) as (E1 & E2 & E3).
    change (firstn (S (S i)) (b :: r)) with (b :: firstn (S i) r).
    change (firstn (S i) (b :: r)) with (b :: firstn i r).
    change (skipn (S i) (b :: r)) with (skipn i r).
    change (skipn (S (S i)) (b :: r)) with (skipn (S i) r).
    rewrite E1. simpl. rewrite E3. auto.
Qed.

Lemma backdrop_routing st st' :
  backdrop st' = backdrop st -> routing st' = routing st.
Proof.
  intros E. change (routing (backdrop st') = routing (backdrop st)).
  now rewrite E.
Qed.

Lemma backdrop_cache c st : backdrop (with_pathCache c st) = backdrop st.
Proof. reflexivity. Qed.

Lemma stage_cache c st : stage (with_pathCache c st) = stage st.
Proof. reflexivity. Qed.

Lemma removeCarAt_mid (P : list Car) car F st :
  cars st = P ++ car :: F ->
  removeCarAt (Z.of_nat (List.length P)) st
  = Some (refreshHud true
            (destroySprite (Car.sprite car) (with_cars (P ++ F) st))).
Proof.
  intros E. unfold removeCarAt. cbv zeta.
  assert (Es : Z.to_nat (spliceStart (Z.of_nat (List.length P))
                           (Z.of_nat (List.length (cars st))))
               = List.length P).
  { unfold spliceStart. rewrite E, length_app. simpl List.length.
    destruct (Z.of_nat (List.length P) <? 0) eqn:E0;
      [apply Z.ltb_lt in E0; lia | lia]. }
  rewrite Es, E, nth_mid, firstn_mid, skipn_mid. reflexivity.
Qed.

Section Loop.
Variable normalize : Vector2 -> Vector2.
Variable st : GameScene.
Hypothesis Hst : coherent st.

Let inv (n : nat) (s : GameScene) : Prop :=
  coherent s /\ staged s /\ backdrop s = backdrop st /\
  cars s
  = firstn n (cars st)
    ++ filterMap (rerouted normalize st) (skipn n (cars st)).

Lemma removed_inv (P : list Car) car F s :
  coherent s -> staged s -> backdrop s = backdrop st ->
  cars s = P ++ car :: F ->
  exists s1,
    removeCarAt (Z.of_nat (List.length P)) s = Some s1 /\
    coherent s1 /\ staged s1 /\ backdrop s1 = backdrop st /\
    cars s1 = P ++ F.
Proof.
  intros Hs Hg Hb Ec.
  pose proof (removeCarAt_mid P car F s Ec) as E.
  eexists. split; [exact E |]. split; [| split; [| split]].
  - eapply CoherenceFacts.coherent_view;
      [eapply CoherenceFacts.view_removeCarAt; exact E | exact Hs].
  - eapply StageFacts.staged_removeCarAt; [exact E | exact Hg].
  - rewrite <- Hb. now destruct s.
  - reflexivity.
Qed.

Lemma refresh_step i s car :
  nth_error (cars st) i = Some car ->
  inv (S i) s ->
  exists s1, refreshCarAt normalize i s = Some s1 /\ inv i s1.
Proof.
  intros Hn (Hs & Hg & Hb & Ec).
  destruct (split_at (cars st) i car Hn) as (E1 & E2 & E3).
  set (P := firstn i (cars st)) in *.
  set (F := filterMap (rerouted normalize st) (skipn (S i) (cars st)))
    in *.
  rewrite E1, <- app_assoc in Ec. simpl app in Ec.
  assert (Target : forall o,
             rerouted normalize st car = o ->
             firstn i (cars st)
             ++ filterMap (rerouted normalize st) (skipn i (cars st))
             = P ++ match o with Some c' => c' :: F | None => F end).
  { intros o Eo. fold P. rewrite E2. simpl. rewrite Eo.
    now destruct o. }
  pose proof (backdrop_routing st s Hb) as Hr.
  unfold refreshCarAt. rewrite Ec.
  replace (nth_error (P ++ car :: F) i) with (Some car)
    by (rewrite <- E3; symmetry; apply nth_mid).
  assert (Eg : grid s = grid st)
    by (unfold routing in Hr; now injection Hr).
  rewrite (DestinationLemmas.nearest_grid st s _ _ Eg).
  destruct (findNearestRoadCell (Car.position car) defaultMaxRadius st)
    as [a |] eqn:Ea.
  2: { destruct (removed_inv P car F s Hs Hg Hb Ec)
         as (s1 & E & Hs1 & Hg1 & Hb1 & Ec1).
       rewrite E3 in E. exists s1. split; [exact E |].
       split; [exact Hs1 |]. split; [exact Hg1 |]. split; [exact Hb1 |].
       rewrite Ec1. symmetry. apply (Target None).
       unfold rerouted. now rewrite Ea. }
  destruct (DestinationLemmas.select_pure a (Car.destination car) s Hs)
    as (s' & Esel & Hs' & Es').
  rewrite Esel.
  rewrite (DestinationLemmas.choose_routing st s _ _ Hr).
  assert (Hg' : staged s').
  { eapply StageFacts.staged_of_stage; [| exact Hg].
    rewrite Es'. apply stage_cache. }
  assert (Hb' : backdrop s' = backdrop st).
  { rewrite Es', backdrop_cache. exact Hb. }
  assert (Ec' : cars s' = P ++ car :: F) by (rewrite Es'; exact Ec).
  destruct (chooseDestination st a (Car.destination car))
    as [[d p] |] eqn:Ech.
  2: { destruct (removed_inv P car F s' Hs' Hg' Hb' Ec')
         as (s1 & E & Hs1 & Hg1 & Hb1 & Ec1).
       rewrite E3 in E. exists s1. split; [exact E |].
       split; [exact Hs1 |]. split; [exact Hg1 |]. split; [exact Hb1 |].
       rewrite Ec1. symmetry. apply (Target None).
       unfold rerouted. now rewrite Ea, Ech. }
  assert (Eo : rerouted normalize st car
               = Some (rerouteCar normalize car d p))
    by (unfold rerouted; now rewrite Ea, Ech).
  eexists. split; [reflexivity |].
  rewrite Ec'.
  replace (listSet i (rerouteCar normalize car d p) (P ++ car :: F))
    with (P ++ rerouteCar normalize car d p :: F)
    by (rewrite <- E3; symmetry; apply listSet_mid).
  split; [| split; [| split]].
  - eapply CoherenceFacts.coherent_view; [| exact Hs']. reflexivity.
  - destruct Hg' as (G1 & G2 & G3). unfold staged.
    change (sprites (with_cars _ s')) with (sprites s').
    change (nextSprite (with_cars _ s')) with (nextSprite s').
    change (cars (with_cars (P ++ rerouteCar normalize car d p :: F) s'))
      with (P ++ rerouteCar normalize car d p :: F).
    split; [| split; assumption].
    rewrite G1, Ec', !map_app. reflexivity.
  - rewrite <- Hb'. now destruct s'.
  - change (cars (with_cars (P ++ rerouteCar normalize car d p :: F) s'))
      with (P ++ rerouteCar normalize car d p :: F).
    symmetry. exact (Target _ Eo).
Qed.

Lemma refresh_loop (n : nat) : forall s,
  (n <= List.length (cars st))%nat -> inv n s ->
  exists s', refreshLoop normalize n s = Some s' /\ inv 0 s'.
Proof.
  induction n as [| i IH]; intros s Hn H.
  - exists s. auto.
  - destruct (nth_error (cars st) i) as [car |] eqn:Ec;
      [| apply nth_error_None in Ec; lia].
    destruct (refresh_step i s car Ec H) as (s1 & E1 & H1).
    simpl. rewrite E1. apply IH; [lia | exact H1].
Qed.

Lemma refresh_all :
  staged st ->
  exists st',
    refreshCarPaths normalize st = Some st' /\
    coherent st' /\ staged st' /\ backdrop st' = backdrop st /\
    cars st' = filterMap (rerouted normalize st) (cars st).
Proof.
  intros Hg. unfold refreshCarPaths.
  destruct (Z.of_nat (List.length (cars st)) =? 0) eqn:E0.
  - exists st. split; [reflexivity |].
    apply Z.eqb_eq in E0. destruct (cars st); [| simpl in E0; lia].
    auto.
  - destruct (refresh_loop (List.length (cars st)) st (le_n _))
      as (st' & E & H).
    + split; [exact Hst |]. split; [exact Hg |]. split; [reflexivity |].
      now rewrite firstn_all, skipn_all, app_nil_r.
    + exists st'. split; [exact E |]. exact H.
Qed.

Lemma in_filterMap {A B : Type} (f : A -> option B) (l : list A) b :
  In b (filterMap f l) -> exists a, In a l /\ f a = Some b.
Proof.
  induction l as [| a r IH]; simpl; [intros [] |].
  destruct (f a) as [b' |] eqn:E.
  - intros [<- | H]; [exists a; auto |].
    destruct (IH H) as (a' & Ha & Hf). exists a'. auto.
  - intros H. destruct (IH H) as (a' & Ha & Hf). exists a'. auto.
Qed.

Lemma rerouted_spec car car' :
  rerouted normalize st car = Some car' ->
  exists a,
    findNearestRoadCell (Car.position car) defaultMaxRadius st = Some a /\
    roadCell st a /\ roadCell st (Car.destination car') /\
    Car.gridPath car' = fst (findPath a (Car.destination car') st) /\
    (2 <= List.length (Car.gridPath car'))%nat /\
    Car.path car'
    = Car.position car :: tl (map cellToWorldVector (Car.gridPath car')) /\
    Car.targetIndex car' = 1 /\
    Car.id car' = Car.id car /\ Car.sprite car' = Car.sprite car /\
    Car.position car' = Car.position car /\
    Car.currentSpeed car' = Car.currentSpeed car.
Proof.
  unfold rerouted.
  destruct (findNearestRoadCell (Car.position car) defaultMaxRadius st)
    as [a |] eqn:Ea; [| discriminate].
  pose proof (DestinationLemmas.choose_spec st a Hst (Car.destination car))
    as Hc.
  destruct (chooseDestination st a (Car.destination car)) as [[d p] |];
    [| discriminate].
  intros [= <-]. destruct Hc as (Hp & Hl & Hd & _).
  exists a. split; [reflexivity |].
  split; [exact (SnapFacts.nearest_sound _ _ _ _ Ea) |].
  unfold rerouteCar. cbv zeta.
  cbn [Car.destination Car.gridPath Car.path Car.targetIndex Car.id
       Car.sprite Car.position Car.currentSpeed].
  rewrite CoherenceFacts.copy_id, CoherenceFacts.map_copy_id.
  repeat split; auto.
Qed.
End Loop.
End RerouteLemmas.
(* ================================================================= *)
(** ** From an edit to the new paths *)

Module RefreshTimerLemmas.

Lemma filterMap_same {A B : Type} (f g : A -> option B) (l : list A) :
  (forall a, f a = g a) -> filterMap f l = filterMap g l.
Proof.
  intros H. induction l as [| a r IH]; simpl; [reflexivity |].
  now rewrite H, IH.
Qed.

(** Time steps that are not negative only lower the delay. *)
Lemma left_le (dts : list Q) : forall d,
  Forall (fun t => 0 <= t)%Q dts -> (fold_left Qminus dts d <= d)%Q.
Proof.
  induction dts as [| t r IH]; intros d Hn; simpl.
  - apply Qle_refl.
  - inversion Hn as [| ? ? Ht Hr]; subst.
    apply (Qle_trans _ (d - t)%Q); [now apply IH |].
    apply (Qplus_le_l _ _ t). ring_simplify.
    apply (Qplus_le_r 0 t d) in Ht. ring_simplify in Ht. exact Ht.
Qed.

Lemma with_delay_twice a b st :
  with_carPathRefreshDelay a (with_carPathRefreshDelay b st)
  = with_carPathRefreshDelay a st.
Proof. reflexivity. Qed.

Lemma with_delay_same st :
  with_carPathRefreshDelay (carPathRefreshDelay st) st = st.
Proof. now destruct st. Qed.

Lemma positive_ltb (q : Q) : (0 < q)%Q -> Qltb 0 q = true.
Proof. intros H. now apply AvoidanceFacts.Qltb_iff. Qed.

(** While the delay has not run out the calls only count it down. *)
Lemma ticks_wait nz (dts : list Q) : forall st,
  carPathsDirty st = true ->
  Forall (fun t => 0 <= t)%Q dts ->
  (0 < fold_left Qminus dts (carPathRefreshDelay st))%Q ->
  refreshTicks nz dts st
  = Some (with_carPathRefreshDelay
            (fold_left Qminus dts (carPathRefreshDelay st)) st).
Proof.
  induction dts as [| t r IH]; intros st Hd Hn Hl.
  - simpl. now rewrite with_delay_same.
  - inversion Hn as [| ? ? Ht Hr]; subst.
    cbn [refreshTicks fold_left] in *.
    unfold updateCarPathRefresh. rewrite Hd. simpl negb. cbv iota zeta.
    change (carPathRefreshDelay
              (with_carPathRefreshDelay (carPathRefreshDelay st - t) st))
      with (carPathRefreshDelay st - t)%Q.
    assert (Hp : (0 < carPathRefreshDelay st - t)%Q).
    { eapply Qlt_le_trans; [exact Hl |]. now apply left_le. }
    rewrite (positive_ltb _ Hp).
    rewrite (IH (with_carPathRefreshDelay (carPathRefreshDelay st - t) st));
      [reflexivity | exact Hd | exact Hr | exact Hl].
Qed.
End RefreshTimerLemmas.

(* ================================================================= *)
(** ** Spawning a car *)

Module SpawnLemmas.

Lemma settled_refl st : sound st -> settled st st.
Proof. intros H. split; [exact H | reflexivity]. Qed.

Lemma settled_trans st st1 st2 :
  settled st st1 -> settled st1 st2 -> settled st st2.
Proof. intros [_ E1] [H2 E2]. split; [exact H2 | congruence]. Qed.

(** A scene that differs in what none of the four parts reads. *)
Lemma settled_same st st' :
  searchView st' = searchView st -> placement st' = placement st ->
  cursorView st' = cursorView st -> stage st' = stage st ->
  terrain st' = terrain st ->
  sound st -> settled st st'.
Proof.
  intros E1 E2 E3 E4 E5 (H1 & H2 & H3 & H4).
  split; [| exact E5].
  split; [eapply CoherenceFacts.coherent_view; eauto |].
  split; [eapply PlacementLemmas.placed_placement; eauto |].
  split; [eapply SpawnTurnLemmas.cursorOk_of_view; eauto |].
  eapply StageFacts.staged_of_stage; eauto.
Qed.

Lemma settled_showFlash m d st : sound st -> settled st (showFlash m d st).
Proof. apply settled_same; reflexivity. Qed.

Lemma terrain_findPath a b st : terrain (snd (findPath a b st)) = terrain st.
Proof. rewrite JourneyLemmas.findPath_cache_only. reflexivity. Qed.

Lemma settled_findPath a b st :
  sound st -> settled st (snd (findPath a b st)).
Proof.
  intros (H1 & H2 & H3 & H4). split; [| apply terrain_findPath].
  split; [now apply CoherenceFacts.coherent_findPath |].
  split; [eapply PlacementLemmas.placed_placement;
          [apply PlacementLemmas.placement_findPath | exact H2] |].
  split; [now apply SpawnTurnLemmas.cursorOk_findPath |].
  eapply StageFacts.staged_of_stage; [apply StageFacts.stage_findPath |].
  exact H4.
Qed.

Lemma terrain_createCar nz p c m st :
  terrain (createCar nz p c m st) = terrain st.
Proof.
  unfold createCar. destruct (_ <? 2); [reflexivity |].
  cbv zeta. destruct (map cellToWorldVector _) as [| s [| n r]];
    reflexivity.
Qed.

Lemma settled_createCar nz p c m st :
  sound st -> settled st (createCar nz p c m st).
Proof.
  intros (H1 & H2 & H3 & H4). split; [| apply terrain_createCar].
  split; [eapply CoherenceFacts.coherent_view;
          [apply CoherenceFacts.view_createCar | exact H1] |].
  split; [eapply PlacementLemmas.placed_placement;
          [apply PlacementLemmas.placement_createCar | exact H2] |].
  split; [now apply SpawnTurnLemmas.cursorOk_createCar |].
  now apply StageFacts.staged_createCar.
Qed.

(** [createCar] with a path of two cells at least adds one car. *)
Lemma createCar_adds nz path c m st :
  (2 <= List.length path)%nat ->
  exists car,
    cars (createCar nz path c m st) = cars st ++ [car] /\
    carId (createCar nz path c m st) = carId st + 1 /\
    Car.gridPath car = path /\ Car.id car = carId st + 1.
Proof.
  intros Hl. unfold createCar.
  destruct path as [| a [| b r]]; simpl in Hl; try lia.
  assert (E : (Z.of_nat (List.length (a :: b :: r)) <? 2) = false)
    by (apply Z.ltb_ge; simpl List.length; lia).
  rewrite E. cbv zeta. cbn [map].
  eexists. split; [reflexivity |]. split; [reflexivity |].
  split; [| reflexivity].
  cbn [Car.gridPath].
  change (GridPoint.copy a :: GridPoint.copy b :: map GridPoint.copy r)
    with (map GridPoint.copy (a :: b :: r)).
  apply CoherenceFacts.map_copy_id.
Qed.

Lemma pick_sound randomRoad st :
  sound st ->
  exists start st1,
    pickSpawnStart randomRoad st = Some (start, st1) /\
    settled st st1 /\ fleet st1 = fleet st.
Proof.
  intros Hs. pose proof Hs as (H1 & H2 & H3 & H4).
  destruct (spawnPoints st) as [| e r] eqn:Esp.
  - exists (GridPoint.copy randomRoad), st. split.
    + unfold pickSpawnStart. now rewrite Esp.
    + split; [now apply settled_refl | reflexivity].
  - assert (Hne : spawnPoints st <> []) by (rewrite Esp; discriminate).
    destruct (SpawnTurnLemmas.pickSpawnStart_next randomRoad st H2 H3 Hne)
      as (c & _ & E).
    cbv zeta in E. eexists. eexists. split; [exact E |].
    split; [| reflexivity].
    split; [| reflexivity].
    split; [eapply CoherenceFacts.coherent_view; [| exact H1];
            reflexivity |].
    split; [eapply PlacementLemmas.placed_placement; [| exact H2];
            reflexivity |].
    split; [| eapply StageFacts.staged_of_stage; [| exact H4];
              reflexivity].
    unfold cursorOk. simpl.
    pose proof (SpawnTurnLemmas.order_nonempty st H2 Hne) as Ht.
    pose proof (Z.mod_pos_bound (spawnCursor st + 1)
                  (Z.of_nat (List.length (spawnOrder st))) Ht). lia.
Qed.

Lemma journey_sound starts destinations st :
  sound st ->
  let r := selectBestJourney starts destinations st in
  settled st (snd r) /\ fleet (snd r) = fleet st /\
  forall j, fst r = Some j -> (2 <= List.length (Journey.path j))%nat.
Proof.
  intros Hs. pose proof Hs as (H1 & H2 & H3 & H4).
  pose proof (JourneyLemmas.journey_loops st H1 starts destinations) as H.
  unfold selectBestJourney.
  destruct (fold_left _ starts (None, None, st)) as [[best bestCost] s].
  cbn [fst snd]. destruct H as (Hc & Es & Hbest).
  split; [| split].
  - split; [| rewrite Es; reflexivity].
    split; [exact Hc |].
    split; [eapply PlacementLemmas.placed_placement; [| exact H2];
            rewrite Es; reflexivity |].
    split; [eapply SpawnTurnLemmas.cursorOk_of_view; [| exact H3];
            rewrite Es; reflexivity |].
    eapply StageFacts.staged_of_stage; [| exact H4].
    rewrite Es. reflexivity.
  - rewrite Es. reflexivity.
  - intros j [= ->]. destruct Hbest as (_ & (_ & c & Hc' & _) & Hp).
    unfold journeyCost in Hc'. cbn [fst snd] in Hc'.
    destruct (GridPoint.eqb _ _); [discriminate |].
    rewrite <- Hp in Hc'.
    destruct (Z.of_nat (List.length (Journey.path j)) <? 2) eqn:El;
      [discriminate |].
    apply Z.ltb_ge in El. lia.
Qed.

Lemma created_sound nz path c m st0 st :
  settled st0 st -> (2 <= List.length path)%nat ->
  settled st0 (createCar nz path c m st) /\
  exists car,
    cars (createCar nz path c m st) = cars st ++ [car] /\
    (2 <= List.length (Car.gridPath car))%nat /\
    Car.id car = carId st + 1.
Proof.
  intros Hs Hl. split.
  - eapply settled_trans; [exact Hs |].
    apply settled_createCar. apply Hs.
  - destruct (createCar_adds nz path c m st Hl) as (car & E & _ & Eg & Ei).
    exists car. rewrite Eg. auto.
Qed.

Lemma tries_sound nz (attempts : nat) : forall attempt start d st,
  sound st ->
  let r := tryRandomEnds nz attempts attempt start d st in
  settled st (snd r) /\
  (fst r = false -> fleet (snd r) = fleet st) /\
  (fst r = true ->
   exists car,
     cars (snd r) = cars st ++ [car] /\
     (2 <= List.length (Car.gridPath car))%nat /\
     Car.id car = carId st + 1).
Proof.
  induction attempts as [| n IH]; intros attempt start d st Hs; cbv zeta.
  - simpl. split; [now apply settled_refl |].
    split; [reflexivity | discriminate].
  - simpl tryRandomEnds.
    pose proof (settled_findPath start (Draws.ends d attempt) st Hs) as Hf.
    pose proof (FleetFacts.fleet_findPath start (Draws.ends d attempt) st)
      as Ef.
    destruct (findPath start (Draws.ends d attempt) st) as [path st1].
    cbn [fst snd] in *.
    destruct (Z.of_nat (List.length path) >=? 2) eqn:El.
    + cbn [fst snd].
      assert (Hl : (2 <= List.length path)%nat)
        by (apply Z.geb_le in El; lia).
      destruct (created_sound nz path (Draws.color d)
                  (Draws.maxSpeedDraw d) st st1 Hf Hl)
        as (Hc & car & Ec & Hg & Hi).
      split; [exact Hc |]. split; [discriminate |].
      intros _. exists car. unfold fleet in Ef. injection Ef as Ecars Eid.
      rewrite Ec, Ecars, Hi, Eid. auto.
    + specialize (IH (S attempt) start d st1 (proj1 Hf)). cbv zeta in IH.
      destruct IH as (I1 & I2 & I3).
      split; [eapply settled_trans; eauto |].
      unfold fleet in Ef. injection Ef as Ecars Eid.
      split.
      * intros E. rewrite (I2 E). unfold fleet. congruence.
      * intros E. destruct (I3 E) as (car & Ec & Hg & Hi).
        exists car. rewrite Ec, Ecars, Hi, Eid. auto.
Qed.

Lemma settled_failure message fromAuto sp :
  sound (Spawner.scene sp) ->
  settled (Spawner.scene sp)
          (Spawner.scene (handleSpawnFailure message fromAuto sp)) /\
  fleet (Spawner.scene (handleSpawnFailure message fromAuto sp))
  = fleet (Spawner.scene sp) /\
  Spawner.lastSpawnError (handleSpawnFailure message fromAuto sp)
  = Spawner.lastSpawnError sp /\
  Spawner.spawnInterval (handleSpawnFailure message fromAuto sp)
  = Spawner.spawnInterval sp.
Proof.
  intros Hs. unfold handleSpawnFailure.
  destruct (fromAuto && Spawner.autoSpawn sp); cbv zeta; simpl;
    (split; [now apply settled_showFlash | auto]).
Qed.

(** What a failing exit leaves. *)
Lemma fail_sound error fromAuto suppressFailure sp :
  sound (Spawner.scene sp) ->
  let r := failSpawn error fromAuto suppressFailure sp in
  fst r = false /\
  settled (Spawner.scene sp) (Spawner.scene (snd r)) /\
  fleet (Spawner.scene (snd r)) = fleet (Spawner.scene sp) /\
  Spawner.lastSpawnError (snd r) = Some error /\
  Spawner.spawnInterval (snd r) = Spawner.spawnInterval sp /\
  (suppressFailure = true ->
   Spawner.autoSpawn (snd r) = Spawner.autoSpawn sp /\
   Spawner.spawnTimer (snd r) = Spawner.spawnTimer sp).
Proof.
  intros Hs. unfold failSpawn. cbv zeta. cbn [fst snd].
  split; [reflexivity |].
  destruct suppressFailure; simpl negb; cbv iota.
  - simpl. split; [now apply settled_refl |]. auto.
  - destruct (settled_failure error fromAuto
                (Spawner.with_lastSpawnError (Some error) sp) Hs)
      as (H1 & H2 & H3 & H4).
    split; [exact H1 |]. split; [exact H2 |]. split; [exact H3 |].
    split; [exact H4 |]. discriminate.
Qed.

Lemma spawn_spec nz fromAuto suppressFailure d sp :
  sound (Spawner.scene sp) ->
  exists ok sp',
    spawnCarRandom nz fromAuto suppressFailure d sp = Some (ok, sp') /\
    settled (Spawner.scene sp) (Spawner.scene sp') /\
    Spawner.spawnInterval sp' = Spawner.spawnInterval sp /\
    (suppressFailure = true ->
     Spawner.autoSpawn sp' = Spawner.autoSpawn sp /\
     Spawner.spawnTimer sp' = Spawner.spawnTimer sp) /\
    (ok = false ->
     fleet (Spawner.scene sp') = fleet (Spawner.scene sp) /\
     exists error, Spawner.lastSpawnError sp' = Some error) /\
    (ok = true ->
     Spawner.lastSpawnError sp' = None /\
     exists car,
       cars (Spawner.scene sp') = cars (Spawner.scene sp) ++ [car] /\
       (2 <= List.length (Car.gridPath car))%nat /\
       Car.id car = carId (Spawner.scene sp) + 1) /\
    ((List.length (collectRoadCells (Spawner.scene sp)) < 2)%nat ->
     ok = false).
Proof.
  intros Hs. unfold spawnCarRandom. cbv zeta.
  change (Spawner.scene (Spawner.with_lastSpawnError None sp))
    with (Spawner.scene sp).
  set (sp0 := Spawner.with_lastSpawnError None sp).
  set (st := Spawner.scene sp) in *.
  assert (Failing : forall error sp1,
             settled st (Spawner.scene sp1) ->
             fleet (Spawner.scene sp1) = fleet st ->
             Spawner.spawnInterval sp1 = Spawner.spawnInterval sp ->
             Spawner.autoSpawn sp1 = Spawner.autoSpawn sp ->
             Spawner.spawnTimer sp1 = Spawner.spawnTimer sp ->
             exists ok sp',
               Some (failSpawn error fromAuto suppressFailure sp1)
               = Some (ok, sp') /\
               settled st (Spawner.scene sp') /\
               Spawner.spawnInterval sp' = Spawner.spawnInterval sp /\
               (suppressFailure = true ->
                Spawner.autoSpawn sp' = Spawner.autoSpawn sp /\
                Spawner.spawnTimer sp' = Spawner.spawnTimer sp) /\
               (ok = false ->
                fleet (Spawner.scene sp') = fleet st /\
                exists error, Spawner.lastSpawnError sp' = Some error) /\
               (ok = true ->
                Spawner.lastSpawnError sp' = None /\
                exists car,
                  cars (Spawner.scene sp') = cars st ++ [car] /\
                  (2 <= List.length (Car.gridPath car))%nat /\
                  Car.id car = carId st + 1) /\
               ok = false).
  { intros error sp1 H1 Hf Hi Ha Ht.
    destruct (fail_sound error fromAuto suppressFailure sp1 (proj1 H1))
      as (F1 & F2 & F3 & F4 & F5 & F6).
    cbv zeta in *.
    destruct (failSpawn error fromAuto suppressFailure sp1) as [ok sp'].
    cbn [fst snd] in *. subst ok.
    exists false, sp'. split; [reflexivity |].
    split; [eapply settled_trans; eauto |].
    split; [congruence |].
    split; [intros E; destruct (F6 E); split; congruence |].
    split; [intros _; split; [congruence | eauto] |].
    split; [discriminate | reflexivity]. }
  destruct (Z.of_nat (List.length (collectRoadCells st)) <? 2) eqn:Eroads.
  { destruct (Failing "Draw at least two road tiles to create a journey"%string
                sp0 (settled_refl _ Hs) eq_refl eq_refl eq_refl eq_refl)
      as (ok & sp' & E & H1 & H2 & H3 & H4 & H5 & H6).
    exists ok, sp'. repeat (split; [assumption |]). intros _. exact H6. }
  apply Z.ltb_ge in Eroads.
  destruct (pick_sound (Draws.randomRoad d) st Hs)
    as (start & st1 & Epick & Hs1 & Ef1).
  rewrite Epick.
  set (sp1 := Spawner.with_scene st1 sp0).
  set (destinationCandidates :=
         if JsMap.size (destinationPoints st1) >? 0
         then JsMap.values (destinationPoints st1)
         else collectRoadCells st).
  set (filteredDestinations := filter _ destinationCandidates).
  set (effectiveDestinations :=
         if Z.of_nat (List.length filteredDestinations) >? 0
         then filteredDestinations else destinationCandidates).
  destruct (Z.of_nat (List.length effectiveDestinations) =? 0).
  { destruct (Failing "No valid destination point is available"%string sp1
                Hs1 Ef1 eq_refl eq_refl eq_refl)
      as (ok & sp' & E & H1 & H2 & H3 & H4 & H5 & H6).
    exists ok, sp'. repeat (split; [assumption |]). intros; lia. }
  set (pool := if JsMap.size (destinationPoints st1) >? 0
               then effectiveDestinations else _).
  destruct (Z.of_nat (List.length pool) =? 0).
  { destruct (Failing "No valid destination point is available"%string sp1
                Hs1 Ef1 eq_refl eq_refl eq_refl)
      as (ok & sp' & E & H1 & H2 & H3 & H4 & H5 & H6).
    exists ok, sp'. repeat (split; [assumption |]). intros; lia. }
  destruct (journey_sound [start] pool st1 (proj1 Hs1)) as (J1 & J2 & J3).
  destruct (selectBestJourney [start] pool st1) as [best st2].
  cbn [fst snd] in *.
  assert (Hs2 : settled st st2) by (eapply settled_trans; eauto).
  assert (Ef2 : fleet st2 = fleet st) by congruence.
  destruct best as [journey |].
  - destruct (created_sound nz (Journey.path journey) (Draws.color d)
                (Draws.maxSpeedDraw d) st st2 Hs2 (J3 _ eq_refl))
      as (Hc & car & Ec & Hg & Hi).
    eexists. eexists. split; [reflexivity |].
    cbn [Spawner.scene Spawner.with_scene Spawner.spawnInterval
         Spawner.autoSpawn Spawner.spawnTimer Spawner.lastSpawnError
         Spawner.with_lastSpawnError].
    split; [exact Hc |]. split; [reflexivity |].
    split; [auto |]. split; [discriminate |].
    split; [| intros; lia].
    intros _. split; [reflexivity |]. exists car.
    unfold fleet in Ef2. injection Ef2 as Ecars Eid.
    rewrite Ec, Ecars, Hi, Eid. auto.
  - destruct (tries_sound nz
                (Z.to_nat
                   (Z.min 30 (Z.of_nat (List.length effectiveDestinations))))
                0 start d st2 (proj1 Hs2)) as (T1 & T2 & T3).
    destruct (tryRandomEnds nz _ 0 start d st2) as [created st3].
    cbn [fst snd] in *.
    assert (Hs3 : settled st st3) by (eapply settled_trans; eauto).
    destruct created.
    + destruct (T3 eq_refl) as (car & Ec & Hg & Hi).
      eexists. eexists. split; [reflexivity |].
      cbn [Spawner.scene Spawner.with_scene Spawner.spawnInterval
           Spawner.autoSpawn Spawner.spawnTimer Spawner.lastSpawnError
           Spawner.with_lastSpawnError].
      split; [exact Hs3 |]. split; [reflexivity |].
      split; [auto |]. split; [discriminate |].
      split; [| intros; lia].
      intros _. split; [reflexivity |]. exists car.
      unfold fleet in Ef2. injection Ef2 as Ecars Eid.
      rewrite Ec, Ecars, Hi, Eid. auto.
    + assert (Ef3 : fleet st3 = fleet st)
        by (rewrite (T2 eq_refl); exact Ef2).
      destruct (Failing "No path found between the selected points"%string
                  (Spawner.with_scene st3 sp1) Hs3 Ef3
                  eq_refl eq_refl eq_refl)
        as (ok & sp' & E & H1 & H2 & H3 & H4 & H5 & H6).
      exists ok, sp'. repeat (split; [assumption |]). intros; lia.
Qed.
End SpawnLemmas.

(* ================================================================= *)
(** ** The automatic spawn *)

Module AutoSpawnLemmas.

Lemma auto_loop nz draws (attempts : nat) : forall i spawned sp,
  sound (Spawner.scene sp) ->
  exists spawned' sp' new,
    autoSpawnLoop nz attempts i draws spawned sp = Some (spawned', sp') /\
    settled (Spawner.scene sp) (Spawner.scene sp') /\
    Spawner.spawnInterval sp' = Spawner.spawnInterval sp /\
    Spawner.autoSpawn sp' = Spawner.autoSpawn sp /\
    Spawner.spawnTimer sp' = Spawner.spawnTimer sp /\
    cars (Spawner.scene sp') = cars (Spawner.scene sp) ++ new /\
    (List.length new <= attempts)%nat /\
    Forall (fun car => (2 <= List.length (Car.gridPath car))%nat) new /\
    (spawned' = true <-> spawned = true \/ new <> []).
Proof.
  induction attempts as [| n IH]; intros i spawned sp Hs.
  - exists spawned, sp, []. simpl. split; [reflexivity |].
    split; [now apply SpawnLemmas.settled_refl |].
    rewrite app_nil_r. repeat split; auto.
    intros [H | H]; [exact H | now elim H].
  - cbn [autoSpawnLoop].
    destruct (SpawnLemmas.spawn_spec nz true true (draws i) sp Hs)
      as (ok & sp1 & E & Hs1 & Hi & Ha & Hf & Hok & _).
    rewrite E. destruct (Ha eq_refl) as [Ha1 Ha2].
    destruct (IH (S i) (if ok then true else spawned) sp1 (proj1 Hs1))
      as (spawned' & sp' & new & El & Hs' & Hi' & Ha' & Ht' & Ec & Hl
          & Hg & Hsp).
    destruct ok.
    + destruct (Hok eq_refl) as (_ & car & Ec1 & Hg1 & _).
      exists spawned', sp', (car :: new). split; [exact El |].
      split; [eapply SpawnLemmas.settled_trans; eauto |].
      split; [congruence |]. split; [congruence |]. split; [congruence |].
      split; [rewrite Ec, Ec1, <- app_assoc; reflexivity |].
      split; [simpl; lia |]. split; [now constructor |].
      split; [intros _; right; discriminate |].
      intros _. apply Hsp. now left.
    + destruct (Hf eq_refl) as (Efl & _).
      unfold fleet in Efl. injection Efl as Ecars _.
      exists spawned', sp', new. split; [exact El |].
      split; [eapply SpawnLemmas.settled_trans; eauto |].
      split; [congruence |]. split; [congruence |]. split; [congruence |].
      split; [rewrite Ec, Ecars; reflexivity |].
      split; [lia |]. split; [exact Hg | exact Hsp].
Qed.

(** One call, on a sound scene. *)
Lemma round_spec (normalize : Vector2 -> Vector2) (dt : Q)
  (draws : nat -> Draws) (sp : Spawner) :
  sound (Spawner.scene sp) ->
  exists sp' new,
    handleAutoSpawn normalize dt draws sp = Some sp' /\
    sound (Spawner.scene sp') /\
    terrain (Spawner.scene sp') = terrain (Spawner.scene sp) /\
    cars (Spawner.scene sp') = cars (Spawner.scene sp) ++ new /\
    Forall (fun car => (2 <= List.length (Car.gridPath car))%nat) new /\
    (Z.of_nat (List.length new)
     <= Z.max 1 (JsMap.size (spawnPoints (Spawner.scene sp)))) /\
    (Spawner.autoSpawn sp = false \/ (Spawner.spawnInterval sp <= 0)%Q ->
     sp' = sp) /\
    (Spawner.autoSpawn sp = true ->
     (0 < Spawner.spawnInterval sp)%Q ->
     (Spawner.spawnTimer sp + dt < Spawner.spawnInterval sp)%Q ->
     sp' = Spawner.with_spawnTimer (Spawner.spawnTimer sp + dt)%Q sp) /\
    (Spawner.autoSpawn sp = true ->
     (0 < Spawner.spawnInterval sp)%Q ->
     (Spawner.spawnInterval sp <= Spawner.spawnTimer sp + dt)%Q ->
     Spawner.spawnTimer sp' = 0%Q /\
     (new <> [] -> Spawner.autoSpawn sp' = true) /\
     (new = [] -> Spawner.autoSpawn sp' = false)).
Proof.
  intros Hs.
  unfold handleAutoSpawn.
  destruct (Spawner.autoSpawn sp) eqn:Ea; simpl negb; cbv iota.
  2: { exists sp, []. rewrite app_nil_r. split; [reflexivity |].
       split; [exact Hs |].
       split; [reflexivity |]. split; [reflexivity |].
       split; [constructor |].
       split; [simpl; unfold JsMap.size; lia |].
       split; [reflexivity |].
       split; [discriminate | discriminate]. }
  destruct (Qle_bool (Spawner.spawnInterval sp) 0) eqn:Ei.
  { apply Qle_bool_iff in Ei.
    exists sp, []. rewrite app_nil_r. split; [reflexivity |].
       split; [exact Hs |].
    split; [reflexivity |]. split; [reflexivity |].
    split; [constructor |].
    split; [simpl; unfold JsMap.size; lia |].
    split; [reflexivity |].
    split; intros _ Hp; exfalso; exact (Qlt_not_le _ _ Hp Ei). }
  assert (Hpos : (0 < Spawner.spawnInterval sp)%Q).
  { apply Qnot_le_lt. intros H. apply Qle_bool_iff in H. congruence. }
  cbv zeta.
  cbn [Spawner.spawnTimer Spawner.spawnInterval Spawner.with_spawnTimer
       Spawner.scene].
  destruct (Qltb (Spawner.spawnTimer sp + dt) (Spawner.spawnInterval sp))
    eqn:Et.
  { apply AvoidanceFacts.Qltb_iff in Et.
    eexists. exists []. rewrite app_nil_r. split; [reflexivity |].
    cbn [Spawner.scene Spawner.with_spawnTimer].
    split; [exact Hs |].
    split; [reflexivity |]. split; [reflexivity |].
    split; [constructor |].
    split; [simpl; unfold JsMap.size; lia |].
    split; [intros [H | H];
            [discriminate | exfalso; exact (Qlt_not_le _ _ Hpos H)] |].
    split; [reflexivity |].
    intros _ _ H. exfalso. exact (Qlt_not_le _ _ Et H). }
  assert (Hge : ~ (Spawner.spawnTimer sp + dt < Spawner.spawnInterval sp)%Q).
  { intros H. apply AvoidanceFacts.Qltb_iff in H. congruence. }
  set (sp2 := Spawner.with_spawnTimer 0
                (Spawner.with_spawnTimer (Spawner.spawnTimer sp + dt) sp)).
  set (attempts := Z.max 1 (JsMap.size (spawnPoints (Spawner.scene sp)))).
  destruct (auto_loop normalize draws (Z.to_nat attempts) 0 false sp2 Hs)
    as (spawned & sp3 & new & El & [Hs3 Ht3] & Hi3 & Ha3 & Htm3 & Ec & Hl
        & Hg & Hsp).
  rewrite El. clear El. unfold sp2 in *. clear sp2.
  cbn [Spawner.scene Spawner.with_spawnTimer Spawner.autoSpawn
       Spawner.spawnTimer Spawner.spawnInterval] in *.
  assert (Hcount : Z.of_nat (List.length new) <= attempts)
    by (unfold attempts in *; lia).
  destruct spawned; simpl negb; cbv iota.
  - assert (Hne : new <> [])
      by (destruct (proj1 Hsp eq_refl) as [H | H];
          [discriminate | exact H]).
    exists sp3, new. split; [reflexivity |].
    split; [exact Hs3 |].
    split; [exact Ht3 |]. split; [exact Ec |]. split; [exact Hg |].
    split; [exact Hcount |].
    split; [intros [H | H];
            [discriminate | exfalso; exact (Qlt_not_le _ _ Hpos H)] |].
    split; [intros _ _ H; contradiction |].
    intros _ _ _. split; [exact Htm3 |].
    split; [intros _; congruence | intros H; contradiction].
  - assert (Hnil : new = []).
    { destruct new as [| c r]; [reflexivity |].
      assert (false = true) by (apply Hsp; right; discriminate).
      discriminate. }
    cbv zeta.
    set (reason := match Spawner.lastSpawnError sp3 with
                   | Some error => error
                   | None => _
                   end).
    exists (handleSpawnFailure reason true sp3), new.
    split; [reflexivity |].
    destruct (SpawnLemmas.settled_failure reason true sp3 (proj1 (conj Hs3 Ht3)))
      as ([F0 F1] & F2 & _).
    split; [exact F0 |].
    split; [congruence |].
    split; [unfold fleet in F2; injection F2 as F2 _; congruence |].
    split; [exact Hg |]. split; [exact Hcount |].
    split; [intros [H | H];
            [discriminate | exfalso; exact (Qlt_not_le _ _ Hpos H)] |].
    split; [intros _ _ H; contradiction |].
    intros _ _ _. unfold handleSpawnFailure. rewrite Ha3, Ea. simpl.
    split; [reflexivity |].
    split; [intros H; contradiction | reflexivity].
Qed.
End AutoSpawnLemmas.

(* ================================================================= *)
(** ** Toggling points *)

Module ToggleLemmas.

Lemma spawnPoints_toggleSpawn cell st :
  isRoad st (GridPoint.x cell) (GridPoint.y cell) = true ->
  spawnPoints (toggleSpawn cell st)
  = if JsMap.has (cellKey (GridPoint.x cell) (GridPoint.y cell))
                 (spawnPoints st)
    then JsMap.delete (cellKey (GridPoint.x cell) (GridPoint.y cell))
                      (spawnPoints st)
    else JsMap.set (cellKey (GridPoint.x cell) (GridPoint.y cell))
                   (GridPoint.copy cell) (spawnPoints st).
Proof.
  intros Hr. unfold toggleSpawn. rewrite Hr. simpl negb. cbv iota zeta.
  destruct (JsMap.has _ _); reflexivity.
Qed.

Lemma destinationPoints_toggleDestination cell st :
  isRoad st (GridPoint.x cell) (GridPoint.y cell) = true ->
  destinationPoints (toggleDestination cell st)
  = if JsMap.has (cellKey (GridPoint.x cell) (GridPoint.y cell))
                 (destinationPoints st)
    then JsMap.delete (cellKey (GridPoint.x cell) (GridPoint.y cell))
                      (destinationPoints st)
    else JsMap.set (cellKey (GridPoint.x cell) (GridPoint.y cell))
                   (GridPoint.copy cell) (destinationPoints st).
Proof.
  intros Hr. unfold toggleDestination. rewrite Hr. simpl negb.
  cbv iota zeta. destruct (JsMap.has _ _); reflexivity.
Qed.

Lemma isRoad_matrices st st' x y :
  matrices st' = matrices st -> isRoad st' x y = isRoad st x y.
Proof.
  unfold matrices. intros [= Eg _].
  now apply DestinationLemmas.isRoad_grid.
Qed.

(** Flipping the entry of a key twice, when the entry it has, if any, is
    [v]. *)
Lemma flip_twice (key : string) (v : GridPoint) (m : JsMap.t GridPoint) :
  (forall c, JsMap.get key m = Some c -> c = v) ->
  let flip m :=
    if JsMap.has key m then JsMap.delete key m else JsMap.set key v m in
  forall k, JsMap.get k (flip (flip m)) = JsMap.get k m.
Proof.
  intros Hv flip k. unfold flip, JsMap.has. cbv beta.
  destruct (JsMap.get key m) as [c |] eqn:Eg; cbv beta iota.
  - rewrite CacheBoundFacts.get_delete_same.
    destruct (String.eqb_spec k key) as [-> | Hne].
    + rewrite SpatialFacts.get_set_same, Eg. f_equal. symmetry.
      now apply Hv.
    + rewrite CacheBoundFacts.get_set_other by exact Hne.
      apply RefCacheFacts.get_delete_other. congruence.
  - rewrite SpatialFacts.get_set_same.
    destruct (String.eqb_spec k key) as [-> | Hne].
    + now rewrite CacheBoundFacts.get_delete_same.
    + rewrite RefCacheFacts.get_delete_other by congruence.
      now apply CacheBoundFacts.get_set_other.
Qed.

Lemma stored_is_cell st (points : JsMap.t GridPoint) cell c :
  onRoads st points ->
  JsMap.get (cellKey (GridPoint.x cell) (GridPoint.y cell)) points = Some c ->
  c = GridPoint.copy cell.
Proof.
  intros Ho Hg. apply JsMapFacts.get_in in Hg.
  destruct (Ho _ _ Hg) as [Ek _].
  apply KeyFacts.cellKey_inj in Ek. destruct Ek as [Ex Ey].
  destruct c, cell. simpl in *. unfold GridPoint.copy. simpl. congruence.
Qed.
End ToggleLemmas.

(* ================================================================= *)
(** ** Resetting the map *)

Module ResetLemmas.
Import GridFacts.

Local Opaque gridWidth gridHeight range.

Lemma layout_setRoadValue s s' x y v :
  layout s = layout s' ->
  layout (fst (setRoadValue x y v s))
  = layout (fst (setRoadValue x y v s')).
Proof.
  destruct s, s'. unfold layout. cbn [grid walkMatrix roadCount spawnPoints
    destinationPoints spawnOrder spawnCursor].
  intros [= -> -> -> -> -> -> ->].
  unfold setRoadValue.
  cbn [grid walkMatrix roadCount spawnPoints destinationPoints spawnOrder
       spawnCursor].
  destruct (negb (isInside x y)); [reflexivity |].
  destruct (match matrixGet _ x y with
            | Some p => p =? v
            | None => false
            end); [reflexivity |].
  cbv zeta. destruct (v =? 1); [reflexivity |].
  simpl JsMap.has.
  destruct (JsMap.has (cellKey x y) _); reflexivity.
Qed.

Lemma layout_fold {A : Type} (f : GameScene -> A -> GameScene)
  (l : list A) :
  (forall s s' a, layout s = layout s' -> layout (f s a) = layout (f s' a)) ->
  forall s s', layout s = layout s' ->
               layout (fold_left f l s) = layout (fold_left f l s').
Proof.
  intros Hf. induction l as [| a r IH]; intros s s' H; simpl; auto.
Qed.

Lemma layout_registered k1 v1 k2 v2 k3 v3 k4 v4 s s' :
  layout s = layout s' ->
  layout (rebuildSpawnOrder
            (with_destinationPoints
               (JsMap.set k4 v4 (JsMap.set k3 v3 (destinationPoints s)))
               (with_spawnPoints
                  (JsMap.set k2 v2 (JsMap.set k1 v1 (spawnPoints s))) s)))
  = layout (rebuildSpawnOrder
              (with_destinationPoints
                 (JsMap.set k4 v4 (JsMap.set k3 v3 (destinationPoints s')))
                 (with_spawnPoints
                    (JsMap.set k2 v2 (JsMap.set k1 v1 (spawnPoints s')))
                    s'))).
Proof.
  destruct s, s'. unfold layout. cbn [grid walkMatrix roadCount spawnPoints
    destinationPoints spawnOrder spawnCursor].
  intros [= -> -> -> -> -> -> ->]. reflexivity.
Qed.

Lemma layout_seedSimpleRoads s s' :
  layout s = layout s' ->
  layout (seedSimpleRoads s) = layout (seedSimpleRoads s').
Proof.
  intros H. unfold seedSimpleRoads. cbv zeta.
  apply layout_registered.
  repeat (apply layout_fold;
          [intros; cbv beta; repeat apply layout_setRoadValue;
           assumption |]).
  exact H.
Qed.

Lemma layout_redraw m d st :
  layout (showFlash m d (forceRedraw st)) = layout st.
Proof. reflexivity. Qed.

Lemma layout_forceRedraw st : layout (forceRedraw st) = layout st.
Proof. reflexivity. Qed.

Lemma layout_clearCars st : layout (clearCars st) = layout st.
Proof.
  unfold clearCars. cbv zeta.
  change (layout
            (fold_left (fun s car => destroySprite (Car.sprite car) s)
                       (cars st) st) = layout st).
  generalize (cars st) as l. intros l. revert st.
  induction l as [| a r IH]; intros st; simpl; [reflexivity |].
  now rewrite IH.
Qed.

Lemma layout_reset_tail st :
  layout
    (with_roadCount 0
       (with_pathCache
          (PathCache.clear
             (pathCache
                (with_destinationPoints JsMap.empty
                   (rebuildSpawnOrder (with_spawnPoints JsMap.empty st)))))
          (with_destinationPoints JsMap.empty
             (rebuildSpawnOrder (with_spawnPoints JsMap.empty st)))))
  = (grid st, walkMatrix st, 0, [], [], [], 0).
Proof. reflexivity. Qed.

Lemma layout_started st :
  layout (refreshHud true (initializeGrid st))
  = (repeat (repeat 0 (Z.to_nat gridWidth)) (Z.to_nat gridHeight),
     repeat (repeat 1 (Z.to_nat gridWidth)) (Z.to_nat gridHeight),
     0, spawnPoints st, destinationPoints st, spawnOrder st,
     spawnCursor st).
Proof. reflexivity. Qed.

(** *** Matrices of the size of the grid *)

Lemma rows_equal {A : Type} (l : list A) : forall l',
  List.length l = List.length l' ->
  (forall i, (i < List.length l)%nat -> nth_error l i = nth_error l' i) ->
  l = l'.
Proof.
  induction l as [| a r IH]; intros [| a' r'] Hl H; simpl in Hl;
    try discriminate; [reflexivity |].
  f_equal.
  - specialize (H O ltac:(simpl; lia)). simpl in H. congruence.
  - apply IH; [lia |]. intros i Hi.
    apply (H (S i)). simpl. lia.
Qed.

Lemma matrix_equal (m m' : Matrix) :
  grid_dims m -> grid_dims m' ->
  (forall x y, isInside x y = true -> matrixGet m x y = matrixGet m' x y) ->
  m = m'.
Proof.
  intros [Hh Hw] [Hh' Hw'] H.
  apply rows_equal; [congruence |]. intros j Hj.
  destruct (nth_error m j) as [row |] eqn:Er;
    [| apply nth_error_None in Er; lia].
  destruct (nth_error m' j) as [row' |] eqn:Er';
    [| apply nth_error_None in Er'; lia].
  f_equal.
  assert (Lr : List.length row = Z.to_nat gridWidth).
  { rewrite Forall_forall in Hw. apply Hw. eapply nth_error_In; eauto. }
  assert (Lr' : List.length row' = Z.to_nat gridWidth).
  { rewrite Forall_forall in Hw'. apply Hw'. eapply nth_error_In; eauto. }
  apply rows_equal; [congruence |]. intros i Hi.
  assert (Hin : isInside (Z.of_nat i) (Z.of_nat j) = true)
    by (apply SnapFacts.inside_bounds; lia).
  specialize (H _ _ Hin). unfold matrixGet in H.
  assert (E0 : ((Z.of_nat i <? 0) || (Z.of_nat j <? 0)) = false).
  { apply orb_false_iff. split; apply Z.ltb_ge; lia. }
  rewrite E0, !Nat2Z.id, Er, Er' in H. exact H.
Qed.

Lemma filled_cells v (l : list (Z * Z)) : forall m x y,
  In (y, x) l \/ matrixGet m x y = Some v ->
  (exists w, matrixGet m x y = Some w) ->
  matrixGet (fold_left (fun m p => matrixSet m (snd p) (fst p) v) l m) x y
  = Some v.
Proof.
  induction l as [| p r IH]; intros m x y H (w & Hw); simpl.
  - destruct H as [[] | H]. exact H.
  - destruct (Z.eq_dec (snd p) x) as [Ex | Nx];
      [destruct (Z.eq_dec (fst p) y) as [Ey | Ny] |].
    + subst. apply IH.
      * right. eapply matrixGet_matrixSet_same; eauto.
      * exists v. eapply matrixGet_matrixSet_same; eauto.
    + apply IH.
      * rewrite matrixGet_matrixSet_other by congruence.
        destruct H as [[E | H] | H]; auto.
        subst p. simpl in Ny. congruence.
      * exists w. rewrite matrixGet_matrixSet_other by congruence.
        exact Hw.
    + apply IH.
      * rewrite matrixGet_matrixSet_other by congruence.
        destruct H as [[E | H] | H]; auto.
        subst p. simpl in Nx. congruence.
      * exists w. rewrite matrixGet_matrixSet_other by congruence.
        exact Hw.
Qed.

Lemma dims_filled v (l : list (Z * Z)) : forall m,
  grid_dims m ->
  grid_dims (fold_left (fun m p => matrixSet m (snd p) (fst p) v) l m).
Proof.
  induction l as [| p r IH]; intros m H; simpl; [exact H |].
  apply IH. now apply dims_matrixSet.
Qed.

Lemma filled_is_repeat v (m : Matrix) :
  grid_dims m ->
  fold_left (fun m p => matrixSet m (snd p) (fst p) v) gridCells m
  = repeat (repeat v (Z.to_nat gridWidth)) (Z.to_nat gridHeight).
Proof.
  intros Hd. apply matrix_equal.
  - now apply dims_filled.
  - apply dims_repeat.
  - intros x y Hin. rewrite matrixGet_repeat by exact Hin.
    apply filled_cells.
    + left. now apply RoadCountFacts.in_gridCells.
    + now apply matrixGet_inside.
Qed.

Lemma walk_zeroing (l : list (Z * Z)) : forall st,
  walkMatrix
    (fold_left
       (fun s p =>
          with_walkMatrix (matrixSet (walkMatrix s) (snd p) (fst p) 1)
            (with_grid (matrixSet (grid s) (snd p) (fst p) 0) s))
       l st)
  = fold_left (fun m p => matrixSet m (snd p) (fst p) 1) l (walkMatrix st).
Proof.
  induction l as [| p r IH]; intros st; simpl; [reflexivity |].
  now rewrite IH.
Qed.

Lemma fleet_reset st :
  cars (resetMap st) = [] /\ carId (resetMap st) = 0.
Proof.
  pose proof (FleetFacts.fleet_resetMap st) as E.
  split; [exact (f_equal fst E) | exact (f_equal snd E)].
Qed.
End ResetLemmas.

(* ================================================================= *)
(** ** Moving the cars *)

Module DriveFacts.

Lemma map_listSet {A B : Type} (f : A -> B) (l : list A) : forall i a a',
  nth_error l i = Some a -> f a' = f a ->
  map f (listSet i a' l) = map f l.
Proof.
  induction l as [| b r IH]; intros i a a' Hn Hf; [now destruct i |].
  destruct i as [| i]; simpl in *.
  - injection Hn as ->. now rewrite Hf.
  - f_equal. now apply (IH i a a').
Qed.

Lemma staged_listSet i car car' st :
  nth_error (cars st) i = Some car -> Car.sprite car' = Car.sprite car ->
  staged st -> staged (with_cars (listSet i car' (cars st)) st).
Proof.
  intros Hn Hs (H1 & H2 & H3). unfold staged.
  change (sprites (with_cars _ st)) with (sprites st).
  change (nextSprite (with_cars _ st)) with (nextSprite st).
  change (cars (with_cars (listSet i car' (cars st)) st))
    with (listSet i car' (cars st)).
  split; [| split; assumption].
  rewrite (map_listSet Car.sprite (cars st) i car car' Hn Hs). exact H1.
Qed.

Lemma removeCarAt_backdrop i st st' :
  removeCarAt i st = Some st' ->
  backdrop st' = backdrop st /\ pathCache st' = pathCache st.
Proof.
  unfold removeCarAt. cbv zeta.
  destruct (nth_error _ _) as [car |]; [| discriminate].
  intros [= <-]. split; reflexivity.
Qed.

(** One turn of the loop keeps the containers with the cars and touches
    nothing but the cars. *)
Lemma updateCarAt_frame m i st st' :
  updateCarAt m i st = Some st' -> staged st ->
  staged st' /\ backdrop st' = backdrop st /\ pathCache st' = pathCache st.
Proof.
  unfold updateCarAt. intros E Hg.
  destruct (nth_error (cars st) i) as [car |] eqn:Ec; [| discriminate].
  destruct (Car.targetIndex car >=? _).
  { split; [exact (StageFacts.staged_removeCarAt _ _ _ E Hg) |].
    exact (removeCarAt_backdrop _ _ _ E). }
  destruct (pathAt (Car.targetIndex car) car) as [target |];
    [| discriminate].
  destruct (Motion.close m).
  - cbv zeta in E.
    assert (Hg1 : staged (with_cars
                            (listSet i (arriveAt target car) (cars st)) st))
      by (apply (staged_listSet i car); [exact Ec | reflexivity | exact Hg]).
    destruct (Car.targetIndex (arriveAt target car) >=? _).
    + split; [exact (StageFacts.staged_removeCarAt _ _ _ E Hg1) |].
      destruct (removeCarAt_backdrop _ _ _ E) as [E1 E2].
      rewrite E1, E2. split; reflexivity.
    + injection E as <-. split; [exact Hg1 |]. split; reflexivity.
  - injection E as <-.
    split; [| split; reflexivity].
    apply (staged_listSet i car); [exact Ec | reflexivity | exact Hg].
Qed.

Lemma updateLoop_frame motions (n : nat) : forall st st',
  updateLoop n motions st = Some st' -> staged st ->
  staged st' /\ backdrop st' = backdrop st /\ pathCache st' = pathCache st.
Proof.
  induction n as [| i IH]; intros st st' E Hg; simpl in E.
  - injection E as <-. auto.
  - destruct (updateCarAt (motions i) i st) as [st1 |] eqn:E1;
      [| discriminate].
    destruct (updateCarAt_frame _ _ _ _ E1 Hg) as (Hg1 & Eb1 & Ep1).
    destruct (IH st1 st' E Hg1) as (Hg' & Eb' & Ep').
    split; [exact Hg' |]. split; congruence.
Qed.

Lemma updateCars_frame motions st st' :
  updateCars motions st = Some st' -> staged st ->
  staged st' /\ backdrop st' = backdrop st /\ pathCache st' = pathCache st.
Proof.
  unfold updateCars. destruct (_ =? 0).
  - intros [= <-] Hg. auto.
  - apply updateLoop_frame.
Qed.
End DriveFacts.

(* ================================================================= *)
(** ** What every state of a session keeps *)

Module SessionFacts.

Lemma backdrop_placement st st' :
  backdrop st' = backdrop st -> placement st' = placement st.
Proof.
  intros E. change (placement (backdrop st') = placement (backdrop st)).
  now rewrite E.
Qed.

Lemma backdrop_cursorView st st' :
  backdrop st' = backdrop st -> cursorView st' = cursorView st.
Proof.
  intros E. change (cursorView (backdrop st') = cursorView (backdrop st)).
  now rewrite E.
Qed.

Lemma backdrop_matrices st st' :
  backdrop st' = backdrop st -> matrices st' = matrices st.
Proof.
  intros E. change (matrices (backdrop st') = matrices (backdrop st)).
  now rewrite E.
Qed.

Lemma terrain_matrices st st' :
  terrain st' = terrain st -> matrices st' = matrices st.
Proof. unfold terrain, matrices. intros [= -> -> _ _ _ _]. reflexivity. Qed.

Lemma complement_settled st st' :
  settled st st' -> scene_complement st -> scene_complement st'.
Proof.
  intros [_ E]. apply SceneFacts.complement_of_matrices.
  now apply terrain_matrices.
Qed.

Lemma sound_create : sound (create newGameScene).
Proof.
  split; [apply CoherenceFacts.coherent_create |].
  split; [apply PlacementLemmas.placed_create |].
  split; [apply SpawnTurnLemmas.cursorOk_create |].
  apply StageFacts.staged_create.
Qed.

Lemma sound_step nz o st :
  sessionOp o = true -> sound st -> sound (step nz o st).
Proof.
  intros Ho (H1 & H2 & H3 & H4).
  split; [now apply CoherenceFacts.coherent_step |].
  split; [now apply PlacementLemmas.placed_step |].
  split; [now apply SpawnTurnLemmas.cursorOk_step |].
  now apply StageFacts.staged_step.
Qed.

(** A scene whose cars moved: nothing that the four parts read has
    changed but the cars, which kept their containers. *)
Lemma sound_backdrop st st' :
  backdrop st' = backdrop st -> pathCache st' = pathCache st ->
  staged st' -> sound st -> sound st'.
Proof.
  intros Eb Ep Hg (H1 & H2 & H3 & _).
  split; [| split; [| split; [| exact Hg]]].
  - eapply CoherenceFacts.coherent_view; [| exact H1].
    unfold searchView. rewrite Ep. f_equal.
    pose proof (backdrop_matrices _ _ Eb) as Em. unfold matrices in Em.
    now injection Em.
  - eapply PlacementLemmas.placed_placement; [| exact H2].
    now apply backdrop_placement.
  - eapply SpawnTurnLemmas.cursorOk_of_view; [| exact H3].
    now apply backdrop_cursorView.
Qed.

(** The strokes of the brush are calls of [setRoadValue]. *)
Lemma brush_strokes (P : GameScene -> Prop) value :
  (forall x y s, P s -> P (fst (setRoadValue x y value s))) ->
  forall (cells : list GridPoint) st modified, P st ->
    P (fst (fold_left
              (fun '(s, modified) target =>
                 let '(s1, changed) :=
                   setRoadValue (GridPoint.x target) (GridPoint.y target)
                                value s in
                 (s1, changed || modified))
              cells (st, modified))).
Proof.
  intros Hp. induction cells as [| c r IH]; intros st modified H;
    [exact H |].
  simpl fold_left.
  pose proof (Hp (GridPoint.x c) (GridPoint.y c) st H) as H1.
  destruct (setRoadValue (GridPoint.x c) (GridPoint.y c) value st)
    as [s1 changed].
  apply IH. exact H1.
Qed.

Lemma applyBrush_strokes (P : GameScene -> Prop) cell value tool size
  timer interval st :
  (forall x y s, P s -> P (fst (setRoadValue x y value s))) ->
  P st -> P (fst (applyBrush cell value tool size timer interval st)).
Proof.
  intros Hp H. unfold applyBrush. cbv zeta.
  pose proof (brush_strokes P value Hp
                (getBrushCells (Some cell) tool size) st false H) as Hb.
  destruct (fold_left _ _ _) as [st' modified].
  destruct modified; exact Hb.
Qed.

Lemma safe_finishUpdate dt st :
  sound st -> settled st (finishUpdate dt st).
Proof.
  intros Hs. unfold finishUpdate. cbv zeta.
  destruct (needsRedraw st);
    destruct (Qle_bool _ _); destruct (Qltb _ _);
    try destruct (Qle_bool _ _);
    apply SpawnLemmas.settled_same; try reflexivity; exact Hs.
Qed.

Lemma safe_updateCarPathRefresh nz dt st st' :
  updateCarPathRefresh nz dt st = Some st' ->
  sound st -> scene_complement st ->
  sound st' /\ scene_complement st'.
Proof.
  unfold updateCarPathRefresh. intros E Hs Hc.
  destruct (negb (carPathsDirty st)); [injection E as <-; auto |].
  cbv zeta in E.
  set (st1 := with_carPathRefreshDelay _ st) in E.
  assert (Hs1 : settled st st1)
    by (apply SpawnLemmas.settled_same; try reflexivity; exact Hs).
  destruct (Qltb 0 (carPathRefreshDelay st1)).
  - injection E as <-. split; [exact (proj1 Hs1) |].
    exact (complement_settled _ _ Hs1 Hc).
  - destruct Hs1 as [(H1 & H2 & H3 & H4) _].
    destruct (RerouteLemmas.refresh_all nz st1 H1 H4)
      as (st2 & E2 & Hc2 & Hg2 & Eb & _).
    rewrite E2 in E. injection E as <-.
    assert (Hs2 : sound st2).
    { split; [exact Hc2 |]. split; [| split; [| exact Hg2]].
      - eapply PlacementLemmas.placed_placement; [| exact H2].
        now apply backdrop_placement.
      - eapply SpawnTurnLemmas.cursorOk_of_view; [| exact H3].
        now apply backdrop_cursorView. }
    split.
    + apply (SpawnLemmas.settled_same st2); try reflexivity. exact Hs2.
    + eapply SceneFacts.complement_of_matrices; [| exact Hc].
      change (matrices st2 = matrices st1). now apply backdrop_matrices.
Qed.

Lemma safe_refreshCarPaths nz st st' :
  refreshCarPaths nz st = Some st' ->
  sound st -> scene_complement st ->
  sound st' /\ scene_complement st'.
Proof.
  intros E (H1 & H2 & H3 & H4) Hc.
  destruct (RerouteLemmas.refresh_all nz st H1 H4)
    as (st2 & E2 & Hc2 & Hg2 & Eb & _).
  rewrite E2 in E. injection E as <-.
  split.
  - split; [exact Hc2 |]. split; [| split; [| exact Hg2]].
    + eapply PlacementLemmas.placed_placement; [| exact H2].
      now apply backdrop_placement.
    + eapply SpawnTurnLemmas.cursorOk_of_view; [| exact H3].
      now apply backdrop_cursorView.
  - eapply SceneFacts.complement_of_matrices; [| exact Hc].
    now apply backdrop_matrices.
Qed.

(** Every state of a session is sound, with complementary matrices. *)
Lemma reachable_safe nz st :
  reachable nz st -> sound st /\ scene_complement st.
Proof.
  induction 1 as [| o st Ho _ [Hs Hc] | m d st _ [Hs Hc]
                  | cell value tool size timer interval st _ IH
                  | r picked st st' _ [Hs Hc] E
                  | fromAuto suppress d sp sp' ok _ [Hs Hc] E
                  | dt draws sp sp' _ [Hs Hc] E
                  | st st' _ [Hs Hc] E
                  | dt st st' _ [Hs Hc] E
                  | motions st st' _ [Hs Hc] E
                  | dt st _ [Hs Hc]].
  - split; [apply sound_create | apply CoherenceFacts.complement_create].
  - split; [now apply sound_step | now apply SceneFacts.complement_step].
  - pose proof (SpawnLemmas.settled_showFlash m d st Hs) as H.
    split; [exact (proj1 H) | exact (complement_settled _ _ H Hc)].
  - apply (applyBrush_strokes
             (fun s => sound s /\ scene_complement s)); [| exact IH].
    intros x y s [Hs Hc]. split.
    + exact (sound_step nz (OpSetRoadValue x y value) s eq_refl Hs).
    + exact (SceneFacts.complement_step nz (OpSetRoadValue x y value) s Hc).
  - destruct (SpawnLemmas.pick_sound r st Hs) as (c & st1 & E1 & H & _).
    rewrite E1 in E. injection E as _ <-.
    split; [exact (proj1 H) | exact (complement_settled _ _ H Hc)].
  - destruct (SpawnLemmas.spawn_spec nz fromAuto suppress d sp Hs)
      as (ok1 & sp1 & E1 & H & _).
    rewrite E1 in E. injection E as _ <-.
    split; [exact (proj1 H) | exact (complement_settled _ _ H Hc)].
  - destruct (AutoSpawnLemmas.round_spec nz dt draws sp Hs)
      as (sp1 & new & E1 & H & Et & _).
    rewrite E1 in E. injection E as <-.
    split; [exact H |].
    eapply SceneFacts.complement_of_matrices; [| exact Hc].
    now apply terrain_matrices.
  - exact (safe_refreshCarPaths nz st st' E Hs Hc).
  - exact (safe_updateCarPathRefresh nz dt st st' E Hs Hc).
  - destruct (DriveFacts.updateCars_frame motions st st' E
                (proj2 (proj2 (proj2 Hs)))) as (Hg & Eb & Ep).
    split; [exact (sound_backdrop st st' Eb Ep Hg Hs) |].
    eapply SceneFacts.complement_of_matrices; [| exact Hc].
    now apply backdrop_matrices.
  - pose proof (safe_finishUpdate dt st Hs) as H.
    split; [exact (proj1 H) | exact (complement_settled _ _ H Hc)].
Qed.

Lemma reachable_run nz (ops : list Op) : forall st,
  forallb sessionOp ops = true -> reachable nz st ->
  reachable nz (run nz ops st).
Proof.
  induction ops as [| o r IH]; intros st Hops H; [exact H |].
  simpl in Hops. apply andb_true_iff in Hops. destruct Hops as [Ho Hr].
  apply (IH (step nz o st) Hr). now apply reach_step.
Qed.

Lemma reachable_setRoadValue nz x y v st :
  reachable nz st -> reachable nz (fst (setRoadValue x y v st)).
Proof. apply (reach_step nz (OpSetRoadValue x y v)). reflexivity. Qed.

Lemma reachable_sound nz st : reachable nz st -> sound st.
Proof. intros H. exact (proj1 (reachable_safe nz st H)). Qed.

Lemma reachable_coherent nz st : reachable nz st -> coherent st.
Proof. intros H. exact (proj1 (reachable_sound nz st H)). Qed.

Lemma reachable_complement nz st : reachable nz st -> scene_complement st.
Proof. intros H. exact (proj2 (reachable_safe nz st H)). Qed.

Lemma reachable_aimed nz st : reachable nz st -> placed st /\ cursorOk st.
Proof.
  intros H. destruct (reachable_sound nz st H) as (_ & H2 & H3 & _). auto.
Qed.

Lemma reachable_staged nz st : reachable nz st -> staged st.
Proof.
  intros H. destruct (reachable_sound nz st H) as (_ & _ & _ & H4). auto.
Qed.

(** The scenes of the examples are states of a session. *)
Lemma afterSpawn_reachable : reachable (fun v => v) sceneAfterSpawn.
Proof.
  unfold sceneAfterSpawn.
  destruct (spawnCarRandom (fun v => v) false false sampleDraws
              (spawnerOn (create newGameScene))) as [[ok sp] |] eqn:E;
    [| apply reach_create].
  apply (reach_spawnCarRandom (fun v => v) false false sampleDraws
           (spawnerOn (create newGameScene)) sp ok); [| exact E].
  apply reach_create.
Qed.

Lemma afterDrive_reachable : reachable (fun v => v) sceneAfterDrive.
Proof.
  unfold sceneAfterDrive.
  destruct (updateCars (fun _ => sampleMotion) sceneAfterSpawn)
    as [st |] eqn:E; [| apply afterSpawn_reachable].
  apply (reach_updateCars (fun v => v) (fun _ => sampleMotion)
           sceneAfterSpawn st); [| exact E].
  apply afterSpawn_reachable.
Qed.
End SessionFacts.

(* ================================================================= *)
(** ** Routes in a session *)

Module RouteFacts.
Import GridFacts.
Import RouteLemmas.

(** C1. In every state of a session, for cells [a] and [b]: when a route
    from [a] to [b] along road cells exists, [findPath] returns such a
    route (first cell [a], last cell [b], every cell a road, consecutive
    cells one unit step apart along an axis) and no route from [a] to [b]
    has fewer cells; when none exists it returns fewer than two cells. *)
Theorem findPath_shortest_route (normalize : Vector2 -> Vector2)
  (st : GameScene) (a b : GridPoint) :
  reachable normalize st ->
  let p := fst (findPath a b st) in
  ((exists q, route st a b q) ->
     route st a b p /\
     forall q, route st a b q -> (List.length p <= List.length q)%nat) /\
  (~ (exists q, route st a b q) -> (List.length p < 2)%nat).
Proof.
  intros Hr p.
  pose proof (SessionFacts.reachable_coherent _ _ Hr) as Hcoh.
  pose proof (SessionFacts.reachable_complement _ _ Hr) as Hcomp.
  assert (Ep : p = searched st a b)
    by (apply CoherenceFacts.findPath_value; exact Hcoh).
  assert (Hq2t : forall q, route st a b q ->
            exists r, trail (walkMatrix st) (toCell a) (toCell b :: r) /\
                      List.length q = S (List.length r)).
  { intros q (Hhd & Hlast & Hall & Hch).
    destruct (route_trail st q a Hcomp Hhd Hall Hch) as [Ht (r & Er)].
    rewrite Hlast in Er. rewrite Er in Ht. exists r. split; [exact Ht |].
    rewrite <- (length_map toCell), <- length_rev, Er. reflexivity. }
  pose proof (SearchFacts.findPath_spec (walkMatrix st) (toCell a) (toCell b))
    as Hs.
  cbv zeta in Hs. fold (searched st a b) in Hs.
  unfold searched in Ep. cbn [fst snd toCell] in Hs.
  destruct Hs as [[E Hno] | (r & E & Ht & Hmin)]; rewrite E in Ep.
  - split.
    + intros (q & Hq). exfalso. apply Hno.
      destruct (Hq2t q Hq) as (r & Hr' & _). eauto.
    + intros _. subst p. rewrite Ep. simpl. lia.
  - destruct (trail_route st _ _ Hcomp Ht) as (t & r' & [= <- <-] & Hroute).
    rewrite !toPoint_toCell in Hroute. rewrite <- Ep in Hroute.
    split.
    + intros _. split; [exact Hroute |].
      intros q Hq. destruct (Hq2t q Hq) as (r'' & Hr'' & ->).
      rewrite Ep, length_map, length_rev. simpl.
      specialize (Hmin r'' Hr''). lia.
    + intros Hnone. exfalso. apply Hnone. eauto.
Qed.

(** On the seeded map, from the spawn point (24, 4) to its neighbour
    (24, 5). *)
Lemma findPath_shortest_route_witness :
  let st := create newGameScene in
  let a := GridPoint.mk 24 4 in
  let b := GridPoint.mk 24 5 in
  reachable (fun v => v) st /\
  route st a b (fst (findPath a b st)).
Proof.
  intros st a b.
  assert (Hr : reachable (fun v => v) st) by apply reach_create.
  split; [exact Hr |].
  apply (proj1 (findPath_shortest_route (fun v => v) st a b Hr)).
  exists [a; b]. unfold route. simpl.
  split; [reflexivity |]. split; [reflexivity |]. split.
  - repeat constructor; unfold roadCell; vm_compute; reflexivity.
  - split; [vm_compute; reflexivity | exact I].
Defined.

(** C8, as the code has it.  [findPath] leaves the scene as it is when
    what it returns is empty; every key of the cache after the call was
    there before or is the key of the pair, and then the result is not
    empty; and on a miss with a result that is not empty (one cell is
    enough) the result is put in the cache under the key of the pair. *)
Theorem findPath_caches_nonempty (a b : GridPoint) (st : GameScene) :
  let res := findPath a b st in
  (fst res = [] -> snd res = st) /\
  (forall k, In k (PathCache.keys (pathCache (snd res))) ->
     In k (PathCache.keys (pathCache st)) \/
     (k = pathKey a b /\ fst res <> [])) /\
  (PathCache.get (pathKey a b) (pathCache st) = None ->
   fst res <> [] ->
   pathCache (snd res)
   = PathCache.set (pathKey a b) (fst res) (pathCache st)).
Proof.
  unfold findPath.
  destruct (PathCache.get (pathKey a b) (pathCache st)) as [cached |] eqn:Hg.
  - simpl. repeat split; auto. discriminate.
  - cbv zeta.
    set (path := map (fun c : PF.cell => GridPoint.mk (fst c) (snd c)) _).
    destruct path as [| c r] eqn:Ep; simpl.
    + repeat split; auto. intros _ H. now elim H.
    + split; [discriminate |]. split; [| reflexivity].
      intros k Hk. unfold PathCache.keys, JsMap.keys in Hk.
      apply in_map_iff in Hk. destruct Hk as ([k' v] & <- & Hin).
      apply CoherenceFacts.in_store_set in Hin.
      destruct Hin as [[= -> ->] | Hin].
      * right. split; [reflexivity | discriminate].
      * left. unfold PathCache.keys, JsMap.keys. apply in_map_iff.
        exists (k', v). auto.
Qed.

(** C8 as stated fails: for one road cell taken as start and end the
    search yields one cell, fewer than two, and the call adds an entry to
    the cache under the key of the pair. *)
Lemma findPath_caches_single_cell :
  let st := fst (setRoadValue 0 0 1 (initializeGrid newGameScene)) in
  let a := GridPoint.mk 0 0 in
  fst (findPath a a st) = [a] /\
  JsMap.has (pathKey a a) (PathCache.store (pathCache st)) = false /\
  JsMap.has (pathKey a a)
            (PathCache.store (pathCache (snd (findPath a a st)))) = true.
Proof. cbv zeta. repeat split; vm_compute; reflexivity. Qed.
End RouteFacts.

(* ================================================================= *)
(** ** Points in a session *)

Module PlacementFacts.
Import GridFacts RoadValueFacts JsMapFacts.
Local Opaque gridWidth gridHeight range.
Import PlacementLemmas.

(** X2. In every state of a session, every spawn point and every
    destination point is stored under the key of its own cell and stands
    on a road cell, and the spawn order lists the spawn points in the
    order of the map. *)
Theorem points_stay_on_roads (normalize : Vector2 -> Vector2)
  (st : GameScene) :
  reachable normalize st ->
  (forall k c, In (k, c) (spawnPoints st) ->
     k = cellKey (GridPoint.x c) (GridPoint.y c) /\
     isRoad st (GridPoint.x c) (GridPoint.y c) = true) /\
  (forall k c, In (k, c) (destinationPoints st) ->
     k = cellKey (GridPoint.x c) (GridPoint.y c) /\
     isRoad st (GridPoint.x c) (GridPoint.y c) = true) /\
  spawnOrder st = JsMap.values (spawnPoints st).
Proof.
  intros Hr.
  destruct (SessionFacts.reachable_aimed _ _ Hr) as [(_ & Hs & Hd & Ho) _].
  auto.
Qed.

Lemma points_stay_on_roads_witness :
  let st := run (fun v => v)
              [OpToggleSpawn (GridPoint.mk 24 10);
               OpSetRoadValue 24 4 0]
              (create newGameScene) in
  reachable (fun v => v) st /\
  spawnOrder st = JsMap.values (spawnPoints st).
Proof.
  intros st.
  assert (H : reachable (fun v => v) st).
  { unfold st. apply SessionFacts.reachable_run;
      [reflexivity | apply reach_create]. }
  split; [exact H |].
  exact (proj2 (proj2 (points_stay_on_roads (fun v => v) st H))).
Defined.
End PlacementFacts.

(* ================================================================= *)
(** ** The journey chosen in a session *)

Module JourneyFacts.
Import JourneyLemmas.

(** X14. In every state of a session, [selectBestJourney] changes
    nothing but the path cache; the journey it returns joins a start and
    a destination of its arguments that are different cells, carries the
    path [findPath] gives for them, of two cells at least, and no other
    such pair has a shorter path; and it returns none exactly when no
    pair of different cells has a path of two cells. *)
Theorem selectBestJourney_picks_cheapest (normalize : Vector2 -> Vector2)
  (starts destinations : list GridPoint) (st : GameScene) :
  reachable normalize st ->
  let r := selectBestJourney starts destinations st in
  snd r = with_pathCache (pathCache (snd r)) st /\
  match fst r with
  | Some j =>
      cheapest (journeyCost st) (list_prod starts destinations)
        (Journey.start j, Journey.destination j) /\
      Journey.path j
      = fst (findPath (Journey.start j) (Journey.destination j) st)
  | None =>
      forall p, In p (list_prod starts destinations) ->
                journeyCost st p = None
  end.
Proof.
  intros Hr.
  pose proof (journey_loops st (SessionFacts.reachable_coherent _ _ Hr)
                starts destinations) as H.
  unfold selectBestJourney.
  destruct (fold_left _ starts (None, None, st)) as [[best bestCost] s].
  cbn [fst snd]. destruct H as (_ & Es & Hbest).
  split; [exact Es |].
  destruct best as [j |]; [tauto | apply Hbest].
Qed.

Lemma selectBestJourney_picks_cheapest_witness :
  let st := create newGameScene in
  reachable (fun v => v) st /\
  snd (selectBestJourney [GridPoint.mk 24 4]
         [GridPoint.mk 4 16; GridPoint.mk 43 16] st)
  = with_pathCache
      (pathCache
         (snd (selectBestJourney [GridPoint.mk 24 4]
                 [GridPoint.mk 4 16; GridPoint.mk 43 16] st)))
      st.
Proof.
  intros st.
  assert (Hr : reachable (fun v => v) st)
    by apply reach_create.
  split; [exact Hr |].
  pose proof (selectBestJourney_picks_cheapest (fun v => v)
                [GridPoint.mk 24 4]
                [GridPoint.mk 4 16; GridPoint.mk 43 16] st Hr) as H.
  cbv zeta in H. destruct H as [H _]. exact H.
Defined.
End JourneyFacts.

(* ================================================================= *)
(** ** Spawn points in turn *)

Module SpawnTurnFacts.
Local Opaque gridWidth gridHeight range.
Import SpawnTurnLemmas.

(** X15. In every state of a session with a spawn point at least,
    [pickSpawnStart] never reads past the spawn order: calls in a row
    return the spawn points in the order of the spawn order, starting at
    the cursor and wrapping around, each a road cell, and change nothing
    but the cursor, which advances by the number of calls modulo the
    number of spawn points. *)
Theorem pickSpawnStart_takes_turns (normalize : Vector2 -> Vector2)
  (st : GameScene) (draws : list GridPoint) :
  reachable normalize st -> spawnPoints st <> [] ->
  let total := Z.of_nat (List.length (spawnOrder st)) in
  exists picks,
    pickSpawnStarts draws st
    = Some (picks,
            with_spawnCursor
              ((spawnCursor st + Z.of_nat (List.length draws)) mod total)
              st) /\
    List.length picks = List.length draws /\
    (forall i, (i < List.length draws)%nat ->
       nth_error picks i
       = nth_error (JsMap.values (spawnPoints st))
           (Z.to_nat ((spawnCursor st + Z.of_nat i) mod total))) /\
    Forall (roadCell st) picks.
Proof.
  intros Hr Hne total.
  destruct (SessionFacts.reachable_aimed _ _ Hr) as [Hp Hc].
  destruct (pickSpawnStarts_cycle draws st Hp Hc Hne)
    as (picks & Ep & El & Hn).
  exists picks. split; [exact Ep |]. split; [exact El |].
  destruct Hp as (_ & Hs & _ & Ho).
  split.
  - intros i Hi. rewrite <- Ho. now apply Hn.
  - apply Forall_forall. intros c Hin.
    apply In_nth_error in Hin. destruct Hin as [i Hi].
    assert (Hlt : (i < List.length draws)%nat).
    { rewrite <- El. apply nth_error_Some. congruence. }
    rewrite (Hn i Hlt) in Hi. apply nth_error_In in Hi.
    rewrite Ho in Hi. unfold JsMap.values in Hi. apply in_map_iff in Hi.
    destruct Hi as ([k c'] & <- & Hin). apply (Hs k c' Hin).
Qed.

(** After a spawn the cursor is on the second of the two spawn points;
    erasing the road under the first one leaves one spawn point, and the
    next calls read the spawn order within its bounds. *)
Lemma pickSpawnStart_takes_turns_witness :
  let st := fst (setRoadValue 24 4 0 sceneAfterSpawn) in
  spawnCursor sceneAfterSpawn = 1 /\
  reachable (fun v => v) st /\ spawnPoints st <> [] /\
  exists picks,
    pickSpawnStarts [GridPoint.mk 0 0; GridPoint.mk 0 0; GridPoint.mk 0 0] st
    = Some (picks,
            with_spawnCursor
              ((spawnCursor st + 3)
                 mod Z.of_nat (List.length (spawnOrder st))) st).
Proof.
  intros st.
  assert (Hr : reachable (fun v => v) st)
    by (unfold st; apply SessionFacts.reachable_setRoadValue,
                   SessionFacts.afterSpawn_reachable).
  assert (Hne : spawnPoints st <> []) by (vm_compute; discriminate).
  split; [vm_compute; reflexivity |].
  split; [exact Hr |]. split; [exact Hne |].
  destruct (pickSpawnStart_takes_turns (fun v => v) st
              [GridPoint.mk 0 0; GridPoint.mk 0 0; GridPoint.mk 0 0] Hr Hne)
    as (picks & Ep & _).
  exists picks. exact Ep.
Defined.
End SpawnTurnFacts.

(* ================================================================= *)
(** ** The destination chosen in a session *)

Module DestinationFacts.
Import DestinationLemmas.

(** X17. In every state of a session, [selectBestDestinationPath]
    changes nothing but the path cache.  The destination it returns is a
    road cell, with the path [findPath] gives to it from the start, of two
    cells at least: the road cell of a candidate whose path is a shortest
    one among the candidates, or, when no candidate has a path, the road
    cell of the fallback.  It returns none exactly when neither a
    candidate nor the fallback has a path of two cells. *)
Theorem selectBestDestinationPath_picks_cheapest
  (normalize : Vector2 -> Vector2) (start fallback : GridPoint)
  (st : GameScene) :
  reachable normalize st ->
  let r := selectBestDestinationPath start fallback st in
  snd r = with_pathCache (pathCache (snd r)) st /\
  match fst r with
  | Some (d, p) =>
      p = fst (findPath start d st) /\
      (2 <= List.length p)%nat /\ roadCell st d /\
      ((exists c,
          cheapest (destinationCost st start)
                   (destinationCandidates fallback st) c /\
          ensureRoadCell c st = Some d) \/
       ((forall c, In c (destinationCandidates fallback st) ->
                   destinationCost st start c = None) /\
        ensureRoadCell fallback st = Some d))
  | None =>
      (forall c, In c (destinationCandidates fallback st) ->
                 destinationCost st start c = None) /\
      destinationCost st start fallback = None
  end.
Proof.
  intros Hr.
  pose proof (SessionFacts.reachable_coherent _ _ Hr) as Hst.
  destruct (select_pure start fallback st Hst) as (s' & E & _ & Es).
  cbv zeta. rewrite E. cbn [fst snd]. split; [exact Es |].
  apply choose_spec. exact Hst.
Qed.

Lemma selectBestDestinationPath_picks_cheapest_witness :
  let st := create newGameScene in
  reachable (fun v => v) st /\
  snd (selectBestDestinationPath (GridPoint.mk 24 4) (GridPoint.mk 4 16) st)
  = with_pathCache
      (pathCache
         (snd (selectBestDestinationPath (GridPoint.mk 24 4)
                 (GridPoint.mk 4 16) st)))
      st.
Proof.
  intros st.
  assert (Hr : reachable (fun v => v) st)
    by apply reach_create.
  split; [exact Hr |].
  pose proof (selectBestDestinationPath_picks_cheapest (fun v => v)
                (GridPoint.mk 24 4) (GridPoint.mk 4 16) st Hr) as H.
  cbv zeta in H. destruct H as [H _]. exact H.
Defined.
End DestinationFacts.

(* ================================================================= *)
(** ** Rerouting in a session *)

Module RerouteFacts.
Import RerouteLemmas.

(** X18. In every state of a session, [refreshCarPaths] does not throw.
    It keeps, in their order, the cars that have a nearest road cell and
    a destination with a path from it, and removes the others with their
    containers; it changes nothing else but the path cache.  Every car it
    keeps stays where it is, with its id and speed, and follows from then
    on the path [findPath] gives from the road cell nearest to it to its
    destination, both road cells, of two cells at least. *)
Theorem refreshCarPaths_reroutes_or_removes
  (normalize : Vector2 -> Vector2) (st : GameScene) :
  reachable normalize st ->
  exists st',
    refreshCarPaths normalize st = Some st' /\
    cars st' = filterMap (rerouted normalize st) (cars st) /\
    sprites st' = map Car.sprite (cars st') /\
    backdrop st' = backdrop st /\
    forall car', In car' (cars st') ->
      exists car a,
        In car (cars st) /\
        findNearestRoadCell (Car.position car) defaultMaxRadius st
        = Some a /\
        roadCell st a /\ roadCell st (Car.destination car') /\
        Car.gridPath car' = fst (findPath a (Car.destination car') st) /\
        (2 <= List.length (Car.gridPath car'))%nat /\
        Car.path car'
        = Car.position car
          :: tl (map cellToWorldVector (Car.gridPath car')) /\
        Car.targetIndex car' = 1 /\
        Car.id car' = Car.id car /\ Car.sprite car' = Car.sprite car /\
        Car.position car' = Car.position car /\
        Car.currentSpeed car' = Car.currentSpeed car.
Proof.
  intros Hr.
  pose proof (SessionFacts.reachable_coherent _ _ Hr) as Hst.
  pose proof (SessionFacts.reachable_staged _ _ Hr) as Hg.
  destruct (refresh_all normalize st Hst Hg)
    as (st' & E & _ & (Hs & _) & Hb & Ec).
  exists st'. split; [exact E |]. split; [exact Ec |].
  split; [exact Hs |]. split; [exact Hb |].
  intros car' Hin. rewrite Ec in Hin.
  destruct (in_filterMap _ _ _ Hin) as (car & Hc & Hf).
  destruct (rerouted_spec normalize st Hst car car' Hf) as (a & H).
  exists car, a. split; [exact Hc | exact H].
Qed.

(** A car that left its spawn point and is under way, at the speed
    30, eight pixels down the road. *)
Lemma refreshCarPaths_reroutes_or_removes_witness :
  let st := sceneAfterDrive in
  map Car.position (cars st) = [Vector2.mk 784 152] /\
  reachable (fun v => v) st /\
  exists st', refreshCarPaths (fun v => v) st = Some st'.
Proof.
  intros st.
  assert (Hr : reachable (fun v => v) st)
    by apply SessionFacts.afterDrive_reachable.
  split; [vm_compute; reflexivity |].
  split; [exact Hr |].
  destruct (refreshCarPaths_reroutes_or_removes (fun v => v) st Hr)
    as (st' & E & _).
  exists st'. exact E.
Defined.
End RerouteFacts.

(* ================================================================= *)
(** ** The cache against the map *)

Module FreshFacts.

(** X19. In every state of a session the cache is never stale: every
    entry is stored under the key of a pair of cells and holds what the
    search gives for that pair on the search matrix as it is now, and
    [findPath] returns what a search on that matrix gives, cached or not. *)
Theorem findPath_never_stale (normalize : Vector2 -> Vector2)
  (st : GameScene) :
  reachable normalize st ->
  (forall k p, In (k, p) (PathCache.store (pathCache st)) ->
     exists a b,
       k = pathKey a b /\
       p = map toPoint
             (PF.AStarFinder.findPath (GridPoint.x a) (GridPoint.y a)
                (GridPoint.x b) (GridPoint.y b) (walkMatrix st))) /\
  (forall a b,
     fst (findPath a b st)
     = map toPoint
         (PF.AStarFinder.findPath (GridPoint.x a) (GridPoint.y a)
            (GridPoint.x b) (GridPoint.y b) (walkMatrix st))).
Proof.
  intros Hr.
  pose proof (SessionFacts.reachable_coherent _ _ Hr) as Hc.
  split.
  - intros k p Hin. exact (Hc k p Hin).
  - intros a b. exact (CoherenceFacts.findPath_value a b st Hc).
Qed.

Lemma findPath_never_stale_witness :
  let st := run (fun v => v)
              [OpFindPath (GridPoint.mk 24 4) (GridPoint.mk 24 6);
               OpSetRoadValue 24 5 0]
              (create newGameScene) in
  reachable (fun v => v) st /\
  fst (findPath (GridPoint.mk 24 4) (GridPoint.mk 24 6) st)
  = map toPoint
      (PF.AStarFinder.findPath 24 4 24 6 (walkMatrix st)).
Proof.
  intros st.
  assert (Hr : reachable (fun v => v) st).
  { unfold st. apply SessionFacts.reachable_run;
      [reflexivity | apply reach_create]. }
  split; [exact Hr |].
  exact (proj2 (findPath_never_stale (fun v => v) st Hr)
           (GridPoint.mk 24 4) (GridPoint.mk 24 6)).
Defined.
End FreshFacts.

(* ================================================================= *)
(** ** From an edit to the rerouting *)

Module RefreshTimerFacts.
Import RefreshTimerLemmas.

(** X20. In every state of a session, a call of [setRoadValue] that
    changes the map marks the paths of the cars dirty with a delay of a
    quarter of a second.  Without the mark [updateCarPathRefresh] does
    nothing.  With it, and whatever else the session did since the edit,
    the calls of frames in a row only count the delay down while it has
    not run out; the call on which it runs out reroutes the cars as
    [refreshCarPaths] does on the map as it is then, without throwing,
    and clears the mark. *)
Theorem edit_schedules_rerouting (normalize : Vector2 -> Vector2)
  (st : GameScene) (x y v : Z) (dts : list Q) (dt : Q) :
  reachable normalize st ->
  (snd (setRoadValue x y v st) = true ->
   carPathsDirty (fst (setRoadValue x y v st)) = true /\
   carPathRefreshDelay (fst (setRoadValue x y v st)) = (1 # 4)%Q) /\
  (carPathsDirty st = false ->
   updateCarPathRefresh normalize dt st = Some st) /\
  (carPathsDirty st = true ->
   Forall (fun t => 0 <= t)%Q dts ->
   let left := fold_left Qminus dts (carPathRefreshDelay st) in
   let waiting := with_carPathRefreshDelay left st in
   (0 < left)%Q ->
   refreshTicks normalize dts st = Some waiting /\
   ((left <= dt)%Q ->
    exists st2,
      refreshCarPaths normalize
        (with_carPathRefreshDelay (left - dt)%Q st) = Some st2 /\
      updateCarPathRefresh normalize dt waiting
      = Some (with_carPathsDirty false st2) /\
      cars st2 = filterMap (rerouted normalize st) (cars st))).
Proof.
  intros Hr. split; [| split].
  - intros Hch.
    destruct (RoadValueFacts.setRoadValue_effect x y v st)
      as [(E & _) | (_ & _ & _ & _ & _ & _ & _ & _ & _ & _ & Hd & Hq & _)];
      cbv zeta in *; [congruence |].
    split; [exact Hd | exact Hq].
  - intros Hd. unfold updateCarPathRefresh. now rewrite Hd.
  - intros Hd Hn left waiting Hl.
    split; [exact (ticks_wait normalize dts st Hd Hn Hl) |].
    intros Hle.
    set (due := with_carPathRefreshDelay (left - dt)%Q st).
    assert (Hf : Qltb 0 (left - dt) = false).
    { destruct (Qltb 0 (left - dt)) eqn:Et; [| reflexivity].
      apply AvoidanceFacts.Qltb_iff in Et. unfold Qminus in Et.
      apply (proj2 (Qlt_minus_iff dt left)) in Et.
      exfalso. exact (Qlt_not_le _ _ Et Hle). }
    assert (Eu : updateCarPathRefresh normalize dt waiting
                 = match refreshCarPaths normalize due with
                   | None => None
                   | Some st2 => Some (with_carPathsDirty false st2)
                   end).
    { unfold updateCarPathRefresh.
      change (carPathsDirty waiting) with (carPathsDirty st).
      rewrite Hd. simpl negb. cbv iota zeta.
      change (carPathRefreshDelay waiting) with left.
      change (with_carPathRefreshDelay (left - dt) waiting) with due.
      change (carPathRefreshDelay due) with (left - dt)%Q.
      now rewrite Hf. }
    assert (Hc : coherent due).
    { eapply CoherenceFacts.coherent_view;
        [| exact (SessionFacts.reachable_coherent _ _ Hr)].
      reflexivity. }
    assert (Hg : staged due).
    { apply (StageFacts.staged_of_stage st due); [reflexivity |].
      exact (SessionFacts.reachable_staged _ _ Hr). }
    destruct (RerouteLemmas.refresh_all normalize due Hc Hg)
      as (st2 & E2 & _ & _ & _ & Ec).
    exists st2. split; [exact E2 |]. split.
    + rewrite Eu, E2. reflexivity.
    + rewrite Ec. apply filterMap_same. intros car.
      apply DestinationLemmas.rerouted_routing. reflexivity.
Qed.

(** An edit while a car is under way, then three frames of a tenth of a
    second: two count the delay down and the third reroutes the car. *)
Lemma edit_schedules_rerouting_witness :
  let st := fst (setRoadValue 0 0 1 sceneAfterDrive) in
  let left := ((1 # 4) - (1 # 10) - (1 # 10))%Q in
  map Car.currentSpeed (cars st) = [30%Q] /\
  reachable (fun v => v) st /\ carPathsDirty st = true /\
  refreshTicks (fun v => v) [1 # 10; 1 # 10]%Q st
  = Some (with_carPathRefreshDelay left st) /\
  exists st2,
    updateCarPathRefresh (fun v => v) (1 # 10)
      (with_carPathRefreshDelay left st)
    = Some (with_carPathsDirty false st2).
Proof.
  intros st left.
  assert (Hr : reachable (fun v => v) st)
    by (unfold st; apply SessionFacts.reachable_setRoadValue,
                   SessionFacts.afterDrive_reachable).
  assert (Hd : carPathsDirty st = true) by (vm_compute; reflexivity).
  assert (Hq : carPathRefreshDelay st = (1 # 4)%Q)
    by (vm_compute; reflexivity).
  assert (Hn : Forall (fun t => 0 <= t)%Q [1 # 10; 1 # 10]%Q)
    by (repeat constructor; discriminate).
  split; [vm_compute; reflexivity |].
  split; [exact Hr |]. split; [exact Hd |].
  pose proof (edit_schedules_rerouting (fun v => v) st 0 0 0
                [1 # 10; 1 # 10]%Q (1 # 10) Hr) as H.
  destruct H as (_ & _ & H). specialize (H Hd Hn).
  cbv zeta in H. cbn [fold_left] in H. rewrite Hq in H.
  destruct H as [Hw Hdue]; [reflexivity |].
  split; [exact Hw |].
  destruct Hdue as (st2 & _ & E & _); [discriminate |].
  exists st2. exact E.
Defined.
End RefreshTimerFacts.

(* ================================================================= *)
(** ** Spawning in a session *)

Module SpawnFacts.
Import SpawnLemmas.

(** X21. In every state of a session and whatever the draws,
    [spawnCarRandom] does not throw and leaves the map and its points as
    they are.  When it returns true it has added one car, with the next
    id and a path of two cells at least, and cleared the last error; when
    it returns false the cars are as before and the last error is set.
    With fewer than two road cells it returns false; and with
    [suppressFailure] it never touches the automatic spawn. *)
Theorem spawnCarRandom_adds_one_or_none (normalize : Vector2 -> Vector2)
  (fromAuto suppressFailure : bool) (d : Draws) (sp : Spawner) :
  reachable normalize (Spawner.scene sp) ->
  exists ok sp',
    spawnCarRandom normalize fromAuto suppressFailure d sp
    = Some (ok, sp') /\
    terrain (Spawner.scene sp') = terrain (Spawner.scene sp) /\
    sprites (Spawner.scene sp') = map Car.sprite (cars (Spawner.scene sp')) /\
    (suppressFailure = true ->
     Spawner.autoSpawn sp' = Spawner.autoSpawn sp /\
     Spawner.spawnTimer sp' = Spawner.spawnTimer sp) /\
    (ok = false ->
     cars (Spawner.scene sp') = cars (Spawner.scene sp) /\
     exists error, Spawner.lastSpawnError sp' = Some error) /\
    (ok = true ->
     Spawner.lastSpawnError sp' = None /\
     exists car,
       cars (Spawner.scene sp') = cars (Spawner.scene sp) ++ [car] /\
       (2 <= List.length (Car.gridPath car))%nat /\
       Car.id car = carId (Spawner.scene sp) + 1) /\
    ((List.length (collectRoadCells (Spawner.scene sp)) < 2)%nat ->
     ok = false).
Proof.
  intros Hr.
  destruct (spawn_spec normalize fromAuto suppressFailure d sp
              (SessionFacts.reachable_sound _ _ Hr))
    as (ok & sp' & E & [Hs Ht] & _ & Ha & Hf & Hok & Hroads).
  exists ok, sp'. split; [exact E |]. split; [exact Ht |].
  split; [apply Hs |]. split; [exact Ha |].
  split; [| split; [exact Hok | exact Hroads]].
  intros Eok. destruct (Hf Eok) as [Efl He].
  split; [| exact He]. unfold fleet in Efl. congruence.
Qed.

(** A second spawn, when the cursor is on the second spawn point. *)
Lemma spawnCarRandom_adds_one_or_none_witness :
  let sp := spawnerOn sceneAfterSpawn in
  spawnCursor (Spawner.scene sp) = 1 /\
  reachable (fun v => v) (Spawner.scene sp) /\
  exists ok sp',
    spawnCarRandom (fun v => v) true true sampleDraws sp = Some (ok, sp').
Proof.
  intros sp.
  assert (Hr : reachable (fun v => v) (Spawner.scene sp))
    by apply SessionFacts.afterSpawn_reachable.
  split; [vm_compute; reflexivity |].
  split; [exact Hr |].
  destruct (spawnCarRandom_adds_one_or_none (fun v => v) true true
              sampleDraws sp Hr)
    as (ok & sp' & E & _).
  exists ok, sp'. exact E.
Defined.
End SpawnFacts.

(* ================================================================= *)
(** ** The automatic spawn in a session *)

Module AutoSpawnFacts.
Import AutoSpawnLemmas.

(** X22. In every state of a session and whatever the draws,
    [handleAutoSpawn] does not throw and leaves the map and its points as
    they are.  It does nothing when the automatic spawn is off or the
    interval is not positive, and only advances the timer while the
    interval has not passed.  When it has passed, the timer restarts at
    zero and a round adds at most as many cars as there are spawn points
    (one when there is none), each with a path of two cells at least; the
    automatic spawn stays on when the round added a car and is switched
    off when it added none. *)
Theorem handleAutoSpawn_round (normalize : Vector2 -> Vector2) (dt : Q)
  (draws : nat -> Draws) (sp : Spawner) :
  reachable normalize (Spawner.scene sp) ->
  exists sp' new,
    handleAutoSpawn normalize dt draws sp = Some sp' /\
    terrain (Spawner.scene sp') = terrain (Spawner.scene sp) /\
    cars (Spawner.scene sp') = cars (Spawner.scene sp) ++ new /\
    Forall (fun car => (2 <= List.length (Car.gridPath car))%nat) new /\
    (Z.of_nat (List.length new)
     <= Z.max 1 (JsMap.size (spawnPoints (Spawner.scene sp)))) /\
    (Spawner.autoSpawn sp = false \/ (Spawner.spawnInterval sp <= 0)%Q ->
     sp' = sp) /\
    (Spawner.autoSpawn sp = true ->
     (0 < Spawner.spawnInterval sp)%Q ->
     (Spawner.spawnTimer sp + dt < Spawner.spawnInterval sp)%Q ->
     sp' = Spawner.with_spawnTimer (Spawner.spawnTimer sp + dt)%Q sp) /\
    (Spawner.autoSpawn sp = true ->
     (0 < Spawner.spawnInterval sp)%Q ->
     (Spawner.spawnInterval sp <= Spawner.spawnTimer sp + dt)%Q ->
     Spawner.spawnTimer sp' = 0%Q /\
     (new <> [] -> Spawner.autoSpawn sp' = true) /\
     (new = [] -> Spawner.autoSpawn sp' = false)).
Proof.
  intros Hr.
  destruct (round_spec normalize dt draws sp
              (SessionFacts.reachable_sound _ _ Hr))
    as (sp' & new & E & _ & H).
  exists sp', new. split; [exact E | exact H].
Qed.

(** A round that starts with the cursor on the second spawn point. *)
Lemma handleAutoSpawn_round_witness :
  let sp := spawnerOn sceneAfterSpawn in
  spawnCursor (Spawner.scene sp) = 1 /\
  reachable (fun v => v) (Spawner.scene sp) /\
  exists sp',
    handleAutoSpawn (fun v => v) 3 (fun _ => sampleDraws) sp = Some sp'.
Proof.
  intros sp.
  assert (Hr : reachable (fun v => v) (Spawner.scene sp))
    by apply SessionFacts.afterSpawn_reachable.
  split; [vm_compute; reflexivity |].
  split; [exact Hr |].
  destruct (handleAutoSpawn_round (fun v => v) 3 (fun _ => sampleDraws)
              sp Hr)
    as (sp' & new & E & _).
  exists sp'. exact E.
Defined.
End AutoSpawnFacts.

(* ================================================================= *)
(** ** Toggling points in a session *)

Module ToggleFacts.
Import ToggleLemmas.

(** X23. In every state of a session, toggling a spawn point on a cell
    flips whether the cell is a spawn point when the cell is a road and
    changes no point otherwise, and toggling it twice brings every lookup
    of the spawn points back to what it was; the same holds for the
    destination points. *)
Theorem toggle_twice_restores (normalize : Vector2 -> Vector2)
  (st : GameScene) (cell : GridPoint) :
  reachable normalize st ->
  let key := cellKey (GridPoint.x cell) (GridPoint.y cell) in
  JsMap.has key (spawnPoints (toggleSpawn cell st))
  = xorb (isRoad st (GridPoint.x cell) (GridPoint.y cell))
         (JsMap.has key (spawnPoints st)) /\
  JsMap.has key (destinationPoints (toggleDestination cell st))
  = xorb (isRoad st (GridPoint.x cell) (GridPoint.y cell))
         (JsMap.has key (destinationPoints st)) /\
  (forall k,
     JsMap.get k (spawnPoints (toggleSpawn cell (toggleSpawn cell st)))
     = JsMap.get k (spawnPoints st)) /\
  (forall k,
     JsMap.get k
       (destinationPoints
          (toggleDestination cell (toggleDestination cell st)))
     = JsMap.get k (destinationPoints st)).
Proof.
  intros Hr key.
  destruct (SessionFacts.reachable_aimed _ _ Hr)
    as [(_ & Hsp & Hdp & _) _].
  destruct (isRoad st (GridPoint.x cell) (GridPoint.y cell)) eqn:Hroad.
  - assert (Hroad1 : isRoad (toggleSpawn cell st) (GridPoint.x cell)
                       (GridPoint.y cell) = true).
    { rewrite (isRoad_matrices st (toggleSpawn cell st));
        [exact Hroad | apply SceneFacts.matrices_toggleSpawn]. }
    assert (Hroad2 : isRoad (toggleDestination cell st) (GridPoint.x cell)
                       (GridPoint.y cell) = true).
    { rewrite (isRoad_matrices st (toggleDestination cell st));
        [exact Hroad | apply SceneFacts.matrices_toggleDestination]. }
    split; [| split; [| split]].
    + rewrite (spawnPoints_toggleSpawn cell st Hroad). fold key.
      unfold JsMap.has.
      destruct (JsMap.get key (spawnPoints st)) eqn:Eg; simpl.
      * now rewrite CacheBoundFacts.get_delete_same.
      * now rewrite SpatialFacts.get_set_same.
    + rewrite (destinationPoints_toggleDestination cell st Hroad). fold key.
      unfold JsMap.has.
      destruct (JsMap.get key (destinationPoints st)) eqn:Eg; simpl.
      * now rewrite CacheBoundFacts.get_delete_same.
      * now rewrite SpatialFacts.get_set_same.
    + intros k.
      rewrite (spawnPoints_toggleSpawn cell (toggleSpawn cell st) Hroad1).
      rewrite (spawnPoints_toggleSpawn cell st Hroad).
      apply (flip_twice key (GridPoint.copy cell) (spawnPoints st)).
      intros c Hc. exact (stored_is_cell st (spawnPoints st) cell c Hsp Hc).
    + intros k.
      rewrite (destinationPoints_toggleDestination cell
                 (toggleDestination cell st) Hroad2).
      rewrite (destinationPoints_toggleDestination cell st Hroad).
      apply (flip_twice key (GridPoint.copy cell) (destinationPoints st)).
      intros c Hc.
      exact (stored_is_cell st (destinationPoints st) cell c Hdp Hc).
  - assert (E1 : toggleSpawn cell st
                 = showFlash "Place a spawn on a road tile" (12 # 10) st)
      by (unfold toggleSpawn; now rewrite Hroad).
    assert (E2 : toggleDestination cell st
                 = showFlash "Place a destination on a road tile"
                             (12 # 10) st)
      by (unfold toggleDestination; now rewrite Hroad).
    assert (E3 : toggleSpawn cell (toggleSpawn cell st)
                 = showFlash "Place a spawn on a road tile" (12 # 10)
                     (toggleSpawn cell st)).
    { unfold toggleSpawn at 1.
      rewrite (isRoad_matrices st (toggleSpawn cell st))
        by apply SceneFacts.matrices_toggleSpawn.
      now rewrite Hroad. }
    assert (E4 : toggleDestination cell (toggleDestination cell st)
                 = showFlash "Place a destination on a road tile" (12 # 10)
                     (toggleDestination cell st)).
    { unfold toggleDestination at 1.
      rewrite (isRoad_matrices st (toggleDestination cell st))
        by apply SceneFacts.matrices_toggleDestination.
      now rewrite Hroad. }
    split; [now rewrite E1 |]. split; [now rewrite E2 |].
    split; intros k; [rewrite E3, E1 | rewrite E4, E2]; reflexivity.
Qed.

Lemma toggle_twice_restores_witness :
  let st := create newGameScene in
  reachable (fun v => v) st /\
  forall k,
    JsMap.get k
      (spawnPoints (toggleSpawn (GridPoint.mk 24 4)
                      (toggleSpawn (GridPoint.mk 24 4) st)))
    = JsMap.get k (spawnPoints st).
Proof.
  intros st.
  assert (Hr : reachable (fun v => v) st)
    by apply reach_create.
  split; [exact Hr |].
  pose proof (toggle_twice_restores (fun v => v) st (GridPoint.mk 24 4) Hr)
    as H.
  cbv zeta in H. destruct H as (_ & _ & H & _). exact H.
Defined.
End ToggleFacts.

(* ================================================================= *)
(** ** Resetting the map in a session *)

Module ResetFacts.
Import GridFacts.
Local Opaque gridWidth gridHeight range.
Import ResetLemmas.

(** X24. In every state of a session, [resetMap] brings back the map of
    a new scene: the road matrix, the search matrix, the road count, the
    spawn and destination points, the spawn order and its cursor are those
    [create] makes; and no car and no container is left, with the id
    counter back at zero. *)
Theorem resetMap_restores_initial_map (normalize : Vector2 -> Vector2)
  (st : GameScene) :
  reachable normalize st ->
  layout (resetMap st) = layout (create newGameScene) /\
  cars (resetMap st) = [] /\ sprites (resetMap st) = [] /\
  carId (resetMap st) = 0.
Proof.
  intros Hr.
  destruct (SessionFacts.reachable_complement _ _ Hr) as (Hdg & Hdw & _).
  pose proof (SessionFacts.reachable_staged _ _ Hr) as Hg.
  destruct (fleet_reset st) as [Ec Ei].
  split; [| split; [exact Ec | split; [| exact Ei]]].
  - unfold resetMap, create. cbv zeta.
    rewrite layout_redraw, layout_forceRedraw.
    apply layout_seedSimpleRoads.
    rewrite layout_clearCars, layout_reset_tail, layout_started.
    rewrite (NearestFacts.fold_nested
               (fun y x s =>
                  with_walkMatrix (matrixSet (walkMatrix s) x y 1)
                    (with_grid (matrixSet (grid s) x y 0) s))).
    fold gridCells.
    set (zeroed := fold_left _ gridCells st).
    assert (Eg : grid zeroed
                 = repeat (repeat 0 (Z.to_nat gridWidth))
                          (Z.to_nat gridHeight)).
    { unfold zeroed. rewrite RoadCountFacts.grid_zeroing.
      exact (filled_is_repeat 0 (grid st) Hdg). }
    assert (Ew : walkMatrix zeroed
                 = repeat (repeat 1 (Z.to_nat gridWidth))
                          (Z.to_nat gridHeight)).
    { unfold zeroed. rewrite walk_zeroing.
      exact (filled_is_repeat 1 (walkMatrix st) Hdw). }
    rewrite Eg, Ew. reflexivity.
  - pose proof (StageFacts.staged_resetMap st Hg) as (E & _).
    rewrite E, Ec. reflexivity.
Qed.

Lemma resetMap_restores_initial_map_witness :
  let st := run (fun v => v)
              [OpSetRoadValue 0 0 1;
               OpCreateCar [GridPoint.mk 24 4; GridPoint.mk 24 5] 0 60]
              (create newGameScene) in
  reachable (fun v => v) st /\
  layout (resetMap st) = layout (create newGameScene).
Proof.
  intros st.
  assert (Hr : reachable (fun v => v) st).
  { unfold st. apply SessionFacts.reachable_run;
      [reflexivity | apply reach_create]. }
  split; [exact Hr |].
  exact (proj1 (resetMap_restores_initial_map (fun v => v) st Hr)).
Defined.
End ResetFacts.
